(** * WebVTT utilities of the transcribe pipeline

    A shallow embedding of [src/utils/vtt.ts] (timestamp codec, cue parser,
    serializer, merger), of the chunk planner [splitAudio] /
    [calculateChunkCount] of [src/utils/audio.ts], and of the free-text
    transcript reader [parseGeminiTranscript] of the transcribe command.

    Modelling conventions.

    - A JavaScript string is a [string]; the character of code [n] stands for
      the UTF-16 code unit [n] (code units above 255 are outside the model).
    - A JavaScript number is a [number]: a rational, [NaN], or one of the
      two infinities; the two zeroes are identified.  The program is
      embedded twice over this type.  In [Vtt], [Audio], [Gemini] and
      [TranscribeCommand] the operations are those of [Num], which are
      exact: these definitions carry the statements that do not depend on
      how a result is rounded.  In [Vtt64], [Audio64] and [Transcribe64]
      the operations are those of [F64], which round each result to the
      nearest binary64 value, a tie going to the even significand, and
      overflow to an infinity: these carry the statements about the values
      of times and durations.
    - [null] and [undefined] are both [None]. *)

From Stdlib Require Import ZArith QArith Qround Qabs Qpower Lia Lqa Bool List.
From Stdlib Require Import Ascii String DecimalString DecimalPos.
From Stdlib Require Import Permutation Sorted.
Import ListNotations.

Local Open Scope Z_scope.
Local Open Scope string_scope.
Local Open Scope list_scope.

(** ** Strings *)

Module Str.

(** Code units for which [String.prototype.trim] and the regex class [\s]
    hold (below 256): TAB, LF, VT, FF, CR, space, NBSP. *)
Definition isSpace (c : ascii) : bool :=
  let n := nat_of_ascii c in
  ((9 <=? n) && (n <=? 13) || (n =? 32) || (n =? 160))%nat.

(** Line terminators, which the regex atom [.] refuses (below 256). *)
Definition isLineTerminator (c : ascii) : bool :=
  let n := nat_of_ascii c in ((n =? 10) || (n =? 13))%nat.

Definition isDigit (c : ascii) : bool :=
  let n := nat_of_ascii c in ((48 <=? n) && (n <=? 57))%nat.

Definition digitValue (c : ascii) : Z := Z.of_nat (nat_of_ascii c) - 48.

Definition LF : string := String (ascii_of_nat 10) "".

(** Longest prefix whose characters satisfy [p], and what follows it. *)
Fixpoint span (p : ascii -> bool) (s : string) : string * string :=
  match s with
  | "" => ("", "")
  | String c s' =>
      if p c then let (a, b) := span p s' in (String c a, b) else ("", s)
  end.

Fixpoint forallb (p : ascii -> bool) (s : string) : bool :=
  match s with
  | "" => true
  | String c s' => p c && forallb p s'
  end.

Fixpoint drop (n : nat) (s : string) : string :=
  match n, s with
  | O, _ => s
  | S n', String _ s' => drop n' s'
  | S _, "" => ""
  end.

Fixpoint trimStart (s : string) : string :=
  match s with
  | String c s' => if isSpace c then trimStart s' else s
  | "" => ""
  end.

Fixpoint trimEnd (s : string) : string :=
  match s with
  | "" => ""
  | String c s' =>
      match trimEnd s' with
      | "" => if isSpace c then "" else String c ""
      | r => String c r
      end
  end.

(** [String.prototype.trim]. *)
Definition trim (s : string) : string := trimEnd (trimStart s).

(** [String.prototype.includes]. *)
Fixpoint includes (sub s : string) : bool :=
  prefix sub s ||
  match s with
  | "" => false
  | String _ s' => includes sub s'
  end.

(** [String.prototype.split] with a non-empty literal separator: the pieces
    between the successive left-most occurrences of [sep].  [cur] holds the
    piece being read, reversed; [skip] counts the characters of a separator
    still to pass over. *)
Fixpoint revAppend (acc : list ascii) (s : string) : string :=
  match acc with
  | [] => s
  | c :: acc' => revAppend acc' (String c s)
  end.

Fixpoint splitAux (sep : string) (skip : nat) (cur : list ascii) (s : string)
  : list string :=
  match s with
  | "" => [revAppend cur ""]
  | String c s' =>
      match skip with
      | S k => splitAux sep k cur s'
      | O =>
          if prefix sep s
          then revAppend cur "" :: splitAux sep (String.length sep - 1) [] s'
          else splitAux sep O (c :: cur) s'
      end
  end.

Definition split (sep s : string) : list string := splitAux sep 0 [] s.

(** [Array.prototype.join]. *)
Fixpoint join (sep : string) (l : list string) : string :=
  match l with
  | [] => ""
  | [x] => x
  | x :: l' => x ++ sep ++ join sep l'
  end.

Fixpoint repeat (c : ascii) (n : nat) : string :=
  match n with
  | O => ""
  | S n' => String c (repeat c n')
  end.

(** [String.prototype.padStart] with a one-character filler. *)
Definition padStart (width : nat) (fill : ascii) (s : string) : string :=
  repeat fill (width - String.length s) ++ s.

(** Value of a run of decimal digits, most significant first. *)
Fixpoint digitsValueAcc (acc : Z) (s : string) : Z :=
  match s with
  | "" => acc
  | String c s' => digitsValueAcc (10 * acc + digitValue c) s'
  end.

Definition digitsValue (s : string) : Z := digitsValueAcc 0 s.

(** Decimal numeral of an integer, as [String(n)] prints a number whose value
    is an integer (of magnitude below 1e21, where JavaScript switches to the
    exponent notation). *)
Definition ofZ (z : Z) : string := NilZero.string_of_int (Z.to_int z).

Definition isEmpty (s : string) : bool :=
  match s with "" => true | _ => false end.

(** Number of pieces of [s.split(/\s+/)]: one more than the number of
    maximal runs of white space.  [inRun] tells that the previous character
    was white space. *)
Fixpoint spaceRuns (inRun : bool) (s : string) : nat :=
  match s with
  | "" => O
  | String c s' =>
      if isSpace c
      then (if inRun then spaceRuns true s' else S (spaceRuns true s'))
      else spaceRuns false s'
  end.

Definition splitSpacesLength (s : string) : nat := S (spaceRuns false s).

End Str.

(** ** Numbers *)

Inductive number : Type :=
| NaN
| Fin (q : Q)
| Inf (negative : bool).

Module Num.

Definition ofZ (z : Z) : number := Fin (inject_Z z).

Definition opp (a : number) : number :=
  match a with
  | NaN => NaN
  | Fin x => Fin (- x)
  | Inf s => Inf (negb s)
  end.

Definition add (a b : number) : number :=
  match a, b with
  | NaN, _ | _, NaN => NaN
  | Fin x, Fin y => Fin (x + y)
  | Inf s, Fin _ | Fin _, Inf s => Inf s
  | Inf s, Inf t => if Bool.eqb s t then Inf s else NaN
  end.

Definition sub (a b : number) : number := add a (opp b).

Definition mul (a b : number) : number :=
  match a, b with
  | NaN, _ | _, NaN => NaN
  | Fin x, Fin y => Fin (x * y)
  | Inf s, Fin y | Fin y, Inf s =>
      match (Qnum y ?= 0)%Z with
      | Eq => NaN
      | Gt => Inf s
      | Lt => Inf (negb s)
      end
  | Inf s, Inf t => Inf (xorb s t)
  end.

Definition div (a b : number) : number :=
  match a, b with
  | NaN, _ | _, NaN => NaN
  | Fin x, Fin y =>
      match (Qnum y ?= 0)%Z, (Qnum x ?= 0)%Z with
      | Eq, Eq => NaN
      | Eq, Gt => Inf false
      | Eq, Lt => Inf true
      | _, _ => Fin (x / y)
      end
  | Fin _, Inf _ => Fin 0
  | Inf s, Fin y => Inf (xorb s (Qnum y <? 0)%Z)
  | Inf _, Inf _ => NaN
  end.

(** Integer part, rounding toward zero. *)
Definition truncate (x : Q) : Z := Z.quot (Qnum x) (Zpos (Qden x)).

(** The operator [%]: the remainder has the sign of the dividend. *)
Definition rem (a b : number) : number :=
  match a, b with
  | Fin x, Fin y =>
      match (Qnum y ?= 0)%Z with
      | Eq => NaN
      | _ => Fin (x - y * inject_Z (truncate (x / y)))
      end
  | Fin x, Inf _ => Fin x
  | _, _ => NaN
  end.

(** [Math.floor], [Math.ceil], [Math.round] (halves go up). *)
Definition floor (a : number) : number :=
  match a with Fin x => ofZ (Qfloor x) | _ => a end.

Definition ceil (a : number) : number :=
  match a with Fin x => ofZ (Qceiling x) | _ => a end.

Definition round (a : number) : number :=
  match a with Fin x => ofZ (Qfloor (x + (1 # 2))) | _ => a end.

(** The comparisons [<], [<=]: false as soon as an operand is [NaN]. *)
Definition ltb (a b : number) : bool :=
  match a, b with
  | NaN, _ | _, NaN => false
  | Fin x, Fin y => negb (Qle_bool y x)
  | Inf s, Fin _ => s
  | Fin _, Inf t => negb t
  | Inf s, Inf t => s && negb t
  end.

Definition leb (a b : number) : bool :=
  match a, b with
  | NaN, _ | _, NaN => false
  | Fin x, Fin y => Qle_bool x y
  | Inf s, Fin _ => s
  | Fin _, Inf t => negb t
  | Inf s, Inf t => s || negb t
  end.

(** [Math.max]. *)
Definition max (a b : number) : number :=
  match a, b with
  | NaN, _ | _, NaN => NaN
  | _, _ => if ltb a b then b else a
  end.

(** [String(n)] for a number whose value is an integer, which is all the
    code prints: results of [Math.floor] and [Math.round], and counters. *)
Definition toString (a : number) : string :=
  match a with
  | NaN => "NaN"
  | Inf false => "Infinity"
  | Inf true => "-Infinity"
  | Fin x => Str.ofZ (Qfloor x)
  end.

(** [a] is the finite value [q]: a rational has several representations, so
    values are compared with [==]. *)
Definition hasValue (a : number) (q : Q) : Prop :=
  match a with Fin x => x == q | _ => False end.

(** An optional sign at the head of a numeral. *)
Definition readSign (s : string) : bool * string :=
  match s with
  | String "-" r => (true, r)
  | String "+" r => (false, r)
  | _ => (false, s)
  end.

Definition signed (negative : bool) (x : Q) : Q :=
  if negative then - x else x.

(** [parseInt(s, 10)]: leading white space, a sign, the longest run of
    digits; [NaN] without a digit. *)
Definition parseInt (s : string) : number :=
  let (negative, r) := readSign (Str.trimStart s) in
  let (ds, _) := Str.span Str.isDigit r in
  if Str.isEmpty ds then NaN
  else Fin (signed negative (inject_Z (Str.digitsValue ds))).

(** Exponent part [e], [e+], [e-] followed by digits; 0 when there is none. *)
Definition readExponent (s : string) : Z :=
  match s with
  | String c r =>
      if (Ascii.eqb c "e" || Ascii.eqb c "E")%bool then
        let (negative, r') := readSign r in
        let (ds, _) := Str.span Str.isDigit r' in
        if Str.isEmpty ds then 0
        else if negative then - Str.digitsValue ds else Str.digitsValue ds
      else 0
  | "" => 0
  end.

(** [parseFloat(s)]: the longest prefix that is a decimal literal. *)
Definition parseFloat (s : string) : number :=
  let (negative, r) := readSign (Str.trimStart s) in
  if prefix "Infinity" r then Inf negative
  else
    let (ip, r1) := Str.span Str.isDigit r in
    let (fp, r2) :=
      match r1 with
      | String "." r' => Str.span Str.isDigit r'
      | _ => ("", r1)
      end in
    if (Str.isEmpty ip && Str.isEmpty fp)%bool then NaN
    else
      let mantissa : Q :=
        (inject_Z (Str.digitsValue ip)
         + inject_Z (Str.digitsValue fp)
           / inject_Z (10 ^ Z.of_nat (String.length fp)))%Q in
      Fin (signed negative (mantissa * Qpower 10 (readExponent r2))).

End Num.

(** ** Regular-expression helpers *)

Module Re.

(** Greedy repetition followed by a continuation [f]: try [f] after
    [lo + extra] repetitions, then after one fewer, down to [lo]. *)
Fixpoint tryDown {A : Type} (lo extra : nat) (f : nat -> option A)
  : option A :=
  match f (lo + extra)%nat with
  | Some r => Some r
  | None =>
      match extra with
      | O => None
      | S e => tryDown lo e f
      end
  end.

Definition notChar (c : ascii) (x : ascii) : bool := negb (Ascii.eqb x c).

Definition notLineTerminator (x : ascii) : bool :=
  negb (Str.isLineTerminator x).

(** A capture of [.*] with nothing after it in the pattern: the longest run
    of characters other than line terminators. *)
Definition dotStar (s : string) : string := fst (Str.span notLineTerminator s).

End Re.

(** ** The subtitle engine: [src/utils/vtt.ts] *)

Module Vtt.

Record VTTCue : Type := mkCue {
  start : number;
  end_ : number;
  speaker : option string;
  text : string
}.

Record VTTChunk : Type := mkChunk {
  vtt : string;
  offset : number
}.

(** *** Timestamp codec *)

(** [split] returns at least one piece, so the last case is never taken. *)
Definition parseTimestamp (timestamp : string) : number :=
  let parts := Str.split ":" timestamp in
  let '(hours, minutes, seconds) :=
    match parts with
    | [p0; p1; p2] => (Num.parseInt p0, Num.parseInt p1, Num.parseFloat p2)
    | [p0; p1] => (Num.ofZ 0, Num.parseInt p0, Num.parseFloat p1)
    | p0 :: _ => (Num.ofZ 0, Num.ofZ 0, Num.parseFloat p0)
    | [] => (Num.ofZ 0, Num.ofZ 0, NaN)
    end in
  Num.add (Num.add (Num.mul hours (Num.ofZ 3600)) (Num.mul minutes (Num.ofZ 60)))
          seconds.

Definition formatTimestamp (totalSeconds : number) : string :=
  let hours := Num.floor (Num.div totalSeconds (Num.ofZ 3600)) in
  let minutes :=
    Num.floor (Num.div (Num.rem totalSeconds (Num.ofZ 3600)) (Num.ofZ 60)) in
  let seconds := Num.floor (Num.rem totalSeconds (Num.ofZ 60)) in
  let ms :=
    Num.round (Num.mul (Num.rem totalSeconds (Num.ofZ 1)) (Num.ofZ 1000)) in
  Str.padStart 2 "0" (Num.toString hours) ++ ":"
  ++ Str.padStart 2 "0" (Num.toString minutes) ++ ":"
  ++ Str.padStart 2 "0" (Num.toString seconds) ++ "."
  ++ Str.padStart 3 "0" (Num.toString ms).

(** *** Parsing *)

(** [text.match] on the pattern made of [^<v\s+([^>]+)>] and a capture of
    [.*]: the two captures.  [\s+] first takes the whole run of white space
    and gives characters back one at a time while the rest fails.  [[^>]+]
    takes every character up to the first [>]: a shorter choice would leave
    a character other than [>] where the pattern wants [>], so only the
    longest one is tried. *)
Definition matchSpeakerTag (text : string) : option (string * string) :=
  match text with
  | String "<" (String "v" r) =>
      match String.length (fst (Str.span Str.isSpace r)) with
      | O => None
      | S extra =>
          Re.tryDown 1 extra (fun k =>
            let (name, r') := Str.span (Re.notChar ">") (Str.drop k r) in
            match name, r' with
            | String _ _, String _ after => Some (name, Re.dotStar after)
            | _, _ => None
            end)
      end
  | _ => None
  end.

Definition isTimestampLine (line : string) : bool := Str.includes "-->" line.

Section ReadTextLines.

(** The block being read, and what parses the lines after it. *)
Variables (start end_ : number) (next : list string -> list VTTCue).

Definition emit (textLines : list string) (speaker : option string)
  : list VTTCue :=
  match textLines with
  | [] => []
  | _ => [mkCue start end_ speaker (Str.join " " textLines)]
  end.

(** The inner loop: text lines up to the first blank line or the end of
    input; the outer loop then steps over the line that stopped it. *)
Fixpoint readTextLines (textLines : list string) (speaker : option string)
    (lines : list string) : list VTTCue :=
  match lines with
  | [] => emit textLines speaker
  | l :: rest =>
      let text := Str.trim l in
      if Str.isEmpty text then emit textLines speaker ++ next rest
      else
        let (speaker', text') :=
          match matchSpeakerTag text with
          | Some (name, after) => (Some name, after)
          | None => (speaker, text)
          end in
        readTextLines
          (if Str.isEmpty text' then textLines else textLines ++ [text'])
          speaker' rest
  end.

End ReadTextLines.

(** The two ends of a timestamp line.  The line holds the arrow, so the
    split has the two pieces that the code takes. *)
Definition parseRange (line : string) : number * number :=
  let parts := map Str.trim (Str.split "-->" line) in
  let startStr := nth 0 parts "" in
  let endStr := nth 1 parts "" in
  (parseTimestamp startStr, parseTimestamp endStr).

(** The main loop, from a line on. *)
Fixpoint parseBlocks (lines : list string) : list VTTCue :=
  match lines with
  | [] => []
  | l :: rest =>
      let line := Str.trim l in
      if isTimestampLine line then
        let (start, end_) := parseRange line in
        readTextLines start end_ parseBlocks [] None rest
      else parseBlocks rest
  end.

(** The first loop: skip the header. *)
Fixpoint skipHeader (lines : list string) : list string :=
  match lines with
  | [] => []
  | l :: rest => if isTimestampLine l then lines else skipHeader rest
  end.

Definition parseVTT (vttContent : string) : list VTTCue :=
  parseBlocks (skipHeader (Str.split Str.LF vttContent)).

(** *** Serializing *)

Definition serializeCue (cue : VTTCue) : string :=
  formatTimestamp (start cue) ++ " --> " ++ formatTimestamp (end_ cue)
  ++ Str.LF
  ++ match speaker cue with
     | Some (String c s) =>
         "<v " ++ String c s ++ ">" ++ text cue ++ Str.LF ++ Str.LF
     | _ => text cue ++ Str.LF ++ Str.LF
     end.

Definition serializeVTT (cues : list VTTCue) : string :=
  fold_left (fun (vtt : string) cue => (vtt ++ serializeCue cue)%string) cues
            ("WEBVTT" ++ Str.LF ++ Str.LF)%string.

(** *** Merging *)

Definition shiftCue (offset : number) (cue : VTTCue) : VTTCue :=
  mkCue (Num.add (start cue) offset) (Num.add (end_ cue) offset)
        (speaker cue) (text cue).

Definition collectCues (chunks : list VTTChunk) : list VTTCue :=
  flat_map (fun chunk => map (shiftCue (offset chunk)) (parseVTT (vtt chunk)))
           chunks.

(** The comparator [(a, b) => a.start - b.start] says that [a] goes before
    [b] when its result is negative. *)
Definition before (a b : VTTCue) : bool :=
  Num.ltb (Num.sub (start a) (start b)) (Num.ofZ 0).

(** [Array.prototype.sort] is stable.  When the comparator is a consistent
    ordering (no [start] is [NaN]) its result is the one stable arrangement,
    computed here by insertion: [cue], which came before all of [sorted],
    passes only the cues that go strictly before it. *)
Fixpoint insertCue (cue : VTTCue) (sorted : list VTTCue) : list VTTCue :=
  match sorted with
  | [] => [cue]
  | c :: rest =>
      if before c cue then c :: insertCue cue rest else cue :: sorted
  end.

Definition sortCues (cues : list VTTCue) : list VTTCue :=
  fold_right insertCue [] cues.

Definition mergeVTT (chunks : list VTTChunk) : string :=
  serializeVTT (sortCues (collectCues chunks)).

End Vtt.

(** ** The chunk planner: [src/utils/audio.ts] *)

Module Audio.

Record AudioChunk : Type := mkAudioChunk {
  file : string;
  offset : number;
  duration : number
}.

Definition calculateChunkCount (totalDuration maxChunkDuration : number)
  : number :=
  Num.ceil (Num.div totalDuration maxChunkDuration).

(** Number of rounds of [for (let i = 0; i < numChunks; i++)]; [None] when
    the test never fails. *)
Definition loopRounds (numChunks : number) : option nat :=
  match numChunks with
  | NaN => Some O
  | Fin x => Some (Z.to_nat (Qceiling x))
  | Inf true => Some O
  | Inf false => None
  end.

Section SplitAudio.

Variables (totalDuration numChunks chunkDuration : number).

(** One round of the loop.  The call of ffmpeg that cuts the chunk out of
    the recording is an effect outside the model. *)
Definition chunkAt (i : nat) : AudioChunk :=
  let startTime := Num.mul (Num.ofZ (Z.of_nat i)) chunkDuration in
  let chunkFile :=
    ("chunk_" ++ Str.padStart 2 "0" (Num.toString (Num.ofZ (Z.of_nat i + 1)))
     ++ ".ogg")%string in
  let actualDuration :=
    if Num.ltb (Num.ofZ (Z.of_nat i)) (Num.sub numChunks (Num.ofZ 1))
    then chunkDuration
    else Num.sub totalDuration startTime in
  mkAudioChunk chunkFile startTime actualDuration.

End SplitAudio.

(** [None]: the loop does not end. *)
Definition splitAudio (audioFile : string)
    (totalDuration maxChunkDuration : number) : option (list AudioChunk) :=
  if Num.leb totalDuration maxChunkDuration then
    Some [mkAudioChunk audioFile (Num.ofZ 0) totalDuration]
  else
    let numChunks := Num.ceil (Num.div totalDuration maxChunkDuration) in
    let chunkDuration := Num.div totalDuration numChunks in
    option_map (fun rounds =>
                  map (chunkAt totalDuration numChunks chunkDuration)
                      (seq 0 rounds))
               (loopRounds numChunks).

End Audio.

(** ** The free-text transcript reader: [parseGeminiTranscript] *)

Module Gemini.

Import Vtt.

(** The captures of [timestampPattern]; an optional group that took no part
    in the match is [None]. *)
Record TimestampMatch : Type := mkMatch {
  part1 : string;
  part2 : string;
  part3 : option string;
  speakerLabel : option string;
  lineText : string
}.

(** [(\d{2})] *)
Definition twoDigits (s : string) : option (string * string) :=
  match s with
  | String a (String b r) =>
      if (Str.isDigit a && Str.isDigit b)%bool
      then Some (String a (String b ""), r)
      else None
  | _ => None
  end.

(** [(.+)$]: what is left, when it is not empty and holds no line
    terminator. *)
Definition dotPlusEnd (s : string) : option string :=
  if Str.isEmpty s then None
  else if Str.forallb Re.notLineTerminator s then Some s
  else None.

(** [([^:]+):\s*] followed by [(.+)$].  [[^:]+] runs up to the first colon,
    the only place where the colon of the pattern can match; [\s*] gives
    white space back while [(.+)$] fails. *)
Definition speakerGroup (s : string) : option (option string * string) :=
  let (name, r) := Str.span (Re.notChar ":") s in
  match name, r with
  | String _ _, String _ after =>
      Re.tryDown 0 (String.length (fst (Str.span Str.isSpace after)))
        (fun j =>
           option_map (fun t => (Some name, t))
                      (dotPlusEnd (Str.drop j after)))
  | _, _ => None
  end.

(** The end of the pattern, after the closing bracket: [\s*], the optional
    group of [([^:]+):\s*], and [(.+)$].  The optional group is tried before
    its absence, for each amount of leading white space from the longest. *)
Definition matchTail (s : string) : option (option string * string) :=
  Re.tryDown 0 (String.length (fst (Str.span Str.isSpace s)))
    (fun k =>
       let r := Str.drop k s in
       match speakerGroup r with
       | Some m => Some m
       | None => option_map (fun t => (None, t)) (dotPlusEnd r)
       end).

(** [line.match(timestampPattern)] for the pattern
    [^\[\s*(\d{1,2}):(\d{2})(?::(\d{2}))?\s*\]] followed by the tail above.
    Up to the closing bracket the match is forced: the first number is a
    run of one or two digits ended by a colon, and a colon after the second
    number must open the third. *)
Definition matchTimestampLine (line : string) : option TimestampMatch :=
  match line with
  | String "[" r =>
      let (ds, r1) := Str.span Str.isDigit (Str.trimStart r) in
      match r1 with
      | String ":" r2 =>
          if ((String.length ds =? 1) || (String.length ds =? 2))%nat then
            match twoDigits r2 with
            | Some (p2, r3) =>
                let (p3, r4) :=
                  match r3 with
                  | String ":" r3' =>
                      match twoDigits r3' with
                      | Some (d, r') => (Some d, r')
                      | None => (None, r3)
                      end
                  | _ => (None, r3)
                  end in
                match Str.trimStart r4 with
                | String "]" r5 =>
                    option_map (fun m => mkMatch ds p2 p3 (fst m) (snd m))
                               (matchTail r5)
                | _ => None
                end
            | None => None
            end
          else None
      | _ => None
      end
  | _ => None
  end.

Fixpoint removeLast (s : string) : string :=
  match s with
  | "" => ""
  | String c "" => ""
  | String c s' => String c (removeLast s')
  end.

Fixpoint lastChar (s : string) : option ascii :=
  match s with
  | "" => None
  | String c "" => Some c
  | String _ s' => lastChar s'
  end.

Definition endsWith (c : ascii) (s : string) : bool :=
  match lastChar s with
  | Some x => Ascii.eqb x c
  | None => false
  end.

(** One or two [c] at the very end, the longest choice first. *)
Definition stripTrailing (c : ascii) (s : string) : string :=
  let s1 := removeLast s in
  if endsWith c s1 then removeLast s1 else s1.

(** [replace(/^\*{1,2}|^\_{1,2}|\*{1,2}$|\_{1,2}$/g, '')]: a match at
    position 0 removes one or two leading [*], else one or two leading [_];
    the search then goes on after it, where only the two alternatives
    anchored at the end can match, at the left-most position from which
    one or two [*] (else [_]) end the string. *)
Definition stripMarkdown (s : string) : string :=
  let r :=
    match s with
    | String "*" (String "*" r) => r
    | String "*" r => r
    | String "_" (String "_" r) => r
    | String "_" r => r
    | _ => s
    end in
  if endsWith "*" r then stripTrailing "*" r
  else if endsWith "_" r then stripTrailing "_" r
  else r.

(** A string or [null] in a condition. *)
Definition truthy (o : option string) : bool :=
  match o with
  | Some (String _ _) => true
  | _ => false
  end.

(** [o || null] *)
Definition orNull (o : option string) : option string :=
  if truthy o then o else None.

(** Assignments to the last element of [cues]. *)
Fixpoint updateLast (f : VTTCue -> VTTCue) (cues : list VTTCue)
  : list VTTCue :=
  match cues with
  | [] => []
  | [c] => [f c]
  | c :: rest => c :: updateLast f rest
  end.

Definition setEnd (e : number) (c : VTTCue) : VTTCue :=
  mkCue (start c) e (speaker c) (text c).

Definition appendText (t : string) (c : VTTCue) : VTTCue :=
  mkCue (start c) (end_ c) (speaker c) (text c ++ t).

(** The branch of a line that matches. *)
Definition timestampedCue (m : TimestampMatch) (cues : list VTTCue)
  : list VTTCue :=
  let p1 := Num.parseInt (part1 m) in
  let p2 := Num.parseInt (part2 m) in
  let '(hours, minutes, seconds) :=
    match part3 m with
    | Some s3 => (p1, p2, Num.parseInt s3)
    | None => (Num.ofZ 0, p1, p2)
    end in
  let startTime :=
    Num.add (Num.add (Num.mul hours (Num.ofZ 3600))
                     (Num.mul minutes (Num.ofZ 60))) seconds in
  let cues := updateLast (setEnd startTime) cues in
  let cleanSpeaker := orNull (option_map Str.trim (speakerLabel m)) in
  let cleanSpeaker :=
    if truthy cleanSpeaker
    then option_map (fun s => Str.trim (stripMarkdown s)) cleanSpeaker
    else cleanSpeaker in
  match cleanSpeaker with
  | Some name =>
      if (truthy cleanSpeaker && (30 <? String.length name)%nat)%bool then
        cues ++ [mkCue startTime (Num.add startTime (Num.ofZ 30)) None
                       (Str.trim (name ++ ": " ++ lineText m))]
      else
        cues ++ [mkCue startTime (Num.add startTime (Num.ofZ 30))
                       (orNull cleanSpeaker) (Str.trim (lineText m))]
  | None =>
      cues ++ [mkCue startTime (Num.add startTime (Num.ofZ 30)) None
                     (Str.trim (lineText m))]
  end.

(** The body of the loop over the lines. *)
Definition step (cues : list VTTCue) (line : string) : list VTTCue :=
  match matchTimestampLine line with
  | Some m => timestampedCue m cues
  | None =>
      if Str.isEmpty (Str.trim line) then cues
      else
        match cues with
        | [] => [mkCue (Num.ofZ 0) (Num.ofZ 30) None (Str.trim line)]
        | _ => updateLast (appendText (" " ++ Str.trim line)) cues
        end
  end.

(** The end of the last cue, from its number of words. *)
Definition adjustLast (c : VTTCue) : VTTCue :=
  let wordCount := Num.ofZ (Z.of_nat (Str.splitSpacesLength (text c))) in
  let estimatedDuration :=
    Num.max (Num.ofZ 5) (Num.ceil (Num.div wordCount (Fin 2.5))) in
  setEnd (Num.add (start c) estimatedDuration) c.

Definition nonBlank (line : string) : bool := negb (Str.isEmpty (Str.trim line)).

Definition parseGeminiTranscript (text : string) : list VTTCue :=
  let lines := filter nonBlank (Str.split Str.LF text) in
  updateLast adjustLast (fold_left step lines []).

End Gemini.

(** ** Shapes of strings used in the statements *)

Module Shape.

(** [b] is empty or starts with a character refused by [p]. *)
Definition stops (p : ascii -> bool) (b : string) : Prop :=
  match b with
  | "" => True
  | String c _ => p c = false
  end.

Definition LFchar : ascii := ascii_of_nat 10.

(** No line feed inside: the string is one line for [split]. *)
Definition noLF (s : string) : Prop :=
  Str.forallb (Re.notChar LFchar) s = true.

(** The text whose lines are [ls], each ended by a line feed. *)
Fixpoint unlines (ls : list string) : string :=
  match ls with
  | [] => ""
  | l :: ls' => (l ++ Str.LF ++ unlines ls')%string
  end.

End Shape.

(** ** Clock fields of a number of seconds, used in the statements *)

Module Clock.

(** The millisecond field that [formatTimestamp] prints for [s]: the
    fraction of [s], in milliseconds, rounded to the nearest integer.  It
    is 1000 when the fraction is 0.9995 or more. *)
Definition millis (s : Q) : Z :=
  Qfloor ((s - inject_Z (Qfloor s)) * 1000 + (1 # 2)).

(** The characters of a printed timestamp of a non-negative time. *)
Definition clockChar (c : ascii) : bool :=
  Str.isDigit c || Ascii.eqb c ":" || Ascii.eqb c ".".

(** The text [HH:MM:SS.mmm] of four integer fields. *)
Definition clockText (h m s ms : Z) : string :=
  (Str.padStart 2 "0" (Str.ofZ h) ++ ":"
   ++ Str.padStart 2 "0" (Str.ofZ m) ++ ":"
   ++ Str.padStart 2 "0" (Str.ofZ s) ++ "."
   ++ Str.padStart 3 "0" (Str.ofZ ms))%string.

End Clock.

(** ** The cue of one block, as the statements describe it *)

Module Block.

Import Vtt.

(** What a text line gives to the cue: its trimmed content, without the
    speaker tag when it has one. *)
Definition lineText (l : string) : string :=
  match matchSpeakerTag (Str.trim l) with
  | Some (_, after) => after
  | None => Str.trim l
  end.

(** The speakers named by the tags of the lines, in order. *)
Definition speakerNames (ls : list string) : list string :=
  flat_map (fun l => match matchSpeakerTag (Str.trim l) with
                     | Some (name, _) => [name]
                     | None => []
                     end) ls.

(** The name of the last tag, if any. *)
Definition blockSpeaker (ls : list string) : option string :=
  last (map Some (speakerNames ls)) None.

(** The texts given by the lines, without the empty ones. *)
Definition blockTexts (ls : list string) : list string :=
  filter (fun t => negb (Str.isEmpty t)) (map lineText ls).

Definition blank (l : string) : Prop := Str.trim l = "".

Definition nonBlank (l : string) : Prop := Str.trim l <> "".

(** The cue of the block made of the timestamp line [ts] and the text
    lines [ls]; none when no text is left. *)
Definition blockCues (ts : string) (ls : list string) : list VTTCue :=
  match blockTexts ls with
  | [] => []
  | texts =>
      [mkCue (fst (parseRange (Str.trim ts))) (snd (parseRange (Str.trim ts)))
             (blockSpeaker ls) (Str.join " " texts)]
  end.

(** The lines of a document whose first block is the timestamp line [ts]
    with the text lines [ls]: a header, the block, the line [b] that ends
    it, and the lines after it. *)
Definition firstBlockLines (header : list string) (ts : string)
    (ls : list string) (b : string) (more : list string) : list string :=
  header ++ ts :: ls ++ b :: more.

Definition firstBlock (header : list string) (ts : string)
    (ls : list string) (b : string) (more : list string) : Prop :=
  Forall (fun l => isTimestampLine l = false) header
  /\ isTimestampLine ts = true
  /\ Forall nonBlank ls
  /\ blank b
  /\ Forall Shape.noLF (firstBlockLines header ts ls b more).

(** The same when the block ends the input. *)
Definition lastBlock (header : list string) (ts : string)
    (ls : list string) : Prop :=
  Forall (fun l => isTimestampLine l = false) header
  /\ isTimestampLine ts = true
  /\ Forall nonBlank ls
  /\ Forall Shape.noLF (header ++ ts :: ls).

End Block.

(** ** Cues that the serializer prints so that the parser reads them back *)

Module RoundTrip.

Import Vtt.

(** A finite non-negative time whose millisecond field is below 1000, that
    is, whose fraction is below 0.9995.  Every non-negative time with
    millisecond precision is one. *)
Definition safeTime (n : number) : Prop :=
  exists s : Q, n = Fin s /\ (0 <= s)%Q /\ Clock.millis s < 1000.

(** A text of one line: not empty, without line terminator, and without
    white space at either end. *)
Definition plainText (t : string) : Prop :=
  t <> "" /\ Str.trim t = t /\ Str.forallb Re.notLineTerminator t = true.

(** A speaker name that a tag can carry: not empty, not starting with white
    space, without [>] and without line feed. *)
Definition tagName (name : string) : Prop :=
  name <> "" /\ Shape.stops Str.isSpace name
  /\ Str.forallb (Re.notChar ">") name = true /\ Shape.noLF name.

(** The speaker as [serializeVTT] prints it: an empty name is no speaker. *)
Definition printedSpeaker (speaker : option string) : option string :=
  match speaker with
  | Some (String c s) => Some (String c s)
  | _ => None
  end.

Definition printable (c : VTTCue) : Prop :=
  safeTime (start c) /\ safeTime (end_ c) /\ plainText (text c)
  /\ match printedSpeaker (speaker c) with
     | Some name => tagName name
     | None => matchSpeakerTag (text c) = None
     end.

(** Two finite times that differ by less than [tol]. *)
Definition closer (tol : Q) (a b : number) : Prop :=
  match a, b with
  | Fin x, Fin y => (Qabs (y - x) < tol)%Q
  | _, _ => False
  end.

(** The parsed cue [p] is the cue [c] as it was printed: times within
    [tol], the printed speaker, the same text. *)
Definition readBack (tol : Q) (c p : VTTCue) : Prop :=
  closer tol (start c) (start p) /\ closer tol (end_ c) (end_ p)
  /\ speaker p = printedSpeaker (speaker c) /\ text p = text c.

(** The agreement that the round trip of the specification asks for:
    times within [tol], the same speaker, the same text. *)
Definition agrees (tol : Q) (c p : VTTCue) : Prop :=
  closer tol (start c) (start p) /\ closer tol (end_ c) (end_ p)
  /\ speaker p = speaker c /\ text p = text c.

(** The three lines of a cue in the output of [serializeVTT]. *)
Definition rangeLine (c : VTTCue) : string :=
  (formatTimestamp (start c) ++ " --> " ++ formatTimestamp (end_ c))%string.

Definition textLine (c : VTTCue) : string :=
  match speaker c with
  | Some (String x s) => ("<v " ++ String x s ++ ">" ++ text c)%string
  | _ => text c
  end.

Definition cueLines (c : VTTCue) : list string :=
  [rangeLine c; textLine c; ""].

End RoundTrip.

(** ** The order of a merged document *)

Module MergeOrder.

Import Vtt.

(** The start of [a] is at most the start of [b]. *)
Definition startsInOrder (a b : VTTCue) : Prop :=
  Num.leb (start a) (start b) = true.

End MergeOrder.

(** ** Plans of chunks, as the statements describe them *)

Module Plan.

Import Audio.

(** The value of a finite number (0 otherwise). *)
Definition valueOf (n : number) : Q :=
  match n with Fin q => q | _ => 0%Q end.

Definition sumDurations (chunks : list AudioChunk) : Q :=
  fold_right (fun c acc => (valueOf (duration c) + acc)%Q) 0%Q chunks.

(** The chunks cover the interval from [from] to [to] without gap or
    overlap: each has a finite positive duration and starts where the one
    before it ends, the first at [from]; the last ends at [to]. *)
Fixpoint tiles (from : Q) (chunks : list AudioChunk) (to : Q) : Prop :=
  match chunks with
  | [] => (from == to)%Q
  | c :: rest =>
      Num.hasValue (offset c) from
      /\ exists d : Q,
           Num.hasValue (duration c) d /\ (0 < d)%Q
           /\ tiles (from + d) rest to
  end.

End Plan.
(** * The commands

    The rest of the development covers the commands that use the engine:
    the command lines ([parseArgs] of the four commands and the argument
    lists that [processAll] builds), the requests of the transcribe command
    with their retries, and the way from the responses of the transcription
    services to cues.  The network, the file system and the external
    programs are outside the model: what they give is a parameter of the
    definitions. *)

(** ** What a call gives back: a value, or an error that it throws *)

Inductive completion (A : Type) : Type :=
| Returns (value : A)
| Throws (message : string).

Arguments Returns {A} value.
Arguments Throws {A} message.

(** ** The transcribe command: [src/commands/transcribe.ts] *)

Module TranscribeCommand.

Import Vtt.

(** *** Command line *)

(** [help] is only ever set to [true]; [false] stands for its absence. *)
Record TranscribeOptions : Type := mkTranscribeOptions {
  input : option string;
  output : option string;
  language : option string;
  model : option string;
  help : bool
}.

(** The loop of [parseArgs] from an argument on.  [args[++i]] takes the
    next argument as the value of a flag, whatever it looks like, and is
    [undefined] when the flag is the last argument. *)
Fixpoint parseArgsFrom (options : TranscribeOptions) (args : list string)
  : TranscribeOptions :=
  match args with
  | [] => options
  | arg :: rest =>
      if ((arg =? "-h") || (arg =? "--help"))%string then
        parseArgsFrom
          (mkTranscribeOptions (input options) (output options)
                               (language options) (model options) true)
          rest
      else if ((arg =? "-o") || (arg =? "--output"))%string then
        match rest with
        | value :: rest' =>
            parseArgsFrom
              (mkTranscribeOptions (input options) (Some value)
                                   (language options) (model options)
                                   (help options))
              rest'
        | [] =>
            mkTranscribeOptions (input options) None (language options)
                                (model options) (help options)
        end
      else if (arg =? "--language")%string then
        match rest with
        | value :: rest' =>
            parseArgsFrom
              (mkTranscribeOptions (input options) (output options)
                                   (Some value) (model options)
                                   (help options))
              rest'
        | [] =>
            mkTranscribeOptions (input options) (output options) None
                                (model options) (help options)
        end
      else if (arg =? "--model")%string then
        match rest with
        | value :: rest' =>
            parseArgsFrom
              (mkTranscribeOptions (input options) (output options)
                                   (language options) (Some value)
                                   (help options))
              rest'
        | [] =>
            mkTranscribeOptions (input options) (output options)
                                (language options) None (help options)
        end
      else if negb (Gemini.truthy (input options)) then
        parseArgsFrom
          (mkTranscribeOptions (Some arg) (output options)
                               (language options) (model options)
                               (help options))
          rest
      else parseArgsFrom options rest
  end.

Definition parseArgs (args : list string) : TranscribeOptions :=
  parseArgsFrom (mkTranscribeOptions None None None None false) args.

(** *** Responses of the transcription service: [src/types.ts] *)

Module Segment.

Record TranscriptionSegment : Type := mkSegment {
  start : number;
  end_ : number;
  speaker : option string;
  text : string
}.

End Segment.

Module Word.

Record TranscriptionWord : Type := mkWord {
  word : string;
  start : number;
  end_ : number
}.

End Word.

Record TranscriptionResponse : Type := mkResponse {
  segments : option (list Segment.TranscriptionSegment);
  words : option (list Word.TranscriptionWord);
  text : option string
}.

(** *** Step 5 of [transcribeWithOpenAI]: from responses to cues *)

(** A number in a condition: [0] and [NaN] are falsy. *)
Definition truthyNumber (n : number) : bool :=
  match n with
  | NaN => false
  | Fin q => negb (Qeq_bool q 0)
  | Inf _ => true
  end.

(** The cue of a segment of a diarized response. *)
Definition segmentCue (offset : number) (segment : Segment.TranscriptionSegment)
  : VTTCue :=
  mkCue (Num.add (Segment.start segment) offset)
        (Num.add (Segment.end_ segment) offset)
        (Some (match Segment.speaker segment with
               | Some (String c s) => String c s
               | _ => "Speaker"
               end))
        (Str.trim (Segment.text segment)).

Module Current.

(** The group of words being read, [currentSegment]. *)
Record CurrentSegment : Type := mkCurrent {
  start : number;
  end_ : number;
  text : string
}.

End Current.

Definition openSegment (word : Word.TranscriptionWord)
  : Current.CurrentSegment :=
  Current.mkCurrent (Word.start word) (Word.end_ word) (Word.word word).

Definition extendSegment (currentSegment : Current.CurrentSegment)
    (word : Word.TranscriptionWord) : Current.CurrentSegment :=
  Current.mkCurrent (Current.start currentSegment) (Word.end_ word)
                    (Current.text currentSegment ++ " " ++ Word.word word).

(** The cue pushed for a group of words. *)
Definition segmentOfWords (offset : number)
    (currentSegment : Current.CurrentSegment) : VTTCue :=
  mkCue (Num.add (Current.start currentSegment) offset)
        (Num.add (Current.end_ currentSegment) offset)
        None
        (Str.trim (Current.text currentSegment)).

(** The loop over the words of a response with word timestamps, and the
    push that follows it. *)
Fixpoint groupWords (offset : number)
    (currentSegment : option Current.CurrentSegment)
    (words : list Word.TranscriptionWord) : list VTTCue :=
  match words with
  | [] =>
      match currentSegment with
      | Some current => [segmentOfWords offset current]
      | None => []
      end
  | word :: rest =>
      match currentSegment with
      | Some current =>
          if Num.ltb (Num.ofZ 5)
                     (Num.sub (Word.start word) (Current.start current))
          then segmentOfWords offset current
               :: groupWords offset (Some (openSegment word)) rest
          else groupWords offset (Some (extendSegment current word)) rest
      | None => groupWords offset (Some (openSegment word)) rest
      end
  end.

(** The cues of the response to one chunk. *)
Definition transcriptCues (chunk : Audio.AudioChunk)
    (transcript : TranscriptionResponse) : list VTTCue :=
  let offset := Audio.offset chunk in
  match segments transcript with
  | Some (segment :: more) => map (segmentCue offset) (segment :: more)
  | _ =>
      match words transcript with
      | Some (word :: more) => groupWords offset None (word :: more)
      | _ =>
          match text transcript with
          | Some t =>
              if Str.isEmpty (Str.trim t) then []
              else
                let chunkDuration :=
                  if truthyNumber (Audio.duration chunk)
                  then Audio.duration chunk
                  else Num.ofZ 30 in
                [mkCue offset (Num.add offset chunkDuration) None
                       (Str.trim t)]
          | None => []
          end
      end
  end.

(** The loop over the responses: [transcripts] holds one response for each
    chunk, in the order of [chunks]. *)
Definition mergedCues (chunks : list Audio.AudioChunk)
    (transcripts : list TranscriptionResponse) : list VTTCue :=
  flat_map (fun p => transcriptCues (fst p) (snd p))
           (combine chunks transcripts).

(** *** One request with its retries: [transcribeOpenAIChunk] *)

(** Reading the chunk file and filling the form come first and are outside
    the model.  What one round of the loop meets: a response that is [ok]
    and whose body is read, a response that is not [ok], with its status,
    its body and its headers printed as JSON, or an error thrown by [fetch]
    or while the body is read. *)
Inductive Attempt : Type :=
| Answered (transcript : TranscriptionResponse)
| Refused (status : Z) (errorText : string) (headers : string)
| Failed (message : string).

Inductive Event : Type :=
| Fetch
| Sleep (milliseconds : Z).

(** The result of a call and what it did on the way. *)
Record Run : Type := mkRun {
  outcome : completion TranscriptionResponse;
  events : list Event
}.

Definition MAX_RETRIES : Z := 3.

Section Requests.

(** [JSON.stringify(JSON.parse(errorText), null, 2)], or nothing when
    [JSON.parse] throws; and the outcome of each attempt, numbered from 1. *)
Variables (prettyJSON : string -> option string) (fetch : Z -> Attempt).

Definition errorMessage (status : Z) (errorText headers : string) : string :=
  ("OpenAI API failed (" ++ Str.ofZ status ++ ")"
   ++ match errorText with
      | "" =>
          " - Empty response body" ++ Str.LF ++ "Response headers: "
          ++ headers
      | _ =>
          match prettyJSON errorText with
          | Some errorJson => ":" ++ Str.LF ++ errorJson
          | None => ": " ++ errorText
          end
      end)%string.

Definition delay (attempt : Z) : Z := (2 ^ (attempt - 1) * 1000)%Z.

(** The rounds of the loop from [attempt] on, [rounds] of them being left,
    after the events [done]. *)
Fixpoint attemptsFrom (rounds : nat) (attempt : Z) (lastError : option string)
    (done : list Event) : Run :=
  match rounds with
  | O =>
      mkRun (Throws match lastError with
                    | Some message => message
                    | None => "Unknown error"
                    end)
            done
  | S rounds' =>
      let done := done ++ [Fetch] in
      (* the handler of [catch] *)
      let caught (message : string) : Run :=
        if ((attempt <? MAX_RETRIES)%Z
            && Str.includes "fetch failed" message)%bool
        then attemptsFrom rounds' (attempt + 1) (Some message)
                          (done ++ [Sleep (delay attempt)])
        else mkRun (Throws message) done in
      match fetch attempt with
      | Answered transcript => mkRun (Returns transcript) done
      | Refused status errorText headers =>
          let message := errorMessage status errorText headers in
          if ((status =? 429)%Z || (500 <=? status)%Z)%bool then
            if (attempt <? MAX_RETRIES)%Z
            then attemptsFrom rounds' (attempt + 1) (Some message)
                              (done ++ [Sleep (delay attempt)])
            else caught message
          else caught message
      | Failed message => caught message
      end
  end.

Definition transcribeOpenAIChunk : Run :=
  attemptsFrom (Z.to_nat MAX_RETRIES) 1 None [].

End Requests.

(** *** The pipeline of [transcribeWithOpenAI] *)

Definition MAX_AUDIO_DURATION : Z := 1380.

Section Pipeline.

(** The service: the outcome of each attempt for each chunk. *)
Variables (prettyJSON : string -> option string)
          (fetch : Audio.AudioChunk -> Z -> Attempt).

(** Step 4: the chunks in order; the first error ends the command. *)
Fixpoint transcribeChunks (chunks : list Audio.AudioChunk)
  : completion (list TranscriptionResponse) :=
  match chunks with
  | [] => Returns []
  | chunk :: rest =>
      match outcome (transcribeOpenAIChunk prettyJSON (fetch chunk)) with
      | Throws message => Throws message
      | Returns result =>
          match transcribeChunks rest with
          | Throws message => Throws message
          | Returns transcripts => Returns (result :: transcripts)
          end
      end
  end.

(** Steps 3 to 5, for the audio file and the duration that the probe gave.
    [None]: the loop of [splitAudio] does not end. *)
Definition transcribeWithOpenAI (audioFile : string) (duration : number)
  : option (completion string) :=
  option_map
    (fun chunks =>
       match transcribeChunks chunks with
       | Throws message => Throws message
       | Returns transcripts =>
           Returns (serializeVTT (mergedCues chunks transcripts))
       end)
    (Audio.splitAudio audioFile duration (Num.ofZ MAX_AUDIO_DURATION)).

End Pipeline.

(** *** [transcribeWithGemini], from the text of the response on *)

Definition transcribeWithGemini (responseText : option string)
  : completion string :=
  let transcriptText :=
    match responseText with
    | Some (String c s) => String c s
    | _ => ""
    end in
  if Str.isEmpty (Str.trim transcriptText)
  then Throws "Gemini returned empty transcription"
  else Returns (serializeVTT (Gemini.parseGeminiTranscript transcriptText)).

End TranscribeCommand.

(** ** The summarize command: [src/commands/summarize.ts] *)

Module SummarizeCommand.

Record SummarizeOptions : Type := mkSummarizeOptions {
  input : option string;
  output : option string;
  prompt : option string;
  help : bool
}.

Fixpoint parseArgsFrom (options : SummarizeOptions) (args : list string)
  : SummarizeOptions :=
  match args with
  | [] => options
  | arg :: rest =>
      if ((arg =? "-h") || (arg =? "--help"))%string then
        parseArgsFrom
          (mkSummarizeOptions (input options) (output options)
                              (prompt options) true)
          rest
      else if ((arg =? "-o") || (arg =? "--output"))%string then
        match rest with
        | value :: rest' =>
            parseArgsFrom
              (mkSummarizeOptions (input options) (Some value)
                                  (prompt options) (help options))
              rest'
        | [] =>
            mkSummarizeOptions (input options) None (prompt options)
                               (help options)
        end
      else if (arg =? "--prompt")%string then
        match rest with
        | value :: rest' =>
            parseArgsFrom
              (mkSummarizeOptions (input options) (output options)
                                  (Some value) (help options))
              rest'
        | [] =>
            mkSummarizeOptions (input options) (output options) None
                               (help options)
        end
      else if negb (Gemini.truthy (input options)) then
        parseArgsFrom
          (mkSummarizeOptions (Some arg) (output options) (prompt options)
                              (help options))
          rest
      else parseArgsFrom options rest
  end.

Definition parseArgs (args : list string) : SummarizeOptions :=
  parseArgsFrom (mkSummarizeOptions None None None false) args.

End SummarizeCommand.

(** ** The infographic command: [src/commands/infographic.ts] *)

Module InfographicCommand.

Record InfographicOptions : Type := mkInfographicOptions {
  input : option string;
  output : option string;
  style : option string;
  reference : option string;
  help : bool
}.

Fixpoint parseArgsFrom (options : InfographicOptions) (args : list string)
  : InfographicOptions :=
  match args with
  | [] => options
  | arg :: rest =>
      if ((arg =? "-h") || (arg =? "--help"))%string then
        parseArgsFrom
          (mkInfographicOptions (input options) (output options)
                                (style options) (reference options) true)
          rest
      else if ((arg =? "-o") || (arg =? "--output"))%string then
        match rest with
        | value :: rest' =>
            parseArgsFrom
              (mkInfographicOptions (input options) (Some value)
                                    (style options) (reference options)
                                    (help options))
              rest'
        | [] =>
            mkInfographicOptions (input options) None (style options)
                                 (reference options) (help options)
        end
      else if (arg =? "--style")%string then
        match rest with
        | value :: rest' =>
            parseArgsFrom
              (mkInfographicOptions (input options) (output options)
                                    (Some value) (reference options)
                                    (help options))
              rest'
        | [] =>
            mkInfographicOptions (input options) (output options) None
                                 (reference options) (help options)
        end
      else if (arg =? "--reference")%string then
        match rest with
        | value :: rest' =>
            parseArgsFrom
              (mkInfographicOptions (input options) (output options)
                                    (style options) (Some value)
                                    (help options))
              rest'
        | [] =>
            mkInfographicOptions (input options) (output options)
                                 (style options) None (help options)
        end
      else if negb (Gemini.truthy (input options)) then
        parseArgsFrom
          (mkInfographicOptions (Some arg) (output options) (style options)
                                (reference options) (help options))
          rest
      else parseArgsFrom options rest
  end.

Definition parseArgs (args : list string) : InfographicOptions :=
  parseArgsFrom (mkInfographicOptions None None None None false) args.

(** The data URL that [generateInfographic] returns for the image part of
    the response. *)
Definition dataURL (mimeType data : string) : string :=
  "data:" ++ mimeType ++ ";base64," ++ data.

(** [imageData.split(',')[1]] *)
Definition base64Data (imageData : string) : option string :=
  nth_error (Str.split "," imageData) 1.

End InfographicCommand.

(** ** The process command: [src/commands/process-all.ts] *)

Module ProcessAll.

Record ProcessOptions : Type := mkProcessOptions {
  input : option string;
  outputDir : option string;
  language : option string;
  model : option string;
  style : option string;
  help : bool
}.

Fixpoint parseArgsFrom (options : ProcessOptions) (args : list string)
  : ProcessOptions :=
  match args with
  | [] => options
  | arg :: rest =>
      if ((arg =? "-h") || (arg =? "--help"))%string then
        parseArgsFrom
          (mkProcessOptions (input options) (outputDir options)
                            (language options) (model options)
                            (style options) true)
          rest
      else if (arg =? "--output-dir")%string then
        match rest with
        | value :: rest' =>
            parseArgsFrom
              (mkProcessOptions (input options) (Some value)
                                (language options) (model options)
                                (style options) (help options))
              rest'
        | [] =>
            mkProcessOptions (input options) None (language options)
                             (model options) (style options) (help options)
        end
      else if (arg =? "--language")%string then
        match rest with
        | value :: rest' =>
            parseArgsFrom
              (mkProcessOptions (input options) (outputDir options)
                                (Some value) (model options)
                                (style options) (help options))
              rest'
        | [] =>
            mkProcessOptions (input options) (outputDir options) None
                             (model options) (style options) (help options)
        end
      else if (arg =? "--model")%string then
        match rest with
        | value :: rest' =>
            parseArgsFrom
              (mkProcessOptions (input options) (outputDir options)
                                (language options) (Some value)
                                (style options) (help options))
              rest'
        | [] =>
            mkProcessOptions (input options) (outputDir options)
                             (language options) None (style options)
                             (help options)
        end
      else if (arg =? "--style")%string then
        match rest with
        | value :: rest' =>
            parseArgsFrom
              (mkProcessOptions (input options) (outputDir options)
                                (language options) (model options)
                                (Some value) (help options))
              rest'
        | [] =>
            mkProcessOptions (input options) (outputDir options)
                             (language options) (model options) None
                             (help options)
        end
      else if negb (Gemini.truthy (input options)) then
        parseArgsFrom
          (mkProcessOptions (Some arg) (outputDir options)
                            (language options) (model options)
                            (style options) (help options))
          rest
      else parseArgsFrom options rest
  end.

Definition parseArgs (args : list string) : ProcessOptions :=
  parseArgsFrom (mkProcessOptions None None None None None false) args.

(** [flag, value] when the option is set to a non-empty string. *)
Definition pushOption (flag : string) (value : option string)
  : list string :=
  match value with
  | Some (String c s) => [flag; String c s]
  | _ => []
  end.

(** The argument lists that [processAll] hands to the three commands. *)
Definition transcribeArgs (inputFile transcriptFile : string)
    (options : ProcessOptions) : list string :=
  [inputFile; "-o"; transcriptFile]
  ++ pushOption "--language" (language options)
  ++ pushOption "--model" (model options).

Definition summarizeArgs (transcriptFile summaryFile : string)
  : list string :=
  [transcriptFile; "-o"; summaryFile].

Definition infographicArgs (summaryFile infographicFile : string)
    (options : ProcessOptions) : list string :=
  [summaryFile; "-o"; infographicFile]
  ++ pushOption "--style" (style options).

End ProcessAll.

(** ** Shapes of cue lists and command lines used in the statements *)

Module CueShape.

Import Vtt.

(** Each cue ends where the next one starts. *)
Fixpoint chained (cues : list VTTCue) : Prop :=
  match cues with
  | a :: (b :: _) as rest => end_ a = start b /\ chained rest
  | _ => True
  end.

(** [b] starts more than [gap] seconds after [a] starts. *)
Definition startsAfter (gap : Q) (a b : VTTCue) : Prop :=
  exists x y : Q, start a = Fin x /\ start b = Fin y /\ (gap < y - x)%Q.

(** Successive cues start more than [gap] seconds apart. *)
Fixpoint spaced (gap : Q) (cues : list VTTCue) : Prop :=
  match cues with
  | a :: (b :: _) as rest => startsAfter gap a b /\ spaced gap rest
  | _ => True
  end.

(** The cues cover the interval from [from] to [to] without gap or
    overlap: each starts where the one before it ends, the first at [from],
    and lasts a positive time; the last ends at [to]. *)
Fixpoint spans (from : Q) (cues : list VTTCue) (to : Q) : Prop :=
  match cues with
  | [] => (from == to)%Q
  | c :: rest =>
      Num.hasValue (start c) from
      /\ exists d : Q,
           (0 < d)%Q /\ Num.hasValue (end_ c) (from + d)
           /\ spans (from + d) rest to
  end.

(** A text of one line: not empty and without line feed. *)
Definition oneLine (t : string) : Prop := t <> "" /\ Shape.noLF t.

(** The cue starts at a whole, non-negative number of seconds. *)
Definition startsOnSecond (c : VTTCue) : Prop :=
  exists k : Z, 0 <= k /\ Num.hasValue (start c) (inject_Z k).

(** A speaker label that a cue of the free-text reader can carry. *)
Definition shortLabel (speaker : option string) : Prop :=
  match speaker with
  | Some name => name <> "" /\ (String.length name <= 30)%nat
  | None => True
  end.



End CueShape.

Module ArgShape.

(** The arguments that the [parseArgs] of a command takes for flags. *)
Definition transcribeFlag (arg : string) : bool :=
  existsb (String.eqb arg)
          ["-h"; "--help"; "-o"; "--output"; "--language"; "--model"].

Definition summarizeFlag (arg : string) : bool :=
  existsb (String.eqb arg) ["-h"; "--help"; "-o"; "--output"; "--prompt"].

Definition infographicFlag (arg : string) : bool :=
  existsb (String.eqb arg)
          ["-h"; "--help"; "-o"; "--output"; "--style"; "--reference"].

End ArgShape.

(** ** Lines of a free-text transcript, as the statements describe them *)

Module TranscriptShape.

(** The line matches the timestamp pattern. *)
Definition timestamped (line : string) : bool :=
  match Gemini.matchTimestampLine line with
  | Some _ => true
  | None => false
  end.

(** A run of decimal digits, not empty. *)
Definition digits (s : string) : Prop :=
  Str.forallb Str.isDigit s = true /\ s <> "".

(** The fields of a timestamp between brackets: one or two digits, two
    digits, and possibly two digits more. *)
Definition stampFields (p1 p2 : string) (p3 : option string) : Prop :=
  (String.length p1 = 1%nat \/ String.length p1 = 2%nat)
  /\ Str.forallb Str.isDigit p1 = true
  /\ String.length p2 = 2%nat /\ Str.forallb Str.isDigit p2 = true
  /\ match p3 with
     | Some d => String.length d = 2%nat /\ Str.forallb Str.isDigit d = true
     | None => True
     end.

Definition stampText (p1 p2 : string) (p3 : option string) : string :=
  p1 ++ ":" ++ p2 ++ match p3 with Some d => ":" ++ d | None => "" end.

(** The time that the fields stand for: hours, minutes and seconds when
    there are three of them, minutes and seconds when there are two. *)
Definition stampSeconds (p1 p2 : string) (p3 : option string) : Z :=
  match p3 with
  | Some d =>
      3600 * Str.digitsValue p1 + 60 * Str.digitsValue p2
      + Str.digitsValue d
  | None => 60 * Str.digitsValue p1 + Str.digitsValue p2
  end.

Definition markdownChar (c : ascii) : bool :=
  Ascii.eqb c "*" || Ascii.eqb c "_".

(** A speaker label as the prompt asks for it: not empty, without white
    space at either end, without colon, and not wrapped in markdown. *)
Definition plainLabel (name : string) : Prop :=
  name <> "" /\ Str.trim name = name
  /\ Str.forallb (Re.notChar ":") name = true
  /\ match name with
     | String c _ => markdownChar c = false
     | "" => True
     end
  /\ match Gemini.lastChar name with
     | Some c => markdownChar c = false
     | None => True
     end.

(** The lines that the reader goes through: the non-blank ones. *)
Definition readLines (text : string) : list string :=
  filter Gemini.nonBlank (Str.split Str.LF text).

End TranscriptShape.

(** ** Words of a response, as the statements describe them *)

Module WordShape.

Import TranscribeCommand.

(** A word without white space at either end. *)
Definition plainWord (w : Word.TranscriptionWord) : Prop :=
  Word.word w <> "" /\ Str.trim (Word.word w) = Word.word w.

(** A response without segments: the field is absent or empty. *)
Definition noSegments (transcript : TranscriptionResponse) : Prop :=
  segments transcript = None \/ segments transcript = Some [].

(** A response that holds a text and nothing else. *)
Definition textOnly (t : string) (transcript : TranscriptionResponse)
  : Prop :=
  transcript = mkResponse None None (Some t) /\ Str.trim t <> "".

End WordShape.

(** ** The retry policy of a request, as the statements describe it *)

Module RetryShape.

Import TranscribeCommand.

Section Policy.

Variable prettyJSON : string -> option string.

(** How the call ends when the attempt is the last one made. *)
Definition settles (a : Attempt) : completion TranscriptionResponse :=
  match a with
  | Answered transcript => Returns transcript
  | Refused status errorText headers =>
      Throws (errorMessage prettyJSON status errorText headers)
  | Failed message => Throws message
  end.

(** The message of the error of an attempt that did not get an answer. *)
Definition message (a : Attempt) : string :=
  match a with
  | Answered _ => ""
  | Refused status errorText headers =>
      errorMessage prettyJSON status errorText headers
  | Failed message => message
  end.

(** The attempts after which another one is made, when one is left: a
    response with status 429 or at least 500, and an error whose message
    holds the words of a network failure. *)
Definition retriable (a : Attempt) : bool :=
  match a with
  | Answered _ => false
  | Refused status errorText headers =>
      (status =? 429)%Z || (500 <=? status)%Z
      || Str.includes "fetch failed"
                      (errorMessage prettyJSON status errorText headers)
  | Failed message => Str.includes "fetch failed" message
  end.

End Policy.

End RetryShape.
(** * Binary64 arithmetic

    The numbers of the program are IEEE 754 binary64 values.  A finite one
    is kept as the rational it denotes; what binary64 adds to the exact
    operations is the rounding of each result to the nearest representable
    value, a tie going to the even significand, and the overflow to an
    infinity. *)

Module Binary64.

Definition pow2 (e : Z) : Q := Qpower 2 e.

(** The exponent of a positive rational [x]:
    [2 ^ ilog2 x <= x < 2 ^ (ilog2 x + 1)]. *)
Definition ilog2 (x : Q) : Z :=
  let e := Z.log2 (Qnum x) - Z.log2 (Zpos (Qden x)) in
  if Qle_bool (pow2 e) x then e else e - 1.

(** The nearest integer, a half going to the even neighbour. *)
Definition roundHalfEven (y : Q) : Z :=
  let f := Qfloor y in
  match (y - inject_Z f ?= 1 # 2)%Q with
  | Lt => f
  | Gt => f + 1
  | Eq => if Z.even f then f else f + 1
  end.

(** The exponent of the unit in the last place at magnitude [a]: 52 binary
    places below the leading bit, and never below [-1074], the last place
    of the subnormal values. *)
Definition quantum (a : Q) : Z := Z.max (ilog2 a - 52) (-1074).

(** The magnitude [a > 0] rounded to a multiple of its quantum. *)
Definition roundMagnitude (a : Q) : Q :=
  let p := quantum a in
  (inject_Z (roundHalfEven (a / pow2 p)) * pow2 p)%Q.

(** The binary64 value nearest to [x]: an infinity when the rounded
    magnitude reaches [2 ^ 1024]. *)
Definition nearest (x : Q) : number :=
  match Qnum x with
  | 0 => Fin 0
  | Zpos _ =>
      let r := roundMagnitude x in
      if Qle_bool (pow2 1024) r then Inf false else Fin (Qred r)
  | Zneg _ =>
      let r := roundMagnitude (- x) in
      if Qle_bool (pow2 1024) r then Inf true else Fin (Qred (- r))
  end.

(** [n], when finite, is a multiple of [2 ^ -1074], the least positive
    binary64 value: so is every binary64 value. *)
Definition onGrid (n : number) : Prop :=
  match n with
  | Fin x => exists m : Z, (x == inject_Z m * pow2 (-1074))%Q
  | _ => True
  end.

(** The result of an operation, rounded. *)
Definition rounded (n : number) : number :=
  match n with
  | Fin x => nearest x
  | _ => n
  end.

End Binary64.

(** ** The operations of JavaScript on binary64 values

    [+], [-], [*] and [/] round their exact result; [%], [Math.floor],
    [Math.ceil], [Math.round] and the comparisons are exact on binary64
    values, and are those of [Num].  The two zeroes are identified. *)

Module F64.

Definition add (a b : number) : number := Binary64.rounded (Num.add a b).
Definition sub (a b : number) : number := Binary64.rounded (Num.sub a b).
Definition mul (a b : number) : number := Binary64.rounded (Num.mul a b).
Definition div (a b : number) : number := Binary64.rounded (Num.div a b).

(** [parseInt(s, 10)] and [parseFloat(s)]: the binary64 value nearest to
    the value of the numeral. *)
Definition parseInt (s : string) : number := Binary64.rounded (Num.parseInt s).

Definition parseFloat (s : string) : number :=
  Binary64.rounded (Num.parseFloat s).

(** *** [String(n)] for a number whose value is an integer

    Up to [2 ^ 53] every integer is a binary64 value and is printed digit
    for digit.  Above, the digits are the fewest that read back as the same
    binary64 value, followed by zeroes; from [1e21] on the exponent
    notation is used. *)

(** The numeral [s] followed by [j] zeroes reads back as [x]. *)
Definition readsAs (x s j : Z) : bool :=
  match Binary64.nearest (inject_Z (s * 10 ^ j)) with
  | Fin q => Qeq_bool q (inject_Z x)
  | _ => false
  end.

(** The digits to print before [j] zeroes, when there are such: of the two
    candidates around [x] the one that reads back as [x], the nearer one
    when both do. *)
Definition candidate (x j : Z) : option Z :=
  let lo := x / 10 ^ j in
  let hi := lo + 1 in
  match readsAs x lo j, readsAs x hi j with
  | true, true =>
      Some (if (x - lo * 10 ^ j <=? hi * 10 ^ j - x)%Z then lo else hi)
  | true, false => Some lo
  | false, true => Some hi
  | false, false => None
  end.

(** The fewest digits: the largest number of zeroes that has a candidate. *)
Fixpoint shortest (x : Z) (j : nat) : Z * Z :=
  match candidate x (Z.of_nat j) with
  | Some s => (s, Z.of_nat j)
  | None =>
      match j with
      | O => (x, 0)
      | S j' => shortest x j'
      end
  end.

Fixpoint dropZeros (s : string) : string :=
  match s with
  | "" => ""
  | String c s' =>
      match dropZeros s' with
      | "" => if Ascii.eqb c "0" then "" else String c ""
      | r => String c r
      end
  end.

(** The numeral of a positive integer-valued number [x] above [2 ^ 53]. *)
Definition largeNumeral (x : Z) : string :=
  let (s, j) := shortest x (String.length (Str.ofZ x) - 1) in
  let digits := Str.ofZ s in
  let n := Z.of_nat (String.length digits) + j in
  if (n <=? 21)%Z then digits ++ Str.repeat "0" (Z.to_nat j)
  else
    match dropZeros digits with
    | String c "" => String c "" ++ "e+" ++ Str.ofZ (n - 1)
    | String c r => String c "" ++ "." ++ r ++ "e+" ++ Str.ofZ (n - 1)
    | "" => "0"
    end.

Definition toString (a : number) : string :=
  match a with
  | NaN => "NaN"
  | Inf false => "Infinity"
  | Inf true => "-Infinity"
  | Fin x =>
      let z := Qfloor x in
      if (Z.abs z <=? 2 ^ 53)%Z then Str.ofZ z
      else if (z <? 0)%Z then "-" ++ largeNumeral (- z)
      else largeNumeral z
  end.

End F64.

(** ** The subtitle engine in binary64: [src/utils/vtt.ts] *)

Module Vtt64.

Import Vtt.

(** *** Timestamp codec *)

Definition parseTimestamp (timestamp : string) : number :=
  let parts := Str.split ":" timestamp in
  let '(hours, minutes, seconds) :=
    match parts with
    | [p0; p1; p2] => (F64.parseInt p0, F64.parseInt p1, F64.parseFloat p2)
    | [p0; p1] => (Num.ofZ 0, F64.parseInt p0, F64.parseFloat p1)
    | p0 :: _ => (Num.ofZ 0, Num.ofZ 0, F64.parseFloat p0)
    | [] => (Num.ofZ 0, Num.ofZ 0, NaN)
    end in
  F64.add (F64.add (F64.mul hours (Num.ofZ 3600)) (F64.mul minutes (Num.ofZ 60)))
          seconds.

Definition formatTimestamp (totalSeconds : number) : string :=
  let hours := Num.floor (F64.div totalSeconds (Num.ofZ 3600)) in
  let minutes :=
    Num.floor (F64.div (Num.rem totalSeconds (Num.ofZ 3600)) (Num.ofZ 60)) in
  let seconds := Num.floor (Num.rem totalSeconds (Num.ofZ 60)) in
  let ms :=
    Num.round (F64.mul (Num.rem totalSeconds (Num.ofZ 1)) (Num.ofZ 1000)) in
  Str.padStart 2 "0" (F64.toString hours) ++ ":"
  ++ Str.padStart 2 "0" (F64.toString minutes) ++ ":"
  ++ Str.padStart 2 "0" (F64.toString seconds) ++ "."
  ++ Str.padStart 3 "0" (F64.toString ms).

(** *** Parsing *)

Definition parseRange (line : string) : number * number :=
  let parts := map Str.trim (Str.split "-->" line) in
  let startStr := nth 0 parts "" in
  let endStr := nth 1 parts "" in
  (parseTimestamp startStr, parseTimestamp endStr).

Fixpoint parseBlocks (lines : list string) : list VTTCue :=
  match lines with
  | [] => []
  | l :: rest =>
      let line := Str.trim l in
      if isTimestampLine line then
        let (start, end_) := parseRange line in
        readTextLines start end_ parseBlocks [] None rest
      else parseBlocks rest
  end.

Definition parseVTT (vttContent : string) : list VTTCue :=
  parseBlocks (skipHeader (Str.split Str.LF vttContent)).

(** *** Serializing *)

Definition serializeCue (cue : VTTCue) : string :=
  formatTimestamp (start cue) ++ " --> " ++ formatTimestamp (end_ cue)
  ++ Str.LF
  ++ match speaker cue with
     | Some (String c s) =>
         "<v " ++ String c s ++ ">" ++ text cue ++ Str.LF ++ Str.LF
     | _ => text cue ++ Str.LF ++ Str.LF
     end.

Definition serializeVTT (cues : list VTTCue) : string :=
  fold_left (fun (vtt : string) cue => (vtt ++ serializeCue cue)%string) cues
            ("WEBVTT" ++ Str.LF ++ Str.LF)%string.

(** *** Merging *)

Definition shiftCue (offset : number) (cue : VTTCue) : VTTCue :=
  mkCue (F64.add (start cue) offset) (F64.add (end_ cue) offset)
        (speaker cue) (text cue).

Definition collectCues (chunks : list VTTChunk) : list VTTCue :=
  flat_map (fun chunk => map (shiftCue (offset chunk)) (parseVTT (vtt chunk)))
           chunks.

(** The comparator [(a, b) => a.start - b.start] says that [a] goes before
    [b] when its result, a rounded difference, is negative. *)
Definition before (a b : VTTCue) : bool :=
  Num.ltb (F64.sub (start a) (start b)) (Num.ofZ 0).

(** The stable sort, by insertion as in [Vtt.insertCue]. *)
Fixpoint insertCue (cue : VTTCue) (sorted : list VTTCue) : list VTTCue :=
  match sorted with
  | [] => [cue]
  | c :: rest =>
      if before c cue then c :: insertCue cue rest else cue :: sorted
  end.

Definition sortCues (cues : list VTTCue) : list VTTCue :=
  fold_right insertCue [] cues.

Definition mergeVTT (chunks : list VTTChunk) : string :=
  serializeVTT (sortCues (collectCues chunks)).

End Vtt64.

(** ** The chunk planner in binary64: [src/utils/audio.ts] *)

Module Audio64.

Import Audio.

Definition calculateChunkCount (totalDuration maxChunkDuration : number)
  : number :=
  Num.ceil (F64.div totalDuration maxChunkDuration).

(** The largest number of elements of an array: the [push] of one more
    throws. *)
Definition MAX_ARRAY_LENGTH : Z := 2 ^ 32 - 1.

(** Number of rounds of [for (let i = 0; i < numChunks; i++)], each of
    which pushes one chunk; [None] when the array is full before the test
    fails. *)
Definition loopRounds (numChunks : number) : option nat :=
  match numChunks with
  | NaN => Some O
  | Fin x =>
      if Qle_bool x (inject_Z MAX_ARRAY_LENGTH)
      then Some (Z.to_nat (Qceiling x))
      else None
  | Inf true => Some O
  | Inf false => None
  end.

Section SplitAudio.

Variables (totalDuration numChunks chunkDuration : number).

(** One round of the loop.  The call of ffmpeg that cuts the chunk out of
    the recording is an effect outside the model. *)
Definition chunkAt (i : nat) : AudioChunk :=
  let startTime := F64.mul (Num.ofZ (Z.of_nat i)) chunkDuration in
  let chunkFile :=
    ("chunk_"
     ++ Str.padStart 2 "0"
          (F64.toString (F64.add (Num.ofZ (Z.of_nat i)) (Num.ofZ 1)))
     ++ ".ogg")%string in
  let actualDuration :=
    if Num.ltb (Num.ofZ (Z.of_nat i)) (F64.sub numChunks (Num.ofZ 1))
    then chunkDuration
    else F64.sub totalDuration startTime in
  mkAudioChunk chunkFile startTime actualDuration.

End SplitAudio.

(** [None]: no plan is returned, the loop fills the array and the next
    [push] throws. *)
Definition splitAudio (audioFile : string)
    (totalDuration maxChunkDuration : number) : option (list AudioChunk) :=
  if Num.leb totalDuration maxChunkDuration then
    Some [mkAudioChunk audioFile (Num.ofZ 0) totalDuration]
  else
    let numChunks := Num.ceil (F64.div totalDuration maxChunkDuration) in
    let chunkDuration := F64.div totalDuration numChunks in
    option_map (fun rounds =>
                  map (chunkAt totalDuration numChunks chunkDuration)
                      (seq 0 rounds))
               (loopRounds numChunks).

End Audio64.

(** ** Times in binary64, used in the statements *)

Module Clock64.

(** The millisecond field that [formatTimestamp] prints, as the code
    computes it. *)
Definition millis (totalSeconds : number) : number :=
  Num.round (F64.mul (Num.rem totalSeconds (Num.ofZ 1)) (Num.ofZ 1000)).

(** The binary64 value of the decimal numeral of [k] milliseconds, in
    seconds: the value of the literal [7265.123] is [ofMillis 7265123]. *)
Definition ofMillis (k : Z) : number := Binary64.nearest (inject_Z k / 1000).

(** The largest time of the statements: [2 ^ 42] seconds.  Below it two
    neighbouring binary64 values are less than half a millisecond apart. *)
Definition horizon : Q := inject_Z (2 ^ 42).

End Clock64.

(** ** Cues that the serializer prints so that the parser reads them back,
    in binary64 *)

Module RoundTrip64.

Import Vtt.

(** A finite time from 0 to below the horizon whose millisecond field, as
    [formatTimestamp] computes it, is below 1000. *)
Definition safeTime (n : number) : Prop :=
  (exists s : Q, n = Fin s /\ (0 <= s)%Q /\ (s < Clock64.horizon)%Q)
  /\ Num.ltb (Clock64.millis n) (Num.ofZ 1000) = true.

(** The text of a cue without speaker: not empty, without line feed,
    without white space at either end, and not read as a speaker tag. *)
Definition untaggedText (t : string) : Prop :=
  t <> "" /\ Str.trim t = t /\ Shape.noLF t /\ matchSpeakerTag t = None.

(** The text of a cue with a speaker: not empty, without line terminator,
    and without white space at its end. *)
Definition taggedText (t : string) : Prop :=
  t <> "" /\ Str.trimEnd t = t /\ Str.forallb Re.notLineTerminator t = true.

(** A speaker name that comes back from its tag: not empty, without [>]
    and without line feed, and not starting with white space unless it is
    a single character ([\s+] gives one white space back to the name). *)
Definition speakerName (name : string) : Prop :=
  name <> "" /\ Str.forallb (Re.notChar ">") name = true /\ Shape.noLF name
  /\ (Shape.stops Str.isSpace name \/ String.length name = 1%nat).

Definition printable (c : VTTCue) : Prop :=
  safeTime (start c) /\ safeTime (end_ c)
  /\ match speaker c with
     | Some name => speakerName name /\ taggedText (text c)
     | None => untaggedText (text c)
     end.

(** The three lines of a cue in the output of [serializeVTT]. *)
Definition rangeLine (c : VTTCue) : string :=
  (Vtt64.formatTimestamp (start c) ++ " --> "
   ++ Vtt64.formatTimestamp (end_ c))%string.

Definition cueLines (c : VTTCue) : list string :=
  [rangeLine c; RoundTrip.textLine c; ""].

End RoundTrip64.

(** ** Plans of chunks in binary64, as the statements describe them *)

Module Plan64.

Import Audio.

(** The chunks cover the interval from [from] to [to] up to [eps]: each
    has a finite offset and a finite positive duration and starts within
    [eps] of where the one before it ends, the first within [eps] of
    [from]; the last ends within [eps] of [to]. *)
Fixpoint tilesWithin (eps from : Q) (chunks : list AudioChunk) (to : Q)
  : Prop :=
  match chunks with
  | [] => (Qabs (from - to) <= eps)%Q
  | c :: rest =>
      exists o d : Q,
        offset c = Fin o /\ duration c = Fin d /\ (0 < d)%Q
        /\ (Qabs (o - from) <= eps)%Q
        /\ tilesWithin eps (o + d) rest to
  end.

(** The offset of the chunk of index [i] when the chunks last [d]:
    [i * d], rounded. *)
Definition off (d : Q) (i : nat) : Q :=
  Plan.valueOf (F64.mul (Num.ofZ (Z.of_nat i)) (Fin d)).

(** The duration of the last of [n] chunks: what is left of [total] after
    its offset, rounded. *)
Definition lastDuration (total : Q) (n : Z) (d : Q) : Q :=
  Plan.valueOf (F64.sub (Fin total) (Fin (off d (Z.to_nat (n - 1))))).

(** The duration of the chunk of index [i] among [n]. *)
Definition durationAt (total : Q) (n : Z) (d : Q) (i : nat) : Q :=
  if (Z.of_nat i <? n - 1)%Z then d else lastDuration total n d.

End Plan64.

(** ** Step 5 of [transcribeWithOpenAI] in binary64 *)

Module Transcribe64.

Import Vtt TranscribeCommand.

(** The cue of a segment of a diarized response. *)
Definition segmentCue (offset : number) (segment : Segment.TranscriptionSegment)
  : VTTCue :=
  mkCue (F64.add (Segment.start segment) offset)
        (F64.add (Segment.end_ segment) offset)
        (Some (match Segment.speaker segment with
               | Some (String c s) => String c s
               | _ => "Speaker"
               end))
        (Str.trim (Segment.text segment)).

(** The cue pushed for a group of words. *)
Definition segmentOfWords (offset : number)
    (currentSegment : Current.CurrentSegment) : VTTCue :=
  mkCue (F64.add (Current.start currentSegment) offset)
        (F64.add (Current.end_ currentSegment) offset)
        None
        (Str.trim (Current.text currentSegment)).

(** The loop over the words of a response with word timestamps, and the
    push that follows it. *)
Fixpoint groupWords (offset : number)
    (currentSegment : option Current.CurrentSegment)
    (words : list Word.TranscriptionWord) : list VTTCue :=
  match words with
  | [] =>
      match currentSegment with
      | Some current => [segmentOfWords offset current]
      | None => []
      end
  | word :: rest =>
      match currentSegment with
      | Some current =>
          if Num.ltb (Num.ofZ 5)
                     (F64.sub (Word.start word) (Current.start current))
          then segmentOfWords offset current
               :: groupWords offset (Some (openSegment word)) rest
          else groupWords offset (Some (extendSegment current word)) rest
      | None => groupWords offset (Some (openSegment word)) rest
      end
  end.

(** The cues of the response to one chunk. *)
Definition transcriptCues (chunk : Audio.AudioChunk)
    (transcript : TranscriptionResponse) : list VTTCue :=
  let offset := Audio.offset chunk in
  match segments transcript with
  | Some (segment :: more) => map (segmentCue offset) (segment :: more)
  | _ =>
      match words transcript with
      | Some (word :: more) => groupWords offset None (word :: more)
      | _ =>
          match TranscribeCommand.text transcript with
          | Some t =>
              if Str.isEmpty (Str.trim t) then []
              else
                let chunkDuration :=
                  if truthyNumber (Audio.duration chunk)
                  then Audio.duration chunk
                  else Num.ofZ 30 in
                [mkCue offset (F64.add offset chunkDuration) None
                       (Str.trim t)]
          | None => []
          end
      end
  end.

(** The loop over the responses: [transcripts] holds one response for each
    chunk, in the order of [chunks]. *)
Definition mergedCues (chunks : list Audio.AudioChunk)
    (transcripts : list TranscriptionResponse) : list VTTCue :=
  flat_map (fun p => transcriptCues (fst p) (snd p))
           (combine chunks transcripts).

Section Pipeline.

(** The service: the outcome of each attempt for each chunk. *)
Variables (prettyJSON : string -> option string)
          (fetch : Audio.AudioChunk -> Z -> Attempt).

(** Steps 3 to 5, for the audio file and the duration that the probe gave.
    [None]: [splitAudio] returns no plan. *)
Definition transcribeWithOpenAI (audioFile : string) (duration : number)
  : option (completion string) :=
  option_map
    (fun chunks =>
       match transcribeChunks prettyJSON fetch chunks with
       | Throws message => Throws message
       | Returns transcripts =>
           Returns (Vtt64.serializeVTT (mergedCues chunks transcripts))
       end)
    (Audio64.splitAudio audioFile duration (Num.ofZ MAX_AUDIO_DURATION)).

End Pipeline.

End Transcribe64.

(** ** Shapes of cues and words in binary64, used in the statements *)

Module CueShape64.

Import Vtt.

(** The cues cover the interval from [from] to [to] up to [eps]: each has
    a finite start and a later finite end and starts within [eps] of the
    end of the one before it, the first within [eps] of [from]; the last
    ends within [eps] of [to]. *)
Fixpoint spansWithin (eps from : Q) (cues : list VTTCue) (to : Q) : Prop :=
  match cues with
  | [] => (Qabs (from - to) <= eps)%Q
  | c :: rest =>
      exists s e : Q,
        start c = Fin s /\ end_ c = Fin e /\ (s < e)%Q
        /\ (Qabs (s - from) <= eps)%Q
        /\ spansWithin eps e rest to
  end.

End CueShape64.

Module WordShape64.

Import TranscribeCommand.

(** A word whose start is finite and, moved by [offset], lies from 0 to
    below the horizon. *)
Definition startsWithin (offset : Q) (w : Word.TranscriptionWord) : Prop :=
  exists x : Q,
    Word.start w = Fin x
    /\ (0 <= x + offset)%Q /\ (x + offset < Clock64.horizon)%Q.

End WordShape64.

(** * The test suite of the repository, in the model *)

(** The assertions of [test/vtt.test.ts] and of the [calculateChunkCount]
    part of [test/audio.test.ts], evaluated on the definitions above. *)

Module TestSuite.

Import Vtt Audio.

Example parse_three_fields :
  Num.hasValue (parseTimestamp "00:01:30.500") 90.5
  /\ Num.hasValue (parseTimestamp "01:00:00.000") 3600
  /\ Num.hasValue (parseTimestamp "00:00:05.250") 5.25.
Proof. repeat split; vm_compute; reflexivity. Qed.

Example parse_two_fields :
  Num.hasValue (parseTimestamp "01:30.500") 90.5
  /\ Num.hasValue (parseTimestamp "00:05.250") 5.25
  /\ Num.hasValue (parseTimestamp "00:00:00.000") 0.
Proof. repeat split; vm_compute; reflexivity. Qed.

Example format_values :
  formatTimestamp (Fin 90.5) = "00:01:30.500"
  /\ formatTimestamp (Fin 3600) = "01:00:00.000"
  /\ formatTimestamp (Fin 5.25) = "00:00:05.250"
  /\ formatTimestamp (Fin 0) = "00:00:00.000"
  /\ formatTimestamp (Fin 65.5) = "00:01:05.500".
Proof. repeat split; vm_compute; reflexivity. Qed.

Example parse_without_speakers :
  map (fun c => (speaker c, text c))
      (parseVTT (Str.join Str.LF
                   ["WEBVTT"; ""; "00:00:01.000 --> 00:00:03.000";
                    "Hello world"; ""; "00:00:05.000 --> 00:00:08.000";
                    "This is a test"; ""]))
  = [(None, "Hello world"); (None, "This is a test")].
Proof. vm_compute. reflexivity. Qed.

Example parse_with_speakers :
  map (fun c => (speaker c, text c))
      (parseVTT (Str.join Str.LF
                   ["WEBVTT"; ""; "00:00:01.000 --> 00:00:03.000";
                    "<v Alice>Hello there"; "";
                    "00:00:05.000 --> 00:00:08.000"; "<v Bob>Hi Alice!"; ""]))
  = [(Some "Alice", "Hello there"); (Some "Bob", "Hi Alice!")].
Proof. vm_compute. reflexivity. Qed.

Example parse_empty : parseVTT ("WEBVTT" ++ Str.LF ++ Str.LF) = [].
Proof. reflexivity. Qed.

Example serialize_with_speakers :
  serializeVTT [mkCue (Fin 1) (Fin 3) (Some "Alice") "Hello there";
                mkCue (Fin 5) (Fin 8) (Some "Bob") "Hi Alice!"]
  = Str.join Str.LF
      ["WEBVTT"; ""; "00:00:01.000 --> 00:00:03.000"; "<v Alice>Hello there";
       ""; "00:00:05.000 --> 00:00:08.000"; "<v Bob>Hi Alice!"; ""; ""].
Proof. vm_compute. reflexivity. Qed.

Example merge_with_offsets :
  map (fun c => (start c, text c))
      (parseVTT
         (mergeVTT
            [mkChunk (Str.join Str.LF
                        ["WEBVTT"; ""; "00:00:01.000 --> 00:00:03.000";
                         "<v A>First chunk"; ""])
                     (Fin 0);
             mkChunk (Str.join Str.LF
                        ["WEBVTT"; ""; "00:00:00.000 --> 00:00:02.000";
                         "<v B>Second chunk"; ""])
                     (Fin 10)]))
  = [(Fin 1.000, "First chunk"); (Fin 10.000, "Second chunk")].
Proof. vm_compute. reflexivity. Qed.

Example chunk_counts :
  Forall (fun t => Num.hasValue
                     (calculateChunkCount (Num.ofZ (fst (fst t)))
                                          (Num.ofZ (snd (fst t))))
                     (inject_Z (snd t)))
         [(1000, 1500, 1); (1200, 1200, 1); (3000, 1500, 2); (3600, 1200, 3);
          (4000, 1500, 3); (3000, 1000, 3); (6000, 2000, 3); (2500, 1000, 3);
          (1001, 1000, 2); (0, 1000, 0); (1, 1000, 1)].
Proof. repeat constructor. Qed.

End TestSuite.

(** * The matchers on some lines *)

Module MatcherExamples.

Import Vtt Gemini.

(** The tag: a name, then the rest of the line; white space given back to
    the name when nothing else is left for it; no match without white
    space after [<v] or without [>]. *)
Example speaker_tags :
  map matchSpeakerTag
      ["<v Alice>Hello there"; "<v  >x"; "<v >x"; "<vAlice>x"; "<v A";
       "<v A>b>c"; "plain"]
  = [Some ("Alice", "Hello there"); Some (" ", "x"); None; None; None;
     Some ("A", "b>c"); None].
Proof. vm_compute. reflexivity. Qed.

(** The bracketed timestamp: two or three numbers, an optional speaker
    label, the text.  A label followed by nothing is text; three digits, a
    one-digit second number or leading white space do not match. *)
Example timestamp_lines :
  map matchTimestampLine
      ["[ 00:15 ] Alice: Hello there"; "[1:02:03]**Bob**:  hi: x";
       "[00:01] Speaker:"; "[000:01] x"; "[00:1] x"; " [00:01] x"; "no stamp"]
  = [Some (mkMatch "00" "15" None (Some "Alice") "Hello there");
     Some (mkMatch "1" "02" (Some "03") (Some "**Bob**") "hi: x");
     Some (mkMatch "00" "01" None None "Speaker:");
     None; None; None; None].
Proof. vm_compute. reflexivity. Qed.

Example markdown_marks :
  map stripMarkdown ["**Bob**"; "__init__"; "*a"; "a***"; "plain"]
  = ["Bob"; "init"; "a"; "a*"; "plain"].
Proof. vm_compute. reflexivity. Qed.

(** A transcript with a preamble, two stamped lines and a continuation. *)
Example transcript :
  parseGeminiTranscript
    (Str.join Str.LF
       ["intro text"; ""; "[00:05] Alice: Hello there"; "continued";
        "[01:10] **Bob**: Hi"])
  = [mkCue (Num.ofZ 0) (Fin 5) None "intro text";
     mkCue (Fin 5) (Fin 70) (Some "Alice") "Hello there continued";
     mkCue (Fin 70) (Fin 75) (Some "Bob") "Hi"].
Proof. vm_compute. reflexivity. Qed.

End MatcherExamples.

(** * Properties *)

(** ** Strings *)

Module StrFacts.

Import Str Shape.

Lemma append_assoc (a b c : string) : ((a ++ b) ++ c = a ++ (b ++ c))%string.
Proof. induction a as [|x a IH]; simpl; [reflexivity | now rewrite IH]. Qed.

Lemma append_nil_r (a : string) : (a ++ "" = a)%string.
Proof. induction a as [|x a IH]; simpl; [reflexivity | now rewrite IH]. Qed.

Lemma length_append (a b : string) :
  String.length (a ++ b) = (String.length a + String.length b)%nat.
Proof. induction a as [|x a IH]; simpl; [reflexivity | now rewrite IH]. Qed.

Lemma forallb_append p (a b : string) :
  forallb p (a ++ b) = forallb p a && forallb p b.
Proof.
  induction a as [|x a IH]; simpl; [reflexivity|].
  now rewrite IH, andb_assoc.
Qed.

Lemma forallb_impl (p q : ascii -> bool) (s : string) :
  (forall c, p c = true -> q c = true) ->
  forallb p s = true -> forallb q s = true.
Proof.
  intros Hpq. induction s as [|x s IH]; simpl; [reflexivity|].
  rewrite !andb_true_iff. intros [Hx Hs]. split; auto.
Qed.

Lemma isEmpty_false (s : string) : isEmpty s = false <-> s <> "".
Proof. destruct s; simpl; split; congruence. Qed.

(** *** [span] *)

Lemma span_append p (a b : string) :
  forallb p a = true -> stops p b -> span p (a ++ b) = (a, b).
Proof.
  intros Ha Hb. induction a as [|x a IH]; simpl in *.
  - destruct b as [|c b]; simpl in *; [reflexivity | now rewrite Hb].
  - apply andb_true_iff in Ha as [Hx Ha]. now rewrite Hx, (IH Ha).
Qed.

Lemma span_all p (a : string) : forallb p a = true -> span p a = (a, "").
Proof.
  intros Ha. rewrite <- (append_nil_r a) at 1. now apply span_append.
Qed.

(** *** [trim] *)

Lemma trimStart_stops (s : string) :
  stops isSpace s -> trimStart s = s.
Proof. destruct s as [|c s]; simpl; [reflexivity | now intros ->]. Qed.

Lemma trimEnd_spaces (a : string) : forallb isSpace a = true -> trimEnd a = "".
Proof.
  induction a as [|x a IH]; simpl; [reflexivity|].
  intros H. apply andb_true_iff in H as [Hx Ha]. now rewrite (IH Ha), Hx.
Qed.

Lemma trimEnd_append_fix (a b : string) :
  b <> "" -> trimEnd b = b -> trimEnd (a ++ b) = (a ++ b)%string.
Proof.
  intros Hne Hb. induction a as [|x a IH]; simpl; [exact Hb|].
  rewrite IH. destruct (a ++ b)%string eqn:E; [|reflexivity].
  destruct a; simpl in E; [contradiction | discriminate].
Qed.

Lemma trimEnd_append_spaces (a w : string) :
  forallb isSpace w = true -> trimEnd (a ++ w) = trimEnd a.
Proof.
  intros Hw. induction a as [|x a IH]; simpl; [now apply trimEnd_spaces|].
  now rewrite IH.
Qed.

Lemma trimEnd_noSpace (a : string) :
  forallb (fun c => negb (isSpace c)) a = true -> trimEnd a = a.
Proof.
  induction a as [|x a IH]; simpl; [reflexivity|].
  intros H. apply andb_true_iff in H as [Hx Ha]. rewrite (IH Ha).
  apply negb_true_iff in Hx. rewrite Hx. now destruct a.
Qed.

Lemma trimEnd_length (a : string) :
  (String.length (trimEnd a) <= String.length a)%nat.
Proof.
  induction a as [|x a IH]; simpl; [lia|].
  destruct (trimEnd a); simpl in *; [destruct (isSpace x); simpl; lia | lia].
Qed.

Lemma trimStart_length (a : string) :
  trimStart a = a \/ (String.length (trimStart a) < String.length a)%nat.
Proof.
  induction a as [|x a IH]; simpl; [now left|].
  destruct (isSpace x); [right | now left].
  destruct IH as [-> | IH]; lia.
Qed.

(** A string that [trim] leaves alone is left alone by both halves. *)
Lemma trim_fix (t : string) :
  trim t = t -> trimStart t = t /\ trimEnd t = t.
Proof.
  unfold trim. intros H.
  pose proof (trimEnd_length (trimStart t)) as H1. rewrite H in H1.
  destruct (trimStart_length t) as [E | E]; [|lia].
  rewrite E in H. now split.
Qed.

(** A line made of a prefix that does not start with white space and a
    non-empty end that [trim] leaves alone is left alone by [trim]. *)
Lemma trim_append_fix (c : ascii) (a b : string) :
  isSpace c = false -> b <> "" -> trimEnd b = b ->
  trim (String c a ++ b) = (String c a ++ b)%string.
Proof.
  intros Hc Hne Hb. unfold trim. simpl. rewrite Hc.
  change (String c (a ++ b))%string with (String c a ++ b)%string.
  now apply trimEnd_append_fix.
Qed.

End StrFacts.

(** ** [split] and [includes] *)

Module SplitFacts.

Import Str Shape StrFacts.

Lemma revAppend_spec (cur : list ascii) (s : string) :
  revAppend cur s = (revAppend cur "" ++ s)%string.
Proof.
  revert s. induction cur as [|c cur IH]; intros s; simpl; [reflexivity|].
  rewrite (IH (String c s)), (IH (String c "")), append_assoc. reflexivity.
Qed.

Lemma prefix_append (a b : string) : prefix a (a ++ b) = true.
Proof.
  induction a as [|x a IH]; simpl; [now destruct b|].
  destruct (ascii_dec x x); [exact IH | congruence].
Qed.

Lemma prefix_first (c0 c : ascii) (sep s : string) :
  Re.notChar c0 c = true -> prefix (String c0 sep) (String c s) = false.
Proof.
  unfold Re.notChar. intros H. simpl.
  destruct (ascii_dec c0 c) as [->|]; [|reflexivity].
  now rewrite Ascii.eqb_refl in H.
Qed.

Section Separator.

(** A separator and its first character. *)
Variables (c0 : ascii) (sep' : string).
Local Abbreviation sep := (String c0 sep').

Lemma splitAux_skip (x b : string) (cur : list ascii) :
  splitAux sep (String.length x) cur (x ++ b) = splitAux sep 0 cur b.
Proof.
  induction x as [|c x IH]; simpl; [|exact IH].
  destruct b; reflexivity.
Qed.

Lemma splitAux_plain (a : string) (cur : list ascii) :
  forallb (Re.notChar c0) a = true ->
  splitAux sep 0 cur a = [(revAppend cur "" ++ a)%string].
Proof.
  revert cur. induction a as [|c a IH]; intros cur H.
  - simpl. now rewrite append_nil_r.
  - simpl in H. apply andb_true_iff in H as [Hc Ha].
    cbn [splitAux]. rewrite (prefix_first _ _ _ _ Hc).
    rewrite (IH (c :: cur) Ha). simpl.
    rewrite (revAppend_spec cur (String c "")), append_assoc. reflexivity.
Qed.

Lemma splitAux_sep (a b : string) (cur : list ascii) :
  forallb (Re.notChar c0) a = true ->
  splitAux sep 0 cur (a ++ sep ++ b)
  = (revAppend cur "" ++ a)%string :: splitAux sep 0 [] b.
Proof.
  revert cur. induction a as [|c a IH]; intros cur H.
  - simpl append at 1. rewrite append_nil_r.
    change (sep ++ b)%string with (String c0 (sep' ++ b)).
    cbn [splitAux].
    change (String c0 (sep' ++ b)) with (sep ++ b)%string.
    rewrite prefix_append. f_equal.
    replace (String.length sep - 1)%nat with (String.length sep')
      by (simpl; lia).
    apply splitAux_skip.
  - simpl in H. apply andb_true_iff in H as [Hc Ha].
    change (String c a ++ sep ++ b)%string
      with (String c (a ++ sep ++ b)).
    cbn [splitAux]. rewrite (prefix_first _ _ _ _ Hc).
    rewrite (IH (c :: cur) Ha). simpl.
    rewrite (revAppend_spec cur (String c "")), append_assoc. reflexivity.
Qed.

Lemma split_plain (a : string) :
  forallb (Re.notChar c0) a = true -> split sep a = [a].
Proof. intros H. unfold split. now rewrite splitAux_plain. Qed.

Lemma split_sep (a b : string) :
  forallb (Re.notChar c0) a = true ->
  split sep (a ++ sep ++ b) = a :: split sep b.
Proof. intros H. unfold split. now rewrite splitAux_sep. Qed.

Lemma includes_plain (a : string) :
  forallb (Re.notChar c0) a = true -> includes sep a = false.
Proof.
  induction a as [|c a IH]; intros H; [reflexivity|].
  simpl in H. apply andb_true_iff in H as [Hc Ha].
  cbn [includes]. rewrite (prefix_first _ _ _ _ Hc).
  now apply IH.
Qed.

Lemma includes_append (a b : string) : includes sep (a ++ sep ++ b) = true.
Proof.
  induction a as [|c a IH].
  - change ("" ++ sep ++ b)%string with (String c0 (sep' ++ b)).
    cbn [includes].
    change (String c0 (sep' ++ b)) with (sep ++ b)%string.
    now rewrite prefix_append.
  - change (String c a ++ sep ++ b)%string
      with (String c (a ++ sep ++ b)).
    cbn [includes]. rewrite IH. apply orb_true_r.
Qed.

End Separator.

(** *** Lines *)

Lemma unlines_app (a b : list string) :
  unlines (a ++ b) = (unlines a ++ unlines b)%string.
Proof.
  induction a as [|l a IH]; simpl; [reflexivity|].
  now rewrite IH, !append_assoc.
Qed.

Lemma split_unlines (ls : list string) (last : string) :
  Forall noLF ls -> noLF last ->
  split LF (unlines ls ++ last) = ls ++ [last].
Proof.
  intros Hls Hlast. induction Hls as [|l ls Hl _ IH].
  - now apply (split_plain LFchar "").
  - cbn [unlines]. rewrite !append_assoc.
    change LF with (String LFchar "").
    rewrite (split_sep LFchar "" l _ Hl).
    change (String LFchar "") with LF. now rewrite IH.
Qed.

(** *** The pieces of a split are parts of the text *)

Lemma prefix_nil (s : string) : prefix "" s = true.
Proof. now destruct s. Qed.

Lemma prefix_app_l (sub a b : string) :
  prefix sub a = true -> prefix sub (a ++ b) = true.
Proof.
  revert a. induction sub as [|x sub IH]; intros a H; [apply prefix_nil|].
  destruct a as [|y a]; [discriminate|].
  simpl in *. destruct (ascii_dec x y); [now apply IH | discriminate].
Qed.

Lemma includes_app_l (sub a b : string) :
  includes sub a = true -> includes sub (a ++ b) = true.
Proof.
  induction a as [|y a IH]; intros H.
  - cbn [includes] in H. rewrite orb_false_r in H.
    destruct sub; [|discriminate]. destruct b; reflexivity.
  - change (String y a ++ b)%string with (String y (a ++ b)).
    cbn [includes] in *. apply orb_true_iff in H as [H | H].
    + change (String y (a ++ b)) with (String y a ++ b)%string.
      now rewrite (prefix_app_l _ _ _ H).
    + rewrite (IH H). apply orb_true_r.
Qed.

Lemma includes_app_r (sub a b : string) :
  includes sub b = true -> includes sub (a ++ b) = true.
Proof.
  intros H. induction a as [|y a IH]; [exact H|].
  change (String y a ++ b)%string with (String y (a ++ b)).
  cbn [includes]. rewrite IH. apply orb_true_r.
Qed.

Lemma splitAux_pieces (sub : string) (c : ascii) (s : string) :
  forall (cur : list ascii) (piece : string),
    In piece (splitAux (String c "") 0 cur s) ->
    includes sub piece = true ->
    includes sub (revAppend cur "" ++ s) = true.
Proof.
  induction s as [|x s IH]; intros cur piece Hin Hp.
  - cbn in Hin. destruct Hin as [<- | []]. now rewrite append_nil_r.
  - cbn [splitAux] in Hin.
    destruct (prefix (String c "") (String x s)).
    + destruct Hin as [<- | Hin]; [now apply includes_app_l|].
      apply includes_app_r.
      change (String x s) with (String x "" ++ s)%string.
      apply includes_app_r. apply (IH [] piece Hin Hp).
    + specialize (IH (x :: cur) piece Hin Hp). cbn [revAppend] in IH.
      rewrite (revAppend_spec cur (String x "")), append_assoc in IH.
      exact IH.
Qed.

(** A text that does not hold [sub] has no line that holds it. *)
Lemma split_lines_includes (sub s : string) :
  includes sub s = false ->
  Forall (fun l => includes sub l = false) (split LF s).
Proof.
  intros H. apply Forall_forall. intros piece Hin.
  destruct (includes sub piece) eqn:E; [|reflexivity].
  pose proof (splitAux_pieces sub LFchar s [] piece Hin E) as H'.
  cbn [revAppend append] in H'. congruence.
Qed.

End SplitFacts.

(** ** Decimal numerals *)

Module DigitFacts.

Import Str Shape StrFacts.

Lemma uint_digits (d : Decimal.uint) :
  forallb isDigit (NilEmpty.string_of_uint d) = true.
Proof. induction d; simpl; auto. Qed.

Lemma uint_value_acc (d : Decimal.uint) (acc : positive) :
  digitsValueAcc (Zpos acc) (NilEmpty.string_of_uint d)
  = Zpos (Pos.of_uint_acc d acc).
Proof.
  revert acc. induction d; intros acc; cbn [NilEmpty.string_of_uint
    digitsValueAcc Pos.of_uint_acc]; try reflexivity;
    rewrite <- IHd; f_equal; unfold digitValue;
    match goal with
    | |- context [Z.of_nat (nat_of_ascii ?c)] =>
        let v := eval vm_compute in (Z.of_nat (nat_of_ascii c)) in
        change (Z.of_nat (nat_of_ascii c)) with v
    end; lia.
Qed.

Lemma uint_value (d : Decimal.uint) :
  digitsValueAcc 0 (NilEmpty.string_of_uint d) = Z.of_N (Pos.of_uint d).
Proof.
  induction d; cbn [NilEmpty.string_of_uint digitsValueAcc Pos.of_uint];
    try reflexivity; try exact IHd;
    (change (10 * 0 + digitValue _) with (Zpos 1)
     || change (10 * 0 + digitValue _) with (Zpos 2)
     || change (10 * 0 + digitValue _) with (Zpos 3)
     || change (10 * 0 + digitValue _) with (Zpos 4)
     || change (10 * 0 + digitValue _) with (Zpos 5)
     || change (10 * 0 + digitValue _) with (Zpos 6)
     || change (10 * 0 + digitValue _) with (Zpos 7)
     || change (10 * 0 + digitValue _) with (Zpos 8)
     || change (10 * 0 + digitValue _) with (Zpos 9));
    now rewrite uint_value_acc.
Qed.

Lemma ofZ_pos (p : positive) :
  ofZ (Zpos p) = NilEmpty.string_of_uint (Pos.to_uint p).
Proof.
  unfold ofZ. simpl. unfold NilZero.string_of_uint.
  pose proof (DecimalPos.Unsigned.to_uint_nonnil p) as H.
  now destruct (Pos.to_uint p).
Qed.

(** The numeral of a natural number: digits only, at least one, and they
    read back as the number. *)
Lemma ofZ_digits (n : Z) : 0 <= n -> forallb isDigit (ofZ n) = true.
Proof.
  destruct n as [|p|p]; intros H; [reflexivity | | lia].
  rewrite ofZ_pos. apply uint_digits.
Qed.

Lemma ofZ_nonempty (n : Z) : ofZ n <> "".
Proof.
  destruct n as [|p|p]; [discriminate | | discriminate].
  rewrite ofZ_pos. pose proof (DecimalPos.Unsigned.to_uint_nonnil p) as H.
  now destruct (Pos.to_uint p).
Qed.

Lemma ofZ_value (n : Z) : 0 <= n -> digitsValue (ofZ n) = n.
Proof.
  destruct n as [|p|p]; intros H; [reflexivity | | lia].
  unfold digitsValue. rewrite ofZ_pos, uint_value.
  now rewrite DecimalPos.Unsigned.of_to.
Qed.

(** Numerals under 1000 have at most three digits, under 100 at most two. *)
Lemma ofZ_length_3 (n : Z) :
  0 <= n < 1000 -> (String.length (ofZ n) <= 3)%nat.
Proof.
  intros H.
  assert (E : List.forallb
                (fun k => (String.length (ofZ (Z.of_nat k)) <=? 3)%nat)
                (seq 0 1000) = true) by (vm_compute; reflexivity).
  rewrite List.forallb_forall in E.
  specialize (E (Z.to_nat n)). rewrite Z2Nat.id in E by lia.
  apply Nat.leb_le, E, in_seq. lia.
Qed.

(** *** Padding *)

Lemma repeat_zero_digits (k : nat) : forallb isDigit (repeat "0" k) = true.
Proof. induction k; simpl; auto. Qed.

Lemma padStart_digits (w : nat) (s : string) :
  forallb isDigit s = true -> forallb isDigit (padStart w "0" s) = true.
Proof.
  intros H. unfold padStart. now rewrite forallb_append, repeat_zero_digits.
Qed.

Lemma padStart_nonempty (w : nat) (c : ascii) (s : string) :
  s <> "" -> padStart w c s <> "".
Proof.
  unfold padStart. intros H E.
  destruct (repeat c (w - String.length s)); simpl in E;
    [contradiction | discriminate].
Qed.

Lemma digitsValueAcc_zeros (k : nat) (s : string) :
  digitsValueAcc 0 (repeat "0" k ++ s) = digitsValueAcc 0 s.
Proof. induction k; simpl; [reflexivity | exact IHk]. Qed.

Lemma padStart_value (w : nat) (s : string) :
  digitsValue (padStart w "0" s) = digitsValue s.
Proof. unfold digitsValue, padStart. apply digitsValueAcc_zeros. Qed.

Lemma repeat_length (c : ascii) (k : nat) : String.length (repeat c k) = k.
Proof. induction k; simpl; [reflexivity | now rewrite IHk]. Qed.

Lemma padStart_length (w : nat) (c : ascii) (s : string) :
  (String.length s <= w)%nat -> String.length (padStart w c s) = w.
Proof.
  intros H. unfold padStart. rewrite length_append, repeat_length. lia.
Qed.

(** A digit is neither white space, nor a sign, nor a separator. *)
Lemma digit_cases (c : ascii) :
  isDigit c = true ->
  isSpace c = false /\ c <> "-"%char /\ c <> "+"%char /\ c <> "I"%char
  /\ Re.notChar ":" c = true /\ Re.notChar "-" c = true
  /\ Re.notChar LFchar c = true /\ c <> "."%char.
Proof.
  destruct c as [[] [] [] [] [] [] [] []]; vm_compute; intros H;
    try discriminate H; repeat split; try reflexivity; discriminate.
Qed.

End DigitFacts.

(** ** Arithmetic of the clock fields *)

Module ClockFacts.

Import Clock.

Local Open Scope Q_scope.

(** [lra] wants the division by 1000 as a product. *)
Ltac thousandth :=
  unfold Qdiv in *; change (/ 1000) with (1 # 1000) in *.

Lemma Qfloor_unique (x : Q) (z : Z) :
  inject_Z z <= x -> x < inject_Z (z + 1) -> Qfloor x = z.
Proof.
  intros H1 H2.
  pose proof (Qfloor_le x) as H3. pose proof (Qlt_floor x) as H4.
  assert (H5 : inject_Z (Qfloor x) < inject_Z (z + 1)) by lra.
  assert (H6 : inject_Z z < inject_Z (Qfloor x + 1)) by lra.
  rewrite <- Zlt_Qlt in H5, H6. lia.
Qed.

Lemma Qfloor_bounds (x : Q) :
  inject_Z (Qfloor x) <= x /\ x < inject_Z (Qfloor x) + 1.
Proof.
  pose proof (Qfloor_le x) as H3. pose proof (Qlt_floor x) as H4.
  rewrite inject_Z_plus in H4. change (inject_Z 1) with 1 in H4. split; lra.
Qed.

Lemma Qfloor_div_pos (x : Q) (p : positive) :
  Qfloor (x / inject_Z (Zpos p)) = (Qfloor x / Zpos p)%Z.
Proof.
  destruct x as [a b]. unfold Qdiv, Qinv, Qmult, Qfloor. simpl.
  rewrite Z.mul_1_r, Pos2Z.inj_mul. now rewrite Z.div_div by lia.
Qed.

Lemma Qfloor_sub_Z (x : Q) (z : Z) :
  Qfloor (x - inject_Z z) = (Qfloor x - z)%Z.
Proof.
  destruct (Qfloor_bounds x) as [H1 H2].
  apply Qfloor_unique.
  - unfold Z.sub. rewrite inject_Z_plus, inject_Z_opp. lra.
  - replace (Qfloor x - z + 1)%Z with (Qfloor x + 1 + - z)%Z by lia.
    rewrite !inject_Z_plus, inject_Z_opp. change (inject_Z 1) with 1. lra.
Qed.

Lemma Qfloor_nonneg (x : Q) : 0 <= x -> (0 <= Qfloor x)%Z.
Proof.
  intros H. now apply (Qfloor_resp_le 0 x).
Qed.

(** Rounding toward zero is [Qfloor] on a non-negative number. *)
Lemma truncate_nonneg (x : Q) : 0 <= x -> Num.truncate x = Qfloor x.
Proof.
  destruct x as [a b]. unfold Qle, Num.truncate, Qfloor. simpl.
  intros H. apply Z.quot_div_nonneg; lia.
Qed.

Lemma div_pos_nonneg (x : Q) (p : positive) :
  0 <= x -> 0 <= x / inject_Z (Zpos p).
Proof.
  intros H. apply Qle_shift_div_l; [reflexivity | lra].
Qed.

(** The remainder [x % p] of a non-negative [x], through its integer part. *)
Lemma rem_pos (x : Q) (p : positive) :
  0 <= x ->
  x - inject_Z (Zpos p) * inject_Z (Num.truncate (x / inject_Z (Zpos p)))
  == x - inject_Z (Zpos p * (Qfloor x / Zpos p)).
Proof.
  intros H.
  rewrite truncate_nonneg by now apply div_pos_nonneg.
  rewrite Qfloor_div_pos, inject_Z_mult. reflexivity.
Qed.

Lemma Qfloor_rem_pos (x : Q) (p : positive) :
  0 <= x ->
  Qfloor (x - inject_Z (Zpos p)
              * inject_Z (Num.truncate (x / inject_Z (Zpos p))))
  = (Qfloor x mod Zpos p)%Z.
Proof.
  intros H. rewrite (Qfloor_comp _ _ (rem_pos x p H)), Qfloor_sub_Z.
  rewrite Z.mod_eq by lia. reflexivity.
Qed.

(** *** The millisecond field *)

Lemma millis_range (s : Q) : (0 <= millis s <= 1000)%Z.
Proof.
  unfold millis. destruct (Qfloor_bounds s) as [H1 H2].
  split.
  - apply Qfloor_nonneg. lra.
  - pose proof (Qfloor_le ((s - inject_Z (Qfloor s)) * 1000 + (1 # 2))) as H.
    assert (H' : inject_Z (Qfloor ((s - inject_Z (Qfloor s)) * 1000 + (1 # 2)))
                 < inject_Z 1001) by (change (inject_Z 1001) with 1001; lra).
    rewrite <- Zlt_Qlt in H'. lia.
Qed.

(** The printed time is within half a millisecond of the time. *)
Lemma millis_close (s : Q) :
  Qabs (inject_Z (Qfloor s) + inject_Z (millis s) / 1000 - s) <= 1 # 2000.
Proof.
  unfold millis.
  set (f := s - inject_Z (Qfloor s)).
  destruct (Qfloor_bounds (f * 1000 + (1 # 2))) as [H1 H2].
  set (m := inject_Z (Qfloor (f * 1000 + (1 # 2)))) in *.
  unfold f in *. clearbody m. clear f. thousandth.
  apply Qabs_case; intros _; lra.
Qed.

End ClockFacts.

(** ** The timestamp codec *)

Module CodecFacts.

Import Str Shape StrFacts SplitFacts DigitFacts Clock ClockFacts Vtt.

Lemma readSign_digit (c : ascii) (s : string) :
  isDigit c = true -> Num.readSign (String c s) = (false, String c s).
Proof.
  destruct c as [[] [] [] [] [] [] [] []]; vm_compute; intros H;
    try discriminate H; reflexivity.
Qed.

Lemma parseInt_digits (ds : string) :
  forallb isDigit ds = true -> ds <> "" ->
  Num.parseInt ds = Fin (inject_Z (digitsValue ds)).
Proof.
  intros Hd Hne. destruct ds as [|c ds]; [contradiction|].
  pose proof Hd as Hc. simpl in Hc. apply andb_true_iff in Hc as [Hc _].
  unfold Num.parseInt.
  rewrite trimStart_stops by (simpl; apply (digit_cases c Hc)).
  rewrite (readSign_digit c ds Hc), (span_all _ _ Hd). reflexivity.
Qed.

Lemma prefix_Infinity_digit (c : ascii) (s : string) :
  isDigit c = true -> prefix "Infinity" (String c s) = false.
Proof.
  destruct c as [[] [] [] [] [] [] [] []]; vm_compute; intros H;
    try discriminate H; reflexivity.
Qed.

(** [parseFloat] on digits, a point, digits. *)
Lemma parseFloat_decimal (ip fp : string) :
  forallb isDigit ip = true -> ip <> "" -> forallb isDigit fp = true ->
  exists q : Q,
    Num.parseFloat (ip ++ "." ++ fp) = Fin q
    /\ (q == inject_Z (digitsValue ip)
             + inject_Z (digitsValue fp)
               / inject_Z (10 ^ Z.of_nat (String.length fp)))%Q.
Proof.
  intros Hi Hne Hf. destruct ip as [|c ip]; [contradiction|].
  pose proof Hi as Hc. simpl in Hc. apply andb_true_iff in Hc as [Hc _].
  unfold Num.parseFloat.
  rewrite trimStart_stops by (simpl; apply (digit_cases c Hc)).
  change (String c ip ++ "." ++ fp)%string
    with (String c (ip ++ "." ++ fp)).
  rewrite (readSign_digit c _ Hc), (prefix_Infinity_digit c _ Hc).
  change (String c (ip ++ "." ++ fp))
    with (String c ip ++ String "." fp)%string.
  rewrite (span_append isDigit (String c ip) (String "." fp) Hi)
    by reflexivity.
  rewrite (span_all _ _ Hf).
  cbn [isEmpty andb Num.readExponent Num.signed].
  eexists. split; [reflexivity|].
  change (Qpower 10 0) with 1%Q. ring.
Qed.

(** *** The printed form of a non-negative time *)

Lemma formatTimestamp_fields (s : Q) :
  (0 <= s)%Q ->
  formatTimestamp (Fin s)
  = clockText (Qfloor s / 3600) ((Qfloor s mod 3600) / 60)
              (Qfloor s mod 60) (millis s).
Proof.
  intros Hs. unfold formatTimestamp, clockText.
  change (Num.div (Fin s) (Num.ofZ 3600))
    with (Fin (s / inject_Z 3600)).
  change (Num.rem (Fin s) (Num.ofZ 3600))
    with (Fin (s - inject_Z 3600
                   * inject_Z (Num.truncate (s / inject_Z 3600)))).
  change (Num.rem (Fin s) (Num.ofZ 60))
    with (Fin (s - inject_Z 60 * inject_Z (Num.truncate (s / inject_Z 60)))).
  change (Num.rem (Fin s) (Num.ofZ 1))
    with (Fin (s - inject_Z 1 * inject_Z (Num.truncate (s / inject_Z 1)))).
  match goal with
  | |- context [Num.div (Fin ?x) (Num.ofZ 60)] =>
      change (Num.div (Fin x) (Num.ofZ 60)) with (Fin (x / inject_Z 60))
  end.
  cbn [Num.floor Num.round Num.mul Num.ofZ Num.toString].
  rewrite !Qfloor_Z.
  rewrite !Qfloor_div_pos, !Qfloor_rem_pos by assumption.
  match goal with
  | |- context [Qfloor (?e + (1 # 2))] =>
      replace (Qfloor (e + (1 # 2))) with (millis s); [reflexivity|]
  end.
  apply Qfloor_comp. rewrite (rem_pos s 1 Hs).
  now rewrite Z.div_1_r, Z.mul_1_l.
Qed.

Lemma clockChar_digits (s : string) :
  forallb isDigit s = true -> forallb clockChar s = true.
Proof.
  apply forallb_impl. intros c H. unfold clockChar. now rewrite H.
Qed.

Lemma clockText_chars (h m s ms : Z) :
  0 <= h -> 0 <= m -> 0 <= s -> 0 <= ms ->
  forallb clockChar (clockText h m s ms) = true.
Proof.
  intros Hh Hm Hs Hms. unfold clockText.
  rewrite !forallb_append.
  rewrite (clockChar_digits (padStart 2 "0" (ofZ h))),
    (clockChar_digits (padStart 2 "0" (ofZ m))),
    (clockChar_digits (padStart 2 "0" (ofZ s))),
    (clockChar_digits (padStart 3 "0" (ofZ ms)));
    try reflexivity; apply padStart_digits, ofZ_digits; lia.
Qed.

Lemma clockText_first (h m s ms : Z) :
  0 <= h ->
  exists c r, clockText h m s ms = String c r /\ isDigit c = true.
Proof.
  intros Hh. unfold clockText.
  pose proof (padStart_digits 2 _ (ofZ_digits h Hh)) as Hd.
  pose proof (padStart_nonempty 2 "0" _ (ofZ_nonempty h)) as Hne.
  destruct (padStart 2 "0" (ofZ h)) as [|c r]; [contradiction|].
  simpl in Hd. apply andb_true_iff in Hd as [Hc _].
  eexists c, _. split; [reflexivity | exact Hc].
Qed.

(** *** Reading the printed form back *)

Lemma clockText_parse (h m s ms : Z) :
  0 <= h -> 0 <= m -> 0 <= s -> 0 <= ms < 1000 ->
  exists q : Q,
    parseTimestamp (clockText h m s ms) = Fin q
    /\ (q == inject_Z (h * 3600 + m * 60 + s) + inject_Z ms / 1000)%Q.
Proof.
  intros Hh Hm Hs Hms. unfold parseTimestamp, clockText.
  set (H := padStart 2 "0" (ofZ h)).
  set (M := padStart 2 "0" (ofZ m)).
  set (S := padStart 2 "0" (ofZ s)).
  set (F := padStart 3 "0" (ofZ ms)).
  assert (HdH : forallb isDigit H = true)
    by (apply padStart_digits, ofZ_digits; lia).
  assert (HdM : forallb isDigit M = true)
    by (apply padStart_digits, ofZ_digits; lia).
  assert (HdS : forallb isDigit S = true)
    by (apply padStart_digits, ofZ_digits; lia).
  assert (HdF : forallb isDigit F = true)
    by (apply padStart_digits, ofZ_digits; lia).
  assert (noColon : forall d, forallb isDigit d = true ->
                              forallb (Re.notChar ":") d = true).
  { intros d. apply forallb_impl. intros c Hc. apply (digit_cases c Hc). }
  rewrite (split_sep ":" "" H _ (noColon H HdH)).
  rewrite (split_sep ":" "" M _ (noColon M HdM)).
  rewrite (split_plain ":" "" (S ++ "." ++ F)%string)
    by (rewrite !forallb_append, (noColon S HdS), (noColon F HdF);
        reflexivity).
  rewrite (parseInt_digits H HdH) by (apply padStart_nonempty, ofZ_nonempty).
  rewrite (parseInt_digits M HdM) by (apply padStart_nonempty, ofZ_nonempty).
  destruct (parseFloat_decimal S F HdS
              (padStart_nonempty 2 "0" _ (ofZ_nonempty s)) HdF)
    as (q & -> & Hq).
  eexists. split; [reflexivity|]. rewrite Hq.
  unfold H, M, S, F. rewrite !padStart_value, !ofZ_value by lia.
  rewrite padStart_length by (apply ofZ_length_3; lia).
  change (inject_Z (10 ^ Z.of_nat 3)) with 1000%Q.
  rewrite !inject_Z_plus, !inject_Z_mult. ring.
Qed.

(** [parseTimestamp (formatTimestamp s)] for a non-negative [s] whose
    millisecond field is below 1000: the integer part of [s] plus the
    rounded milliseconds. *)
Lemma codec_value (s : Q) :
  (0 <= s)%Q -> millis s < 1000 ->
  exists q : Q,
    parseTimestamp (formatTimestamp (Fin s)) = Fin q
    /\ (q == inject_Z (Qfloor s) + inject_Z (millis s) / 1000)%Q.
Proof.
  intros Hs Hms. rewrite (formatTimestamp_fields s Hs).
  pose proof (Qfloor_nonneg s Hs) as Hn.
  pose proof (millis_range s) as Hr.
  destruct (clockText_parse (Qfloor s / 3600) ((Qfloor s mod 3600) / 60)
              (Qfloor s mod 60) (millis s)) as (q & E & Hq).
  - apply Z.div_pos; lia.
  - apply Z.div_pos; [apply Z.mod_pos_bound|]; lia.
  - apply Z.mod_pos_bound; lia.
  - lia.
  - exists q. split; [exact E|]. rewrite Hq.
    replace (Qfloor s / 3600 * 3600 + Qfloor s mod 3600 / 60 * 60
             + Qfloor s mod 60) with (Qfloor s); [reflexivity|].
    pose proof (Z.div_mod (Qfloor s) 3600 ltac:(lia)).
    pose proof (Z.div_mod (Qfloor s mod 3600) 60 ltac:(lia)).
    assert ((Qfloor s mod 3600) mod 60 = Qfloor s mod 60).
    { apply Zdiv.Z.mod_mod_divide. exists 60. reflexivity. }
    lia.
Qed.

Lemma codec_close (s : Q) :
  (0 <= s)%Q -> millis s < 1000 ->
  exists q : Q,
    parseTimestamp (formatTimestamp (Fin s)) = Fin q
    /\ (Qabs (q - s) <= 1 # 2000)%Q.
Proof.
  intros Hs Hms. destruct (codec_value s Hs Hms) as (q & E & Hq).
  exists q. split; [exact E|]. rewrite Hq. apply millis_close.
Qed.

End CodecFacts.

(** ** The cue parser, block by block *)

Module ParseFacts.

Import Str Shape StrFacts SplitFacts Vtt Block.

Lemma join_cons (sep x y : string) (l : list string) :
  join sep (x :: y :: l) = (x ++ sep ++ join sep (y :: l))%string.
Proof. reflexivity. Qed.

Lemma split_join (lines : list string) :
  lines <> [] -> Forall noLF lines -> split LF (join LF lines) = lines.
Proof.
  intros Hne H. induction H as [|l ls Hl Hls IH]; [contradiction|].
  destruct ls as [|l' ls].
  - now apply (split_plain LFchar "").
  - rewrite join_cons. change LF with (String LFchar "") at 2.
    rewrite (split_sep LFchar "" l _ Hl).
    change (String LFchar "") with LF. now rewrite IH.
Qed.

(** *** Trimming does not touch the arrow *)

Lemma prefix_trimEnd (sep s : string) :
  forallb (fun c => negb (isSpace c)) sep = true ->
  prefix sep (trimEnd s) = prefix sep s.
Proof.
  revert sep. induction s as [|c s IH]; intros sep Hsep; [reflexivity|].
  destruct sep as [|a sep]; [now destruct (trimEnd (String c s))|].
  simpl in Hsep. apply andb_true_iff in Hsep as [Ha Hsep].
  apply negb_true_iff in Ha.
  specialize (IH sep Hsep).
  cbn [trimEnd]. destruct (trimEnd s) as [|x r].
  - destruct (isSpace c) eqn:Hc; simpl.
    + destruct (ascii_dec a c) as [->|]; [congruence | reflexivity].
    + destruct (ascii_dec a c); [exact IH | reflexivity].
  - simpl. destruct (ascii_dec a c); [exact IH | reflexivity].
Qed.

Lemma includes_trimEnd (sep s : string) :
  sep <> "" -> forallb (fun c => negb (isSpace c)) sep = true ->
  includes sep (trimEnd s) = includes sep s.
Proof.
  intros Hne Hsep. induction s as [|c s IH]; [reflexivity|].
  cbn [includes]. rewrite <- (prefix_trimEnd sep (String c s) Hsep), <- IH.
  cbn [trimEnd]. destruct (trimEnd s) as [|x r] eqn:E.
  - destruct (isSpace c); cbn [includes]; [|reflexivity].
    destruct sep; [contradiction | reflexivity].
  - reflexivity.
Qed.

Lemma includes_trimStart (a : ascii) (sep s : string) :
  isSpace a = false ->
  includes (String a sep) (trimStart s) = includes (String a sep) s.
Proof.
  intros Ha. induction s as [|c s IH]; [reflexivity|].
  cbn [trimStart]. destruct (isSpace c) eqn:Hc; [|reflexivity].
  rewrite IH. cbn [includes].
  replace (prefix (String a sep) (String c s)) with false; [reflexivity|].
  simpl. destruct (ascii_dec a c) as [->|]; [congruence | reflexivity].
Qed.

Lemma isTimestampLine_trim (l : string) :
  isTimestampLine (trim l) = isTimestampLine l.
Proof.
  unfold isTimestampLine, trim.
  rewrite includes_trimEnd by (discriminate || reflexivity).
  now apply includes_trimStart.
Qed.

(** *** The two loops *)

Lemma parseBlocks_skipHeader (lines : list string) :
  parseBlocks (skipHeader lines) = parseBlocks lines.
Proof.
  induction lines as [|l rest IH]; [reflexivity|].
  cbn [skipHeader]. destruct (isTimestampLine l) eqn:E; [reflexivity|].
  rewrite IH. cbn [parseBlocks]. now rewrite isTimestampLine_trim, E.
Qed.

Lemma parseBlocks_plain (l : string) (rest : list string) :
  isTimestampLine l = false -> parseBlocks (l :: rest) = parseBlocks rest.
Proof.
  intros E. cbn [parseBlocks]. now rewrite isTimestampLine_trim, E.
Qed.

Lemma parseBlocks_header (header rest : list string) :
  Forall (fun l => isTimestampLine l = false) header ->
  parseBlocks (header ++ rest) = parseBlocks rest.
Proof.
  induction 1 as [|l header Hl _ IH]; [reflexivity|].
  cbn [app]. now rewrite (parseBlocks_plain l _ Hl).
Qed.

Lemma last_cons {A : Type} (x d : A) (l : list A) :
  last (x :: l) d = last l x.
Proof.
  revert x d. induction l as [|y l IH]; intros x d; [reflexivity|].
  change (last (x :: y :: l) d) with (last (y :: l) d).
  now rewrite !IH.
Qed.

Section TextLines.

Variables (start end_ : number) (next : list string -> list VTTCue).

(** The state of the inner loop after the text lines [ls]. *)
Lemma readTextLines_app (ls rest : list string) :
  Forall nonBlank ls ->
  forall (textLines : list string) (speaker : option string),
    readTextLines start end_ next textLines speaker (ls ++ rest)
    = readTextLines start end_ next (textLines ++ blockTexts ls)
        (last (map Some (speakerNames ls)) speaker) rest.
Proof.
  induction 1 as [|l ls Hl _ IH]; intros textLines speaker.
  - cbn. now rewrite app_nil_r.
  - cbn [app readTextLines]. unfold nonBlank in Hl.
    apply isEmpty_false in Hl. rewrite Hl.
    unfold blockTexts, speakerNames, lineText in *.
    cbn [map flat_map filter].
    destruct (matchSpeakerTag (trim l)) as [[name after]|].
    + rewrite IH. cbn [app map]. rewrite last_cons.
      destruct (isEmpty after); cbn [negb];
        [reflexivity | now rewrite <- app_assoc].
    + rewrite IH. rewrite Hl. cbn [negb app]. now rewrite <- app_assoc.
Qed.

Lemma readTextLines_blank (b : string) (more : list string)
    (textLines : list string) (speaker : option string) :
  blank b ->
  readTextLines start end_ next textLines speaker (b :: more)
  = emit start end_ textLines speaker ++ next more.
Proof. unfold blank. intros Hb. cbn [readTextLines]. now rewrite Hb. Qed.

End TextLines.

Lemma emit_block (ts : string) (ls : list string) :
  emit (fst (parseRange (trim ts))) (snd (parseRange (trim ts)))
       (blockTexts ls) (blockSpeaker ls)
  = blockCues ts ls.
Proof. unfold emit, blockCues. now destruct (blockTexts ls). Qed.

(** A block in the middle of the input: its cue, then the cues of what
    follows the blank line. *)
Lemma parseBlocks_block (ts b : string) (ls more : list string) :
  isTimestampLine ts = true -> Forall nonBlank ls -> blank b ->
  parseBlocks (ts :: ls ++ b :: more) = blockCues ts ls ++ parseBlocks more.
Proof.
  intros Hts Hls Hb. cbn [parseBlocks].
  rewrite isTimestampLine_trim, Hts.
  destruct (parseRange (trim ts)) as [s e] eqn:E.
  rewrite (readTextLines_app s e parseBlocks ls _ Hls).
  rewrite (readTextLines_blank s e parseBlocks b more _ _ Hb).
  cbn [app]. rewrite <- emit_block, E. reflexivity.
Qed.

(** A block that ends the input. *)
Lemma parseBlocks_last_block (ts : string) (ls : list string) :
  isTimestampLine ts = true -> Forall nonBlank ls ->
  parseBlocks (ts :: ls) = blockCues ts ls.
Proof.
  intros Hts Hls. cbn [parseBlocks].
  rewrite isTimestampLine_trim, Hts.
  destruct (parseRange (trim ts)) as [s e] eqn:E.
  rewrite <- (app_nil_r ls) at 1.
  rewrite (readTextLines_app s e parseBlocks ls _ Hls).
  cbn [app readTextLines]. rewrite <- emit_block, E. reflexivity.
Qed.

Lemma parseVTT_lines (lines : list string) :
  lines <> [] -> Forall noLF lines ->
  parseVTT (join LF lines) = parseBlocks lines.
Proof.
  intros Hne H. unfold parseVTT.
  now rewrite split_join, parseBlocks_skipHeader.
Qed.

Lemma parseVTT_join (lines : list string) :
  Forall noLF lines -> parseVTT (join LF lines) = parseBlocks lines.
Proof.
  intros H. destruct lines as [|l ls]; [reflexivity|].
  now apply parseVTT_lines.
Qed.

(** The first block of a document gives its cue, and the rest of the
    document is parsed as a document of its own. *)
Lemma parseVTT_block (header : list string) (ts : string)
    (ls : list string) (b : string) (more : list string) :
  firstBlock header ts ls b more ->
  parseVTT (join LF (firstBlockLines header ts ls b more))
  = blockCues ts ls ++ parseVTT (join LF more).
Proof.
  intros (Hh & Hts & Hls & Hb & Hlf). unfold firstBlockLines in *.
  rewrite (parseVTT_join _ Hlf), (parseBlocks_header _ _ Hh).
  rewrite (parseBlocks_block ts b ls more Hts Hls Hb).
  rewrite parseVTT_join; [reflexivity|].
  apply Forall_app in Hlf as [_ Hlf]. apply Forall_inv_tail in Hlf.
  apply Forall_app in Hlf as [_ Hlf]. now apply Forall_inv_tail in Hlf.
Qed.

Lemma parseVTT_last_block (header : list string) (ts : string)
    (ls : list string) :
  lastBlock header ts ls ->
  parseVTT (join LF (header ++ ts :: ls)) = blockCues ts ls.
Proof.
  intros (Hh & Hts & Hls & Hlf).
  rewrite (parseVTT_join _ Hlf), (parseBlocks_header _ _ Hh).
  now apply parseBlocks_last_block.
Qed.

(** *** Line feeds do not come back *)

Lemma forallb_trimStart p (s : string) :
  forallb p s = true -> forallb p (trimStart s) = true.
Proof.
  induction s as [|c s IH]; [reflexivity|].
  intros H. cbn [trimStart]. destruct (isSpace c); [|exact H].
  simpl in H. apply andb_true_iff in H as [_ H]. now apply IH.
Qed.

Lemma forallb_trimEnd p (s : string) :
  forallb p s = true -> forallb p (trimEnd s) = true.
Proof.
  induction s as [|c s IH]; [reflexivity|].
  intros H. simpl in H. apply andb_true_iff in H as [Hc H].
  specialize (IH H). cbn [trimEnd]. destruct (trimEnd s) as [|x r].
  - destruct (isSpace c); simpl; [reflexivity | now rewrite Hc].
  - cbn [forallb] in *. now rewrite Hc, IH.
Qed.

Lemma forallb_trim p (s : string) :
  forallb p s = true -> forallb p (trim s) = true.
Proof. intros H. now apply forallb_trimEnd, forallb_trimStart. Qed.

Lemma forallb_drop p (k : nat) (s : string) :
  forallb p s = true -> forallb p (drop k s) = true.
Proof.
  revert s. induction k as [|k IH]; intros s H; [now destruct s|].
  destruct s as [|c s]; [reflexivity|].
  simpl in H. apply andb_true_iff in H as [_ H]. now apply IH.
Qed.

Lemma forallb_span p q (s : string) :
  forallb p s = true ->
  forallb p (fst (span q s)) = true /\ forallb p (snd (span q s)) = true.
Proof.
  induction s as [|c s IH]; [now split|].
  intros H. pose proof H as H'. simpl in H'.
  apply andb_true_iff in H' as [Hc Hs]. specialize (IH Hs).
  cbn [span]. destruct (q c); [|now split].
  destruct (span q s) as [a b]. simpl in *. now rewrite Hc.
Qed.

Lemma tryDown_some {A : Type} (P : A -> Prop) (lo extra : nat)
    (f : nat -> option A) (r : A) :
  (forall k x, f k = Some x -> P x) ->
  Re.tryDown lo extra f = Some r -> P r.
Proof.
  intros Hf. induction extra as [|e IH]; cbn [Re.tryDown].
  - destruct (f (lo + 0)%nat) eqn:E; [|discriminate].
    intros [= <-]. eauto.
  - destruct (f (lo + S e)%nat) eqn:E; [intros [= <-]; eauto | exact IH].
Qed.

(** What a tag match captures: a non-empty name, and a text made of
    characters of the line. *)
Lemma matchSpeakerTag_some p (text name after : string) :
  matchSpeakerTag text = Some (name, after) ->
  name <> "" /\ (forallb p text = true -> forallb p after = true).
Proof.
  unfold matchSpeakerTag.
  destruct text as [|c1 text]; [discriminate|].
  destruct (Ascii.eqb c1 "<") eqn:E1;
    [apply Ascii.eqb_eq in E1 as ->
    | destruct c1 as [[] [] [] [] [] [] [] []]; try discriminate;
      now rewrite Ascii.eqb_refl in E1].
  destruct text as [|c2 r]; [discriminate|].
  destruct (Ascii.eqb c2 "v") eqn:E2;
    [apply Ascii.eqb_eq in E2 as ->
    | destruct c2 as [[] [] [] [] [] [] [] []]; try discriminate;
      now rewrite Ascii.eqb_refl in E2].
  destruct (String.length (fst (span isSpace r))) as [|extra];
    [discriminate|].
  apply (tryDown_some
           (fun x => fst x <> "" /\
                     (forallb p (String "<" (String "v" r)) = true ->
                      forallb p (snd x) = true)) 1 extra _ (name, after)).
  intros k [n a]. pose proof (forallb_span p (Re.notChar ">") (drop k r)) as Hs.
  destruct (span (Re.notChar ">") (drop k r)) as [n' r'].
  destruct n' as [|x n']; [discriminate|].
  destruct r' as [|y r']; [discriminate|].
  intros [= <- <-]. split; [discriminate|].
  intros H. simpl in H. apply andb_true_iff in H as [_ H].
  apply andb_true_iff in H as [_ H].
  destruct (Hs (forallb_drop p k r H)) as [_ H2].
  cbn [snd forallb] in H2. apply andb_true_iff in H2 as [_ H2].
  unfold Re.dotStar. now apply forallb_span.
Qed.

Lemma lineText_noLF (l : string) : noLF l -> noLF (lineText l).
Proof.
  unfold noLF, lineText. intros H.
  pose proof (forallb_trim _ l H) as Ht.
  destruct (matchSpeakerTag (trim l)) as [[name after]|] eqn:E; [|exact Ht].
  now apply (matchSpeakerTag_some _ _ _ _ E).
Qed.

(** *** The speaker of a block *)

Lemma speakerNames_app (a b : list string) :
  speakerNames (a ++ b) = speakerNames a ++ speakerNames b.
Proof. unfold speakerNames. apply flat_map_app. Qed.

Lemma speakerNames_none (ls : list string) :
  Forall (fun l => matchSpeakerTag (trim l) = None) ls ->
  speakerNames ls = [].
Proof.
  induction 1 as [|l ls Hl _ IH]; [reflexivity|].
  unfold speakerNames in *. cbn [flat_map]. now rewrite Hl, IH.
Qed.

Lemma blockSpeaker_last_match (pre post : list string) (l name after : string) :
  matchSpeakerTag (trim l) = Some (name, after) ->
  Forall (fun l' => matchSpeakerTag (trim l') = None) post ->
  blockSpeaker (pre ++ l :: post) = Some name.
Proof.
  intros Hl Hpost. unfold blockSpeaker.
  rewrite speakerNames_app.
  change (l :: post) with ([l] ++ post). rewrite speakerNames_app.
  rewrite (speakerNames_none post Hpost), app_nil_r.
  unfold speakerNames at 2. cbn [flat_map]. rewrite Hl.
  cbn [app]. rewrite map_app. cbn [map]. apply last_last.
Qed.

(** *** Blocks with and without text *)

Lemma skipHeader_none (lines : list string) :
  Forall (fun l => isTimestampLine l = false) lines -> skipHeader lines = [].
Proof.
  induction 1 as [|l ls Hl _ IH]; [reflexivity|].
  cbn [skipHeader]. now rewrite Hl.
Qed.

Lemma blockTexts_empty (ls : list string) :
  Forall (fun l => lineText l = "") ls -> blockTexts ls = [].
Proof.
  induction 1 as [|l ls Hl _ IH]; [reflexivity|].
  unfold blockTexts in *. cbn [map filter]. now rewrite Hl.
Qed.

Lemma blockTexts_full (ls : list string) :
  Forall (fun l => lineText l <> "") ls -> blockTexts ls = map lineText ls.
Proof.
  induction 1 as [|l ls Hl _ IH]; [reflexivity|].
  unfold blockTexts in *. cbn [map filter].
  apply isEmpty_false in Hl. now rewrite Hl, IH.
Qed.

Lemma blockCues_three (ts l1 l2 l3 : string) :
  lineText l1 <> "" -> lineText l2 <> "" -> lineText l3 <> "" ->
  blockCues ts [l1; l2; l3]
  = [mkCue (fst (parseRange (trim ts))) (snd (parseRange (trim ts)))
           (blockSpeaker [l1; l2; l3])
           (lineText l1 ++ " " ++ lineText l2 ++ " " ++ lineText l3)].
Proof.
  intros H1 H2 H3. unfold blockCues.
  rewrite blockTexts_full by (repeat constructor; assumption).
  reflexivity.
Qed.

Lemma noLF_three (a b c : string) :
  noLF a -> noLF b -> noLF c -> noLF (a ++ " " ++ b ++ " " ++ c).
Proof.
  unfold noLF. intros Ha Hb Hc.
  rewrite !forallb_append, Ha, Hb, Hc. reflexivity.
Qed.

(** *** No cue comes out with an empty speaker name *)

Lemma emit_speaker (s e : number) (textLines : list string)
    (speaker0 : option string) :
  speaker0 <> Some "" ->
  Forall (fun c => speaker c <> Some "") (emit s e textLines speaker0).
Proof.
  intros H. unfold emit. destruct textLines; repeat constructor. exact H.
Qed.

Lemma readTextLines_speaker (s e : number)
    (next : list string -> list VTTCue) (lines : list string) :
  (forall r, (List.length r <= List.length lines)%nat ->
             Forall (fun c => speaker c <> Some "") (next r)) ->
  forall textLines speaker0,
    speaker0 <> Some "" ->
    Forall (fun c => speaker c <> Some "")
           (readTextLines s e next textLines speaker0 lines).
Proof.
  induction lines as [|l rest IH]; intros Hnext textLines speaker0 Hsp.
  - now apply emit_speaker.
  - cbn [readTextLines]. destruct (isEmpty (trim l)).
    + apply Forall_app. split; [now apply emit_speaker|].
      apply Hnext. simpl. lia.
    + assert (Hrest : forall r, (List.length r <= List.length rest)%nat ->
                                Forall (fun c => speaker c <> Some "") (next r))
        by (intros r Hr; apply Hnext; simpl; lia).
      destruct (matchSpeakerTag (trim l)) as [[name after]|] eqn:E.
      * apply (IH Hrest).
        destruct (matchSpeakerTag_some (fun _ => true) _ _ _ E) as [Hne _].
        congruence.
      * now apply (IH Hrest).
Qed.

Lemma parseBlocks_speaker (lines : list string) :
  Forall (fun c => speaker c <> Some "") (parseBlocks lines).
Proof.
  remember (List.length lines) as n eqn:Hn.
  assert (Hle : (List.length lines <= n)%nat) by lia. clear Hn.
  revert lines Hle. induction n as [|n IH]; intros lines Hle.
  - destruct lines; [constructor | simpl in Hle; lia].
  - destruct lines as [|l rest]; [constructor|].
    cbn [parseBlocks]. simpl in Hle.
    destruct (isTimestampLine (trim l)); [|apply IH; lia].
    destruct (parseRange (trim l)) as [s e].
    apply readTextLines_speaker; [|discriminate].
    intros r Hr. apply IH. lia.
Qed.

End ParseFacts.

(** ** Serializing, and parsing what was serialized *)

Module RoundTripFacts.

Import Str Shape StrFacts SplitFacts DigitFacts Clock ClockFacts CodecFacts.
Import Vtt Block ParseFacts RoundTrip.

Lemma fold_left_append (f : VTTCue -> string) (cues : list VTTCue)
    (init : string) :
  fold_left (fun (v : string) c => (v ++ f c)%string) cues init
  = (init ++ String.concat "" (map f cues))%string.
Proof.
  revert init. induction cues as [|c cues IH]; intros init.
  - simpl. now rewrite append_nil_r.
  - cbn [fold_left map]. rewrite IH, append_assoc. f_equal.
    destruct cues; simpl; [now rewrite append_nil_r | reflexivity].
Qed.

Lemma concat_cons (x : string) (l : list string) :
  String.concat "" (x :: l) = (x ++ String.concat "" l)%string.
Proof. destruct l; simpl; [now rewrite append_nil_r | reflexivity]. Qed.

Lemma serializeCue_lines (c : VTTCue) :
  serializeCue c = unlines (cueLines c).
Proof.
  unfold serializeCue, cueLines, rangeLine, textLine. cbn [unlines].
  rewrite !append_assoc. do 4 f_equal.
  destruct (speaker c) as [[|x s]|]; rewrite ?append_assoc;
    now rewrite ?append_nil_r.
Qed.

(** The document is the header, a blank line, and the lines of the cues. *)
Lemma serializeVTT_lines (cues : list VTTCue) :
  serializeVTT cues
  = unlines ("WEBVTT" :: "" :: flat_map cueLines cues).
Proof.
  unfold serializeVTT. rewrite fold_left_append.
  cbn [unlines]. rewrite !append_assoc. do 2 f_equal.
  change ("" ++ LF ++ unlines (flat_map cueLines cues))%string
    with (LF ++ unlines (flat_map cueLines cues))%string.
  f_equal. induction cues as [|c cues IH]; [reflexivity|].
  cbn [map flat_map]. rewrite concat_cons, unlines_app, IH.
  now rewrite serializeCue_lines.
Qed.

(** *** The lines of a printable cue *)

Lemma clockChar_cases (c : ascii) :
  clockChar c = true ->
  isSpace c = false /\ Re.notChar "-" c = true /\ Re.notChar LFchar c = true.
Proof.
  destruct c as [[] [] [] [] [] [] [] []]; vm_compute; intros H;
    try discriminate H; repeat split.
Qed.

(** The printed form of a safe time. *)
Lemma formatTimestamp_safe (n : number) :
  safeTime n ->
  exists c r,
    formatTimestamp n = String c r
    /\ forallb clockChar (String c r) = true.
Proof.
  intros (s & -> & Hs & Hms).
  rewrite (formatTimestamp_fields s Hs).
  pose proof (Qfloor_nonneg s Hs) as Hn.
  pose proof (millis_range s) as Hr.
  assert (H1 : 0 <= Qfloor s / 3600) by (apply Z.div_pos; lia).
  assert (H2 : 0 <= Qfloor s mod 3600 / 60)
    by (apply Z.div_pos; [apply Z.mod_pos_bound|]; lia).
  assert (H3 : 0 <= Qfloor s mod 60) by (apply Z.mod_pos_bound; lia).
  destruct (clockText_first _ (Qfloor s mod 3600 / 60) (Qfloor s mod 60)
              (millis s) H1) as (c & r & E & _).
  exists c, r. split; [exact E|]. rewrite <- E.
  apply clockText_chars; lia.
Qed.

Lemma clock_noSpace (s : string) :
  forallb clockChar s = true ->
  forallb (fun c => negb (isSpace c)) s = true.
Proof.
  apply forallb_impl. intros c H. apply negb_true_iff.
  apply (clockChar_cases c H).
Qed.

Lemma clock_noDash (s : string) :
  forallb clockChar s = true -> forallb (Re.notChar "-") s = true.
Proof. apply forallb_impl. intros c H. apply (clockChar_cases c H). Qed.

Lemma clock_noLF (s : string) : forallb clockChar s = true -> noLF s.
Proof. apply forallb_impl. intros c H. apply (clockChar_cases c H). Qed.

Lemma trim_clock (s : string) : forallb clockChar s = true -> trim s = s.
Proof.
  intros H. unfold trim. destruct s as [|c s]; [reflexivity|].
  pose proof H as Hc. simpl in Hc. apply andb_true_iff in Hc as [Hc _].
  rewrite trimStart_stops by (simpl; apply (clockChar_cases c Hc)).
  apply trimEnd_noSpace. now apply clock_noSpace.
Qed.

Section RangeLine.

Variables (a b : string).
Hypotheses (Ha : forallb clockChar a = true)
           (Hb : forallb clockChar b = true)
           (Hane : a <> "") (Hbne : b <> "").

Lemma rangeLine_trim : trim (a ++ " --> " ++ b) = (a ++ " --> " ++ b)%string.
Proof.
  destruct a as [|c r] eqn:Ea; [contradiction|].
  pose proof Ha as Hc. simpl in Hc. apply andb_true_iff in Hc as [Hc _].
  rewrite <- (append_assoc (String c r) " --> " b).
  change (String c r ++ " --> ")%string with (String c (r ++ " --> ")).
  apply trim_append_fix; [apply (clockChar_cases c Hc) | assumption|].
  apply trimEnd_noSpace. now apply clock_noSpace.
Qed.

Lemma rangeLine_arrow : isTimestampLine (a ++ " --> " ++ b) = true.
Proof.
  unfold isTimestampLine.
  change (a ++ " --> " ++ b)%string with (a ++ " " ++ "-->" ++ " " ++ b)%string.
  rewrite <- (append_assoc a " "). apply includes_append.
Qed.

Lemma rangeLine_split :
  map trim (split "-->" (a ++ " --> " ++ b)) = [a; b].
Proof.
  change (a ++ " --> " ++ b)%string with (a ++ " " ++ "-->" ++ " " ++ b)%string.
  rewrite <- (append_assoc a " ").
  rewrite (split_sep "-" "->" (a ++ " ") (" " ++ b)).
  - rewrite (split_plain "-" "->" (" " ++ b)).
    + cbn [map]. f_equal; [|f_equal].
      * unfold trim. destruct a as [|c r] eqn:Ea; [contradiction|].
        pose proof Ha as Hc. simpl in Hc.
        apply andb_true_iff in Hc as [Hc _].
        change (String c r ++ " ")%string with (String c (r ++ " ")).
        rewrite trimStart_stops by (simpl; apply (clockChar_cases c Hc)).
        change (String c (r ++ " ")) with (String c r ++ " ")%string.
        rewrite trimEnd_append_spaces by reflexivity.
        apply trimEnd_noSpace. now apply clock_noSpace.
      * change (trim (" " ++ b)) with (trim b). now apply trim_clock.
    + rewrite forallb_append, (clock_noDash b Hb). reflexivity.
  - rewrite forallb_append, (clock_noDash a Ha). reflexivity.
Qed.

Lemma rangeLine_parse :
  parseRange (trim (a ++ " --> " ++ b)) = (parseTimestamp a, parseTimestamp b).
Proof.
  rewrite rangeLine_trim. unfold parseRange. now rewrite rangeLine_split.
Qed.

Lemma rangeLine_noLF : noLF (a ++ " --> " ++ b).
Proof.
  unfold noLF. rewrite !forallb_append.
  rewrite (clock_noLF a Ha), (clock_noLF b Hb). reflexivity.
Qed.

End RangeLine.

(** *** The text line *)

Lemma matchSpeakerTag_tagged (name t : string) :
  tagName name -> forallb Re.notLineTerminator t = true ->
  matchSpeakerTag ("<v " ++ name ++ ">" ++ t) = Some (name, t).
Proof.
  intros (Hne & Hsp & Hgt & _) Ht.
  change ("<v " ++ name ++ ">" ++ t)%string
    with (String "<" (String "v" (" " ++ name ++ ">" ++ t))).
  cbn [matchSpeakerTag].
  assert (Hstop : stops isSpace (name ++ ">" ++ t)).
  { destruct name; [contradiction | exact Hsp]. }
  rewrite (span_append isSpace " " (name ++ ">" ++ t) eq_refl Hstop).
  cbn [fst String.length Re.tryDown Nat.add drop].
  change (" " ++ name ++ ">" ++ t)%string with (String " " (name ++ ">" ++ t)).
  cbn [drop].
  rewrite (span_append (Re.notChar ">") name (">" ++ t) Hgt eq_refl).
  destruct name as [|x name]; [contradiction|].
  cbn. unfold Re.dotStar. now rewrite (span_all _ _ Ht).
Qed.

Lemma notLineTerminator_noLF (t : string) :
  forallb Re.notLineTerminator t = true -> noLF t.
Proof.
  apply forallb_impl. intros c.
  destruct c as [[] [] [] [] [] [] [] []]; vm_compute; congruence.
Qed.

(** What the parser makes of the text line of a printable cue. *)
Lemma textLine_read (c : VTTCue) :
  printable c ->
  nonBlank (textLine c) /\ noLF (textLine c)
  /\ lineText (textLine c) = text c
  /\ blockSpeaker [textLine c] = printedSpeaker (speaker c).
Proof.
  intros (_ & _ & (Hne & Htrim & Hlt) & Hsp).
  destruct (trim_fix _ Htrim) as [_ Hend].
  unfold textLine, nonBlank, lineText, blockSpeaker, speakerNames.
  cbn [flat_map].
  destruct (speaker c) as [[|x name]|]; cbn [printedSpeaker] in *.
  - rewrite Htrim, Hsp. repeat split; try assumption.
    now apply notLineTerminator_noLF.
  - assert (E : trim ("<v " ++ String x name ++ ">" ++ text c)
                = ("<v " ++ String x name ++ ">" ++ text c)%string).
    { rewrite <- (append_assoc (String x name) ">"), <- append_assoc.
      change ("<v " ++ String x name ++ ">")%string
        with (String "<" ("v " ++ String x name ++ ">")).
      now apply trim_append_fix. }
    rewrite E, (matchSpeakerTag_tagged _ _ Hsp Hlt).
    repeat split; try discriminate.
    destruct Hsp as (_ & _ & _ & Hlf). unfold noLF in *.
    rewrite !forallb_append, Hlf, (notLineTerminator_noLF _ Hlt).
    reflexivity.
  - rewrite Htrim, Hsp. repeat split; try assumption.
    now apply notLineTerminator_noLF.
Qed.

(** *** One cue, then all of them *)

Lemma safeTime_read (n : number) :
  safeTime n -> closer (1 # 1000) n (parseTimestamp (formatTimestamp n)).
Proof.
  intros (s & -> & Hs & Hms).
  destruct (codec_close s Hs Hms) as (q & E & Hq).
  rewrite E. cbn [closer]. eapply Qle_lt_trans; [exact Hq | reflexivity].
Qed.

Lemma closer_weaken (tol tol' : Q) (a b : number) :
  (tol <= tol')%Q -> closer tol a b -> closer tol' a b.
Proof.
  intros H. destruct a, b; cbn [closer]; try contradiction.
  intros H'. eapply Qlt_le_trans; eassumption.
Qed.

Lemma cueLines_read (c : VTTCue) (more : list string) :
  printable c ->
  exists p,
    parseBlocks (cueLines c ++ more) = p :: parseBlocks more
    /\ readBack (1 # 1000) c p.
Proof.
  intros Hc. pose proof Hc as (Hs & He & Htext & _).
  destruct (textLine_read c Hc) as (Hnb & _ & Htxt & Hspk).
  destruct (formatTimestamp_safe _ Hs) as (x & a & Ea & Ha).
  destruct (formatTimestamp_safe _ He) as (y & b & Eb & Hb).
  unfold cueLines. cbn [app].
  change (textLine c :: "" :: more) with ([textLine c] ++ "" :: more).
  rewrite parseBlocks_block;
    [| unfold rangeLine; rewrite Ea, Eb; now apply rangeLine_arrow
     | now repeat constructor | reflexivity].
  unfold blockCues, blockTexts. cbn [map filter]. rewrite Htxt.
  destruct Htext as (Hne & _). apply isEmpty_false in Hne. rewrite Hne.
  cbn [negb app join].
  eexists. split; [reflexivity|].
  unfold readBack. cbn [start end_ speaker text].
  unfold rangeLine. rewrite Ea, Eb.
  rewrite (rangeLine_parse _ _ Ha Hb) by discriminate.
  cbn [fst snd]. rewrite <- Ea, <- Eb.
  repeat split; [now apply safeTime_read | now apply safeTime_read | exact Hspk].
Qed.

Lemma cueLines_noLF (c : VTTCue) : printable c -> Forall noLF (cueLines c).
Proof.
  intros Hc. pose proof Hc as (Hs & He & _).
  destruct (textLine_read c Hc) as (_ & Hlf & _).
  destruct (formatTimestamp_safe _ Hs) as (x & a & Ea & Ha).
  destruct (formatTimestamp_safe _ He) as (y & b & Eb & Hb).
  unfold cueLines. repeat constructor; [|exact Hlf].
  unfold rangeLine. rewrite Ea, Eb. now apply rangeLine_noLF.
Qed.

Lemma allLines_read (cues : list VTTCue) :
  Forall printable cues ->
  Forall2 (readBack (1 # 1000)) cues
          (parseBlocks (flat_map cueLines cues ++ [""])).
Proof.
  induction 1 as [|c cues Hc _ IH]; [constructor|].
  cbn [flat_map]. rewrite <- app_assoc.
  destruct (cueLines_read c (flat_map cueLines cues ++ [""]) Hc)
    as (p & -> & Hp).
  now constructor.
Qed.

(** Parsing the serialized form of printable cues reads each of them
    back. *)
Lemma round_trip (cues : list VTTCue) :
  Forall printable cues ->
  Forall2 (readBack (1 # 1000)) cues (parseVTT (serializeVTT cues)).
Proof.
  intros H. rewrite serializeVTT_lines. unfold parseVTT.
  rewrite <- (append_nil_r (unlines _)).
  rewrite split_unlines.
  - rewrite parseBlocks_skipHeader.
    cbn [app]. rewrite !parseBlocks_plain by reflexivity.
    now apply allLines_read.
  - repeat constructor.
    induction H as [|c cues Hc _ IH]; [constructor|].
    cbn [flat_map]. apply Forall_app. split; [now apply cueLines_noLF | exact IH].
  - reflexivity.
Qed.

End RoundTripFacts.

(** ** Merging: the order of the cues *)

Module MergeFacts.

Import Vtt.

Import MergeOrder.

Lemma Qle_bool_true (x y : Q) : Qle_bool x y = true <-> (x <= y)%Q.
Proof. apply Qle_bool_iff. Qed.

Lemma Qle_bool_false (x y : Q) : Qle_bool x y = false <-> (y < x)%Q.
Proof.
  split; intros H.
  - apply Qnot_le_lt. intros H'. apply Qle_bool_iff in H'. congruence.
  - destruct (Qle_bool x y) eqn:E; [|reflexivity].
    apply Qle_bool_iff in E. lra.
Qed.

Lemma startsInOrder_trans (a b c : VTTCue) :
  startsInOrder a b -> startsInOrder b c -> startsInOrder a c.
Proof.
  unfold startsInOrder.
  destruct (start a) as [|x|[]], (start b) as [|y|[]], (start c) as [|z|[]];
    cbn; try congruence.
  rewrite !Qle_bool_true. lra.
Qed.



End MergeFacts.

(** ** The chunk planner *)

Module PlanFacts.

Import Audio Plan.

Local Open Scope Q_scope.

Lemma Qnum_pos (x : Q) : 0 < x -> (Qnum x ?= 0)%Z = Gt.
Proof.
  destruct x as [a b]. unfold Qlt. simpl. intros H.
  apply Z.compare_gt_iff. lia.
Qed.

Lemma div_fin (x y : Q) : 0 < y -> Num.div (Fin x) (Fin y) = Fin (x / y).
Proof. intros H. unfold Num.div. now rewrite (Qnum_pos y H). Qed.

Section EqualChunks.

(** The plan of [n] chunks, [n] at least 1. *)
Variables (total : Q) (n : Z).
Hypotheses (Htotal : 0 < total) (Hn : (1 <= n)%Z).

Local Abbreviation chunkDuration := (total / inject_Z n).
Local Abbreviation chunk :=
  (chunkAt (Fin total) (Num.ofZ n) (Fin chunkDuration)).

End EqualChunks.

End PlanFacts.

(** ** The free-text transcript reader *)

Module GeminiFacts.

Import Str StrFacts Vtt Gemini.

Lemma updateLast_last (f : VTTCue -> VTTCue) (cues : list VTTCue)
    (c : VTTCue) :
  updateLast f (cues ++ [c]) = cues ++ [f c].
Proof.
  induction cues as [|x cues IH]; [reflexivity|].
  cbn [app updateLast]. rewrite IH.
  now destruct (cues ++ [c]) eqn:E; [destruct cues; discriminate|].
Qed.

(** A line that is not blank and does not match, after some cue. *)
Lemma step_continuation (cues : list VTTCue) (c : VTTCue) (line : string) :
  nonBlank line = true -> matchTimestampLine line = None ->
  step (cues ++ [c]) line
  = cues ++ [mkCue (start c) (end_ c) (speaker c)
                   (text c ++ " " ++ trim line)].
Proof.
  unfold nonBlank, step. intros Hnb Hm. rewrite Hm.
  apply negb_true_iff in Hnb. rewrite Hnb.
  change (mkCue (start c) (end_ c) (speaker c) (text c ++ " " ++ trim line))
    with (appendText (" " ++ trim line) c).
  rewrite <- (updateLast_last (appendText (" " ++ trim line)) cues c).
  now destruct (cues ++ [c]) eqn:E; [destruct cues; discriminate|].
Qed.

(** The same line when there is no cue yet. *)
Lemma step_implicit (line : string) :
  nonBlank line = true -> matchTimestampLine line = None ->
  step [] line = [mkCue (Num.ofZ 0) (Num.ofZ 30) None (trim line)].
Proof.
  unfold nonBlank, step. intros Hnb Hm. rewrite Hm.
  apply negb_true_iff in Hnb. now rewrite Hnb.
Qed.

Lemma join_space_cons (t y : string) (l : list string) :
  join " " ((t ++ " " ++ y)%string :: l)
  = (t ++ " " ++ join " " (y :: l))%string.
Proof.
  destruct l as [|z l]; [reflexivity|].
  cbn [join]. now rewrite !append_assoc.
Qed.

(** Lines that do not match, after one cue: all of them are appended. *)
Lemma loop_continuations (lines : list string) :
  Forall (fun l => nonBlank l = true /\ matchTimestampLine l = None) lines ->
  forall s e sp t,
    fold_left step lines [mkCue s e sp t]
    = [mkCue s e sp (join " " (t :: map trim lines))].
Proof.
  induction 1 as [|l lines [Hnb Hm] _ IH]; intros s e sp t; [reflexivity|].
  cbn [fold_left map].
  change [mkCue s e sp t] with ([] ++ [mkCue s e sp t]).
  rewrite (step_continuation [] (mkCue s e sp t) l Hnb Hm).
  cbn [app start end_ speaker text]. rewrite IH. now rewrite join_space_cons.
Qed.

(** A transcript without any matching line: all its text in one cue. *)
Lemma loop_unstructured (lines : list string) :
  Forall (fun l => nonBlank l = true /\ matchTimestampLine l = None) lines ->
  fold_left step lines []
  = match lines with
    | [] => []
    | _ => [mkCue (Num.ofZ 0) (Num.ofZ 30) None (join " " (map trim lines))]
    end.
Proof.
  intros H. destruct H as [|l lines [Hnb Hm] H]; [reflexivity|].
  cbn [fold_left]. rewrite (step_implicit l Hnb Hm).
  now rewrite (loop_continuations lines H).
Qed.

Lemma filter_unmatched (lines : list string) :
  Forall (fun l => matchTimestampLine l = None) lines ->
  Forall (fun l => nonBlank l = true /\ matchTimestampLine l = None)
         (filter nonBlank lines).
Proof.
  induction 1 as [|l lines Hl _ IH]; [constructor|].
  cbn [filter]. destruct (nonBlank l) eqn:E; [|exact IH].
  constructor; [now split | exact IH].
Qed.

End GeminiFacts.

(** * Facts about binary64 rounding *)

Module Binary64Facts.

Import Binary64.

Local Open Scope Q_scope.

Lemma Fin_inj (a b : Q) : Fin a = Fin b -> a = b.
Proof. congruence. Qed.

Lemma pow2_pos (e : Z) : 0 < pow2 e.
Proof. apply Qpower_0_lt. reflexivity. Qed.

Lemma pow2_nonzero (e : Z) : ~ pow2 e == 0.
Proof. pose proof (pow2_pos e). lra. Qed.

Lemma pow2_add (a b : Z) : pow2 (a + b) == pow2 a * pow2 b.
Proof. apply Qpower_plus. discriminate. Qed.

Lemma pow2_succ (a : Z) : pow2 (a + 1) == 2 * pow2 a.
Proof. rewrite pow2_add. change (pow2 1) with 2. ring. Qed.

Lemma pow2_pred (a : Z) : pow2 (a - 1) == (1 # 2) * pow2 a.
Proof.
  replace a with ((a - 1) + 1)%Z at 2 by lia. rewrite pow2_succ.
  field.
Qed.

Lemma pow2_le (a b : Z) : (a <= b)%Z -> pow2 a <= pow2 b.
Proof. intros H. apply Qpower_le_compat_l; [exact H | discriminate]. Qed.

Lemma pow2_lt (a b : Z) : (a < b)%Z -> pow2 a < pow2 b.
Proof. intros H. apply Qpower_lt_compat_l; [exact H | reflexivity]. Qed.

Lemma pow2_lt_inv (a b : Z) : pow2 a < pow2 b -> (a < b)%Z.
Proof. intros H. apply (Qpower_lt_compat_l_inv 2); [exact H | reflexivity]. Qed.

Lemma pow2_Z (n : Z) : (0 <= n)%Z -> pow2 n == inject_Z (2 ^ n).
Proof. intros H. unfold pow2. rewrite Zpower_Qpower by exact H. reflexivity. Qed.

(** The exponent of a positive rational. *)
Lemma ilog2_spec (x : Q) :
  0 < x -> pow2 (ilog2 x) <= x /\ x < pow2 (ilog2 x + 1).
Proof.
  intros Hx. destruct x as [n d].
  assert (Hn : (0 < n)%Z).
  { unfold Qlt in Hx. simpl in Hx. lia. }
  unfold ilog2. cbn [Qnum Qden].
  set (a := Z.log2 n). set (b := Z.log2 (Zpos d)).
  destruct (Z.log2_spec n Hn) as [Ha1 Ha2].
  destruct (Z.log2_spec (Zpos d) eq_refl) as [Hb1 Hb2].
  fold a in Ha1, Ha2. fold b in Hb1, Hb2.
  assert (Ha : (0 <= a)%Z) by apply Z.log2_nonneg.
  assert (Hb : (0 <= b)%Z) by apply Z.log2_nonneg.
  assert (Hx' : n # d == inject_Z n / inject_Z (Zpos d)).
  { rewrite Qmake_Qdiv. reflexivity. }
  assert (Hd : 0 < inject_Z (Zpos d)) by reflexivity.
  assert (Qa1 : pow2 a <= inject_Z n).
  { rewrite pow2_Z by exact Ha. rewrite <- Zle_Qle. exact Ha1. }
  assert (Qa2 : inject_Z n < pow2 (a + 1)).
  { rewrite pow2_Z by lia. rewrite <- Zlt_Qlt. exact Ha2. }
  assert (Qb1 : pow2 b <= inject_Z (Zpos d)).
  { rewrite pow2_Z by exact Hb. rewrite <- Zle_Qle. exact Hb1. }
  assert (Qb2 : inject_Z (Zpos d) < pow2 (b + 1)).
  { rewrite pow2_Z by lia. rewrite <- Zlt_Qlt. exact Hb2. }
  (* x is strictly between 2^(a-b-1) and 2^(a-b+1) *)
  assert (Lo : pow2 (a - b - 1) < n # d).
  { rewrite Hx'. apply Qlt_shift_div_l; [exact Hd|].
    apply Qlt_le_trans with (pow2 (a - b - 1) * pow2 (b + 1)).
    - apply Qmult_lt_l; [apply pow2_pos | exact Qb2].
    - rewrite <- pow2_add. replace (a - b - 1 + (b + 1))%Z with a by lia.
      exact Qa1. }
  assert (Hi : n # d < pow2 (a - b + 1)).
  { rewrite Hx'. apply Qlt_shift_div_r; [exact Hd|].
    apply Qlt_le_trans with (pow2 (a + 1)); [exact Qa2|].
    replace (a + 1)%Z with (a - b + 1 + b)%Z by lia. rewrite pow2_add.
    apply Qmult_le_l; [apply pow2_pos | exact Qb1]. }
  destruct (Qle_bool (pow2 (a - b)) (n # d)) eqn:E.
  - apply Qle_bool_iff in E. split; [exact E | exact Hi].
  - split.
    + apply Qlt_le_weak. exact Lo.
    + replace (a - b - 1 + 1)%Z with (a - b)%Z by lia.
      apply Qnot_le_lt. intros H. apply Qle_bool_iff in H. congruence.
Qed.

Lemma ilog2_unique (x : Q) (e : Z) :
  pow2 e <= x -> x < pow2 (e + 1) -> ilog2 x = e.
Proof.
  intros H1 H2.
  assert (Hx : 0 < x) by (eapply Qlt_le_trans; [apply pow2_pos | exact H1]).
  destruct (ilog2_spec x Hx) as [H3 H4].
  assert (ilog2 x < e + 1)%Z.
  { apply pow2_lt_inv. eapply Qle_lt_trans; [exact H3 | exact H2]. }
  assert (e < ilog2 x + 1)%Z.
  { apply pow2_lt_inv. eapply Qle_lt_trans; [exact H1 | exact H4]. }
  lia.
Qed.

Lemma ilog2_comp (x y : Q) : 0 < x -> x == y -> ilog2 x = ilog2 y.
Proof.
  intros Hx E. symmetry. destruct (ilog2_spec x Hx) as [H1 H2].
  apply ilog2_unique; rewrite <- E; assumption.
Qed.

Lemma ilog2_le (x y : Q) : 0 < x -> x <= y -> (ilog2 x <= ilog2 y)%Z.
Proof.
  intros Hx Hxy.
  assert (Hy : 0 < y) by (eapply Qlt_le_trans; eassumption).
  destruct (ilog2_spec x Hx) as [H1 _].
  destruct (ilog2_spec y Hy) as [_ H2].
  assert (ilog2 x < ilog2 y + 1)%Z.
  { apply pow2_lt_inv. eapply Qle_lt_trans; [exact H1|].
    eapply Qle_lt_trans; [exact Hxy | exact H2]. }
  lia.
Qed.

Lemma ilog2_lt_pow2 (x : Q) (k : Z) : 0 < x -> x < pow2 k -> (ilog2 x < k)%Z.
Proof.
  intros Hx H. destruct (ilog2_spec x Hx) as [H1 _].
  apply pow2_lt_inv. eapply Qle_lt_trans; eassumption.
Qed.

Lemma ilog2_ge_pow2 (x : Q) (k : Z) : pow2 k <= x -> (k <= ilog2 x)%Z.
Proof.
  intros H.
  assert (Hx : 0 < x) by (eapply Qlt_le_trans; [apply pow2_pos | exact H]).
  destruct (ilog2_spec x Hx) as [_ H2].
  assert (k < ilog2 x + 1)%Z.
  { apply pow2_lt_inv. eapply Qle_lt_trans; eassumption. }
  lia.
Qed.

(** Rounding to the nearest integer. *)
Lemma roundHalfEven_error (y : Q) :
  Qabs (inject_Z (roundHalfEven y) - y) <= 1 # 2.
Proof.
  unfold roundHalfEven.
  pose proof (Qfloor_le y) as H1. pose proof (Qlt_floor y) as H2.
  rewrite inject_Z_plus in H2. change (inject_Z 1) with 1 in H2.
  set (f := Qfloor y) in *.
  apply Qabs_Qle_condition.
  destruct (Qcompare_spec (y - inject_Z f) (1 # 2)) as [E | E | E].
  - destruct (Z.even f); [| rewrite inject_Z_plus; change (inject_Z 1) with 1];
      split; lra.
  - split; lra.
  - rewrite inject_Z_plus. change (inject_Z 1) with 1. split; lra.
Qed.

Lemma roundHalfEven_Z (z : Z) : roundHalfEven (inject_Z z) = z.
Proof.
  unfold roundHalfEven. rewrite Qfloor_Z.
  assert (E : inject_Z z - inject_Z z == 0) by ring.
  rewrite (Qcompare_comp _ _ E _ _ (Qeq_refl _)). reflexivity.
Qed.

Lemma roundHalfEven_comp (x y : Q) : x == y -> roundHalfEven x = roundHalfEven y.
Proof.
  intros E. unfold roundHalfEven. rewrite (Qfloor_comp _ _ E).
  assert (E' : x - inject_Z (Qfloor y) == y - inject_Z (Qfloor y))
    by (rewrite E; reflexivity).
  rewrite (Qcompare_comp _ _ E' _ _ (Qeq_refl _)). reflexivity.
Qed.

Lemma roundHalfEven_le (y : Q) (k : Z) :
  y <= inject_Z k -> (roundHalfEven y <= k)%Z.
Proof.
  intros H. unfold roundHalfEven.
  pose proof (Qfloor_le y) as H1. pose proof (Qlt_floor y) as H2.
  set (f := Qfloor y) in *.
  assert (Hf : (f <= k)%Z) by (rewrite Zle_Qle; lra).
  destruct (Z.eq_dec f k) as [-> | Hne].
  - assert (E : y == inject_Z k) by lra.
    assert (E0 : y - inject_Z k == 0) by lra.
    rewrite (Qcompare_comp _ _ E0 _ _ (Qeq_refl _)). cbn. lia.
  - destruct (y - inject_Z f ?= 1 # 2); [destruct (Z.even f) | |]; lia.
Qed.

Lemma roundHalfEven_ge (y : Q) (k : Z) :
  inject_Z k <= y -> (k <= roundHalfEven y)%Z.
Proof.
  intros H. unfold roundHalfEven.
  assert (Hf : (k <= Qfloor y)%Z).
  { rewrite <- (Qfloor_Z k). apply Qfloor_resp_le. exact H. }
  destruct (y - inject_Z (Qfloor y) ?= 1 # 2); [destruct (Z.even (Qfloor y)) | |]; lia.
Qed.

(** The magnitude rounded to its quantum. *)
Lemma quantum_normal (a : Q) :
  pow2 (-1022) <= a -> quantum a = (ilog2 a - 52)%Z.
Proof.
  intros H. apply ilog2_ge_pow2 in H. unfold quantum. lia.
Qed.

Lemma quantum_le (x y : Q) : 0 < x -> x <= y -> (quantum x <= quantum y)%Z.
Proof.
  intros Hx Hxy. pose proof (ilog2_le x y Hx Hxy). unfold quantum. lia.
Qed.

Lemma roundMagnitude_comp (a b : Q) :
  0 < a -> a == b -> roundMagnitude a == roundMagnitude b.
Proof.
  intros Ha E. unfold roundMagnitude, quantum.
  rewrite (ilog2_comp a b Ha E).
  rewrite (roundHalfEven_comp (a / pow2 (Z.max (ilog2 b - 52) (-1074)))
                              (b / pow2 (Z.max (ilog2 b - 52) (-1074)))).
  - reflexivity.
  - rewrite E. reflexivity.
Qed.

Lemma roundMagnitude_error (a : Q) :
  Qabs (roundMagnitude a - a) <= pow2 (quantum a - 1).
Proof.
  unfold roundMagnitude. set (p := quantum a).
  pose proof (pow2_pos p) as Hp.
  pose proof (roundHalfEven_error (a / pow2 p)) as H.
  set (m := inject_Z (roundHalfEven (a / pow2 p))) in *.
  assert (E : m * pow2 p - a == (m - a / pow2 p) * pow2 p).
  { field. apply pow2_nonzero. }
  rewrite E, Qabs_Qmult, (Qabs_pos (pow2 p)) by lra.
  rewrite pow2_pred.
  apply Qmult_le_compat_r; [exact H | lra].
Qed.

Lemma roundMagnitude_relative (a : Q) :
  pow2 (-1022) <= a -> Qabs (roundMagnitude a - a) <= pow2 (-53) * a.
Proof.
  intros H.
  assert (Ha : 0 < a) by (eapply Qlt_le_trans; [apply pow2_pos | exact H]).
  eapply Qle_trans; [apply roundMagnitude_error|].
  rewrite (quantum_normal a H).
  replace (ilog2 a - 52 - 1)%Z with (-53 + ilog2 a)%Z by lia.
  rewrite pow2_add. apply Qmult_le_l; [apply pow2_pos|].
  apply (ilog2_spec a Ha).
Qed.

Lemma roundMagnitude_nonneg (a : Q) : 0 < a -> 0 <= roundMagnitude a.
Proof.
  intros Ha. unfold roundMagnitude.
  apply Qmult_le_0_compat; [| apply Qlt_le_weak, pow2_pos].
  change 0 with (inject_Z 0). rewrite <- Zle_Qle.
  apply roundHalfEven_ge. change (inject_Z 0) with 0.
  apply Qle_shift_div_l; [apply pow2_pos | lra].
Qed.

(** A multiple of the quantum is kept. *)
Lemma roundMagnitude_fixed (a : Q) (k q : Z) :
  0 < a -> (quantum a <= q)%Z -> a == inject_Z k * pow2 q ->
  roundMagnitude a == a.
Proof.
  intros Ha Hq E. unfold roundMagnitude. set (p := quantum a) in *.
  pose proof (pow2_pos p) as Hp.
  assert (E1 : a / pow2 p == inject_Z (k * 2 ^ (q - p))).
  { rewrite inject_Z_mult, <- pow2_Z by lia. rewrite E.
    assert (Eq : pow2 q == pow2 (q - p) * pow2 p).
    { rewrite <- pow2_add. replace (q - p + p)%Z with q by lia. reflexivity. }
    rewrite Eq. field. apply pow2_nonzero. }
  rewrite (roundHalfEven_comp _ _ E1), roundHalfEven_Z, <- E1.
  field. apply pow2_nonzero.
Qed.

(** Rounding does not pass a representable magnitude. *)
Lemma roundMagnitude_le (x y : Q) :
  0 < x -> x <= y -> roundMagnitude y == y -> roundMagnitude x <= y.
Proof.
  intros Hx Hxy Hy.
  assert (Hy0 : 0 < y) by (eapply Qlt_le_trans; eassumption).
  pose proof (quantum_le x y Hx Hxy) as Hq.
  unfold roundMagnitude in *.
  set (p := quantum x) in *. set (q := quantum y) in *.
  set (K := roundHalfEven (y / pow2 q)) in *.
  pose proof (pow2_pos p) as Hp.
  assert (E1 : y / pow2 p == inject_Z (K * 2 ^ (q - p))).
  { rewrite inject_Z_mult, <- pow2_Z by lia. rewrite <- Hy at 1.
    assert (Eq : pow2 q == pow2 (q - p) * pow2 p).
    { rewrite <- pow2_add. replace (q - p + p)%Z with q by lia. reflexivity. }
    rewrite Eq. field. apply pow2_nonzero. }
  assert (H : (roundHalfEven (x / pow2 p) <= K * 2 ^ (q - p))%Z).
  { apply roundHalfEven_le. rewrite <- E1.
    apply Qmult_le_compat_r; [exact Hxy|].
    apply Qlt_le_weak, Qinv_lt_0_compat, Hp. }
  rewrite Zle_Qle in H.
  apply Qle_trans with (inject_Z (K * 2 ^ (q - p)) * pow2 p).
  - apply Qmult_le_compat_r; [exact H | lra].
  - rewrite <- E1. apply Qle_lteq. right. field. apply pow2_nonzero.
Qed.

(** *** The nearest binary64 value *)

Lemma Qnum_pos_f64 (x : Q) : 0 < x <-> (0 < Qnum x)%Z.
Proof. unfold Qlt. simpl. lia. Qed.

Lemma Qnum_neg (x : Q) : x < 0 <-> (Qnum x < 0)%Z.
Proof. unfold Qlt. simpl. lia. Qed.

Lemma Qnum_null (x : Q) : x == 0 <-> Qnum x = 0%Z.
Proof. unfold Qeq. simpl. lia. Qed.

Lemma nearest_positive (x : Q) :
  0 < x ->
  nearest x = if Qle_bool (pow2 1024) (roundMagnitude x) then Inf false
              else Fin (Qred (roundMagnitude x)).
Proof.
  intros H. apply Qnum_pos_f64 in H. unfold nearest.
  destruct (Qnum x); try lia. reflexivity.
Qed.

Lemma nearest_negative (x : Q) :
  x < 0 ->
  nearest x = if Qle_bool (pow2 1024) (roundMagnitude (- x)) then Inf true
              else Fin (Qred (- roundMagnitude (- x))).
Proof.
  intros H. apply Qnum_neg in H. unfold nearest.
  destruct (Qnum x); try lia. reflexivity.
Qed.

Lemma nearest_null (x : Q) : x == 0 -> nearest x = Fin 0.
Proof.
  intros H. apply Qnum_null in H. unfold nearest. rewrite H. reflexivity.
Qed.

Lemma Qle_bool_comp (a b c d : Q) :
  a == b -> c == d -> Qle_bool a c = Qle_bool b d.
Proof.
  intros E1 E2. destruct (Qle_bool b d) eqn:E.
  - apply Qle_bool_iff. apply Qle_bool_iff in E. rewrite E1, E2. exact E.
  - destruct (Qle_bool a c) eqn:E'; [| reflexivity].
    apply Qle_bool_iff in E'. rewrite E1, E2 in E'.
    apply Qle_bool_iff in E'. congruence.
Qed.

Lemma nearest_comp (x y : Q) : x == y -> nearest x = nearest y.
Proof.
  intros E. destruct (Q_dec x 0) as [[H | H] | H].
  - assert (Hy : y < 0) by (rewrite <- E; exact H).
    rewrite (nearest_negative x H), (nearest_negative y Hy).
    assert (E' : roundMagnitude (- x) == roundMagnitude (- y)).
    { apply roundMagnitude_comp; [lra | rewrite E; reflexivity]. }
    rewrite (Qle_bool_comp _ _ _ _ (Qeq_refl (pow2 1024)) E').
    destruct (Qle_bool _ _); [reflexivity|].
    f_equal. apply Qred_complete. rewrite E'. reflexivity.
  - assert (Hy : 0 < y) by (rewrite <- E; exact H).
    rewrite (nearest_positive x H), (nearest_positive y Hy).
    assert (E' : roundMagnitude x == roundMagnitude y).
    { apply roundMagnitude_comp; [lra | exact E]. }
    rewrite (Qle_bool_comp _ _ _ _ (Qeq_refl (pow2 1024)) E').
    destruct (Qle_bool _ _); [reflexivity|].
    f_equal. apply Qred_complete. exact E'.
  - rewrite (nearest_null x H). symmetry. apply nearest_null.
    rewrite <- E. exact H.
Qed.

(** The relative error of a rounding in the normal range. *)
Lemma nearest_error_pos (x : Q) :
  pow2 (-1022) <= x -> x < pow2 1023 ->
  exists r : Q, nearest x = Fin r /\ Qabs (r - x) <= pow2 (-53) * x.
Proof.
  intros H1 H2.
  assert (Hx : 0 < x) by (eapply Qlt_le_trans; [apply pow2_pos | exact H1]).
  pose proof (roundMagnitude_relative x H1) as He.
  rewrite (nearest_positive x Hx).
  assert (Hr : roundMagnitude x < pow2 1024).
  { apply Qabs_Qle_condition in He.
    assert (pow2 (-53) <= 1) by (vm_compute; discriminate).
    assert (pow2 1024 == 2 * pow2 1023) by (apply (pow2_succ 1023)).
    assert (pow2 (-53) * x <= 1 * x)
      by (apply Qmult_le_compat_r; [assumption | lra]).
    lra. }
  destruct (Qle_bool (pow2 1024) (roundMagnitude x)) eqn:E.
  - apply Qle_bool_iff in E. lra.
  - eexists. split; [reflexivity|]. rewrite Qred_correct. exact He.
Qed.

Lemma nearest_error (x : Q) :
  pow2 (-1022) <= Qabs x -> Qabs x < pow2 1023 ->
  exists r : Q, nearest x = Fin r /\ Qabs (r - x) <= pow2 (-53) * Qabs x.
Proof.
  intros H1 H2. pose proof (pow2_pos (-1022)) as Hp.
  destruct (Qlt_le_dec x 0) as [Hx | Hx].
  - rewrite (Qabs_neg x) in * by lra.
    pose proof (roundMagnitude_relative (- x) H1) as He.
    rewrite (nearest_negative x Hx).
    assert (Hr : roundMagnitude (- x) < pow2 1024).
    { apply Qabs_Qle_condition in He.
      assert (pow2 (-53) <= 1) by (vm_compute; discriminate).
      assert (pow2 1024 == 2 * pow2 1023) by (apply (pow2_succ 1023)).
      assert (pow2 (-53) * - x <= 1 * - x)
        by (apply Qmult_le_compat_r; [assumption | lra]).
      lra. }
    destruct (Qle_bool (pow2 1024) (roundMagnitude (- x))) eqn:E.
    + apply Qle_bool_iff in E. lra.
    + eexists. split; [reflexivity|]. rewrite Qred_correct.
      assert (E' : - roundMagnitude (- x) - x == - (roundMagnitude (- x) - - x))
        by ring.
      rewrite E', Qabs_opp, (Qabs_neg x) by lra. exact He.
  - rewrite (Qabs_pos x) in * by exact Hx.
    destruct (nearest_error_pos x H1 H2) as [r [E He]].
    exists r. split; [exact E|]. rewrite (Qabs_pos x) by exact Hx. exact He.
Qed.

Lemma Qred_Z (z : Z) : Qred (inject_Z z) = inject_Z z.
Proof.
  unfold Qred, inject_Z.
  pose proof (Z.ggcd_correct_divisors z 1) as H.
  pose proof (Z.ggcd_gcd z 1) as G.
  destruct (Z.ggcd z 1) as [g [aa bb]]. simpl in *.
  rewrite Z.gcd_1_r in G. subst g. destruct H as [H1 H2].
  assert (Ea : aa = z) by lia. assert (Eb : bb = 1%Z) by lia.
  rewrite Ea, Eb. reflexivity.
Qed.

(** Integers up to [2 ^ 53] are binary64 values. *)
Lemma nearest_Z_pos (z : Z) :
  (0 < z <= 2 ^ 53)%Z -> nearest (inject_Z z) = Fin (inject_Z z).
Proof.
  intros Hz.
  assert (Hx : 0 < inject_Z z).
  { change 0 with (inject_Z 0). rewrite <- Zlt_Qlt. lia. }
  assert (Hfix : roundMagnitude (inject_Z z) == inject_Z z).
  { destruct (Z.eq_dec z (2 ^ 53)) as [-> | Hne].
    - apply (roundMagnitude_fixed _ (2 ^ 52) 1).
      + reflexivity.
      + assert (E : ilog2 (inject_Z (2 ^ 53)) = 53%Z).
        { apply ilog2_unique; vm_compute; intros; discriminate || reflexivity. }
        unfold quantum. rewrite E. lia.
      + vm_compute. reflexivity.
    - set (e := ilog2 (inject_Z z)).
      destruct (ilog2_spec (inject_Z z) Hx) as [He1 He2]. fold e in He1, He2.
      assert (He : (0 <= e < 53)%Z).
      { split.
        - apply ilog2_ge_pow2. change (pow2 0) with (inject_Z 1).
          rewrite <- Zle_Qle. lia.
        - apply ilog2_lt_pow2; [exact Hx|].
          rewrite pow2_Z by lia. rewrite <- Zlt_Qlt. lia. }
      apply (roundMagnitude_fixed _ (z * 2 ^ (52 - e)) (e - 52)).
      + exact Hx.
      + unfold quantum. fold e. lia.
      + rewrite inject_Z_mult, <- pow2_Z by lia.
        rewrite <- Qmult_assoc, <- pow2_add.
        replace (52 - e + (e - 52))%Z with 0%Z by lia.
        change (pow2 0) with 1. ring. }
  rewrite (nearest_positive _ Hx).
  assert (Hlt : inject_Z z < pow2 1024).
  { rewrite pow2_Z by lia. rewrite <- Zlt_Qlt.
    apply Z.le_lt_trans with (2 ^ 53)%Z; [lia|].
    apply Z.pow_lt_mono_r; lia. }
  destruct (Qle_bool (pow2 1024) (roundMagnitude (inject_Z z))) eqn:E.
  - apply Qle_bool_iff in E. lra.
  - f_equal. rewrite (Qred_complete _ _ Hfix). apply Qred_Z.
Qed.

Lemma nearest_Z (z : Z) :
  (Z.abs z <= 2 ^ 53)%Z -> nearest (inject_Z z) = Fin (inject_Z z).
Proof.
  intros Hz. destruct (Z.lt_trichotomy z 0) as [H | [-> | H]].
  - assert (Hx : inject_Z z < 0).
    { change 0 with (inject_Z 0). rewrite <- Zlt_Qlt. exact H. }
    assert (Hp : (0 < - z <= 2 ^ 53)%Z) by lia.
    pose proof (nearest_Z_pos (- z) Hp) as E.
    assert (H0 : 0 < inject_Z (- z)).
    { change 0 with (inject_Z 0). rewrite <- Zlt_Qlt. lia. }
    rewrite (nearest_positive _ H0) in E.
    rewrite (nearest_negative _ Hx).
    change (- inject_Z z) with (inject_Z (- z)).
    destruct (Qle_bool (pow2 1024) (roundMagnitude (inject_Z (- z))));
      [discriminate|].
    f_equal. rewrite Qred_opp.
    replace (Qred (roundMagnitude (inject_Z (- z)))) with (inject_Z (- z))
      by congruence.
    unfold inject_Z, Qopp. simpl. f_equal. lia.
  - reflexivity.
  - apply nearest_Z_pos. lia.
Qed.

(** Rounding does not fall below a representable magnitude. *)
Lemma roundMagnitude_ge (x y : Q) :
  0 < y -> y <= x -> roundMagnitude y == y -> y <= roundMagnitude x.
Proof.
  intros Hy Hyx Hfix.
  assert (Hx : 0 < x) by (eapply Qlt_le_trans; eassumption).
  pose proof (quantum_le y x Hy Hyx) as Hq.
  destruct (Z.eq_dec (quantum y) (quantum x)) as [E | Hne].
  - unfold roundMagnitude in *. rewrite E in Hfix.
    set (p := quantum x) in *.
    pose proof (pow2_pos p) as Hp.
    set (K := roundHalfEven (y / pow2 p)) in *.
    assert (E1 : y / pow2 p == inject_Z K).
    { rewrite <- Hfix at 1. field. apply pow2_nonzero. }
    assert (H : (K <= roundHalfEven (x / pow2 p))%Z).
    { apply roundHalfEven_ge. rewrite <- E1.
      apply Qmult_le_compat_r; [exact Hyx|].
      apply Qlt_le_weak, Qinv_lt_0_compat, Hp. }
    rewrite Zle_Qle in H. rewrite <- Hfix.
    apply Qmult_le_compat_r; [exact H | lra].
  - assert (Hlog : (ilog2 y < ilog2 x)%Z) by (unfold quantum in *; lia).
    assert (Hpx : quantum x = (ilog2 x - 52)%Z) by (unfold quantum in *; lia).
    destruct (ilog2_spec y Hy) as [_ Hy2].
    destruct (ilog2_spec x Hx) as [Hx1 _].
    unfold roundMagnitude. rewrite Hpx.
    set (e := ilog2 x) in *.
    pose proof (pow2_pos (e - 52)) as Hp.
    assert (Ee : pow2 e == inject_Z (2 ^ 52) * pow2 (e - 52)).
    { rewrite <- pow2_Z, <- pow2_add by lia.
      replace (52 + (e - 52))%Z with e by lia. reflexivity. }
    assert (H : (2 ^ 52 <= roundHalfEven (x / pow2 (e - 52)))%Z).
    { apply roundHalfEven_ge. apply Qle_shift_div_l; [exact Hp|].
      rewrite <- Ee. exact Hx1. }
    rewrite Zle_Qle in H.
    apply Qle_trans with (pow2 e).
    + apply Qlt_le_weak. eapply Qlt_le_trans; [exact Hy2|].
      apply pow2_le. lia.
    + rewrite Ee. apply Qmult_le_compat_r; [exact H | lra].
Qed.

(** The error of a rounding below [2 ^ k]. *)
Lemma nearest_bounds (x : Q) (k : Z) :
  0 <= x -> x < pow2 k -> (-1021 <= k <= 1023)%Z ->
  exists r : Q,
    nearest x = Fin r /\ 0 <= r /\ Qabs (r - x) <= pow2 (k - 54).
Proof.
  intros Hx Hk Hr. pose proof (pow2_pos (k - 54)) as Hpk.
  destruct (Qle_lt_or_eq _ _ Hx) as [Hpos | H0].
  - pose proof (roundMagnitude_error x) as He.
    assert (Hq : (quantum x - 1 <= k - 54)%Z).
    { pose proof (ilog2_lt_pow2 x k Hpos Hk). unfold quantum. lia. }
    apply pow2_le in Hq.
    assert (Hk2 : pow2 (k - 54) <= pow2 k) by (apply pow2_le; lia).
    assert (Hk3 : pow2 (k + 1) <= pow2 1024) by (apply pow2_le; lia).
    rewrite pow2_succ in Hk3.
    rewrite (nearest_positive x Hpos).
    assert (Hb : Qabs (roundMagnitude x - x) <= pow2 (k - 54)) by lra.
    pose proof Hb as Hb'. apply Qabs_Qle_condition in Hb'.
    destruct (Qle_bool (pow2 1024) (roundMagnitude x)) eqn:E.
    + apply Qle_bool_iff in E. lra.
    + eexists. split; [reflexivity|]. rewrite Qred_correct.
      split; [apply roundMagnitude_nonneg, Hpos | exact Hb].
  - exists 0. split; [apply nearest_null; symmetry; exact H0|].
    split; [lra|]. rewrite <- H0.
    setoid_replace (0 - 0) with 0 by ring. cbn. lra.
Qed.

(** A rounding stays on its side of an integer. *)
Lemma nearest_ge_Z (x r : Q) (z : Z) :
  (0 <= z <= 2 ^ 53)%Z -> inject_Z z <= x -> nearest x = Fin r ->
  inject_Z z <= r.
Proof.
  intros Hz Hzx E.
  destruct (Z.eq_dec z 0) as [-> | Hne].
  - change (inject_Z 0) with 0 in *.
    destruct (Qle_lt_or_eq _ _ Hzx) as [Hpos | H0].
    + rewrite (nearest_positive x Hpos) in E.
      destruct (Qle_bool _ _); [discriminate|]. apply Fin_inj in E. rewrite <- E.
      rewrite Qred_correct. apply roundMagnitude_nonneg, Hpos.
    + rewrite (nearest_null x) in E by (symmetry; exact H0).
      apply Fin_inj in E. rewrite <- E. lra.
  - assert (Hzp : 0 < inject_Z z).
    { change 0 with (inject_Z 0). rewrite <- Zlt_Qlt. lia. }
    assert (Hpos : 0 < x) by lra.
    assert (Hfix : roundMagnitude (inject_Z z) == inject_Z z).
    { pose proof (nearest_Z_pos z ltac:(lia)) as F.
      rewrite (nearest_positive _ Hzp) in F.
      destruct (Qle_bool _ _); [discriminate|]. apply Fin_inj in F.
      rewrite <- F at 2. symmetry. apply Qred_correct. }
    rewrite (nearest_positive x Hpos) in E.
    destruct (Qle_bool _ _); [discriminate|]. apply Fin_inj in E. rewrite <- E.
    rewrite Qred_correct. apply roundMagnitude_ge; assumption.
Qed.

Lemma nearest_le_Z (x : Q) (z : Z) :
  (0 < z <= 2 ^ 53)%Z -> 0 <= x -> x <= inject_Z z ->
  exists r : Q, nearest x = Fin r /\ 0 <= r /\ r <= inject_Z z.
Proof.
  intros Hz Hx Hxz.
  assert (Hzp : 0 < inject_Z z).
  { change 0 with (inject_Z 0). rewrite <- Zlt_Qlt. lia. }
  destruct (Qle_lt_or_eq _ _ Hx) as [Hpos | H0].
  - assert (Hfix : roundMagnitude (inject_Z z) == inject_Z z).
    { pose proof (nearest_Z_pos z ltac:(lia)) as F.
      rewrite (nearest_positive _ Hzp) in F.
      destruct (Qle_bool _ _); [discriminate|]. apply Fin_inj in F.
      rewrite <- F at 2. symmetry. apply Qred_correct. }
    pose proof (roundMagnitude_le x (inject_Z z) Hpos Hxz Hfix) as Hle.
    rewrite (nearest_positive x Hpos).
    assert (Hlt : inject_Z z < pow2 1024).
    { rewrite pow2_Z by lia. rewrite <- Zlt_Qlt.
      apply Z.le_lt_trans with (2 ^ 53)%Z; [lia|].
      apply Z.pow_lt_mono_r; lia. }
    destruct (Qle_bool (pow2 1024) (roundMagnitude x)) eqn:E.
    + apply Qle_bool_iff in E. lra.
    + eexists. split; [reflexivity|]. rewrite Qred_correct.
      split; [apply roundMagnitude_nonneg, Hpos | exact Hle].
  - exists 0. split; [apply nearest_null; symmetry; exact H0|]. split; lra.
Qed.

(** The integer part of a rounding: the rounded value [x] lies between
    the integer [z] and [z + 1], farther from [z + 1] than the rounding
    can move it. *)
Lemma floor_nearest (x : Q) (z k : Z) :
  (0 <= z < 2 ^ 53)%Z -> (-1021 <= k <= 1023)%Z ->
  inject_Z z <= x -> x < pow2 k -> x + pow2 (k - 54) < inject_Z (z + 1) ->
  Num.floor (nearest x) = Num.ofZ z.
Proof.
  intros Hz Hk Hzx Hxk Hup.
  assert (Hx : 0 <= x).
  { apply Qle_trans with (inject_Z z); [|exact Hzx].
    change 0 with (inject_Z 0). rewrite <- Zle_Qle. lia. }
  destruct (nearest_bounds x k Hx Hxk Hk) as (r & E & Hr & He).
  pose proof (nearest_ge_Z x r z ltac:(lia) Hzx E) as Hlo.
  rewrite E. cbn [Num.floor]. f_equal.
  apply ClockFacts.Qfloor_unique; [exact Hlo|].
  apply Qabs_Qle_condition in He. lra.
Qed.

End Binary64Facts.

(** ** The timestamp codec in binary64 *)

Module Codec64Facts.

Import Str Shape StrFacts SplitFacts DigitFacts Clock ClockFacts Vtt.
Import Binary64 Binary64Facts.

Local Open Scope Q_scope.

Lemma toString_Z (z : Z) :
  (Z.abs z <= 2 ^ 53)%Z -> F64.toString (Num.ofZ z) = Str.ofZ z.
Proof.
  intros H. unfold F64.toString, Num.ofZ. rewrite Qfloor_Z.
  apply Z.leb_le in H. rewrite H. reflexivity.
Qed.

Lemma mul_fin (x y : Q) : F64.mul (Fin x) (Fin y) = nearest (x * y).
Proof. reflexivity. Qed.

Lemma add_fin (x y : Q) : F64.add (Fin x) (Fin y) = nearest (x + y).
Proof. reflexivity. Qed.

Lemma sub_fin (x y : Q) : F64.sub (Fin x) (Fin y) = nearest (x + - y).
Proof. reflexivity. Qed.

Lemma div_fin_f64 (x y : Q) :
  0 < y -> F64.div (Fin x) (Fin y) = nearest (x / y).
Proof.
  intros H. unfold F64.div. rewrite (PlanFacts.div_fin x y H). reflexivity.
Qed.

Lemma nearest_ofZ (z : Z) (x : Q) :
  (Z.abs z <= 2 ^ 53)%Z -> x == inject_Z z -> nearest x = Num.ofZ z.
Proof.
  intros Hz E. rewrite (nearest_comp _ _ E). apply nearest_Z, Hz.
Qed.

(** The fraction of a non-negative time. *)
Lemma rem_one (s : Q) :
  0 <= s ->
  exists f : Q,
    Num.rem (Fin s) (Num.ofZ 1) = Fin f /\ f == s - inject_Z (Qfloor s).
Proof.
  intros Hs. eexists. split; [reflexivity|].
  rewrite (rem_pos s 1 Hs). now rewrite Z.div_1_r, Z.mul_1_l.
Qed.

(** The millisecond field: the fraction in milliseconds, rounded twice. *)
Lemma millis_spec (s : Q) :
  0 <= s ->
  exists y : Q,
    Clock64.millis (Fin s) = Num.ofZ (Qfloor (y + (1 # 2)))
    /\ 0 <= y
    /\ Qabs (y - 1000 * (s - inject_Z (Qfloor s))) <= pow2 (-44).
Proof.
  intros Hs. destruct (rem_one s Hs) as (f & Ef & Hf).
  destruct (Qfloor_bounds s) as [B1 B2].
  unfold Clock64.millis. rewrite Ef. unfold Num.ofZ at 1. rewrite mul_fin.
  destruct (nearest_bounds (f * inject_Z 1000) 10) as (y & Ey & Hy & He).
  - change (inject_Z 1000) with 1000. lra.
  - change (inject_Z 1000) with 1000. change (pow2 10) with 1024. lra.
  - lia.
  - exists y. rewrite Ey. split; [reflexivity|]. split; [exact Hy|].
    change (inject_Z 1000) with 1000 in He.
    change (10 - 54)%Z with (-44)%Z in He.
    assert (E : 1000 * (s - inject_Z (Qfloor s)) == f * 1000)
      by (rewrite Hf; ring).
    rewrite E. exact He.
Qed.

Lemma millis_below (s : Q) (m : Z) :
  0 <= s -> Clock64.millis (Fin s) = Num.ofZ m -> (m < 1000)%Z ->
  (0 <= m)%Z
  /\ Qabs (inject_Z m - 1000 * (s - inject_Z (Qfloor s)))
     <= (1 # 2) + pow2 (-44).
Proof.
  intros Hs Em Hm. destruct (millis_spec s Hs) as (y & Ey & Hy & He).
  rewrite Ey in Em. unfold Num.ofZ in Em. apply Fin_inj in Em.
  apply (f_equal Qfloor) in Em. rewrite !Qfloor_Z in Em.
  destruct (Qfloor_bounds (y + (1 # 2))) as [B1 B2]. rewrite Em in B1, B2.
  split.
  - rewrite <- Em. apply Qfloor_nonneg. lra.
  - apply Qabs_Qle_condition in He. apply Qabs_Qle_condition. split; lra.
Qed.

(** *** The printed form of a time below the horizon *)

Lemma hours_field (s : Q) :
  0 <= s -> s < Clock64.horizon ->
  s - inject_Z (Qfloor s) < 1 - (1 # 2200) ->
  Num.floor (F64.div (Fin s) (Num.ofZ 3600)) = Num.ofZ (Qfloor s / 3600).
Proof.
  intros Hs Hh Hf. unfold Num.ofZ at 1.
  rewrite div_fin_f64 by reflexivity.
  destruct (Qfloor_bounds s) as [B1 B2].
  pose proof (Qfloor_nonneg s Hs) as Hn.
  set (n := Qfloor s) in *.
  pose proof (Z.div_mod n 3600 ltac:(lia)) as Hdm.
  pose proof (Z.mod_pos_bound n 3600 ltac:(lia)) as Hmod.
  assert (Hn42 : (n < 2 ^ 42)%Z).
  { unfold Clock64.horizon in Hh. rewrite Zlt_Qlt. lra. }
  assert (Hz : (0 <= n / 3600 < 2 ^ 53)%Z).
  { split; [apply Z.div_pos; lia|].
    apply Z.div_lt_upper_bound; lia. }
  assert (Qn : inject_Z n == 3600 * inject_Z (n / 3600) + inject_Z (n mod 3600)).
  { rewrite <- (inject_Z_mult 3600), <- inject_Z_plus, <- Hdm. reflexivity. }
  assert (Qm : inject_Z (n mod 3600) <= 3599).
  { change 3599 with (inject_Z 3599). rewrite <- Zle_Qle. lia. }
  assert (Qm0 : 0 <= inject_Z (n mod 3600)).
  { change 0 with (inject_Z 0). rewrite <- Zle_Qle. lia. }
  unfold Clock64.horizon in Hh. change (inject_Z (2 ^ 42)) with 4398046511104 in Hh.
  apply (floor_nearest _ _ 31); [exact Hz | lia | | |].
  - apply Qle_shift_div_l; [reflexivity|]. change (inject_Z 3600) with 3600. lra.
  - apply Qlt_shift_div_r; [reflexivity|].
    change (inject_Z 3600) with 3600. change (pow2 31) with 2147483648. lra.
  - rewrite inject_Z_plus. change (inject_Z 1) with 1.
    change (pow2 (31 - 54)) with (1 # 8388608).
    assert (E : s / inject_Z 3600 == s * (1 # 3600)) by (unfold Qdiv; reflexivity).
    rewrite E. lra.
Qed.


Lemma minutes_field (s : Q) :
  0 <= s -> s - inject_Z (Qfloor s) < 1 - (1 # 2200) ->
  Num.floor (F64.div (Num.rem (Fin s) (Num.ofZ 3600)) (Num.ofZ 60))
  = Num.ofZ ((Qfloor s mod 3600) / 60).
Proof.
  intros Hs Hf.
  change (Num.rem (Fin s) (Num.ofZ 3600))
    with (Fin (s - inject_Z 3600
                   * inject_Z (Num.truncate (s / inject_Z 3600)))).
  pose proof (rem_pos s 3600 Hs) as Er.
  set (r := s - inject_Z 3600 * inject_Z (Num.truncate (s / inject_Z 3600)))
    in *.
  unfold Num.ofZ at 1. rewrite div_fin_f64 by reflexivity.
  destruct (Qfloor_bounds s) as [B1 B2].
  pose proof (Qfloor_nonneg s Hs) as Hn.
  set (n := Qfloor s) in *.
  pose proof (Z.div_mod n 3600 ltac:(lia)) as Hdm.
  pose proof (Z.mod_pos_bound n 3600 ltac:(lia)) as Hmod.
  pose proof (Z.div_mod (n mod 3600) 60 ltac:(lia)) as Hdm'.
  pose proof (Z.mod_pos_bound (n mod 3600) 60 ltac:(lia)) as Hmod'.
  assert (Hz : (0 <= n mod 3600 / 60 < 2 ^ 53)%Z).
  { split; [apply Z.div_pos; lia|]. apply Z.div_lt_upper_bound; lia. }
  assert (Qr : r == s - inject_Z n + 60 * inject_Z (n mod 3600 / 60)
                    + inject_Z ((n mod 3600) mod 60)).
  { rewrite Er. rewrite <- (inject_Z_mult 60).
    setoid_replace (s - inject_Z n + inject_Z (60 * (n mod 3600 / 60))
                    + inject_Z ((n mod 3600) mod 60))
      with (s - inject_Z n
            + inject_Z (60 * (n mod 3600 / 60) + (n mod 3600) mod 60))
      by (rewrite (inject_Z_plus (60 * (n mod 3600 / 60))); ring).
    rewrite <- Hdm'.
    setoid_replace (s - inject_Z (3600 * (n / 3600)))
      with (s - (inject_Z (3600 * (n / 3600) + n mod 3600)
                 - inject_Z (n mod 3600)))
      by (rewrite inject_Z_plus; ring).
    rewrite <- Hdm. ring. }
  assert (Qm : inject_Z ((n mod 3600) mod 60) <= 59).
  { change 59 with (inject_Z 59). rewrite <- Zle_Qle. lia. }
  assert (Qm0 : 0 <= inject_Z ((n mod 3600) mod 60)).
  { change 0 with (inject_Z 0). rewrite <- Zle_Qle. lia. }
  assert (Qz : inject_Z (n mod 3600 / 60) <= 59).
  { change 59 with (inject_Z 59). rewrite <- Zle_Qle.
    assert (n mod 3600 / 60 < 60)%Z by (apply Z.div_lt_upper_bound; lia).
    lia. }
  assert (E : r / inject_Z 60 == r * (1 # 60)) by (unfold Qdiv; reflexivity).
  apply (floor_nearest _ _ 6); [exact Hz | lia | | |].
  - rewrite E. lra.
  - rewrite E. change (pow2 6) with 64. lra.
  - rewrite inject_Z_plus. change (inject_Z 1) with 1.
    change (pow2 (6 - 54)) with (1 # 281474976710656).
    rewrite E. lra.
Qed.

Lemma seconds_field (s : Q) :
  0 <= s ->
  Num.floor (Num.rem (Fin s) (Num.ofZ 60)) = Num.ofZ (Qfloor s mod 60).
Proof.
  intros Hs.
  change (Num.rem (Fin s) (Num.ofZ 60))
    with (Fin (s - inject_Z 60 * inject_Z (Num.truncate (s / inject_Z 60)))).
  cbn [Num.floor]. now rewrite Qfloor_rem_pos.
Qed.

(** The printed form of a time below the horizon whose millisecond field
    is below 1000. *)
Lemma formatTimestamp_fields_f64 (s : Q) (m : Z) :
  0 <= s -> s < Clock64.horizon ->
  Clock64.millis (Fin s) = Num.ofZ m -> (m < 1000)%Z ->
  Vtt64.formatTimestamp (Fin s)
  = clockText (Qfloor s / 3600) ((Qfloor s mod 3600) / 60)
              (Qfloor s mod 60) m.
Proof.
  intros Hs Hh Em Hm.
  destruct (millis_below s m Hs Em Hm) as [Hm0 Hc].
  assert (Hf : s - inject_Z (Qfloor s) < 1 - (1 # 2200)).
  { apply Qabs_Qle_condition in Hc.
    change (pow2 (-44)) with (1 # 17592186044416) in Hc.
    assert (inject_Z m <= 999).
    { change 999 with (inject_Z 999). rewrite <- Zle_Qle. lia. }
    lra. }
  pose proof (Qfloor_nonneg s Hs) as Hn.
  assert (Hn42 : (Qfloor s < 2 ^ 42)%Z).
  { unfold Clock64.horizon in Hh. pose proof (Qfloor_le s).
    rewrite Zlt_Qlt. lra. }
  unfold Vtt64.formatTimestamp. fold (Clock64.millis (Fin s)).
  rewrite (hours_field s Hs Hh Hf), (minutes_field s Hs Hf),
    (seconds_field s Hs), Em.
  unfold clockText.
  pose proof (Z.mod_pos_bound (Qfloor s) 3600 ltac:(lia)).
  pose proof (Z.mod_pos_bound (Qfloor s) 60 ltac:(lia)).
  rewrite !toString_Z; [reflexivity | | | |].
  - lia.
  - lia.
  - rewrite Z.abs_eq by (apply Z.div_pos; lia).
    apply Z.lt_le_incl, Z.div_lt_upper_bound; lia.
  - rewrite Z.abs_eq by (apply Z.div_pos; lia).
    apply Z.lt_le_incl, Z.div_lt_upper_bound; lia.
Qed.


(** *** Reading the printed form back *)

Lemma parseInt_digits_f64 (ds : string) :
  forallb isDigit ds = true -> ds <> "" ->
  (0 <= digitsValue ds <= 2 ^ 53)%Z ->
  F64.parseInt ds = Num.ofZ (digitsValue ds).
Proof.
  intros Hd Hne Hv. unfold F64.parseInt.
  rewrite (CodecFacts.parseInt_digits ds Hd Hne). cbn [rounded].
  apply nearest_Z. lia.
Qed.

Lemma clockText_parse_f64 (h m s ms : Z) :
  (0 <= h)%Z -> (0 <= m < 60)%Z -> (0 <= s < 60)%Z -> (0 <= ms < 1000)%Z ->
  (h * 3600 + m * 60 + s < 2 ^ 42)%Z ->
  exists q : Q,
    Vtt64.parseTimestamp (clockText h m s ms) = Fin q
    /\ Qabs (q - (inject_Z (h * 3600 + m * 60 + s) + inject_Z ms / 1000))
       <= (1 # 4000).
Proof.
  intros Hh Hm Hs Hms Hbound. unfold Vtt64.parseTimestamp, clockText.
  set (H := padStart 2 "0" (ofZ h)).
  set (M := padStart 2 "0" (ofZ m)).
  set (S := padStart 2 "0" (ofZ s)).
  set (F := padStart 3 "0" (ofZ ms)).
  assert (HdH : forallb isDigit H = true)
    by (apply padStart_digits, ofZ_digits; lia).
  assert (HdM : forallb isDigit M = true)
    by (apply padStart_digits, ofZ_digits; lia).
  assert (HdS : forallb isDigit S = true)
    by (apply padStart_digits, ofZ_digits; lia).
  assert (HdF : forallb isDigit F = true)
    by (apply padStart_digits, ofZ_digits; lia).
  assert (noColon : forall d, forallb isDigit d = true ->
                              forallb (Re.notChar ":") d = true).
  { intros d. apply forallb_impl. intros c Hc. apply (digit_cases c Hc). }
  rewrite (split_sep ":" "" H _ (noColon H HdH)).
  rewrite (split_sep ":" "" M _ (noColon M HdM)).
  rewrite (split_plain ":" "" (S ++ "." ++ F)%string)
    by (rewrite !forallb_append, (noColon S HdS), (noColon F HdF);
        reflexivity).
  assert (VH : digitsValue H = h)
    by (unfold H; rewrite padStart_value, ofZ_value by lia; reflexivity).
  assert (VM : digitsValue M = m)
    by (unfold M; rewrite padStart_value, ofZ_value by lia; reflexivity).
  assert (VS : digitsValue S = s)
    by (unfold S; rewrite padStart_value, ofZ_value by lia; reflexivity).
  assert (VF : digitsValue F = ms)
    by (unfold F; rewrite padStart_value, ofZ_value by lia; reflexivity).
  rewrite (parseInt_digits_f64 H HdH) by
    (try (apply padStart_nonempty, ofZ_nonempty); rewrite VH; lia).
  rewrite (parseInt_digits_f64 M HdM) by
    (try (apply padStart_nonempty, ofZ_nonempty); rewrite VM; lia).
  rewrite VH, VM.
  destruct (CodecFacts.parseFloat_decimal S F HdS
              (padStart_nonempty 2 "0" _ (ofZ_nonempty s)) HdF)
    as (q0 & E0 & Hq0).
  unfold F64.parseFloat. rewrite E0. cbn [rounded].
  rewrite VS, VF in Hq0.
  unfold F in Hq0. rewrite padStart_length in Hq0 by (apply ofZ_length_3; lia).
  change (inject_Z (10 ^ Z.of_nat 3)) with 1000 in Hq0.
  assert (Qs : 0 <= inject_Z s <= 59).
  { change 0 with (inject_Z 0). change 59 with (inject_Z 59).
    rewrite <- !Zle_Qle. lia. }
  assert (Qms : 0 <= inject_Z ms <= 999).
  { change 0 with (inject_Z 0). change 999 with (inject_Z 999).
    rewrite <- !Zle_Qle. lia. }
  assert (Eq0 : q0 == inject_Z s + inject_Z ms * (1 # 1000)).
  { rewrite Hq0. unfold Qdiv. reflexivity. }
  destruct (nearest_bounds q0 6) as (sec & Esec & Hsec & Herr).
  { lra. } { change (pow2 6) with 64. lra. } { lia. }
  rewrite Esec. cbv beta iota zeta.
  unfold Num.ofZ. rewrite !mul_fin.
  rewrite (nearest_ofZ (h * 3600)), (nearest_ofZ (m * 60));
    [| lia | rewrite inject_Z_mult; reflexivity
     | lia | rewrite inject_Z_mult; reflexivity].
  unfold Num.ofZ. rewrite add_fin.
  rewrite (nearest_ofZ (h * 3600 + m * 60));
    [| lia | rewrite inject_Z_plus; reflexivity].
  unfold Num.ofZ. rewrite add_fin.
  set (I := (h * 3600 + m * 60)%Z) in *.
  assert (QI : 0 <= inject_Z I /\ inject_Z I + inject_Z s <= 4398046511103).
  { change 0 with (inject_Z 0). rewrite <- inject_Z_plus.
    change 4398046511103 with (inject_Z (2 ^ 42 - 1)).
    rewrite <- !Zle_Qle. lia. }
  change (6 - 54)%Z with (-48)%Z in Herr.
  change (pow2 (-48)) with (1 # 281474976710656) in Herr.
  apply Qabs_Qle_condition in Herr.
  destruct (nearest_bounds (inject_Z I + sec) 42) as (q & Eq & Hq & He).
  { lra. } { change (pow2 42) with 4398046511104. lra. } { lia. }
  exists q. split; [exact Eq|].
  change (42 - 54)%Z with (-12)%Z in He.
  change (pow2 (-12)) with (1 # 4096) in He.
  apply Qabs_Qle_condition in He.
  rewrite inject_Z_plus. unfold Qdiv. change (/ 1000) with (1 # 1000).
  apply Qabs_Qle_condition. split; lra.
Qed.

(** [parseTimestamp (formatTimestamp s)] for a time below the horizon whose
    millisecond field is below 1000: within 0.8 milliseconds of [s]. *)
Lemma codec_close_f64 (s : Q) (m : Z) :
  0 <= s -> s < Clock64.horizon ->
  Clock64.millis (Fin s) = Num.ofZ m -> (m < 1000)%Z ->
  exists q : Q,
    Vtt64.parseTimestamp (Vtt64.formatTimestamp (Fin s)) = Fin q
    /\ Qabs (q - s) <= 1 # 1250.
Proof.
  intros Hs Hh Em Hm.
  rewrite (formatTimestamp_fields_f64 s m Hs Hh Em Hm).
  destruct (millis_below s m Hs Em Hm) as [Hm0 Hc].
  pose proof (Qfloor_nonneg s Hs) as Hn.
  assert (Hn42 : (Qfloor s < 2 ^ 42)%Z).
  { unfold Clock64.horizon in Hh. pose proof (Qfloor_le s).
    rewrite Zlt_Qlt. lra. }
  set (n := Qfloor s) in *.
  pose proof (Z.div_mod n 3600 ltac:(lia)) as D1.
  pose proof (Z.div_mod (n mod 3600) 60 ltac:(lia)) as D2.
  pose proof (Z.mod_pos_bound n 3600 ltac:(lia)) as B1.
  pose proof (Z.mod_pos_bound (n mod 3600) 60 ltac:(lia)) as B2.
  assert (E60 : ((n mod 3600) mod 60 = n mod 60)%Z).
  { apply Zdiv.Z.mod_mod_divide. exists 60%Z. reflexivity. }
  assert (EI : (n / 3600 * 3600 + n mod 3600 / 60 * 60 + n mod 60 = n)%Z)
    by lia.
  destruct (clockText_parse_f64 (n / 3600) (n mod 3600 / 60) (n mod 60) m)
    as (q & E & Hq).
  - apply Z.div_pos; lia.
  - split; [apply Z.div_pos; lia | apply Z.div_lt_upper_bound; lia].
  - apply Z.mod_pos_bound. lia.
  - lia.
  - lia.
  - exists q. split; [exact E|]. rewrite EI in Hq.
    apply Qabs_Qle_condition in Hq. apply Qabs_Qle_condition in Hc.
    change (pow2 (-44)) with (1 # 17592186044416) in Hc.
    unfold Qdiv in Hq. change (/ 1000) with (1 # 1000) in Hq.
    apply Qabs_Qle_condition. split; lra.
Qed.


(** *** Whole numbers of milliseconds *)

(** The binary64 value of [k] milliseconds, below the horizon: less than a
    quarter of a millisecond from [k / 1000], with the same integer part,
    and with [k mod 1000] as its millisecond field. *)
Lemma ofMillis_spec (k : Z) :
  (0 <= k < 1000 * 2 ^ 42)%Z ->
  exists s : Q,
    Clock64.ofMillis k = Fin s
    /\ 0 <= s /\ s < Clock64.horizon
    /\ Qabs (s - inject_Z k / 1000) <= 1 # 4096
    /\ Qfloor s = (k / 1000)%Z
    /\ Clock64.millis (Fin s) = Num.ofZ (k mod 1000).
Proof.
  intros Hk.
  pose proof (Z.div_mod k 1000 ltac:(lia)) as D.
  pose proof (Z.mod_pos_bound k 1000 ltac:(lia)) as B.
  assert (Hn : (0 <= k / 1000 < 2 ^ 42)%Z).
  { split; [apply Z.div_pos; lia | apply Z.div_lt_upper_bound; lia]. }
  set (n := (k / 1000)%Z) in *. set (m := (k mod 1000)%Z) in *.
  assert (Ex : inject_Z k / 1000 == inject_Z n + inject_Z m * (1 # 1000)).
  { rewrite D, inject_Z_plus, inject_Z_mult. change (inject_Z 1000) with 1000.
    field. }
  assert (Qm : 0 <= inject_Z m <= 999).
  { change 0 with (inject_Z 0). change 999 with (inject_Z 999).
    rewrite <- !Zle_Qle. lia. }
  assert (Qn : 0 <= inject_Z n <= 4398046511103).
  { change 0 with (inject_Z 0). change 4398046511103 with (inject_Z (2 ^ 42 - 1)).
    rewrite <- !Zle_Qle. lia. }
  unfold Clock64.ofMillis.
  destruct (nearest_bounds (inject_Z k / 1000) 42) as (s & Es & Hs & He).
  { lra. } { change (pow2 42) with 4398046511104. lra. } { lia. }
  change (42 - 54)%Z with (-12)%Z in He.
  change (pow2 (-12)) with (1 # 4096) in He.
  pose proof He as He'. apply Qabs_Qle_condition in He'.
  assert (Hlo : inject_Z n <= s).
  { apply (nearest_ge_Z (inject_Z k / 1000) s n); [lia | lra | exact Es]. }
  assert (Hfl : Qfloor s = n).
  { apply Qfloor_unique; [exact Hlo|].
    rewrite inject_Z_plus. change (inject_Z 1) with 1. lra. }
  exists s. split; [exact Es|]. split; [exact Hs|]. split.
  { unfold Clock64.horizon. change (inject_Z (2 ^ 42)) with 4398046511104. lra. }
  split; [exact He|]. split; [exact Hfl|].
  destruct (millis_spec s Hs) as (y & Ey & Hy & Herr).
  rewrite Ey. f_equal. rewrite Hfl in Herr.
  change (pow2 (-44)) with (1 # 17592186044416) in Herr.
  apply Qabs_Qle_condition in Herr.
  apply Qfloor_unique.
  - lra.
  - rewrite inject_Z_plus. change (inject_Z 1) with 1. lra.
Qed.

End Codec64Facts.

(** ** Serializing, and parsing what was serialized, in binary64 *)

Module RoundTrip64Facts.

Import Str Shape StrFacts SplitFacts DigitFacts Clock ClockFacts.
Import Vtt Block ParseFacts RoundTrip RoundTripFacts.
Import RoundTrip64.

Lemma serializeCue_lines_f64 (c : VTTCue) :
  Vtt64.serializeCue c = unlines (RoundTrip64.cueLines c).
Proof.
  unfold Vtt64.serializeCue, RoundTrip64.cueLines, RoundTrip64.rangeLine,
    textLine.
  cbn [unlines].
  rewrite !append_assoc. do 4 f_equal.
  destruct (speaker c) as [[|x s]|]; rewrite ?append_assoc;
    now rewrite ?append_nil_r.
Qed.

Lemma serializeVTT_lines_f64 (cues : list VTTCue) :
  Vtt64.serializeVTT cues
  = unlines ("WEBVTT" :: "" :: flat_map RoundTrip64.cueLines cues).
Proof.
  unfold Vtt64.serializeVTT. rewrite fold_left_append.
  cbn [unlines]. rewrite !append_assoc. do 2 f_equal.
  change ("" ++ LF ++ unlines (flat_map RoundTrip64.cueLines cues))%string
    with (LF ++ unlines (flat_map RoundTrip64.cueLines cues))%string.
  f_equal. induction cues as [|c cues IH]; [reflexivity|].
  cbn [map flat_map]. rewrite concat_cons, unlines_app, IH.
  now rewrite serializeCue_lines_f64.
Qed.

Lemma parseBlocks_plain_f64 (l : string) (rest : list string) :
  isTimestampLine l = false ->
  Vtt64.parseBlocks (l :: rest) = Vtt64.parseBlocks rest.
Proof.
  intros E. cbn [Vtt64.parseBlocks]. now rewrite isTimestampLine_trim, E.
Qed.

Lemma parseBlocks_skipHeader_f64 (lines : list string) :
  Vtt64.parseBlocks (skipHeader lines) = Vtt64.parseBlocks lines.
Proof.
  induction lines as [|l rest IH]; [reflexivity|].
  cbn [skipHeader]. destruct (isTimestampLine l) eqn:E; [reflexivity|].
  rewrite IH. symmetry. now apply parseBlocks_plain_f64.
Qed.

(** The millisecond field of a safe time. *)
Lemma safeTime_millis (n : number) :
  safeTime n ->
  exists (s : Q) (m : Z),
    n = Fin s /\ (0 <= s)%Q /\ (s < Clock64.horizon)%Q
    /\ Clock64.millis (Fin s) = Num.ofZ m /\ m < 1000.
Proof.
  intros [(s & -> & Hs & Hh) Hlt].
  destruct (Codec64Facts.millis_spec s Hs) as (y & Ey & _).
  exists s, (Qfloor (y + (1 # 2))).
  repeat split; try assumption.
  rewrite Ey in Hlt. cbn [Num.ltb Num.ofZ] in Hlt.
  apply negb_true_iff, MergeFacts.Qle_bool_false in Hlt.
  rewrite <- Zlt_Qlt in Hlt. exact Hlt.
Qed.

(** The printed form of a safe time. *)
Lemma formatTimestamp_safe_f64 (n : number) :
  safeTime n ->
  exists c r,
    Vtt64.formatTimestamp n = String c r
    /\ forallb clockChar (String c r) = true.
Proof.
  intros H. destruct (safeTime_millis n H) as (s & m & -> & Hs & Hh & Em & Hm).
  rewrite (Codec64Facts.formatTimestamp_fields_f64 s m Hs Hh Em Hm).
  destruct (Codec64Facts.millis_below s m Hs Em Hm) as [Hm0 _].
  pose proof (Qfloor_nonneg s Hs) as Hn.
  assert (H1 : 0 <= Qfloor s / 3600) by (apply Z.div_pos; lia).
  assert (H2 : 0 <= Qfloor s mod 3600 / 60)
    by (apply Z.div_pos; [apply Z.mod_pos_bound|]; lia).
  assert (H3 : 0 <= Qfloor s mod 60) by (apply Z.mod_pos_bound; lia).
  destruct (CodecFacts.clockText_first _ (Qfloor s mod 3600 / 60)
              (Qfloor s mod 60) m H1) as (c & r & E & _).
  exists c, r. split; [exact E|]. rewrite <- E.
  apply CodecFacts.clockText_chars; lia.
Qed.

Lemma safeTime_read_f64 (n : number) :
  safeTime n ->
  closer (1 # 1000) n (Vtt64.parseTimestamp (Vtt64.formatTimestamp n)).
Proof.
  intros H. destruct (safeTime_millis n H) as (s & m & -> & Hs & Hh & Em & Hm).
  destruct (Codec64Facts.codec_close_f64 s m Hs Hh Em Hm) as (q & E & Hq).
  rewrite E. cbn [closer]. eapply Qle_lt_trans; [exact Hq | reflexivity].
Qed.

Lemma rangeLine_parse_f64 (a b : string) :
  forallb clockChar a = true -> forallb clockChar b = true ->
  a <> "" -> b <> "" ->
  Vtt64.parseRange (trim (a ++ " --> " ++ b))
  = (Vtt64.parseTimestamp a, Vtt64.parseTimestamp b).
Proof.
  intros Ha Hb Hane Hbne.
  rewrite rangeLine_trim by assumption. unfold Vtt64.parseRange.
  rewrite rangeLine_split by assumption. reflexivity.
Qed.

(** The tag of a speaker name is read back as the name. *)
Lemma matchSpeakerTag_name (name t : string) :
  RoundTrip64.speakerName name -> forallb Re.notLineTerminator t = true ->
  matchSpeakerTag ("<v " ++ name ++ ">" ++ t) = Some (name, t).
Proof.
  intros (Hne & Hgt & Hlf & [Hsp | Hone]) Ht.
  - apply matchSpeakerTag_tagged; [repeat split; assumption | exact Ht].
  - destruct name as [|x [|y name]]; try discriminate Hone.
    destruct (isSpace x) eqn:Ex.
    + change ("<v " ++ String x "" ++ ">" ++ t)%string
        with (String "<" (String "v" (String " " (String x (String ">" t))))).
      cbn [matchSpeakerTag span].
      change (isSpace " ") with true. rewrite Ex.
      change (isSpace ">") with false.
      cbn [fst String.length Re.tryDown Nat.add drop span].
      change (Re.notChar ">" ">") with false.
      cbn [Re.notChar]. cbn in Hgt. apply andb_prop in Hgt as [Hx _].
      unfold Re.notChar in *. rewrite Hx.
      cbn [span]. change (negb (Ascii.eqb ">" ">")) with false.
      cbn iota. unfold Re.dotStar. now rewrite (span_all _ _ Ht).
    + apply matchSpeakerTag_tagged; [|exact Ht].
      repeat split; assumption.
Qed.

(** What the parser makes of the text line of a printable cue. *)
Lemma textLine_read_f64 (c : VTTCue) :
  printable c ->
  trim (textLine c) = textLine c
  /\ textLine c <> ""
  /\ noLF (textLine c)
  /\ text c <> ""
  /\ match matchSpeakerTag (textLine c) with
     | Some (name, after) => speaker c = Some name /\ after = text c
     | None => speaker c = None /\ textLine c = text c
     end.
Proof.
  intros (_ & _ & H). unfold textLine.
  destruct (speaker c) as [name|].
  - destruct H as (Hname & Hne & Hend & Hlt).
    pose proof Hname as (Hn0 & _ & Hlf & _).
    destruct name as [|x name]; [contradiction|].
    rewrite (matchSpeakerTag_name _ _ Hname Hlt).
    repeat split; try assumption.
    + rewrite <- (append_assoc (String x name) ">"), <- append_assoc.
      change ("<v " ++ String x name ++ ">")%string
        with (String "<" ("v " ++ String x name ++ ">")).
      now apply trim_append_fix.
    + discriminate.
    + unfold noLF in *.
      rewrite !forallb_append, Hlf, (notLineTerminator_noLF _ Hlt).
      reflexivity.
  - destruct H as (Hne & Htrim & Hlf & Hno). rewrite Hno.
    repeat split; assumption.
Qed.

Lemma cueLines_read_f64 (c : VTTCue) (more : list string) :
  printable c ->
  exists p,
    Vtt64.parseBlocks (RoundTrip64.cueLines c ++ more)
    = p :: Vtt64.parseBlocks more
    /\ agrees (1 # 1000) c p.
Proof.
  intros Hc. pose proof Hc as (Hs & He & _).
  destruct (textLine_read_f64 c Hc) as (Htrim & Hne & _ & Htext & Hm).
  destruct (formatTimestamp_safe_f64 _ Hs) as (x & a & Ea & Ha).
  destruct (formatTimestamp_safe_f64 _ He) as (y & b & Eb & Hb).
  unfold RoundTrip64.cueLines, RoundTrip64.rangeLine.
  cbn [app Vtt64.parseBlocks].
  rewrite Ea, Eb.
  rewrite isTimestampLine_trim, (rangeLine_arrow (String x a) (String y b)).
  rewrite (rangeLine_parse_f64 _ _ Ha Hb) by discriminate.
  cbn [readTextLines]. rewrite Htrim.
  apply isEmpty_false in Hne. rewrite Hne.
  apply isEmpty_false in Htext.
  change (trim "") with "". cbn [isEmpty].
  destruct (matchSpeakerTag (textLine c)) as [[name after]|].
  - destruct Hm as [Hsp ->]. rewrite Htext. cbn [app emit join].
    eexists. split; [reflexivity|].
    unfold agrees. cbn [start end_ speaker text]. rewrite <- Ea, <- Eb.
    repeat split;
      [now apply safeTime_read_f64 | now apply safeTime_read_f64 | now rewrite Hsp].
  - destruct Hm as [Hsp ->]. rewrite Htext. cbn [app emit join].
    eexists. split; [reflexivity|].
    unfold agrees. cbn [start end_ speaker text]. rewrite <- Ea, <- Eb.
    repeat split;
      [now apply safeTime_read_f64 | now apply safeTime_read_f64 | now rewrite Hsp].
Qed.

Lemma cueLines_noLF_f64 (c : VTTCue) :
  printable c -> Forall noLF (RoundTrip64.cueLines c).
Proof.
  intros Hc. pose proof Hc as (Hs & He & _).
  destruct (textLine_read_f64 c Hc) as (_ & _ & Hlf & _).
  destruct (formatTimestamp_safe_f64 _ Hs) as (x & a & Ea & Ha).
  destruct (formatTimestamp_safe_f64 _ He) as (y & b & Eb & Hb).
  unfold RoundTrip64.cueLines. repeat constructor; [|exact Hlf].
  unfold RoundTrip64.rangeLine. rewrite Ea, Eb. now apply rangeLine_noLF.
Qed.

Lemma allLines_read_f64 (cues : list VTTCue) :
  Forall printable cues ->
  Forall2 (agrees (1 # 1000)) cues
          (Vtt64.parseBlocks (flat_map RoundTrip64.cueLines cues ++ [""])).
Proof.
  induction 1 as [|c cues Hc _ IH]; [constructor|].
  cbn [flat_map]. rewrite <- app_assoc.
  destruct (cueLines_read_f64 c (flat_map RoundTrip64.cueLines cues ++ [""]) Hc)
    as (p & -> & Hp).
  now constructor.
Qed.

(** Parsing the serialized form of printable cues reads each of them
    back. *)
Lemma round_trip_f64 (cues : list VTTCue) :
  Forall printable cues ->
  Forall2 (agrees (1 # 1000)) cues
          (Vtt64.parseVTT (Vtt64.serializeVTT cues)).
Proof.
  intros H. rewrite serializeVTT_lines_f64. unfold Vtt64.parseVTT.
  rewrite <- (append_nil_r (unlines _)).
  rewrite split_unlines.
  - rewrite parseBlocks_skipHeader_f64.
    cbn [app]. rewrite !parseBlocks_plain_f64 by reflexivity.
    now apply allLines_read_f64.
  - repeat constructor.
    induction H as [|c cues Hc _ IH]; [constructor|].
    cbn [flat_map]. apply Forall_app. split; [now apply cueLines_noLF_f64 | exact IH].
  - reflexivity.
Qed.

End RoundTrip64Facts.

(** ** The chunk planner in binary64 *)

Module Plan64Facts.

Import Audio Plan Plan64.
Import Binary64 Binary64Facts.

Local Open Scope Q_scope.

Lemma sumDurations_app (a b : list AudioChunk) :
  sumDurations (a ++ b) == sumDurations a + sumDurations b.
Proof.
  unfold sumDurations.
  induction a as [|c a IH]; cbn [app fold_right]; [ring|].
  rewrite IH. ring.
Qed.

Lemma inject_nat_succ (k : nat) :
  inject_Z (Z.of_nat (S k)) == inject_Z (Z.of_nat k) + 1.
Proof.
  rewrite Nat2Z.inj_succ. unfold Z.succ. now rewrite inject_Z_plus.
Qed.

Section EqualChunks.

(** The plan of [n] chunks of a recording of [total] seconds: [n] from 1
    to [2 ^ 50], [total] from [2 ^ -970] to [2 ^ 1022], and [d] the rounded
    quotient. *)
Variables (total : Q) (n : Z) (d : Q).
Hypotheses (Hlow : pow2 (-970) <= total) (Hhigh : total <= pow2 1022)
           (Hn : (1 <= n <= 2 ^ 50)%Z)
           (Hd : F64.div (Fin total) (Num.ofZ n) = Fin d).

Local Abbreviation u := (1 # 9007199254740992).
Local Abbreviation chunk := (Audio64.chunkAt (Fin total) (Num.ofZ n) (Fin d)).
Local Abbreviation off := (Plan64.off d).
Local Abbreviation lastDuration := (Plan64.lastDuration total n d).

Lemma total_pos : 0 < total.
Proof. eapply Qlt_le_trans; [apply (pow2_pos (-970)) | exact Hlow]. Qed.

Lemma inject_n_pos_f64 : 0 < inject_Z n.
Proof. change 0 with (inject_Z 0). rewrite <- Zlt_Qlt. lia. Qed.

Lemma inject_n_le : inject_Z n <= 1125899906842624.
Proof.
  change 1125899906842624 with (inject_Z (2 ^ 50)). rewrite <- Zle_Qle. lia.
Qed.

(** The exact quotient. *)
Lemma quotient_bounds :
  total * (1 # 1125899906842624) <= total / inject_Z n
  /\ total / inject_Z n <= total.
Proof.
  pose proof total_pos as Ht. pose proof inject_n_pos_f64 as Hp.
  pose proof inject_n_le as Hle.
  assert (H1 : 1 <= inject_Z n).
  { change 1 with (inject_Z 1). rewrite <- Zle_Qle. lia. }
  split.
  - apply Qle_shift_div_l; [exact Hp|].
    apply Qle_trans with (total * (1 # 1125899906842624) * 1125899906842624).
    + apply Qmult_le_l; [|exact Hle].
      apply Qmult_lt_0_compat; [exact Ht | reflexivity].
    + apply Qle_lteq. right. field.
  - apply Qle_shift_div_r; [exact Hp|].
    apply Qle_trans with (total * 1); [apply Qle_lteq; right; ring|].
    apply Qmult_le_l; assumption.
Qed.

(** The chunk duration is the quotient up to one rounding. *)
Lemma chunkDuration_close :
  Qabs (d - total / inject_Z n) <= u * (total / inject_Z n).
Proof.
  pose proof total_pos as Ht. pose proof inject_n_pos_f64 as Hp.
  destruct quotient_bounds as [Q1 Q2].
  unfold Num.ofZ in Hd. rewrite (Codec64Facts.div_fin_f64 _ _ Hp) in Hd.
  destruct (nearest_error_pos (total / inject_Z n)) as (r & Er & He).
  - apply Qle_trans with (pow2 (-1020)); [apply pow2_le; lia|].
    apply Qle_trans with (total * (1 # 1125899906842624)); [|exact Q1].
    apply Qle_trans with (pow2 (-970) * (1 # 1125899906842624)).
    + apply Qle_lteq. right.
      change (1 # 1125899906842624) with (pow2 (-50)). rewrite <- pow2_add.
      reflexivity.
    + apply Qmult_le_compat_r; [exact Hlow | discriminate].
  - eapply Qle_lt_trans; [exact Q2|].
    eapply Qle_lt_trans; [exact Hhigh|]. apply pow2_lt. lia.
  - rewrite Er in Hd. apply Fin_inj in Hd. subst r.
    change (pow2 (-53)) with u in He. exact He.
Qed.

Lemma chunkDuration_bounds :
  total * (1 # 2251799813685248) <= d
  /\ inject_Z n * d <= total * (1 + u)
  /\ total * (1 - u) <= inject_Z n * d.
Proof.
  pose proof total_pos as Ht. pose proof inject_n_pos_f64 as Hp.
  destruct quotient_bounds as [Q1 Q2].
  pose proof chunkDuration_close as Hc. apply Qabs_Qle_condition in Hc.
  assert (E : inject_Z n * (total / inject_Z n) == total)
    by (field; lra).
  set (tn := total / inject_Z n) in *.
  split; [lra|]. split.
  - apply Qle_trans with (inject_Z n * (tn * (1 + u))).
    + apply Qmult_le_l; [exact Hp | lra].
    + apply Qle_lteq. right. rewrite <- E. ring.
  - apply Qle_trans with (inject_Z n * (tn * (1 - u))).
    + apply Qle_lteq. right. rewrite <- E. ring.
    + apply Qmult_le_l; [exact Hp | lra].
Qed.

Lemma chunkDuration_pos_f64 : 0 < d.
Proof.
  pose proof total_pos. destruct chunkDuration_bounds as [H1 _]. lra.
Qed.


Lemma multiple_bounds (i : nat) :
  (Z.of_nat i < n)%Z ->
  0 <= inject_Z (Z.of_nat i) * d
  /\ inject_Z (Z.of_nat i) * d + d <= inject_Z n * d.
Proof.
  intros Hi. pose proof chunkDuration_pos_f64 as Hp.
  assert (H0 : 0 <= inject_Z (Z.of_nat i)).
  { change 0 with (inject_Z 0). rewrite <- Zle_Qle. lia. }
  assert (H1 : inject_Z (Z.of_nat i) + 1 <= inject_Z n).
  { change 1 with (inject_Z 1). rewrite <- inject_Z_plus, <- Zle_Qle. lia. }
  split.
  - apply Qmult_le_0_compat; lra.
  - apply Qle_trans with ((inject_Z (Z.of_nat i) + 1) * d).
    + apply Qle_lteq. right. ring.
    + apply Qmult_le_compat_r; lra.
Qed.

Lemma offset_spec (i : nat) :
  (Z.of_nat i < n)%Z ->
  F64.mul (Num.ofZ (Z.of_nat i)) (Fin d) = Fin (off i)
  /\ 0 <= off i
  /\ Qabs (off i - inject_Z (Z.of_nat i) * d)
     <= u * (inject_Z (Z.of_nat i) * d).
Proof.
  intros Hi. pose proof total_pos as Ht. pose proof chunkDuration_pos_f64 as Hp.
  destruct chunkDuration_bounds as (B1 & B2 & B3).
  destruct (multiple_bounds i Hi) as [M1 M2].
  unfold Plan64.off. unfold Num.ofZ. rewrite Codec64Facts.mul_fin.
  destruct i as [|i].
  - assert (E0 : inject_Z (Z.of_nat 0) * d == 0)
      by (change (inject_Z (Z.of_nat 0)) with 0; ring).
    rewrite (nearest_null _ E0).
    cbn [valueOf]. split; [reflexivity|]. split; [lra|].
    apply Qabs_Qle_condition. lra.
  - assert (H1 : 1 <= inject_Z (Z.of_nat (S i))).
    { change 1 with (inject_Z 1). rewrite <- Zle_Qle. lia. }
    assert (Hx : d <= inject_Z (Z.of_nat (S i)) * d).
    { apply Qle_trans with (1 * d); [apply Qle_lteq; right; ring|].
      apply Qmult_le_compat_r; lra. }
    destruct (nearest_error_pos (inject_Z (Z.of_nat (S i)) * d))
      as (r & Er & He).
    + apply Qle_trans with (pow2 (-1021)); [apply pow2_le; lia|].
      apply Qle_trans with (total * (1 # 2251799813685248)); [|lra].
      apply Qle_trans with (pow2 (-970) * (1 # 2251799813685248)).
      * apply Qle_lteq. right.
        change (1 # 2251799813685248) with (pow2 (-51)). rewrite <- pow2_add.
        reflexivity.
      * apply Qmult_le_compat_r; [exact Hlow | discriminate].
    + pose proof (pow2_pos 1022) as Hbig.
      pose proof (pow2_succ 1022) as Etop.
      change (1022 + 1)%Z with 1023%Z in Etop. lra.
    + rewrite Er. cbn [valueOf]. split; [reflexivity|].
      change (pow2 (-53)) with u in He.
      split; [|exact He]. apply Qabs_Qle_condition in He. lra.
Qed.


Lemma count_minus_one :
  F64.sub (Num.ofZ n) (Num.ofZ 1) = Num.ofZ (n - 1).
Proof.
  unfold Num.ofZ. rewrite Codec64Facts.sub_fin.
  apply Codec64Facts.nearest_ofZ; [lia|].
  unfold Z.sub. rewrite inject_Z_plus. reflexivity.
Qed.

Lemma chunk_inner_f64 (i : nat) :
  (Z.of_nat i < n - 1)%Z -> duration (chunk i) = Fin d.
Proof.
  intros Hi. unfold Audio64.chunkAt. cbn [duration].
  rewrite count_minus_one.
  replace (Num.ltb (Num.ofZ (Z.of_nat i)) (Num.ofZ (n - 1))) with true;
    [reflexivity|].
  symmetry. cbn. apply negb_true_iff, MergeFacts.Qle_bool_false.
  rewrite <- Zlt_Qlt. exact Hi.
Qed.

Lemma chunk_last_f64 (i : nat) :
  (n - 1 <= Z.of_nat i)%Z ->
  duration (chunk i) = F64.sub (Fin total) (offset (chunk i)).
Proof.
  intros Hi. unfold Audio64.chunkAt. cbn [duration offset].
  rewrite count_minus_one.
  replace (Num.ltb (Num.ofZ (Z.of_nat i)) (Num.ofZ (n - 1))) with false;
    [reflexivity|].
  symmetry. cbn. apply negb_false_iff, MergeFacts.Qle_bool_true.
  rewrite <- Zle_Qle. exact Hi.
Qed.

Lemma chunk_file (i : nat) :
  (Z.of_nat i < n)%Z ->
  file (chunk i)
  = ("chunk_" ++ Str.padStart 2 "0" (Str.ofZ (Z.of_nat i + 1)) ++ ".ogg")%string.
Proof.
  intros Hi. unfold Audio64.chunkAt. cbn [file]. do 2 f_equal.
  unfold Num.ofZ. rewrite Codec64Facts.add_fin.
  rewrite (Codec64Facts.nearest_ofZ (Z.of_nat i + 1));
    [| lia | rewrite inject_Z_plus; reflexivity].
  rewrite Codec64Facts.toString_Z by lia. reflexivity.
Qed.


Lemma last_spec :
  F64.sub (Fin total) (Fin (off (Z.to_nat (n - 1)))) = Fin lastDuration
  /\ 0 < lastDuration
  /\ total * (1 # 4503599627370496) <= total - off (Z.to_nat (n - 1))
  /\ total - off (Z.to_nat (n - 1)) <= total
  /\ Qabs (lastDuration - (total - off (Z.to_nat (n - 1))))
     <= u * (total - off (Z.to_nat (n - 1))).
Proof.
  pose proof total_pos as Ht. pose proof chunkDuration_pos_f64 as Hp.
  destruct chunkDuration_bounds as (B1 & B2 & B3).
  set (i := Z.to_nat (n - 1)).
  assert (Hi : (Z.of_nat i < n)%Z) by (unfold i; lia).
  assert (Ei : (Z.of_nat i = n - 1)%Z) by (unfold i; lia).
  destruct (offset_spec i Hi) as (_ & O1 & O2).
  destruct (multiple_bounds i Hi) as [M1 M2].
  apply Qabs_Qle_condition in O2.
  set (a := inject_Z (Z.of_nat i) * d) in *.
  set (P := inject_Z n * d) in *.
  set (o := off i) in *.
  assert (Hx : total * (1 # 4503599627370496) <= total - o) by lra.
  unfold Plan64.lastDuration. fold i. fold o. rewrite Codec64Facts.sub_fin.
  destruct (nearest_error_pos (total + - o)) as (r & Er & He).
  - apply Qle_trans with (total * (1 # 4503599627370496)); [|lra].
    apply Qle_trans with (pow2 (-970) * (1 # 4503599627370496)).
    + apply Qle_lteq. right.
      change (1 # 4503599627370496) with (pow2 (-52)). rewrite <- pow2_add.
      reflexivity.
    + apply Qmult_le_compat_r; [exact Hlow | discriminate].
  - apply Qle_lt_trans with total; [lra|].
    eapply Qle_lt_trans; [exact Hhigh|]. apply pow2_lt. lia.
  - rewrite Er. cbn [valueOf]. split; [reflexivity|].
    change (pow2 (-53)) with u in He.
    pose proof He as He'. apply Qabs_Qle_condition in He'.
    split; [lra|]. split; [lra|]. split; [lra|].
    apply Qabs_Qle_condition. split; lra.
Qed.

(** What the chunks miss of an exact cover. *)
Lemma gap_bound (i : nat) :
  (Z.of_nat i + 1 < n)%Z ->
  Qabs (off (S i) - (off i + d)) <= total * pow2 (-51).
Proof.
  intros Hi. pose proof total_pos as Ht. pose proof chunkDuration_pos_f64 as Hp.
  destruct chunkDuration_bounds as (B1 & B2 & B3).
  destruct (offset_spec i ltac:(lia)) as (_ & O1 & O2).
  destruct (offset_spec (S i) ltac:(lia)) as (_ & O3 & O4).
  destruct (multiple_bounds i ltac:(lia)) as [M1 M2].
  destruct (multiple_bounds (S i) ltac:(lia)) as [M3 M4].
  assert (E : inject_Z (Z.of_nat (S i)) * d
              == inject_Z (Z.of_nat i) * d + d)
    by (rewrite inject_nat_succ; ring).
  apply Qabs_Qle_condition in O2. apply Qabs_Qle_condition in O4.
  change (pow2 (-51)) with (1 # 2251799813685248).
  apply Qabs_Qle_condition. split; lra.
Qed.

Lemma end_bound :
  Qabs (off (Z.to_nat (n - 1)) + lastDuration - total)
  <= total * pow2 (-51).
Proof.
  pose proof total_pos as Ht.
  destruct last_spec as (_ & L1 & L2 & L3 & L4).
  apply Qabs_Qle_condition in L4.
  change (pow2 (-51)) with (1 # 2251799813685248).
  apply Qabs_Qle_condition. split; lra.
Qed.

Lemma eps_nonneg : 0 <= total * pow2 (-51).
Proof.
  pose proof total_pos. change (pow2 (-51)) with (1 # 2251799813685248). lra.
Qed.

(** The chunks from the one of index [k] on. *)
Lemma chunks_tile_f64 (m k : nat) (from : Q) :
  (Z.of_nat k + Z.of_nat m = n)%Z ->
  ((Z.of_nat k < n)%Z -> Qabs (off k - from) <= total * pow2 (-51)) ->
  ((Z.of_nat k = n)%Z -> Qabs (from - total) <= total * pow2 (-51)) ->
  tilesWithin (total * pow2 (-51)) from (map chunk (seq k m)) total.
Proof.
  revert k from. induction m as [|m IH]; intros k from Hk Hin Hend.
  - cbn. apply Hend. lia.
  - cbn [seq map tilesWithin].
    assert (Hlt : (Z.of_nat k < n)%Z) by lia.
    destruct (offset_spec k Hlt) as (Eo & _ & _).
    destruct (Z_lt_le_dec (Z.of_nat k) (n - 1)) as [Hinner | Hlast].
    + exists (off k), d. split; [exact Eo|].
      split; [apply (chunk_inner_f64 k Hinner)|].
      split; [apply chunkDuration_pos_f64|]. split; [apply Hin, Hlt|].
      apply IH; [lia | | intros E; lia].
      intros _. apply gap_bound. lia.
    + assert (Ek : k = Z.to_nat (n - 1)) by lia.
      destruct last_spec as (El & Lpos & _).
      exists (off k), lastDuration. split; [exact Eo|]. split.
      { rewrite (chunk_last_f64 k Hlast). cbn [offset Audio64.chunkAt].
        rewrite Eo, Ek. exact El. }
      split; [exact Lpos|]. split; [apply Hin, Hlt|].
      apply IH; [lia | intros E; lia |].
      intros _. rewrite Ek. apply end_bound.
Qed.

(** The durations of the chunks before the last add up to a multiple of
    the chunk duration. *)
Lemma inner_sum (m : nat) (k : nat) :
  (Z.of_nat k + Z.of_nat m < n)%Z ->
  sumDurations (map chunk (seq k m)) == inject_Z (Z.of_nat m) * d.
Proof.
  revert k. induction m as [|m IH]; intros k Hk.
  - cbn. ring.
  - cbn [seq map]. unfold sumDurations. cbn [fold_right].
    fold (sumDurations (map chunk (seq (S k) m))).
    rewrite (chunk_inner_f64 k) by lia. cbn [valueOf].
    rewrite IH by lia. rewrite inject_nat_succ. ring.
Qed.

Lemma chunks_sum :
  Qabs (sumDurations (map chunk (seq 0 (Z.to_nat n))) - total)
  <= total * pow2 (-51).
Proof.
  pose proof total_pos as Ht.
  destruct chunkDuration_bounds as (B1 & B2 & B3).
  set (i := Z.to_nat (n - 1)).
  assert (Ei : Z.to_nat n = S i) by (unfold i; lia).
  assert (Hi : (Z.of_nat i < n)%Z) by (unfold i; lia).
  rewrite Ei, seq_S, map_app, sumDurations_app, inner_sum by lia.
  cbn [Nat.add map]. unfold sumDurations at 1. cbn [fold_right].
  rewrite (chunk_last_f64 i) by lia. cbn [offset Audio64.chunkAt].
  destruct (offset_spec i Hi) as (Eo & O1 & O2).
  destruct (multiple_bounds i Hi) as [M1 M2].
  destruct last_spec as (El & L1 & L2 & L3 & L4). fold i in El, L2, L3, L4.
  rewrite Eo, El. cbn [valueOf].
  apply Qabs_Qle_condition in O2. apply Qabs_Qle_condition in L4.
  change (pow2 (-51)) with (1 # 2251799813685248).
  apply Qabs_Qle_condition. split; lra.
Qed.

Lemma chunks_nth_f64 (i : nat) (c : AudioChunk) :
  nth_error (map chunk (seq 0 (Z.to_nat n))) i = Some c ->
  (Z.of_nat i < n)%Z /\ c = chunk i.
Proof.
  intros H. rewrite nth_error_map in H.
  destruct (nth_error (seq 0 (Z.to_nat n)) i) as [j|] eqn:E; [|discriminate].
  pose proof (nth_error_Some (seq 0 (Z.to_nat n)) i) as Hlen.
  rewrite E, length_seq in Hlen.
  assert (Hi : (i < Z.to_nat n)%nat) by (apply Hlen; discriminate).
  rewrite nth_error_nth' with (d := 0%nat) in E by (rewrite length_seq; lia).
  rewrite seq_nth in E by lia. injection E as <-. injection H as <-.
  split; [lia | reflexivity].
Qed.

End EqualChunks.

(** The number of chunks of a recording longer than the limit: the rounded
    quotient, rounded up. *)
Lemma count_spec (total max : Q) :
  0 < max -> max < total ->
  total <= max * inject_Z Audio64.MAX_ARRAY_LENGTH ->
  exists n : Z,
    (1 <= n <= Audio64.MAX_ARRAY_LENGTH)%Z
    /\ Num.ceil (F64.div (Fin total) (Fin max)) = Num.ofZ n.
Proof.
  intros Hmax Hlt Hq. rewrite (Codec64Facts.div_fin_f64 _ _ Hmax).
  assert (H1 : 1 <= total / max)
    by (apply Qle_shift_div_l; [exact Hmax | lra]).
  assert (H2 : total / max <= inject_Z Audio64.MAX_ARRAY_LENGTH).
  { apply Qle_shift_div_r; [exact Hmax|]. rewrite Qmult_comm. exact Hq. }
  destruct (nearest_le_Z (total / max) Audio64.MAX_ARRAY_LENGTH)
    as (r & Er & R0 & R1);
    [unfold Audio64.MAX_ARRAY_LENGTH; lia | lra | exact H2 |].
  pose proof (nearest_ge_Z (total / max) r 1 ltac:(lia) H1 Er) as R2.
  exists (Qceiling r). rewrite Er. split; [|reflexivity].
  apply Qceiling_resp_le in R1, R2. rewrite Qceiling_Z in R1, R2. lia.
Qed.

Lemma duration_spec (total : Q) (n : Z) :
  0 < total -> total <= pow2 1022 -> (1 <= n)%Z ->
  exists d : Q, F64.div (Fin total) (Num.ofZ n) = Fin d.
Proof.
  intros Ht Hh Hn.
  assert (Hp : 0 < inject_Z n).
  { change 0 with (inject_Z 0). rewrite <- Zlt_Qlt. lia. }
  assert (H1 : 1 <= inject_Z n).
  { change 1 with (inject_Z 1). rewrite <- Zle_Qle. lia. }
  unfold Num.ofZ. rewrite (Codec64Facts.div_fin_f64 _ _ Hp).
  destruct (nearest_bounds (total / inject_Z n) 1023) as (d & Ed & _).
  - apply Qle_shift_div_l; [exact Hp | lra].
  - apply Qlt_shift_div_r; [exact Hp|].
    apply Qle_lt_trans with (pow2 1022 * 1); [lra|].
    apply Qlt_le_trans with (pow2 1023 * 1).
    + apply Qmult_lt_compat_r; [reflexivity | apply pow2_lt; lia].
    + apply Qmult_le_l; [apply pow2_pos | exact H1].
  - lia.
  - exists d. exact Ed.
Qed.

Lemma splitAudio_short (audioFile : string) (total max : Q) :
  total <= max ->
  Audio64.splitAudio audioFile (Fin total) (Fin max)
  = Some [mkAudioChunk audioFile (Num.ofZ 0) (Fin total)].
Proof.
  intros H. unfold Audio64.splitAudio.
  replace (Num.leb (Fin total) (Fin max)) with true; [reflexivity|].
  symmetry. now apply MergeFacts.Qle_bool_true.
Qed.

Lemma splitAudio_long_f64 (audioFile : string) (total max : Q) (n : Z) (d : Q) :
  max < total -> (1 <= n <= Audio64.MAX_ARRAY_LENGTH)%Z ->
  Num.ceil (F64.div (Fin total) (Fin max)) = Num.ofZ n ->
  F64.div (Fin total) (Num.ofZ n) = Fin d ->
  Audio64.splitAudio audioFile (Fin total) (Fin max)
  = Some (map (Audio64.chunkAt (Fin total) (Num.ofZ n) (Fin d))
              (seq 0 (Z.to_nat n))).
Proof.
  intros Hlt Hn En Ed. unfold Audio64.splitAudio.
  replace (Num.leb (Fin total) (Fin max)) with false
    by (symmetry; now apply MergeFacts.Qle_bool_false).
  rewrite En, Ed. unfold Audio64.loopRounds, Num.ofZ.
  replace (Qle_bool (inject_Z n) (inject_Z Audio64.MAX_ARRAY_LENGTH))
    with true.
  - cbn [option_map]. now rewrite Qceiling_Z.
  - symmetry. apply MergeFacts.Qle_bool_true. rewrite <- Zle_Qle. lia.
Qed.

End Plan64Facts.
(** ** Merging in binary64: the order of the cues *)

Module Merge64Facts.

Import Vtt MergeOrder.
Import Binary64 Binary64Facts.

Local Open Scope Q_scope.

(** *** The results of the operations lie on the grid *)

Lemma roundMagnitude_grid (a : Q) :
  exists m : Z, roundMagnitude a == inject_Z m * pow2 (-1074).
Proof.
  unfold roundMagnitude. set (p := quantum a).
  assert (Hp : (-1074 <= p)%Z) by (unfold p, quantum; lia).
  exists (roundHalfEven (a / pow2 p) * 2 ^ (p + 1074))%Z.
  rewrite inject_Z_mult, <- pow2_Z by lia.
  replace p with ((p + 1074) + -1074)%Z at 2 by lia.
  rewrite pow2_add. ring.
Qed.

Lemma nearest_grid (x : Q) : onGrid (nearest x).
Proof.
  destruct (Q_dec x 0) as [[H | H] | H].
  - rewrite (nearest_negative x H).
    destruct (Qle_bool (pow2 1024) (roundMagnitude (- x))); [exact I|].
    destruct (roundMagnitude_grid (- x)) as (m & Em).
    exists (- m)%Z. rewrite Qred_correct, Em, inject_Z_opp. ring.
  - rewrite (nearest_positive x H).
    destruct (Qle_bool (pow2 1024) (roundMagnitude x)); [exact I|].
    destruct (roundMagnitude_grid x) as (m & Em).
    exists m. now rewrite Qred_correct.
  - rewrite (nearest_null x H). exists 0%Z. ring.
Qed.

Lemma rounded_grid (n : number) : onGrid (rounded n).
Proof. destruct n as [|x|s]; [exact I | apply nearest_grid | exact I]. Qed.

(** Two values of the grid are equal or at least one step apart. *)
Lemma grid_gap (x y : Q) :
  onGrid (Fin x) -> onGrid (Fin y) -> x < y -> pow2 (-1074) <= y - x.
Proof.
  intros (m & Em) (k & Ek) H. pose proof (pow2_pos (-1074)) as Hp.
  assert (Hmk : (m < k)%Z).
  { apply Z.lt_nge. intros Hle. rewrite Zle_Qle in Hle.
    assert (inject_Z k * pow2 (-1074) <= inject_Z m * pow2 (-1074))
      by (apply Qmult_le_compat_r; [exact Hle | lra]).
    lra. }
  assert (H1 : 1 <= inject_Z k - inject_Z m).
  { assert (H1 : (m + 1 <= k)%Z) by lia. rewrite Zle_Qle in H1.
    rewrite inject_Z_plus in H1. change (inject_Z 1) with 1 in H1. lra. }
  rewrite Em, Ek.
  setoid_replace (inject_Z k * pow2 (-1074) - inject_Z m * pow2 (-1074))
    with ((inject_Z k - inject_Z m) * pow2 (-1074)) by ring.
  apply Qle_trans with (1 * pow2 (-1074)); [lra|].
  apply Qmult_le_compat_r; [exact H1 | lra].
Qed.

(** *** The sign of a rounded number *)

Lemma least_fixed : roundMagnitude (pow2 (-1074)) == pow2 (-1074).
Proof.
  apply (roundMagnitude_fixed _ 1 (-1074)); [apply pow2_pos | | ring].
  unfold quantum.
  rewrite (ilog2_unique (pow2 (-1074)) (-1074));
    [lia | apply Qle_refl | apply pow2_lt; lia].
Qed.

Lemma nearest_of_negative (x : Q) :
  x <= - pow2 (-1074) -> Num.ltb (nearest x) (Num.ofZ 0) = true.
Proof.
  intros H. pose proof (pow2_pos (-1074)) as Hp.
  assert (Hx : x < 0) by lra. rewrite (nearest_negative x Hx).
  destruct (Qle_bool (pow2 1024) (roundMagnitude (- x))); [reflexivity|].
  pose proof (roundMagnitude_ge (- x) (pow2 (-1074)) Hp ltac:(lra)
                least_fixed) as Hr.
  cbn [Num.ltb Num.ofZ]. apply negb_true_iff, MergeFacts.Qle_bool_false.
  rewrite Qred_correct. change (inject_Z 0) with 0. lra.
Qed.

Lemma nearest_of_nonnegative (x : Q) :
  0 <= x -> Num.ltb (nearest x) (Num.ofZ 0) = false.
Proof.
  intros H. destruct (Qle_lt_or_eq _ _ H) as [Hx | Hx].
  - rewrite (nearest_positive x Hx).
    destruct (Qle_bool (pow2 1024) (roundMagnitude x)); [reflexivity|].
    pose proof (roundMagnitude_nonneg x Hx) as Hr.
    cbn [Num.ltb Num.ofZ]. apply negb_false_iff, MergeFacts.Qle_bool_true.
    rewrite Qred_correct. exact Hr.
  - symmetry in Hx. rewrite (nearest_null x Hx). reflexivity.
Qed.

(** *** The comparator *)

Lemma before_true_f64 (a b : VTTCue) :
  Vtt64.before a b = true -> startsInOrder a b.
Proof.
  unfold Vtt64.before, startsInOrder, F64.sub, Num.sub.
  destruct (start a) as [|x|[]], (start b) as [|y|[]]; cbn; try congruence.
  intros H. apply MergeFacts.Qle_bool_true.
  destruct (Qlt_le_dec y x) as [Hlt | Hle]; [|exact Hle].
  rewrite nearest_of_nonnegative in H by lra. discriminate H.
Qed.

Lemma before_false_f64 (a b : VTTCue) :
  start a <> NaN -> start b <> NaN ->
  onGrid (start a) -> onGrid (start b) ->
  Vtt64.before a b = false -> startsInOrder b a.
Proof.
  unfold Vtt64.before, startsInOrder, F64.sub, Num.sub.
  destruct (start a) as [|x|[]], (start b) as [|y|[]]; cbn [Num.opp Num.add
    rounded Num.ltb Num.leb Num.ofZ Bool.eqb negb orb andb]; try congruence.
  intros _ _ Ga Gb H. apply MergeFacts.Qle_bool_true.
  destruct (Qlt_le_dec x y) as [Hlt | Hle]; [|exact Hle].
  pose proof (grid_gap x y Ga Gb Hlt) as Hgap.
  change (Num.ltb (nearest (x + - y)) (Num.ofZ 0) = false) in H.
  rewrite nearest_of_negative in H by lra. discriminate H.
Qed.

(** *** The sort *)

Lemma insertCue_perm_f64 (cue : VTTCue) (sorted : list VTTCue) :
  Permutation (cue :: sorted) (Vtt64.insertCue cue sorted).
Proof.
  induction sorted as [|c rest IH]; cbn [Vtt64.insertCue]; [reflexivity|].
  destruct (Vtt64.before c cue); [|reflexivity].
  rewrite perm_swap. now constructor.
Qed.

Lemma sortCues_perm_f64 (cues : list VTTCue) :
  Permutation cues (Vtt64.sortCues cues).
Proof.
  induction cues as [|c cues IH]; [constructor|].
  cbn [Vtt64.sortCues fold_right]. rewrite <- insertCue_perm_f64.
  now constructor.
Qed.

Lemma insertCue_hd_f64 (x cue : VTTCue) (sorted : list VTTCue) :
  startsInOrder x cue -> HdRel startsInOrder x sorted ->
  HdRel startsInOrder x (Vtt64.insertCue cue sorted).
Proof.
  intros Hx Hhd. destruct sorted as [|c rest]; cbn [Vtt64.insertCue].
  - now constructor.
  - destruct (Vtt64.before c cue); constructor;
      [now inversion Hhd | exact Hx].
Qed.

(** A start that is a number of binary64. *)
Local Abbreviation numbered :=
  (fun c : VTTCue => start c <> NaN /\ onGrid (start c)).

Lemma insertCue_sorted_f64 (cue : VTTCue) (sorted : list VTTCue) :
  numbered cue -> Forall numbered sorted ->
  Sorted startsInOrder sorted ->
  Sorted startsInOrder (Vtt64.insertCue cue sorted).
Proof.
  intros [Hcue Gcue] Hall Hs.
  induction Hs as [|c rest Hrest IH Hhd]; cbn [Vtt64.insertCue].
  - repeat constructor.
  - inversion Hall as [|? ? [Hc Gc] Hall']; subst.
    destruct (Vtt64.before c cue) eqn:E.
    + constructor; [now apply IH|].
      apply insertCue_hd_f64; [now apply before_true_f64 | exact Hhd].
    + constructor; [now constructor|].
      constructor. now apply before_false_f64.
Qed.

Lemma sortCues_sorted_f64 (cues : list VTTCue) :
  Forall numbered cues ->
  StronglySorted startsInOrder (Vtt64.sortCues cues).
Proof.
  intros Hall. apply Sorted_StronglySorted.
  - intros a b c. apply MergeFacts.startsInOrder_trans.
  - induction Hall as [|c cues Hc Hall IH]; [constructor|].
    cbn [Vtt64.sortCues fold_right].
    apply insertCue_sorted_f64; [exact Hc | | exact IH].
    eapply Permutation_Forall; [apply sortCues_perm_f64 | exact Hall].
Qed.

(** The starts of the collected cues are sums, hence rounded. *)
Lemma collectCues_grid (chunks : list VTTChunk) :
  Forall (fun c => start c <> NaN -> onGrid (start c))
         (Vtt64.collectCues chunks).
Proof.
  unfold Vtt64.collectCues. apply Forall_flat_map, Forall_forall.
  intros chunk _. apply Forall_map, Forall_forall. intros cue _.
  cbn [Vtt64.shiftCue start]. intros _. apply rounded_grid.
Qed.

Lemma mergeVTT_sorted (chunks : list VTTChunk) :
  Forall (fun c => start c <> NaN) (Vtt64.collectCues chunks) ->
  StronglySorted startsInOrder (Vtt64.sortCues (Vtt64.collectCues chunks)).
Proof.
  intros H. apply sortCues_sorted_f64.
  pose proof (collectCues_grid chunks) as G.
  rewrite Forall_forall in *. intros c Hc. split; [now apply H|].
  apply G; [exact Hc | now apply H].
Qed.

End Merge64Facts.

(** * The claims *)

Import Vtt.

(** C1, as stated, fails — (1) The time 3.6e25 s is a whole number of
    seconds, hence of milliseconds, and a binary64 value.  Its hours are
    1e22, which [String] prints in exponent notation: the timestamp is
    [1e+22:04:32.000], of which [parseInt] reads the hours as 1, and the
    time comes back as 3872 s.  (2) The time -1 s is printed with three
    negative fields, [-1:-1:-1.000], and comes back as -3661 s. *)
Lemma C1_codec_counterexamples :
  (let s := Fin 36000000000000001543503872 in
   Clock64.ofMillis 36000000000000001543503872000 = s
   /\ Vtt64.formatTimestamp s = "1e+22:04:32.000"
   /\ Vtt64.parseTimestamp (Vtt64.formatTimestamp s) = Fin 3872
   /\ ~ RoundTrip.closer (1 # 1000) s
          (Vtt64.parseTimestamp (Vtt64.formatTimestamp s)))
  /\ (let s := Fin (-1) in
      Clock64.ofMillis (-1000) = s
      /\ Vtt64.formatTimestamp s = "-1:-1:-1.000"
      /\ Vtt64.parseTimestamp (Vtt64.formatTimestamp s) = Fin (-3661)
      /\ ~ RoundTrip.closer (1 # 1000) s
             (Vtt64.parseTimestamp (Vtt64.formatTimestamp s))).
Proof.
  assert (E : Vtt64.formatTimestamp (Fin 36000000000000001543503872)
              = "1e+22:04:32.000") by (vm_compute; reflexivity).
  assert (E' : Vtt64.formatTimestamp (Fin (-1)) = "-1:-1:-1.000")
    by (vm_compute; reflexivity).
  cbv zeta. rewrite E, E'. split.
  - split; [vm_compute; reflexivity|]. split; [reflexivity|].
    split; [vm_compute; reflexivity|].
    intros H. vm_compute in H. discriminate H.
  - split; [vm_compute; reflexivity|]. split; [reflexivity|].
    split; [vm_compute; reflexivity|].
    intros H. vm_compute in H. discriminate H.
Qed.

(** C1, amended — Timestamp codec round trip.  For every whole number [k]
    of milliseconds from 0 to below [2 ^ 42] seconds, the binary64 value
    [s] of [k / 1000] is printed by [formatTimestamp] with the hours,
    minutes, seconds and milliseconds of [k], and [parseTimestamp] reads a
    finite number back that differs from [s] by strictly less than 0.001.
    The values 0, 5.25, 90.5, 3600 and 7265.123 of the specification are
    instances. *)
Theorem C1_timestamp_codec_round_trip (k : Z) :
  0 <= k < 1000 * 2 ^ 42 ->
  exists s q : Q,
    Clock64.ofMillis k = Fin s
    /\ Vtt64.formatTimestamp (Fin s)
       = Clock.clockText (k / 1000 / 3600) (k / 1000 mod 3600 / 60)
                         (k / 1000 mod 60) (k mod 1000)
    /\ Vtt64.parseTimestamp (Vtt64.formatTimestamp (Fin s)) = Fin q
    /\ (Qabs (q - s) < 1 # 1000)%Q.
Proof.
  intros Hk.
  destruct (Codec64Facts.ofMillis_spec k Hk)
    as (s & Es & Hs & Hh & _ & Hfl & Em).
  pose proof (Z.mod_pos_bound k 1000 ltac:(lia)) as Hm.
  destruct (Codec64Facts.codec_close_f64 s (k mod 1000) Hs Hh Em ltac:(lia))
    as (q & Eq & Hq).
  exists s, q. split; [exact Es|]. split.
  - rewrite (Codec64Facts.formatTimestamp_fields_f64 s (k mod 1000) Hs Hh Em)
      by lia.
    rewrite Hfl. reflexivity.
  - split; [exact Eq|]. eapply Qle_lt_trans; [exact Hq | reflexivity].
Qed.

(** The five values of the test suite: 0, 5.25, 90.5, 3600 and 7265.123,
    the last one being the binary64 value nearest to it. *)
Lemma C1_round_trip_of_the_listed_values :
  map Clock64.ofMillis [0; 5250; 90500; 3600000; 7265123]
  = [Fin 0; Fin (21 # 4); Fin (181 # 2); Fin 3600;
     Fin (998510901965357 # 137438953472)]
  /\ Forall
       (fun k =>
          exists s q : Q,
            Clock64.ofMillis k = Fin s
            /\ Vtt64.formatTimestamp (Fin s)
               = Clock.clockText (k / 1000 / 3600) (k / 1000 mod 3600 / 60)
                                 (k / 1000 mod 60) (k mod 1000)
            /\ Vtt64.parseTimestamp (Vtt64.formatTimestamp (Fin s)) = Fin q
            /\ (Qabs (q - s) < 1 # 1000)%Q)
       [0; 5250; 90500; 3600000; 7265123].
Proof.
  split; [vm_compute; reflexivity|].
  repeat (apply Forall_cons; [apply C1_timestamp_codec_round_trip; lia|]).
  apply Forall_nil.
Defined.

(** C2, as stated, fails — Cue sequences of one cue each, every text a
    single line, that [parseVTT (serializeVTT cues)] does not give back.
    Without speaker: a text with a leading space comes back without it; a
    text that begins like a speaker tag comes back split into a speaker
    and the rest; an empty text gives no cue.  With a speaker: an empty
    name comes back as no speaker; a name with a leading space comes back
    without it, and a name of two spaces as one space; a name holding [>]
    is cut there, and the rest goes to the text; a name holding a line
    feed breaks the tag; a text with a trailing space comes back without
    it; a text holding a carriage return is cut there; an empty text gives
    no cue.  Times: the binary64 value 0.9994999999999999 is printed
    [00:00:00.1000] and comes back as 0.1 s; 3.6e25 s is printed with the
    hours [1e+22] and comes back as 3872 s; -1 s comes back as -3661 s;
    [NaN] comes back as [NaN], which is within 0.01 s of nothing. *)
Lemma C2_round_trip_counterexamples :
  Forall
    (fun cue =>
       Shape.noLF (text cue)
       /\ ~ Forall2 (RoundTrip.agrees (1 # 100)) [cue]
                    (Vtt64.parseVTT (Vtt64.serializeVTT [cue])))
    [mkCue (Fin 1) (Fin 2) None " hi";
     mkCue (Fin 1) (Fin 2) None "<v Bob>hi";
     mkCue (Fin 1) (Fin 2) None "";
     mkCue (Fin 1) (Fin 2) (Some "") "hi";
     mkCue (Fin 1) (Fin 2) (Some " Bob") "hi";
     mkCue (Fin 1) (Fin 2) (Some "  ") "hi";
     mkCue (Fin 1) (Fin 2) (Some "a>b") "hi";
     mkCue (Fin 1) (Fin 2) (Some ("a" ++ Str.LF ++ "b")%string) "hi";
     mkCue (Fin 1) (Fin 2) (Some "Bob") "hi ";
     mkCue (Fin 1) (Fin 2) (Some "Bob")
           ("a" ++ String (ascii_of_nat 13) "b")%string;
     mkCue (Fin 1) (Fin 2) (Some "Bob") "";
     mkCue (Binary64.nearest 0.9994999999999999) (Fin 2) None "hi";
     mkCue (Fin 36000000000000001543503872)
           (Fin 36000000000000001543503872) None "hi";
     mkCue (Fin (-1)) (Fin 2) None "hi";
     mkCue NaN (Fin 2) None "hi"]
  /\ map (fun cue => Vtt64.parseVTT (Vtt64.serializeVTT [cue]))
         [mkCue (Fin 1) (Fin 2) (Some "a>b") "hi";
          mkCue (Binary64.nearest 0.9994999999999999) (Fin 2) None "hi";
          mkCue (Fin 36000000000000001543503872)
                (Fin 36000000000000001543503872) None "hi";
          mkCue (Fin (-1)) (Fin 2) None "hi"]
     = [[mkCue (Fin 1) (Fin 2) (Some "a") "b>hi"];
        [mkCue (Fin (3602879701896397 # 36028797018963968)) (Fin 2) None
               "hi"];
        [mkCue (Fin 3872) (Fin 3872) None "hi"];
        [mkCue (Fin (-3661)) (Fin 2) None "hi"]].
Proof.
  split; [|vm_compute; reflexivity].
  repeat (apply Forall_cons; [split; [reflexivity|] |]); try apply Forall_nil;
    intros H;
    match type of H with
    | Forall2 _ _ ?l =>
        let v := eval vm_compute in l in change l with v in H
    end;
    inversion H as [|? ? ? ? (H1 & H2 & H3 & H4)]; subst;
    vm_compute in H1, H2, H3, H4;
    first [discriminate | contradiction].
Qed.

(** C2, amended — Document round trip.  For every sequence of printable
    cues, [parseVTT (serializeVTT cues)] has the length of the sequence and
    agrees with it cue for cue: start and end within 0.01 s, same speaker,
    same text.  A cue is printable ([RoundTrip64.printable]) when its start
    and end are finite, from 0 to below [2 ^ 42] seconds, with a
    millisecond field below 1000 as [formatTimestamp] computes it, and
    either it has no speaker and its text is not empty, holds no line
    feed, has no white space at either end and is not read as a speaker
    tag, or its speaker is a non-empty name that holds neither [>] nor a
    line feed and does not start with white space, unless it is a single
    character, and its text is not empty, holds no line terminator and
    does not end with white space. *)
Theorem C2_document_round_trip (cues : list VTTCue) :
  Forall RoundTrip64.printable cues ->
  List.length (Vtt64.parseVTT (Vtt64.serializeVTT cues)) = List.length cues
  /\ Forall2 (RoundTrip.agrees (1 # 100)) cues
             (Vtt64.parseVTT (Vtt64.serializeVTT cues)).
Proof.
  intros Hp. pose proof (RoundTrip64Facts.round_trip_f64 cues Hp) as H.
  split; [symmetry; apply (Forall2_length H)|].
  induction H as [|c p cues ps Hcp _ IH]; [constructor|].
  inversion Hp as [|? ? _ Hp']; subst.
  constructor; [|now apply IH].
  destruct Hcp as (H1 & H2 & H3 & H4).
  repeat split; try assumption.
  - eapply RoundTripFacts.closer_weaken; [|exact H1]. discriminate.
  - eapply RoundTripFacts.closer_weaken; [|exact H2]. discriminate.
Qed.

(** The round trip of the test suite, followed by a cue whose speaker is
    a single space and whose text starts with a space. *)
Lemma C2_round_trip_example :
  let cues :=
    [mkCue (Fin 1.5) (Fin 3.25) (Some "A") "First";
     mkCue (Fin 5) (Fin 8.75) (Some "B") "Second";
     mkCue (Fin 9) (Fin 10) None "Third, plain";
     mkCue (Fin 11) (Fin 12.5) (Some " ") " padded"] in
  List.length (Vtt64.parseVTT (Vtt64.serializeVTT cues)) = List.length cues
  /\ Forall2 (RoundTrip.agrees (1 # 100)) cues
             (Vtt64.parseVTT (Vtt64.serializeVTT cues)).
Proof.
  assert (Htime : forall s : Q,
             (0 <= s)%Q -> (s < Clock64.horizon)%Q ->
             Num.ltb (Clock64.millis (Fin s)) (Num.ofZ 1000) = true ->
             RoundTrip64.safeTime (Fin s)).
  { intros s H0 H1 H2. split; [|exact H2]. exists s. now repeat split. }
  apply C2_document_round_trip.
  repeat (apply Forall_cons; [split; [|split] |]); try apply Forall_nil;
    try (apply Htime; [discriminate | reflexivity | vm_compute; reflexivity]);
    cbn [speaker text].
  - split; [|repeat split; discriminate].
    repeat split; try discriminate. now left.
  - split; [|repeat split; discriminate].
    repeat split; try discriminate. now left.
  - repeat split; discriminate.
  - split; [|repeat split; discriminate].
    repeat split; try discriminate. now right.
Defined.

(** C3, as stated, fails — A document whose second cue has a malformed
    start: the cues start at 5 s, at [NaN] and at 1 s.  The comparator of
    the sort gives [NaN] whenever it meets the second cue, so the sort
    moves nothing, and the merged document lists the cue starting at 5 s
    before the one starting at 1 s.  No arrangement of the three cues is
    in non-decreasing order of start, since [NaN] compares with
    nothing. *)
Lemma C3_malformed_timestamp_counterexample :
  let chunks :=
    [mkChunk (Str.join Str.LF
                ["WEBVTT"; "";
                 "00:00:05.000 --> 00:00:06.000"; "five"; "";
                 "bad --> 00:00:03.000"; "unknown"; "";
                 "00:00:01.000 --> 00:00:02.000"; "one"; ""])
             (Fin 0)] in
  Vtt64.mergeVTT chunks
  = Str.join Str.LF
      ["WEBVTT"; "";
       "00:00:05.000 --> 00:00:06.000"; "five"; "";
       "NaN:NaN:NaN.NaN --> 00:00:03.000"; "unknown"; "";
       "00:00:01.000 --> 00:00:02.000"; "one"; ""; ""]
  /\ map start (Vtt64.parseVTT (Vtt64.mergeVTT chunks)) = [Fin 5; NaN; Fin 1]
  /\ (forall out : list VTTCue,
         Permutation (Vtt64.collectCues chunks) out ->
         ~ StronglySorted MergeOrder.startsInOrder out).
Proof.
  cbv zeta. split; [vm_compute; reflexivity|].
  split; [vm_compute; reflexivity|].
  intros out P S.
  match type of P with
  | Permutation ?l _ =>
      set (bad := nth 1 l (mkCue NaN NaN None ""));
      assert (Hbad : In bad l) by (vm_compute; right; left; reflexivity)
  end.
  assert (Hstart : start bad = NaN) by (vm_compute; reflexivity).
  assert (Hin : In bad out) by (eapply Permutation_in; eassumption).
  assert (Hlen : List.length out = 3%nat).
  { rewrite <- (Permutation_length P). vm_compute. reflexivity. }
  clearbody bad. clear Hbad P.
  assert (Hnan : forall c, ~ MergeOrder.startsInOrder bad c).
  { intros c H. unfold MergeOrder.startsInOrder in H. rewrite Hstart in H.
    discriminate H. }
  assert (Hnan' : forall c, ~ MergeOrder.startsInOrder c bad).
  { intros c H. unfold MergeOrder.startsInOrder in H. rewrite Hstart in H.
    destruct (start c) as [| |[]]; discriminate H. }
  destruct out as [|a [|b [|c [|? ?]]]]; try discriminate Hlen.
  inversion S as [|? ? S1 F1]; subst.
  inversion S1 as [|? ? S2 F2]; subst.
  inversion F1 as [|? ? Hab F1']; subst.
  inversion F1' as [|? ? Hac _]; subst.
  inversion F2 as [|? ? Hbc _]; subst.
  destruct Hin as [<- | [<- | [<- | []]]].
  - exact (Hnan _ Hab).
  - exact (Hnan _ Hbc).
  - exact (Hnan' _ Hac).
Qed.

(** C3, amended — Merge semantics.  (1) For every list of chunks,
    [mergeVTT] is the serialization of a sequence [out] that holds exactly
    the cues parsed from the documents, each with the offset of its
    document added, in binary64, to its start and to its end; and when
    each of these starts is a number (not [NaN], the result of a malformed
    timestamp or offset, or of adding opposite infinities), [out] is in
    non-decreasing order of start.  (2) A cue from 0 s to 2 s merged under
    the offset 10 is printed from 10 s to 12 s.  (3) Of two documents
    merged with offset 0, one with a cue starting at 10 s and then one
    with a cue starting at 1 s, the cue starting at 1 s comes first. *)
Theorem C3_merge_semantics :
  (forall chunks : list VTTChunk,
      let shifted :=
        flat_map
          (fun chunk =>
             map (fun cue =>
                    mkCue (F64.add (start cue) (Vtt.offset chunk))
                          (F64.add (end_ cue) (Vtt.offset chunk))
                          (speaker cue) (text cue))
                 (Vtt64.parseVTT (vtt chunk)))
          chunks in
      exists out : list VTTCue,
        Vtt64.mergeVTT chunks = Vtt64.serializeVTT out
        /\ Permutation shifted out
        /\ (Forall (fun cue => start cue <> NaN) shifted ->
            StronglySorted MergeOrder.startsInOrder out))
  /\ Vtt64.mergeVTT
       [mkChunk (Str.join Str.LF
                   ["WEBVTT"; ""; "00:00:00.000 --> 00:00:02.000";
                    "<v B>Second chunk"; ""])
                (Fin 10)]
     = Str.join Str.LF
         ["WEBVTT"; ""; "00:00:10.000 --> 00:00:12.000";
          "<v B>Second chunk"; ""; ""]
  /\ Vtt64.parseVTT
       (Vtt64.mergeVTT
          [mkChunk (Str.join Str.LF
                      ["WEBVTT"; ""; "00:00:10.000 --> 00:00:12.000";
                       "<v A>Later"; ""])
                   (Fin 0);
           mkChunk (Str.join Str.LF
                      ["WEBVTT"; ""; "00:00:01.000 --> 00:00:03.000";
                       "<v B>Earlier"; ""])
                   (Fin 0)])
     = [mkCue (Fin 1) (Fin 3) (Some "B") "Earlier";
        mkCue (Fin 10) (Fin 12) (Some "A") "Later"].
Proof.
  split; [|split; vm_compute; reflexivity].
  intros chunks shifted. exists (Vtt64.sortCues shifted).
  split; [reflexivity|]. split.
  - apply Merge64Facts.sortCues_perm_f64.
  - apply Merge64Facts.mergeVTT_sorted.
Qed.

(** The two documents of the ordering test, merged: a sorted sequence. *)
Lemma C3_merge_order_example :
  exists out : list VTTCue,
    Vtt64.mergeVTT
      [mkChunk (Str.join Str.LF
                  ["WEBVTT"; ""; "00:00:10.000 --> 00:00:12.000";
                   "<v A>Later"; ""])
               (Fin 0);
       mkChunk (Str.join Str.LF
                  ["WEBVTT"; ""; "00:00:01.000 --> 00:00:03.000";
                   "<v B>Earlier"; ""])
               (Fin 0)]
    = Vtt64.serializeVTT out
    /\ List.length out = 2%nat
    /\ StronglySorted MergeOrder.startsInOrder out.
Proof.
  destruct (proj1 C3_merge_semantics
              [mkChunk (Str.join Str.LF
                          ["WEBVTT"; ""; "00:00:10.000 --> 00:00:12.000";
                           "<v A>Later"; ""])
                       (Fin 0);
               mkChunk (Str.join Str.LF
                          ["WEBVTT"; ""; "00:00:01.000 --> 00:00:03.000";
                           "<v B>Earlier"; ""])
                       (Fin 0)])
    as (out & E & P & S).
  exists out. split; [exact E|]. split.
  - rewrite <- (Permutation_length P). vm_compute. reflexivity.
  - apply S. vm_compute. repeat constructor; discriminate.
Defined.

Import Audio.

(** C4, as stated, fails — (1) For a total of 1000000000000.1 s under a
    limit of 333322222592.6135 s the durations of the four chunks miss the
    total by more than 1e-6, and the third chunk does not end where the
    fourth one starts.  (2) For a total of 3992.653399454026 s under a
    limit of 798.5306798908051 s the quotient rounds to 5 and the planner
    returns 5 chunks, where the quotient of the two values is above 5.
    (3) For a total of 1e308 s under a limit of 1e-308 s the quotient is
    infinite, and for a total of 4294967296 s under a limit of 1 s it is
    [2 ^ 32], one more than an array can hold: no plan is returned. *)
Lemma C4_coverage_counterexamples :
  (let total := Binary64.nearest 1000000000000.1 in
   let max := Binary64.nearest 333322222592.6135 in
   exists c0 c1 c2 c3 : AudioChunk,
     Audio64.splitAudio "talk.wav" total max = Some [c0; c1; c2; c3]
     /\ (1 # 1000000
         < Qabs (Plan.sumDurations [c0; c1; c2; c3] - Plan.valueOf total))%Q
     /\ ~ (Plan.valueOf (offset c2) + Plan.valueOf (duration c2)
           == Plan.valueOf (offset c3))%Q)
  /\ (let total := Binary64.nearest 3992.653399454026 in
      let max := Binary64.nearest 798.5306798908051 in
      option_map (@List.length AudioChunk)
                 (Audio64.splitAudio "talk.wav" total max) = Some 5%nat
      /\ Qceiling (Plan.valueOf total / Plan.valueOf max) = 6)
  /\ Audio64.splitAudio "talk.wav"
       (Binary64.nearest (Qpower 10 308)) (Binary64.nearest (Qpower 10 (-308)))
     = None
  /\ Audio64.calculateChunkCount (Fin 4294967296) (Fin 1) = Fin 4294967296
  /\ Audio64.splitAudio "talk.wav" (Fin 4294967296) (Fin 1) = None.
Proof.
  cbv zeta.
  split; [|split; [split|split; [|split]]; vm_compute; reflexivity].
  match goal with
  | |- context [Audio64.splitAudio ?f ?t ?m] =>
      let v := eval vm_compute in (Audio64.splitAudio f t m) in
      match v with
      | Some [?a; ?b; ?c; ?e] =>
          exists a, b, c, e;
          split; [vm_compute; reflexivity|]
      end
  end.
  split; [vm_compute; reflexivity|].
  intros H. vm_compute in H. discriminate H.
Qed.

(** C4, amended — Chunk count and coverage.  For every finite total
    duration and every finite limit, both positive: when the total is at
    most the limit, [splitAudio] returns exactly one chunk, the input
    file, with offset 0 and the total duration.  Otherwise, when the limit
    is at least [2 ^ -970], the total at most [2 ^ 1022] and the quotient
    at most [2 ^ 32 - 1], there are exactly [count] chunks, where [count] is
    the binary64 quotient [total / limit] rounded up; chunk [i] starts at
    the binary64 product of [i] and [total / count]; every chunk but the
    last has the binary64 quotient [total / count] as its duration, and
    the last has the binary64 difference of the total and its own offset.
    In both cases the chunks cover the interval from 0 to the total up to
    [total * 2 ^ -51] ([Plan64.tilesWithin]: every duration is positive,
    and each chunk starts within that distance of the end of the one
    before it), and the sum of the durations is within [total * 2 ^ -51]
    of the total, hence within 1e-6 for a total of at most [2 ^ 31] s. *)
Theorem C4_chunk_count_and_coverage
    (audioFile : string) (total max : Q) :
  (0 < total)%Q -> (0 < max)%Q ->
  ((max < total)%Q ->
   (Binary64.pow2 (-970) <= max)%Q /\ (total <= Binary64.pow2 1022)%Q
   /\ (total <= max * inject_Z Audio64.MAX_ARRAY_LENGTH)%Q) ->
  exists chunks : list AudioChunk,
    Audio64.splitAudio audioFile (Fin total) (Fin max) = Some chunks
    /\ Plan64.tilesWithin (total * Binary64.pow2 (-51)) 0 chunks total
    /\ (Qabs (Plan.sumDurations chunks - total)
        <= total * Binary64.pow2 (-51))%Q
    /\ ((total <= inject_Z (2 ^ 31))%Q ->
        (Qabs (Plan.sumDurations chunks - total) <= 1 # 1000000)%Q)
    /\ ((total <= max)%Q ->
        chunks = [mkAudioChunk audioFile (Num.ofZ 0) (Fin total)])
    /\ ((max < total)%Q ->
        exists (count : Z) (chunkDuration : number),
          Audio64.calculateChunkCount (Fin total) (Fin max) = Num.ofZ count
          /\ 1 <= count
          /\ Z.of_nat (List.length chunks) = count
          /\ F64.div (Fin total) (Num.ofZ count) = chunkDuration
          /\ forall (i : nat) (c : AudioChunk),
               nth_error chunks i = Some c ->
               offset c = F64.mul (Num.ofZ (Z.of_nat i)) chunkDuration
               /\ (Z.of_nat i < count - 1 -> duration c = chunkDuration)
               /\ (Z.of_nat i = count - 1 ->
                   duration c = F64.sub (Fin total) (offset c))).
Proof.
  intros Htotal Hmax Hdom.
  assert (Heps : (0 <= total * Binary64.pow2 (-51))%Q).
  { change (Binary64.pow2 (-51)) with (1 # 2251799813685248)%Q. lra. }
  assert (Hmicro : forall chunks,
             (Qabs (Plan.sumDurations chunks - total)
              <= total * Binary64.pow2 (-51))%Q ->
             (total <= inject_Z (2 ^ 31))%Q ->
             (Qabs (Plan.sumDurations chunks - total) <= 1 # 1000000)%Q).
  { intros chunks H Hbig. eapply Qle_trans; [exact H|].
    change (Binary64.pow2 (-51)) with (1 # 2251799813685248)%Q.
    change (inject_Z (2 ^ 31)) with 2147483648%Q in Hbig. lra. }
  destruct (Qlt_le_dec max total) as [Hlt | Hle].
  - destruct (Hdom Hlt) as (Hlow & Hhigh & Hq).
    assert (Hlow' : (Binary64.pow2 (-970) <= total)%Q) by lra.
    destruct (Plan64Facts.count_spec total max Hmax Hlt Hq)
      as (n & Hlen & En).
    assert (Hn : 1 <= n <= 2 ^ 50)
      by (unfold Audio64.MAX_ARRAY_LENGTH in Hlen; lia).
    destruct (Plan64Facts.duration_spec total n Htotal Hhigh ltac:(lia))
      as (d & Ed).
    eexists.
    split; [apply (Plan64Facts.splitAudio_long_f64 _ _ _ n d Hlt Hlen En Ed)|].
    pose proof (Plan64Facts.chunks_sum total n d Hlow' Hhigh Hn Ed) as Hsum.
    split.
    { apply (Plan64Facts.chunks_tile_f64 total n d Hlow' Hhigh Hn Ed);
        [lia | | intros E; lia].
      intros Hk.
      destruct (Plan64Facts.offset_spec total n d Hlow' Hhigh Hn Ed 0%nat Hk)
        as (_ & O1 & O2).
      change (inject_Z (Z.of_nat 0)) with 0%Q in O2.
      apply Qabs_Qle_condition in O2. apply Qabs_Qle_condition. split; lra. }
    split; [exact Hsum|]. split; [apply (Hmicro _ Hsum)|].
    split; [intros Hle; lra|].
    intros _. exists n, (Fin d). split; [exact En|]. split; [lia|].
    split; [rewrite length_map, length_seq; lia|]. split; [exact Ed|].
    intros i c Hc.
    apply Plan64Facts.chunks_nth_f64 in Hc as [Hi ->]; [|lia].
    split; [reflexivity|]. split.
    + intros Hin. apply (Plan64Facts.chunk_inner_f64 total n d Hn); assumption.
    + intros Hlast. apply (Plan64Facts.chunk_last_f64 total n d Hn). lia.
  - exists [mkAudioChunk audioFile (Num.ofZ 0) (Fin total)].
    assert (Hsum : (Qabs (Plan.sumDurations
                            [mkAudioChunk audioFile (Num.ofZ 0) (Fin total)]
                          - total) <= total * Binary64.pow2 (-51))%Q).
    { unfold Plan.sumDurations. cbn [fold_right duration Plan.valueOf].
      apply Qabs_Qle_condition. split; lra. }
    split; [apply Plan64Facts.splitAudio_short, Hle|]. split.
    { cbn [Plan64.tilesWithin offset duration]. exists 0%Q, total.
      split; [reflexivity|]. split; [reflexivity|].
      split; [exact Htotal|].
      split; apply Qabs_Qle_condition; split; lra. }
    split; [exact Hsum|]. split; [apply (Hmicro _ Hsum)|].
    split; [reflexivity | intros Hlt; lra].
Qed.

(** The plans of the specification: 1200 s under a limit of 1200 s is one
    chunk; 1201 s is two chunks of 600.5 s. *)
Lemma C4_plan_examples :
  (exists chunks,
      Audio64.splitAudio "talk.wav" (Fin 1201) (Fin 1200) = Some chunks
      /\ Plan64.tilesWithin (1201 * Binary64.pow2 (-51)) 0 chunks 1201
      /\ (Qabs (Plan.sumDurations chunks - 1201) <= 1 # 1000000)%Q)
  /\ Audio64.splitAudio "talk.wav" (Fin 1201) (Fin 1200)
     = Some [mkAudioChunk "chunk_01.ogg" (Fin 0) (Fin (1201 # 2));
             mkAudioChunk "chunk_02.ogg" (Fin (1201 # 2)) (Fin (1201 # 2))]
  /\ Audio64.splitAudio "talk.wav" (Fin 1200) (Fin 1200)
     = Some [mkAudioChunk "talk.wav" (Fin 0) (Fin 1200)].
Proof.
  split; [|split; vm_compute; reflexivity].
  destruct (C4_chunk_count_and_coverage "talk.wav" 1201 1200)
    as (chunks & E & Ht & _ & Hs & _); [reflexivity | reflexivity | |].
  - intros _. repeat split; vm_compute; discriminate.
  - exists chunks. split; [exact E|]. split; [exact Ht|].
    apply Hs. vm_compute. discriminate.
Defined.

(** C5, as stated, fails — For a total duration of 0 the planner does not
    return the empty sequence: the test [totalDuration <= maxChunkDuration]
    holds, and [splitAudio] returns one chunk of duration 0, the input
    file. *)
Lemma C5_zero_duration_counterexample :
  splitAudio "talk.wav" (Num.ofZ 0) (Num.ofZ 1000)
  = Some [mkAudioChunk "talk.wav" (Num.ofZ 0) (Num.ofZ 0)]
  /\ splitAudio "talk.wav" (Num.ofZ 0) (Num.ofZ 1000) <> Some [].
Proof. split; [reflexivity | discriminate]. Qed.

(** C5, amended — Zero-duration planning.  For every limit above 0 (finite
    or infinite), [calculateChunkCount] of a total duration of 0 is 0,
    while [splitAudio] returns exactly one chunk: the input file, with
    offset 0 and duration 0. *)
Theorem C5_zero_duration_planning (audioFile : string) (max : number) :
  Num.ltb (Num.ofZ 0) max = true ->
  Num.hasValue (calculateChunkCount (Num.ofZ 0) max) 0
  /\ splitAudio audioFile (Num.ofZ 0) max
     = Some [mkAudioChunk audioFile (Num.ofZ 0) (Num.ofZ 0)].
Proof.
  destruct max as [|m|[]]; cbn [Num.ltb Num.ofZ]; try discriminate.
  - intros H. apply negb_true_iff, MergeFacts.Qle_bool_false in H.
    change (inject_Z 0) with 0%Q in *. split.
    + unfold calculateChunkCount, Num.ofZ.
      rewrite (PlanFacts.div_fin _ _ H). cbn [Num.ceil Num.ofZ Num.hasValue].
      assert (E : (inject_Z 0 / m == 0)%Q) by (unfold Qdiv; ring).
      rewrite (Qceiling_comp _ _ E). reflexivity.
    + unfold splitAudio, Num.ofZ. cbn [Num.leb].
      replace (Qle_bool (inject_Z 0) m) with true; [reflexivity|].
      symmetry. apply MergeFacts.Qle_bool_true.
      change (inject_Z 0) with 0%Q. lra.
  - intros _. split; reflexivity.
Qed.

(** The calls of the specification, with a limit of 1000 s. *)
Lemma C5_zero_duration_example :
  Num.hasValue (calculateChunkCount (Num.ofZ 0) (Num.ofZ 1000)) 0
  /\ splitAudio "talk.wav" (Num.ofZ 0) (Num.ofZ 1000)
     = Some [mkAudioChunk "talk.wav" (Num.ofZ 0) (Num.ofZ 0)].
Proof. apply C5_zero_duration_planning. reflexivity. Defined.

(** C6 — Speaker assignment in [parseVTT].  (1) The block whose text line
    is [<v Alice>Hello there] gives a cue with speaker [Alice] and text
    [Hello there].  (2) In every document, the first block gives the cue
    [Block.blockCues]: its text joins, with single spaces, what the text
    lines contribute, each matching line without its tag; its speaker is
    [Block.blockSpeaker].  (3) That speaker is the name captured on the last
    text line that carries a tag, and what this line contributes is the
    text after the tag.  (4) It is absent when no text line carries a
    tag. *)
Theorem C6_speaker_assignment :
  parseVTT (Str.join Str.LF
              ["WEBVTT"; ""; "00:00:01.000 --> 00:00:03.000";
               "<v Alice>Hello there"; ""])
  = [mkCue (Fin 1.000) (Fin 3.000) (Some "Alice") "Hello there"]
  /\ (forall header ts ls b more,
        Block.firstBlock header ts ls b more ->
        parseVTT (Str.join Str.LF (Block.firstBlockLines header ts ls b more))
        = Block.blockCues ts ls ++ parseVTT (Str.join Str.LF more))
  /\ (forall pre l post name after,
        matchSpeakerTag (Str.trim l) = Some (name, after) ->
        Forall (fun l' => matchSpeakerTag (Str.trim l') = None) post ->
        Block.blockSpeaker (pre ++ l :: post) = Some name
        /\ Block.lineText l = after)
  /\ (forall ls,
        Forall (fun l => matchSpeakerTag (Str.trim l) = None) ls ->
        Block.blockSpeaker ls = None).
Proof.
  split; [vm_compute; reflexivity|].
  split; [exact ParseFacts.parseVTT_block|].
  split.
  - intros pre l post name after Hl Hpost. split.
    + now apply (ParseFacts.blockSpeaker_last_match pre post l name after).
    + unfold Block.lineText. now rewrite Hl.
  - intros ls Hls. unfold Block.blockSpeaker.
    now rewrite (ParseFacts.speakerNames_none ls Hls).
Qed.

(** Two tagged lines in one block: the second name is kept, and both tags
    are stripped. *)
Lemma C6_last_tag_wins_example :
  parseVTT (Str.join Str.LF
              ["WEBVTT"; ""; "00:00:01.000 --> 00:00:03.000";
               "<v Alice>This is"; "<v Bob>fine"; ""; "trailer"])
  = [mkCue (Fin 1.000) (Fin 3.000) (Some "Bob") "This is fine"].
Proof.
  refine (eq_trans
            (proj1 (proj2 C6_speaker_assignment)
               ["WEBVTT"; ""] "00:00:01.000 --> 00:00:03.000"
               ["<v Alice>This is"; "<v Bob>fine"] "" ["trailer"] _) _).
  - repeat split; repeat constructor; discriminate.
  - vm_compute. reflexivity.
Defined.

(** C7 — Multi-line collapse.  A block whose text spans three consecutive
    non-blank lines, each contributing a non-empty fragment, yields exactly
    one cue; its text is the three fragments joined by single spaces and
    holds no line feed.  This holds for a block ended by a blank line and
    for a block that ends the input. *)
Theorem C7_multi_line_collapse :
  (forall header ts l1 l2 l3 b more,
      Block.firstBlock header ts [l1; l2; l3] b more ->
      Block.lineText l1 <> "" -> Block.lineText l2 <> "" ->
      Block.lineText l3 <> "" ->
      exists cue,
        parseVTT (Str.join Str.LF
                    (Block.firstBlockLines header ts [l1; l2; l3] b more))
        = cue :: parseVTT (Str.join Str.LF more)
        /\ text cue
           = (Block.lineText l1 ++ " " ++ Block.lineText l2 ++ " "
              ++ Block.lineText l3)%string
        /\ Shape.noLF (text cue))
  /\ (forall header ts l1 l2 l3,
        Block.lastBlock header ts [l1; l2; l3] ->
        Block.lineText l1 <> "" -> Block.lineText l2 <> "" ->
        Block.lineText l3 <> "" ->
        exists cue,
          parseVTT (Str.join Str.LF (header ++ [ts; l1; l2; l3])) = [cue]
          /\ text cue
             = (Block.lineText l1 ++ " " ++ Block.lineText l2 ++ " "
                ++ Block.lineText l3)%string
          /\ Shape.noLF (text cue)).
Proof.
  split.
  - intros header ts l1 l2 l3 b more Hb H1 H2 H3.
    rewrite (ParseFacts.parseVTT_block _ _ _ _ _ Hb).
    rewrite (ParseFacts.blockCues_three ts l1 l2 l3 H1 H2 H3).
    eexists. split; [reflexivity|]. split; [reflexivity|].
    destruct Hb as (_ & _ & _ & _ & Hlf).
    apply Forall_app in Hlf as [_ Hlf]. apply Forall_inv_tail in Hlf.
    inversion Hlf as [|? ? Hl1 Hlf1]; subst.
    inversion Hlf1 as [|? ? Hl2 Hlf2]; subst.
    inversion Hlf2 as [|? ? Hl3 _]; subst.
    apply ParseFacts.noLF_three; now apply ParseFacts.lineText_noLF.
  - intros header ts l1 l2 l3 Hb H1 H2 H3.
    rewrite (ParseFacts.parseVTT_last_block _ _ _ Hb).
    rewrite (ParseFacts.blockCues_three ts l1 l2 l3 H1 H2 H3).
    eexists. split; [reflexivity|]. split; [reflexivity|].
    destruct Hb as (_ & _ & _ & Hlf).
    apply Forall_app in Hlf as [_ Hlf]. apply Forall_inv_tail in Hlf.
    inversion Hlf as [|? ? Hl1 Hlf1]; subst.
    inversion Hlf1 as [|? ? Hl2 Hlf2]; subst.
    inversion Hlf2 as [|? ? Hl3 _]; subst.
    apply ParseFacts.noLF_three; now apply ParseFacts.lineText_noLF.
Qed.

(** The multi-line document of the test suite. *)
Lemma C7_three_lines_example :
  exists cue,
    parseVTT (Str.join Str.LF
                ["WEBVTT"; ""; "00:00:01.000 --> 00:00:03.000";
                 "<v Alice>This is"; "a multiline"; "text block"; ""])
    = [cue]
    /\ text cue = "This is a multiline text block"
    /\ Shape.noLF (text cue).
Proof.
  apply (proj1 C7_multi_line_collapse
           ["WEBVTT"; ""] "00:00:01.000 --> 00:00:03.000"
           "<v Alice>This is" "a multiline" "text block" "" []).
  - repeat split; repeat constructor; discriminate.
  - discriminate.
  - discriminate.
  - discriminate.
Defined.

(** C8 — Silent empty outcomes of [parseVTT].  (1) An input none of whose
    lines holds the arrow (in particular an input that does not hold the
    arrow at all) gives the empty sequence; the header-only document is
    such an input.  (2) A block whose text lines all
    contribute the empty text (a bare speaker tag, or no text line at all)
    gives no cue: the document is parsed as what follows the block.  The
    parser is a total function: no input makes it fail. *)
Theorem C8_silent_empty_outcomes :
  (forall content,
      Forall (fun line => isTimestampLine line = false)
             (Str.split Str.LF content) ->
      parseVTT content = [])
  /\ (forall content, Str.includes "-->" content = false -> parseVTT content = [])
  /\ parseVTT ("WEBVTT" ++ Str.LF ++ Str.LF) = []
  /\ (forall header ts ls b more,
        Block.firstBlock header ts ls b more ->
        Forall (fun l => Block.lineText l = "") ls ->
        parseVTT (Str.join Str.LF (Block.firstBlockLines header ts ls b more))
        = parseVTT (Str.join Str.LF more))
  /\ (forall header ts ls,
        Block.lastBlock header ts ls ->
        Forall (fun l => Block.lineText l = "") ls ->
        parseVTT (Str.join Str.LF (header ++ ts :: ls)) = []).
Proof.
  split; [|split; [|split; [reflexivity | split]]].
  - intros content H. unfold parseVTT.
    now rewrite (ParseFacts.skipHeader_none _ H).
  - intros content H. unfold parseVTT.
    now rewrite (ParseFacts.skipHeader_none _
                   (SplitFacts.split_lines_includes "-->" content H)).
  - intros header ts ls b more Hb Hls.
    rewrite (ParseFacts.parseVTT_block _ _ _ _ _ Hb).
    unfold Block.blockCues. now rewrite (ParseFacts.blockTexts_empty ls Hls).
  - intros header ts ls Hb Hls.
    rewrite (ParseFacts.parseVTT_last_block _ _ _ Hb).
    unfold Block.blockCues. now rewrite (ParseFacts.blockTexts_empty ls Hls).
Qed.

(** A block made of a bare tag is dropped; the block after it is kept. *)
Lemma C8_bare_tag_block_example :
  parseVTT (Str.join Str.LF
              ["WEBVTT"; ""; "00:00:01.000 --> 00:00:03.000"; "<v Alice>";
               ""; "00:00:05.000 --> 00:00:08.000"; "Hello"; ""])
  = [mkCue (Fin 5.000) (Fin 8.000) None "Hello"]
  /\ parseVTT "no cue here" = [].
Proof.
  split.
  - refine (eq_trans
              (proj1 (proj2 (proj2 (proj2 C8_silent_empty_outcomes)))
                 ["WEBVTT"; ""] "00:00:01.000 --> 00:00:03.000"
                 ["<v Alice>"] ""
                 ["00:00:05.000 --> 00:00:08.000"; "Hello"; ""] _ _) _).
    + repeat split; repeat constructor; discriminate.
    + repeat constructor.
    + vm_compute. reflexivity.
  - apply (proj1 C8_silent_empty_outcomes). repeat constructor.
Defined.

Import Gemini.

(** C9 — Free-text best-effort parsing.  [parseGeminiTranscript] runs
    [step] over the non-blank lines of the text, from no cue, and then sets
    the end of the last cue; it is a total function, so no input makes it
    fail.  (1) A non-blank line that does not match the timestamp pattern,
    read when there is no cue yet, starts a cue at time 0 without speaker
    whose text is the trimmed line.  (2) Read after some cue, it adds a
    space and the trimmed line to the text of the last cue and changes
    nothing else.  (3) When no line of the text matches the pattern the
    result has at most one cue: none when every line is blank, else the
    cue at time 0 whose text is the trimmed non-blank lines joined by
    single spaces. *)
Theorem C9_free_text_parsing :
  (forall text,
      parseGeminiTranscript text
      = updateLast adjustLast
          (fold_left step (filter nonBlank (Str.split Str.LF text)) []))
  /\ (forall before line,
        nonBlank line = true -> matchTimestampLine line = None ->
        fold_left step before [] = [] ->
        fold_left step (before ++ [line]) []
        = [mkCue (Num.ofZ 0) (Num.ofZ 30) None (Str.trim line)])
  /\ (forall before line cues c,
        nonBlank line = true -> matchTimestampLine line = None ->
        fold_left step before [] = cues ++ [c] ->
        fold_left step (before ++ [line]) []
        = cues ++ [mkCue (start c) (end_ c) (speaker c)
                         (text c ++ " " ++ Str.trim line)])
  /\ (forall text,
        Forall (fun line => matchTimestampLine line = None)
               (Str.split Str.LF text) ->
        (List.length (parseGeminiTranscript text) <= 1)%nat
        /\ parseGeminiTranscript text
           = match filter nonBlank (Str.split Str.LF text) with
             | [] => []
             | lines =>
                 [adjustLast
                    (mkCue (Num.ofZ 0) (Num.ofZ 30) None
                           (Str.join " " (map Str.trim lines)))]
             end).
Proof.
  split; [reflexivity|]. split; [|split].
  - intros before line Hnb Hm E.
    rewrite fold_left_app, E. cbn [fold_left].
    now apply GeminiFacts.step_implicit.
  - intros before line cues c Hnb Hm E.
    rewrite fold_left_app, E. cbn [fold_left].
    now apply GeminiFacts.step_continuation.
  - intros content H. unfold parseGeminiTranscript.
    rewrite (GeminiFacts.loop_unstructured _
               (GeminiFacts.filter_unmatched _ H)).
    destruct (filter nonBlank (Str.split Str.LF content));
      split; try reflexivity; cbn; lia.
Qed.

(** An unstructured transcript of three lines, one of them blank. *)
Lemma C9_unstructured_example :
  parseGeminiTranscript
    (Str.join Str.LF ["welcome everyone"; "   "; " to the meeting "])
  = [mkCue (Num.ofZ 0) (Fin 5) None "welcome everyone to the meeting"].
Proof.
  refine (eq_trans
            (proj2 (proj2 (proj2 (proj2 C9_free_text_parsing))
                      (Str.join Str.LF
                         ["welcome everyone"; "   "; " to the meeting "]) _))
            _).
  - vm_compute. repeat constructor.
  - vm_compute. reflexivity.
Defined.

(** C10 — Empty speaker name.  (1) A cue whose speaker is the empty string
    is serialized exactly as the same cue without speaker, wherever it
    stands in the sequence.  (2) No cue that [parseVTT] returns, on any
    input, has the empty string as speaker.  (3) So the empty speaker name
    does not survive the round trip: a printable cue with the empty
    speaker name is read back with the same text and no speaker. *)
Theorem C10_empty_speaker :
  (forall s e t before after,
      serializeVTT (before ++ mkCue s e (Some "") t :: after)
      = serializeVTT (before ++ mkCue s e None t :: after))
  /\ (forall content,
        Forall (fun cue => speaker cue <> Some "") (parseVTT content))
  /\ (forall s e t,
        RoundTrip.printable (mkCue s e (Some "") t) ->
        exists p,
          parseVTT (serializeVTT [mkCue s e (Some "") t]) = [p]
          /\ speaker p = None /\ text p = t).
Proof.
  split; [|split].
  - intros s e t before after.
    rewrite !RoundTripFacts.serializeVTT_lines. do 3 f_equal.
    now rewrite !flat_map_app.
  - intros content. apply ParseFacts.parseBlocks_speaker.
  - intros s e t Hp.
    pose proof (RoundTripFacts.round_trip _ (Forall_cons _ Hp (Forall_nil _)))
      as H.
    inversion H as [|c p cs ps (_ & _ & H3 & H4) Hnil E1 E2]; subst.
    inversion Hnil; subst.
    exists p. repeat split; assumption.
Qed.

(** A cue with the empty speaker name, serialized and parsed. *)
Lemma C10_empty_speaker_example :
  exists p,
    parseVTT (serializeVTT [mkCue (Fin 1) (Fin 3) (Some "") "Hello"]) = [p]
    /\ speaker p = None /\ text p = "Hello".
Proof.
  apply (proj2 (proj2 C10_empty_speaker)).
  repeat split; try discriminate;
    eexists; (split; [reflexivity | split; [discriminate | reflexivity]]).
Defined.

(** ** Command lines *)

Module ArgFacts.

Import ArgShape.

Ltac flags H :=
  unfold transcribeFlag, summarizeFlag, infographicFlag in H;
  cbn [existsb] in H;
  repeat (apply orb_false_elim in H; destruct H as [? H]).

Lemma pushOption_orNull (flag : string) (value : option string) :
  ProcessAll.pushOption flag value
  = match Gemini.orNull value with
    | Some v => [flag; v]
    | None => []
    end.
Proof. now destruct value as [[|c s]|]. Qed.

Lemma dataURL_split (mimeType data : string) :
  Str.forallb (Re.notChar ",") mimeType = true ->
  Str.split "," (InfographicCommand.dataURL mimeType data)
  = ("data:" ++ mimeType ++ ";base64")%string :: Str.split "," data.
Proof.
  intros H. unfold InfographicCommand.dataURL.
  change ("data:" ++ mimeType ++ ";base64," ++ data)%string
    with ("data:" ++ (mimeType ++ (";base64" ++ ("," ++ data))))%string.
  rewrite <- !StrFacts.append_assoc.
  rewrite (StrFacts.append_assoc "data:" mimeType ";base64").
  rewrite StrFacts.append_assoc.
  apply (SplitFacts.split_sep "," "").
  rewrite !StrFacts.forallb_append, H. reflexivity.
Qed.

End ArgFacts.

(** ** Requests *)

Module RetryFacts.

Import TranscribeCommand RetryShape.

Section Rounds.

Variables (prettyJSON : string -> option string) (fetch : Z -> Attempt).

(** One round of the loop: the two places of the code that start another
    attempt come to one test. *)
Lemma attemptsFrom_round (rounds : nat) (attempt : Z)
    (lastError : option string) (done : list Event) :
  attemptsFrom prettyJSON fetch (S rounds) attempt lastError done
  = if (retriable prettyJSON (fetch attempt)
        && (attempt <? MAX_RETRIES)%Z)%bool
    then attemptsFrom prettyJSON fetch rounds (attempt + 1)
           (Some (message prettyJSON (fetch attempt)))
           (done ++ [Fetch; Sleep (delay attempt)])
    else mkRun (settles prettyJSON (fetch attempt)) (done ++ [Fetch]).
Proof.
  cbn [attemptsFrom]. rewrite <- !app_assoc. cbn [app].
  destruct (fetch attempt) as [t|s e h|m];
    cbn [retriable settles message andb].
  - reflexivity.
  - destruct ((s =? 429)%Z || (500 <=? s)%Z)%bool; cbn [orb andb].
    + destruct (attempt <? MAX_RETRIES)%Z; cbn [andb]; reflexivity.
    + now rewrite andb_comm.
  - now rewrite andb_comm.
Qed.

End Rounds.

End RetryFacts.

(** ** From responses to cues *)

Module ResponseFacts.

Import Str StrFacts Vtt TranscribeCommand CueShape WordShape.
Import ParseFacts.

Local Open Scope Q_scope.

(** *** Groups of words *)

Lemma groupWords_nonempty (offset : number) (words : list Word.TranscriptionWord) :
  forall current,
    groupWords offset (Some current) words <> [].
Proof.
  induction words as [|w rest IH]; intros current; cbn [groupWords].
  - discriminate.
  - destruct (Num.ltb _ _); [discriminate | apply IH].
Qed.

(** *** The text of a group *)

Lemma trim_words (c : ascii) (a : string) :
  isSpace c = false -> trimEnd (String c a) = String c a ->
  trim (String c a) = String c a.
Proof.
  intros Hc He. unfold trim. cbn [trimStart]. now rewrite Hc.
Qed.

Lemma plainWord_shape (w : Word.TranscriptionWord) :
  plainWord w ->
  exists c a, Word.word w = String c a /\ isSpace c = false
              /\ trimEnd (String c a) = String c a.
Proof.
  intros [Hne Ht]. destruct (trim_fix _ Ht) as [Hs He].
  destruct (Word.word w) as [|c a]; [congruence|].
  exists c, a. repeat split; [|exact He].
  cbn [trimStart] in Hs. destruct (isSpace c) eqn:E; [|reflexivity].
  exfalso. destruct (trimStart_length a) as [H|H].
  - rewrite H in Hs. apply (f_equal String.length) in Hs. simpl in Hs. lia.
  - rewrite Hs in H. simpl in H. lia.
Qed.

Lemma groupWords_text (offset : number)
    (words : list Word.TranscriptionWord) :
  Forall plainWord words ->
  forall current c a,
    Current.text current = String c a -> isSpace c = false ->
    trimEnd (String c a) = String c a ->
    join " " (map Vtt.text (groupWords offset (Some current) words))
    = join " " (String c a :: map Word.word words).
Proof.
  induction 1 as [|w rest Hw _ IH]; intros current c a Ht Hc He;
    cbn [groupWords].
  - cbn. rewrite Ht. now apply trim_words.
  - destruct (plainWord_shape w Hw) as (c' & a' & Hword & Hc' & He').
    destruct (Num.ltb _ _).
    + cbn [map]. rewrite Hword, join_cons.
      rewrite <- (IH (openSegment w) c' a' Hword Hc' He').
      pose proof (groupWords_nonempty offset rest (openSegment w)) as Hne.
      destruct (groupWords offset (Some (openSegment w)) rest) as [|g gs];
        [congruence|].
      cbn [map]. rewrite join_cons. cbn [segmentOfWords Vtt.text].
      now rewrite Ht, (trim_words c a Hc He).
    + rewrite (IH (extendSegment current w) c (a ++ " " ++ Word.word w)%string).
      * cbn [map]. rewrite Hword.
        destruct (map Word.word rest) as [|r rs].
        -- reflexivity.
        -- rewrite !join_cons. cbn [append].
           now rewrite !append_assoc.
      * cbn. now rewrite Ht.
      * exact Hc.
      * change (String c (a ++ " " ++ Word.word w))%string
          with (String c a ++ (" " ++ Word.word w))%string.
        rewrite <- append_assoc.
        apply trimEnd_append_fix; rewrite Hword; [discriminate | exact He'].
Qed.

(** *** Responses that hold a text only *)

Lemma truthyNumber_pos (d : Q) : 0 < d -> truthyNumber (Fin d) = true.
Proof.
  intros H. cbn. destruct (Qeq_bool d 0) eqn:E; [|reflexivity].
  apply Qeq_bool_iff in E. lra.
Qed.

Lemma transcribeChunks_answered (prettyJSON : string -> option string)
    (fetch : Audio.AudioChunk -> Z -> Attempt)
    (respond : Audio.AudioChunk -> TranscriptionResponse)
    (chunks : list Audio.AudioChunk) :
  (forall chunk, fetch chunk 1%Z = Answered (respond chunk)) ->
  transcribeChunks prettyJSON fetch chunks = Returns (map respond chunks).
Proof.
  intros H. induction chunks as [|chunk rest IH]; [reflexivity|].
  cbn [transcribeChunks map]. rewrite IH.
  unfold transcribeOpenAIChunk. change (Z.to_nat MAX_RETRIES) with 3%nat.
  cbn [attemptsFrom]. now rewrite H.
Qed.

End ResponseFacts.

(** ** More on the planner *)

Module PlannerFacts.

Import Str StrFacts DigitFacts Audio Plan PlanFacts.

Local Open Scope Q_scope.

(** *** Names of the chunk files *)

Lemma append_cancel_r (s a b : string) :
  (a ++ s = b ++ s)%string -> a = b.
Proof.
  revert b. induction a as [|x a IH]; intros [|y b] H; cbn in H.
  - reflexivity.
  - exfalso. apply (f_equal String.length) in H. cbn in H.
    rewrite length_append in H. lia.
  - exfalso. apply (f_equal String.length) in H. cbn in H.
    rewrite length_append in H. lia.
  - injection H as -> H. f_equal. now apply IH.
Qed.

Lemma chunkAt_file (totalDuration numChunks chunkDuration : number)
    (i : nat) :
  file (chunkAt totalDuration numChunks chunkDuration i)
  = ("chunk_" ++ padStart 2 "0" (ofZ (Z.of_nat i + 1)) ++ ".ogg")%string.
Proof.
  unfold chunkAt. cbn [file Num.toString Num.ofZ].
  now rewrite Qfloor_Z.
Qed.

Lemma chunkAt_file_inj (totalDuration numChunks chunkDuration : number)
    (i j : nat) :
  file (chunkAt totalDuration numChunks chunkDuration i)
  = file (chunkAt totalDuration numChunks chunkDuration j) ->
  i = j.
Proof.
  rewrite !chunkAt_file. intros H. cbn [append] in H.
  injection H as H. apply append_cancel_r in H.
  apply (f_equal digitsValue) in H.
  rewrite !padStart_value, !ofZ_value in H by lia. lia.
Qed.

Lemma chunk_files_NoDup (totalDuration numChunks chunkDuration : number)
    (rounds : nat) :
  NoDup (map file (map (chunkAt totalDuration numChunks chunkDuration)
                       (seq 0 rounds))).
Proof.
  rewrite map_map. apply Finite.Injective_map_NoDup; [|apply seq_NoDup].
  intros i j. apply chunkAt_file_inj.
Qed.

End PlannerFacts.

(** ** More on the free-text reader *)

Module TranscriptFacts.

Import Str Shape StrFacts SplitFacts DigitFacts CodecFacts.
Import Vtt Gemini GeminiFacts CueShape TranscriptShape.

(** *** Blank texts *)

Lemma trimStart_spaces (s : string) :
  forallb isSpace s = true -> trimStart s = "".
Proof.
  induction s as [|c s IH]; [reflexivity|]. cbn.
  intros H. apply andb_prop in H as [Hc Hs]. rewrite Hc. now apply IH.
Qed.

Lemma trim_spaces (s : string) : forallb isSpace s = true -> trim s = "".
Proof. intros H. unfold trim. now rewrite (trimStart_spaces s H). Qed.

Lemma trimEnd_empty (s : string) :
  trimEnd s = "" -> forallb isSpace s = true.
Proof.
  induction s as [|c s IH]; [reflexivity|]. cbn.
  destruct (trimEnd s); [|discriminate].
  destruct (isSpace c); [|discriminate]. intros _. now apply IH.
Qed.

Lemma trimStart_all_spaces (s : string) :
  forallb isSpace (trimStart s) = true -> forallb isSpace s = true.
Proof.
  induction s as [|c s IH]; [reflexivity|]. cbn [trimStart].
  destruct (isSpace c) eqn:E.
  - intros H. cbn. rewrite E. now apply IH.
  - easy.
Qed.

Lemma trim_empty (s : string) : trim s = "" -> forallb isSpace s = true.
Proof. intros H. now apply trimStart_all_spaces, trimEnd_empty. Qed.

Lemma splitAux_all (p : ascii -> bool) (c : ascii) (s : string) :
  p c = true ->
  forall cur,
    Forall (fun l => forallb p l = true) (splitAux (String c "") 0 cur s) ->
    forallb p (revAppend cur "" ++ s) = true.
Proof.
  intros Hc. induction s as [|x s IH]; intros cur H.
  - cbn in H. inversion H; subst. now rewrite append_nil_r.
  - cbn [splitAux] in H.
    assert (Hp : prefix (String c "") (String x s)
                 = if ascii_dec c x then true else false).
    { cbn [prefix]. destruct (ascii_dec c x); [apply prefix_nil|reflexivity]. }
    rewrite Hp in H. clear Hp.
    destruct (ascii_dec c x) as [<-|Hx].
    + change (String.length (String c "") - 1)%nat with 0%nat in H.
      inversion H as [|? ? H1 H2]; subst.
      apply (IH []) in H2. cbn [revAppend append] in H2.
      rewrite forallb_append, H1. cbn [forallb].
      now rewrite Hc, H2.
    + apply IH in H. cbn [revAppend] in H.
      rewrite revAppend_spec, append_assoc in H. exact H.
Qed.

Lemma blank_lines_blank_text (text : string) :
  Forall (fun l => nonBlank l = false) (split LF text) -> trim text = "".
Proof.
  intros H. apply trim_spaces.
  apply (splitAux_all isSpace LFchar text eq_refl []).
  eapply Forall_impl; [|exact H].
  intros l Hl. unfold nonBlank in Hl. apply negb_false_iff in Hl.
  apply trim_empty. now destruct (trim l).
Qed.

Lemma readLines_nonempty (text : string) :
  trim text <> "" -> readLines text <> [].
Proof.
  intros Hne Hnil. apply Hne, blank_lines_blank_text.
  apply Forall_forall. intros l Hl.
  destruct (nonBlank l) eqn:E; [|reflexivity].
  exfalso. assert (Hin : In l (readLines text))
    by (apply filter_In; split; assumption).
  rewrite Hnil in Hin. exact Hin.
Qed.

(** *** The number of cues *)

Lemma updateLast_length (f : VTTCue -> VTTCue) (cues : list VTTCue) :
  List.length (updateLast f cues) = List.length cues.
Proof.
  induction cues as [|c [|c' rest] IH]; [reflexivity | reflexivity |].
  change (updateLast f (c :: c' :: rest))
    with (c :: updateLast f (c' :: rest)).
  cbn [List.length]. now rewrite IH.
Qed.

Lemma timestampedCue_shape (m : TimestampMatch) (cues : list VTTCue) :
  let startTime :=
    (let p1 := Num.parseInt (part1 m) in
     let p2 := Num.parseInt (part2 m) in
     let '(hours, minutes, seconds) :=
       match part3 m with
       | Some s3 => (p1, p2, Num.parseInt s3)
       | None => (Num.ofZ 0, p1, p2)
       end in
     Num.add (Num.add (Num.mul hours (Num.ofZ 3600))
                      (Num.mul minutes (Num.ofZ 60))) seconds) in
  exists c,
    timestampedCue m cues = updateLast (setEnd startTime) cues ++ [c]
    /\ start c = startTime
    /\ shortLabel (speaker c).
Proof.
  unfold timestampedCue.
  destruct (part3 m) as [s3|]; cbv zeta;
    match goal with
    | |- context [updateLast (setEnd ?st) cues] => set (startTime := st)
    end;
    match goal with
    | |- context [if truthy ?o then _ else _] => set (cleanSpeaker0 := o)
    end;
    (destruct (truthy cleanSpeaker0) eqn:Et;
     [ destruct cleanSpeaker0 as [[|c0 s0]|]; try discriminate;
       cbn [option_map];
       set (name := trim (stripMarkdown (String c0 s0)));
       destruct name as [|c1 s1] eqn:En; cbn [truthy andb];
       [ eexists; split; [reflexivity|]; split; [reflexivity | exact I]
       | destruct (30 <? String.length (String c1 s1))%nat eqn:El;
         [ eexists; split; [reflexivity|]; split; [reflexivity | exact I]
         | eexists; split; [reflexivity|]; split; [reflexivity|];
           cbn [speaker orNull truthy shortLabel];
           split; [discriminate | now apply Nat.ltb_ge in El] ] ]
     | destruct cleanSpeaker0 as [[|c0 s0]|]; try discriminate;
       eexists; (split; [reflexivity|]); (split; [reflexivity|]); exact I ]).
Qed.

Lemma step_length (cues : list VTTCue) (line : string) :
  nonBlank line = true ->
  List.length (step cues line)
  = (if timestamped line then S (List.length cues)
     else match cues with [] => 1 | _ => List.length cues end)%nat.
Proof.
  intros Hnb. unfold step, timestamped.
  destruct (matchTimestampLine line) as [m|].
  - destruct (timestampedCue_shape m cues) as (c & -> & _).
    rewrite length_app, updateLast_length. simpl. lia.
  - unfold nonBlank in Hnb. apply negb_true_iff in Hnb. rewrite Hnb.
    destruct cues as [|c rest]; [reflexivity|].
    now rewrite updateLast_length.
Qed.

Lemma loop_length (lines : list string) :
  Forall (fun l => nonBlank l = true) lines ->
  forall c cues,
    List.length (fold_left step lines (c :: cues))
    = (List.length (filter timestamped lines) + S (List.length cues))%nat.
Proof.
  induction 1 as [|l rest Hl _ IH]; intros c cues; [reflexivity|].
  cbn [fold_left filter].
  pose proof (step_length (c :: cues) l Hl) as E.
  destruct (step (c :: cues) l) as [|c' cues'] eqn:Es.
  - destruct (timestamped l); discriminate.
  - rewrite IH. destruct (timestamped l); simpl in *; lia.
Qed.

Lemma readLines_nonBlank (text : string) :
  Forall (fun l => nonBlank l = true) (readLines text).
Proof. apply Forall_forall. intros l Hl. now apply filter_In in Hl. Qed.

Lemma parse_length (text : string) :
  List.length (parseGeminiTranscript text)
  = (List.length (filter timestamped (readLines text))
     + match readLines text with
       | l :: _ => if timestamped l then 0 else 1
       | [] => 0
       end)%nat.
Proof.
  unfold parseGeminiTranscript. fold (readLines text).
  rewrite updateLast_length.
  pose proof (readLines_nonBlank text) as H.
  destruct (readLines text) as [|l rest]; [reflexivity|].
  inversion H as [|? ? Hl Hrest]; subst.
  cbn [fold_left filter].
  pose proof (step_length [] l Hl) as E.
  destruct (step [] l) as [|c cues] eqn:Es.
  - destruct (timestamped l); discriminate.
  - rewrite (loop_length rest Hrest).
    destruct (timestamped l); simpl in *; lia.
Qed.

(** *** What the loop keeps *)

Lemma chained_updateLast (f : VTTCue -> VTTCue) (cues : list VTTCue) :
  (forall c, start (f c) = start c) ->
  chained cues -> chained (updateLast f cues).
Proof.
  intros Hf. induction cues as [|a [|b rest] IH]; [easy | easy |].
  intros [Hab Hrest].
  change (updateLast f (a :: b :: rest))
    with (a :: updateLast f (b :: rest)).
  specialize (IH Hrest).
  destruct rest as [|b' rest'].
  - cbn. now rewrite Hf.
  - change (updateLast f (b :: b' :: rest'))
      with (b :: updateLast f (b' :: rest')) in *.
    split; assumption.
Qed.

Lemma chained_push (c : VTTCue) (cues : list VTTCue) :
  chained cues -> chained (updateLast (setEnd (start c)) cues ++ [c]).
Proof.
  induction cues as [|a [|b rest] IH]; [easy | now cbn |].
  intros [Hab Hrest].
  change (updateLast (setEnd (start c)) (a :: b :: rest))
    with (a :: updateLast (setEnd (start c)) (b :: rest)).
  specialize (IH Hrest).
  destruct rest as [|b' rest'].
  - cbn in *. now split.
  - change (updateLast (setEnd (start c)) (b :: b' :: rest'))
      with (b :: updateLast (setEnd (start c)) (b' :: rest')) in *.
    cbn [app] in *. split; assumption.
Qed.

Lemma Forall_updateLast (P : VTTCue -> Prop) (f : VTTCue -> VTTCue)
    (cues : list VTTCue) :
  (forall c, P c -> P (f c)) -> Forall P cues -> Forall P (updateLast f cues).
Proof.
  intros Hf. induction cues as [|a [|b rest] IH]; intros H.
  - constructor.
  - inversion H; subst. constructor; auto.
  - inversion H; subst.
    change (updateLast f (a :: b :: rest))
      with (a :: updateLast f (b :: rest)).
    constructor; auto.
Qed.

(** *** The fields of a matched line *)

Lemma span_fst (p : ascii -> bool) (s : string) :
  forallb p (fst (span p s)) = true.
Proof.
  induction s as [|c s IH]; [reflexivity|]. cbn.
  destruct (p c) eqn:E; [|reflexivity].
  destruct (span p s). cbn in *. now rewrite E.
Qed.

Lemma twoDigits_some (s p r : string) :
  twoDigits s = Some (p, r) -> forallb isDigit p = true /\ p <> "".
Proof.
  unfold twoDigits. destruct s as [|a [|b r']]; try discriminate.
  destruct (isDigit a) eqn:Ea; [|discriminate].
  destruct (isDigit b) eqn:Eb; [|discriminate].
  cbn. intros H. injection H as <- _. cbn. now rewrite Ea, Eb.
Qed.

Lemma matchTimestampLine_parts (line : string) (m : TimestampMatch) :
  matchTimestampLine line = Some m ->
  digits (part1 m) /\ digits (part2 m)
  /\ match part3 m with Some d => digits d | None => True end.
Proof.
  unfold matchTimestampLine.
  destruct line as [|c r]; [discriminate|].
  destruct c as [[] [] [] [] [] [] [] []]; try discriminate.
  pose proof (span_fst isDigit (trimStart r)) as Hds.
  destruct (span isDigit (trimStart r)) as [ds r1]. cbn [fst] in Hds.
  destruct r1 as [|c1 r2]; [discriminate|].
  destruct c1 as [[] [] [] [] [] [] [] []]; try discriminate.
  destruct ((String.length ds =? 1) || (String.length ds =? 2))%nat eqn:El;
    [|discriminate].
  destruct (twoDigits r2) as [[p2 r3]|] eqn:E2; [|discriminate].
  apply twoDigits_some in E2.
  assert (Hp3 : forall p3 r4,
             (match r3 with
              | String ":" r3' =>
                  match twoDigits r3' with
                  | Some (d, r') => (Some d, r')
                  | None => (None, r3)
                  end
              | _ => (None, r3)
              end) = (p3, r4) ->
             match p3 with Some d => digits d | None => True end).
  { intros p3 r4 H. destruct r3 as [|c3 r3']; [now injection H as <- _|].
    destruct c3 as [[] [] [] [] [] [] [] []];
      try (now injection H as <- _).
    destruct (twoDigits r3') as [[d r']|] eqn:E3.
    - injection H as <- _. now apply twoDigits_some in E3.
    - now injection H as <- _. }
  destruct (match r3 with String ":" r3' => _ | _ => _ end) as [p3 r4] eqn:E3.
  specialize (Hp3 p3 r4 eq_refl).
  destruct (trimStart r4) as [|c5 r5]; [discriminate|].
  destruct c5 as [[] [] [] [] [] [] [] []]; try discriminate.
  destruct (matchTail r5) as [tail|]; [|discriminate].
  cbn [option_map]. intros H. injection H as <-. cbn [part1 part2 part3].
  split; [split; [exact Hds | intros ->; discriminate]|].
  split; [exact E2 | exact Hp3].
Qed.

Lemma digitsValueAcc_nonneg (s : string) :
  forallb isDigit s = true ->
  forall acc, 0 <= acc -> 0 <= digitsValueAcc acc s.
Proof.
  induction s as [|c s IH]; intros H acc Hacc; [exact Hacc|].
  cbn [forallb] in H. apply andb_prop in H as [Hc Hs].
  cbn [digitsValueAcc]. apply IH; [exact Hs|].
  unfold isDigit in Hc. cbv zeta in Hc. unfold digitValue.
  apply andb_prop in Hc as [Hlo _]. apply Nat.leb_le in Hlo. lia.
Qed.

Lemma parseInt_whole (s : string) :
  digits s -> exists k, 0 <= k /\ Num.parseInt s = Fin (inject_Z k).
Proof.
  intros [Hd Hne]. exists (digitsValue s). split.
  - now apply digitsValueAcc_nonneg.
  - now apply parseInt_digits.
Qed.

Lemma startTime_whole (h m s : Z) :
  0 <= h -> 0 <= m -> 0 <= s ->
  exists k,
    0 <= k
    /\ Num.hasValue
         (Num.add (Num.add (Num.mul (Fin (inject_Z h)) (Num.ofZ 3600))
                           (Num.mul (Fin (inject_Z m)) (Num.ofZ 60)))
                  (Fin (inject_Z s)))
         (inject_Z k).
Proof.
  intros Hh Hm Hs. exists (h * 3600 + m * 60 + s). split; [lia|].
  cbn. rewrite !inject_Z_plus, !inject_Z_mult. reflexivity.
Qed.

Lemma step_keeps (cues : list VTTCue) (line : string) :
  chained cues /\ Forall startsOnSecond cues
  /\ Forall (fun c => shortLabel (speaker c)) cues ->
  chained (step cues line) /\ Forall startsOnSecond (step cues line)
  /\ Forall (fun c => shortLabel (speaker c)) (step cues line).
Proof.
  intros (Hc & Hs & Hl). unfold step.
  destruct (matchTimestampLine line) as [m|] eqn:Em.
  - pose proof (timestampedCue_shape m cues) as Hshape.
    cbv zeta in Hshape. destruct Hshape as (c & E & Hstart & Hlabel).
    rewrite E, <- Hstart. clear E.
    split; [now apply chained_push|]. split.
    + apply Forall_app. split.
      * apply Forall_updateLast; [|exact Hs]. now intros [].
      * constructor; [|constructor]. unfold startsOnSecond. rewrite Hstart.
        destruct (matchTimestampLine_parts line m Em) as (H1 & H2 & H3).
        destruct (parseInt_whole _ H1) as (k1 & Hk1 & ->).
        destruct (parseInt_whole _ H2) as (k2 & Hk2 & ->).
        destruct (part3 m) as [d|].
        -- destruct (parseInt_whole _ H3) as (k3 & Hk3 & ->).
           now apply startTime_whole.
        -- now apply (startTime_whole 0 k1 k2).
    + apply Forall_app. split.
      * apply Forall_updateLast; [|exact Hl]. now intros [].
      * now repeat constructor.
  - destruct (isEmpty (trim line)); [tauto|].
    destruct cues as [|c rest].
    + split; [exact I|]. split; repeat constructor.
      exists 0. split; [lia | reflexivity].
    + split; [apply chained_updateLast; [now intros [] | exact Hc]|].
      split; apply Forall_updateLast; try assumption; now intros [].
Qed.

Lemma loop_keeps (lines : list string) :
  forall cues,
    chained cues /\ Forall startsOnSecond cues
    /\ Forall (fun c => shortLabel (speaker c)) cues ->
    chained (fold_left step lines cues)
    /\ Forall startsOnSecond (fold_left step lines cues)
    /\ Forall (fun c => shortLabel (speaker c)) (fold_left step lines cues).
Proof.
  induction lines as [|l rest IH]; intros cues H; [exact H|].
  cbn [fold_left]. now apply IH, step_keeps.
Qed.

Lemma parse_keeps (text : string) :
  chained (parseGeminiTranscript text)
  /\ Forall startsOnSecond (parseGeminiTranscript text)
  /\ Forall (fun c => shortLabel (speaker c)) (parseGeminiTranscript text).
Proof.
  unfold parseGeminiTranscript.
  destruct (loop_keeps (filter nonBlank (split LF text)) [])
    as (Hc & Hs & Hl); [repeat split; constructor|].
  split; [apply chained_updateLast; [now intros [] | exact Hc]|].
  split; apply Forall_updateLast; try assumption; now intros [].
Qed.

(** *** The end of the last cue *)

Lemma adjustLast_end (c : VTTCue) (s : Q) :
  start c = Fin s ->
  end_ (adjustLast c)
  = Fin (s + inject_Z
               (Z.max 5 (Qceiling
                           (inject_Z (Z.of_nat (splitSpacesLength (text c)))
                            / 2.5)))).
Proof.
  intros Hs. unfold adjustLast. cbn [end_ setEnd]. rewrite Hs.
  set (wordCount := Z.of_nat (splitSpacesLength (text c))).
  unfold Num.ofZ.
  rewrite (PlanFacts.div_fin (inject_Z wordCount) 2.5 eq_refl).
  cbn [Num.ceil]. set (z := Qceiling (inject_Z wordCount / 2.5)).
  unfold Num.max, Num.ofZ. cbn [Num.ltb Num.add].
  destruct (Qle_bool (inject_Z z) (inject_Z 5)) eqn:E; cbn [negb].
  - apply MergeFacts.Qle_bool_true in E. rewrite <- Zle_Qle in E.
    now rewrite Z.max_l by lia.
  - apply MergeFacts.Qle_bool_false in E. rewrite <- Zlt_Qlt in E.
    now rewrite Z.max_r by lia.
Qed.

Lemma adjustLast_keeps (c : VTTCue) :
  start (adjustLast c) = start c /\ text (adjustLast c) = text c.
Proof. split; reflexivity. Qed.

Lemma parse_last (text : string) (cues : list VTTCue) (c : VTTCue) :
  parseGeminiTranscript text = cues ++ [c] ->
  exists c0, c = adjustLast c0 /\ startsOnSecond c0.
Proof.
  unfold parseGeminiTranscript.
  destruct (loop_keeps (filter nonBlank (split LF text)) [])
    as (_ & Hs & _); [repeat split; constructor|].
  destruct (fold_left step (filter nonBlank (split LF text)) [])
    as [|x l] using rev_ind.
  - intros H. destruct cues; discriminate.
  - rewrite updateLast_last. intros H. apply app_inj_tail in H as [_ <-].
    exists x. split; [reflexivity|].
    apply Forall_app in Hs as [_ Hx]. now inversion Hx.
Qed.

End TranscriptFacts.

(** ** More on the subtitle engine *)

Module EngineFacts.

Import Str Shape StrFacts SplitFacts DigitFacts Clock ClockFacts CodecFacts.
Import Vtt Block ParseFacts RoundTripFacts MergeOrder MergeFacts CueShape.

(** *** Lines of a document *)

Lemma splitAux_noSep (c : ascii) (s : string) :
  forall cur,
    forallb (Re.notChar c) (revAppend cur "") = true ->
    Forall (fun l => forallb (Re.notChar c) l = true)
           (splitAux (String c "") 0 cur s).
Proof.
  induction s as [|x s IH]; intros cur Hcur.
  - cbn. now repeat constructor.
  - cbn [splitAux].
    assert (Hp : prefix (String c "") (String x s)
                 = if ascii_dec c x then true else false).
    { cbn [prefix]. destruct (ascii_dec c x); [apply prefix_nil|reflexivity]. }
    rewrite Hp. clear Hp.
    destruct (ascii_dec c x) as [<-|Hx].
    + constructor; [exact Hcur|]. now apply IH.
    + apply IH. cbn [revAppend]. rewrite revAppend_spec, forallb_append, Hcur.
      cbn. unfold Re.notChar. rewrite andb_true_r.
      apply negb_true_iff, Ascii.eqb_neq. congruence.
Qed.

Lemma split_noLF (s : string) : Forall noLF (split LF s).
Proof. now apply (splitAux_noSep LFchar s []). Qed.

(** *** Texts of the cues *)

Lemma join_oneLine (t : string) (ts : list string) :
  Forall oneLine (t :: ts) -> oneLine (join " " (t :: ts)).
Proof.
  revert t. induction ts as [|u ts IH]; intros t H.
  - now inversion H.
  - inversion H as [|? ? [Hne Ht] Hrest]; subst.
    destruct (IH u Hrest) as [_ Hjoin].
    rewrite join_cons. split.
    + destruct t; [congruence | discriminate].
    + unfold noLF in *. now rewrite !forallb_append, Ht, Hjoin.
Qed.

Lemma emit_oneLine (s e : number) (textLines : list string)
    (speaker0 : option string) :
  Forall oneLine textLines ->
  Forall (fun c => oneLine (text c)) (emit s e textLines speaker0).
Proof.
  intros H. unfold emit. destruct textLines as [|t ts]; constructor;
    [|constructor].
  now apply join_oneLine.
Qed.

Lemma readTextLines_oneLine (s e : number)
    (next : list string -> list VTTCue) (lines : list string) :
  Forall noLF lines ->
  (forall r, (List.length r <= List.length lines)%nat -> Forall noLF r ->
             Forall (fun c => oneLine (text c)) (next r)) ->
  forall textLines speaker0,
    Forall oneLine textLines ->
    Forall (fun c => oneLine (text c))
           (readTextLines s e next textLines speaker0 lines).
Proof.
  induction 1 as [|l rest Hl Hrest IH]; intros Hnext textLines speaker0 Ht.
  - now apply emit_oneLine.
  - cbn [readTextLines]. destruct (isEmpty (trim l)).
    + apply Forall_app. split; [now apply emit_oneLine|].
      apply Hnext; [simpl; lia | exact Hrest].
    + assert (Hnext' : forall r, (List.length r <= List.length rest)%nat ->
                                 Forall noLF r ->
                                 Forall (fun c => oneLine (text c)) (next r))
        by (intros r Hr; apply Hnext; simpl; lia).
      pose proof (lineText_noLF l Hl) as Hline. unfold lineText in Hline.
      destruct (matchSpeakerTag (trim l)) as [[name after]|].
      * apply (IH Hnext'). destruct after as [|c a]; [exact Ht|].
        apply Forall_app. split; [exact Ht|].
        constructor; [|constructor]. split; [discriminate | exact Hline].
      * apply (IH Hnext'). destruct (trim l) as [|c a]; [exact Ht|].
        apply Forall_app. split; [exact Ht|].
        constructor; [|constructor]. split; [discriminate | exact Hline].
Qed.

Lemma parseBlocks_oneLine (lines : list string) :
  Forall noLF lines -> Forall (fun c => oneLine (text c)) (parseBlocks lines).
Proof.
  remember (List.length lines) as n eqn:Hn.
  assert (Hle : (List.length lines <= n)%nat) by lia. clear Hn.
  revert lines Hle. induction n as [|n IH]; intros lines Hle Hlines.
  - destruct lines; [constructor | simpl in Hle; lia].
  - destruct lines as [|l rest]; [constructor|].
    inversion Hlines; subst.
    cbn [parseBlocks]. simpl in Hle.
    destruct (isTimestampLine (trim l)); [|apply IH; [lia | assumption]].
    destruct (parseRange (trim l)) as [s e].
    apply readTextLines_oneLine; [assumption | | constructor].
    intros r Hr. apply IH. lia.
Qed.

(** *** Number of cues *)

Lemma emit_length (s e : number) (textLines : list string)
    (speaker0 : option string) :
  (List.length (emit s e textLines speaker0) <= 1)%nat.
Proof. unfold emit. destruct textLines; simpl; lia. Qed.

Lemma readTextLines_length (s e : number)
    (next : list string -> list VTTCue) (lines : list string) :
  (forall r, (List.length r <= List.length lines)%nat ->
             List.length (next r)
             <= List.length (filter isTimestampLine r))%nat ->
  forall textLines speaker0,
    (List.length (readTextLines s e next textLines speaker0 lines)
     <= S (List.length (filter isTimestampLine lines)))%nat.
Proof.
  induction lines as [|l rest IH]; intros Hnext textLines speaker0.
  - cbn [readTextLines]. pose proof (emit_length s e textLines speaker0).
    simpl. lia.
  - assert (Hmono : (List.length (filter isTimestampLine rest)
                     <= List.length (filter isTimestampLine (l :: rest)))%nat)
      by (cbn [filter]; destruct (isTimestampLine l); simpl; lia).
    cbn [readTextLines]. destruct (isEmpty (trim l)).
    + rewrite length_app.
      pose proof (emit_length s e textLines speaker0).
      specialize (Hnext rest ltac:(simpl; lia)). lia.
    + assert (Hnext' : forall r, (List.length r <= List.length rest)%nat ->
                                 (List.length (next r)
                                  <= List.length (filter isTimestampLine r))%nat)
        by (intros r Hr; apply Hnext; simpl; lia).
      destruct (matchSpeakerTag (trim l)) as [[name after]|];
        match goal with
        | |- (List.length (readTextLines _ _ _ ?tl ?sp _) <= _)%nat =>
            specialize (IH Hnext' tl sp)
        end; lia.
Qed.

Lemma parseBlocks_length (lines : list string) :
  (List.length (parseBlocks lines)
   <= List.length (filter isTimestampLine lines))%nat.
Proof.
  remember (List.length lines) as n eqn:Hn.
  assert (Hle : (List.length lines <= n)%nat) by lia. clear Hn.
  revert lines Hle. induction n as [|n IH]; intros lines Hle.
  - destruct lines; [simpl; lia | simpl in Hle; lia].
  - destruct lines as [|l rest]; [simpl; lia|].
    cbn [parseBlocks filter]. simpl in Hle.
    rewrite isTimestampLine_trim.
    destruct (isTimestampLine l).
    + destruct (parseRange (trim l)) as [s e]. cbn [List.length].
      apply readTextLines_length. intros r Hr. apply IH. lia.
    + apply IH. lia.
Qed.

(** *** Fields of a timestamp *)

Lemma split_colon_plain (a : string) :
  forallb (Re.notChar ":") a = true -> split ":" a = [a].
Proof. apply (split_plain ":" ""). Qed.

Lemma split_colon (a b : string) :
  forallb (Re.notChar ":") a = true ->
  split ":" (a ++ ":" ++ b) = a :: split ":" b.
Proof. apply (split_sep ":" ""). Qed.

Lemma split_colon_cons (b : string) :
  exists p ps, split ":" b = p :: ps.
Proof.
  unfold split. generalize (@nil ascii).
  induction b as [|x b IH]; intros cur.
  - eexists _, _. reflexivity.
  - cbn [splitAux]. destruct (prefix ":" (String x b)).
    + eexists _, _. reflexivity.
    + apply IH.
Qed.

(** *** Documents *)

Lemma concat_app (xs ys : list string) :
  String.concat "" (xs ++ ys)
  = (String.concat "" xs ++ String.concat "" ys)%string.
Proof.
  induction xs as [|x xs IH]; [reflexivity|].
  cbn [app]. rewrite !concat_cons, IH. now rewrite append_assoc.
Qed.

(** *** Width of a printed timestamp *)

Lemma ofZ_length_2 (n : Z) :
  0 <= n < 100 -> (String.length (ofZ n) <= 2)%nat.
Proof.
  intros H.
  assert (E : List.forallb
                (fun k => (String.length (ofZ (Z.of_nat k)) <=? 2)%nat)
                (seq 0 100) = true) by (vm_compute; reflexivity).
  rewrite List.forallb_forall in E.
  specialize (E (Z.to_nat n)). rewrite Z2Nat.id in E by lia.
  apply Nat.leb_le, E, in_seq. lia.
Qed.

Lemma clockText_length (h m s ms : Z) :
  0 <= h < 100 -> 0 <= m < 100 -> 0 <= s < 100 -> 0 <= ms < 1000 ->
  String.length (clockText h m s ms) = 12%nat.
Proof.
  intros Hh Hm Hs Hms. unfold clockText.
  rewrite !length_append.
  rewrite !padStart_length
    by (try apply ofZ_length_2; try apply ofZ_length_3; assumption).
  reflexivity.
Qed.

(** *** Order of the cues *)






End EngineFacts.

(** ** Lines of the format that the prompt asks for *)

Module StampFacts.

Import Str Shape StrFacts SplitFacts DigitFacts CodecFacts.
Import Vtt Gemini GeminiFacts CueShape TranscriptShape TranscriptFacts.

Lemma trimmed_shape (s : string) :
  s <> "" -> trim s = s ->
  exists c a, s = String c a /\ isSpace c = false /\ trimEnd s = s.
Proof.
  intros Hne Ht. destruct (trim_fix _ Ht) as [Hs He].
  destruct s as [|c a]; [congruence|].
  exists c, a. repeat split; [|exact He].
  cbn [trimStart] in Hs. destruct (isSpace c) eqn:E; [|reflexivity].
  exfalso. destruct (trimStart_length a) as [H|H].
  - rewrite H in Hs. apply (f_equal String.length) in Hs. simpl in Hs. lia.
  - rewrite Hs in H. simpl in H. lia.
Qed.

Lemma two_digits (p : string) :
  String.length p = 2%nat -> forallb isDigit p = true ->
  exists a b, p = String a (String b "")
              /\ isDigit a = true /\ isDigit b = true.
Proof.
  destruct p as [|a [|b [|c r]]]; try discriminate. intros _ H.
  cbn in H. apply andb_prop in H as [Ha H]. apply andb_prop in H as [Hb _].
  now exists a, b.
Qed.

Lemma twoDigits_field (p rest : string) :
  String.length p = 2%nat -> forallb isDigit p = true ->
  twoDigits (p ++ rest) = Some (p, rest).
Proof.
  intros Hl Hd. destruct (two_digits p Hl Hd) as (a & b & -> & Ha & Hb).
  cbn. now rewrite Ha, Hb.
Qed.

Lemma first_digit (p rest : string) :
  p <> "" -> forallb isDigit p = true ->
  exists c r, (p ++ rest)%string = String c r /\ isDigit c = true.
Proof.
  destruct p as [|c p]; [congruence|]. intros _ H. cbn in H.
  apply andb_prop in H as [Hc _]. now exists c, (p ++ rest)%string.
Qed.

(** The part of the pattern up to the closing bracket. *)
Lemma matchTimestampLine_stamp (p1 p2 : string) (p3 : option string)
    (tail : string) :
  stampFields p1 p2 p3 ->
  matchTimestampLine ("[" ++ stampText p1 p2 p3 ++ "]" ++ tail)
  = option_map (fun m => mkMatch p1 p2 p3 (fst m) (snd m)) (matchTail tail).
Proof.
  intros (Hl1 & Hd1 & Hl2 & Hd2 & H3).
  assert (Hne1 : p1 <> "") by (destruct p1; [simpl in Hl1; lia | discriminate]).
  set (rest3 := match p3 with
                | Some d => String ":" (d ++ String "]" tail)
                | None => String "]" tail
                end).
  assert (E0 : ("[" ++ stampText p1 p2 p3 ++ "]" ++ tail)%string
               = String "[" (p1 ++ String ":" (p2 ++ rest3))).
  { unfold stampText, rest3. destruct p3 as [d|]; cbn [append];
      rewrite !append_assoc; cbn [append]; rewrite ?append_assoc;
      cbn [append]; rewrite ?append_nil_r; reflexivity. }
  rewrite E0. clear E0. unfold matchTimestampLine.
  destruct (first_digit p1 (String ":" (p2 ++ rest3)) Hne1 Hd1)
    as (c & r & E & Hc).
  rewrite trimStart_stops
    by (rewrite E; cbn; now destruct (digit_cases c Hc)).
  rewrite (span_append isDigit p1 _ Hd1) by reflexivity.
  replace ((String.length p1 =? 1)%nat || (String.length p1 =? 2)%nat)
    with true by (destruct Hl1 as [-> | ->]; reflexivity).
  rewrite (twoDigits_field p2 _ Hl2 Hd2).
  unfold rest3. destruct p3 as [d|].
  - destruct H3 as [Hl3 Hd3].
    rewrite (twoDigits_field d _ Hl3 Hd3). reflexivity.
  - reflexivity.
Qed.

(** The end of the pattern, with a label and without. *)
Lemma span_space (x : ascii) (b : string) :
  isSpace x = false ->
  span isSpace (String " " (String x b)) = (" ", String x b).
Proof.
  intros Hx. cbn [span]. change (isSpace " ") with true. cbn iota.
  now rewrite Hx.
Qed.

Lemma matchTail_label (name body : string) :
  plainLabel name -> RoundTrip.plainText body ->
  matchTail (" " ++ name ++ ": " ++ body) = Some (Some name, body).
Proof.
  intros (Hne & Ht & Hcolon & _ & _) (Hbne & Hbt & Hbl).
  destruct (trimmed_shape name Hne Ht) as (c & a & -> & Hc & _).
  destruct (trimmed_shape body Hbne Hbt) as (x & b & -> & Hx & _).
  unfold matchTail. cbn [append].
  rewrite (span_space c _ Hc).
  cbn [fst String.length Re.tryDown Nat.add drop].
  unfold speakerGroup.
  change (String c (a ++ String ":" (String " " (String x b))))
    with (String c a ++ String ":" (String " " (String x b)))%string.
  rewrite (span_append (Re.notChar ":") (String c a) _ Hcolon) by reflexivity.
  rewrite (span_space x _ Hx).
  cbn [fst String.length Re.tryDown Nat.add drop].
  unfold dotPlusEnd. cbn [isEmpty]. now rewrite Hbl.
Qed.

Lemma matchTail_text (body : string) :
  RoundTrip.plainText body -> forallb (Re.notChar ":") body = true ->
  matchTail (" " ++ body) = Some (None, body).
Proof.
  intros (Hbne & Hbt & Hbl) Hcolon.
  destruct (trimmed_shape body Hbne Hbt) as (x & b & -> & Hx & _).
  unfold matchTail. cbn [append].
  rewrite (span_space x _ Hx).
  cbn [fst String.length Re.tryDown Nat.add drop].
  unfold speakerGroup. rewrite (span_all _ _ Hcolon).
  unfold dotPlusEnd. cbn [isEmpty option_map]. now rewrite Hbl.
Qed.

(** The time of the fields. *)
Lemma field_value (p : string) :
  forallb isDigit p = true -> p <> "" ->
  Num.parseInt p = Fin (inject_Z (digitsValue p)).
Proof. apply parseInt_digits. Qed.

Lemma stamp_time (p1 p2 : string) (p3 : option string) :
  stampFields p1 p2 p3 ->
  Num.hasValue
    (let p1' := Num.parseInt p1 in
     let p2' := Num.parseInt p2 in
     let '(hours, minutes, seconds) :=
       match p3 with
       | Some s3 => (p1', p2', Num.parseInt s3)
       | None => (Num.ofZ 0, p1', p2')
       end in
     Num.add (Num.add (Num.mul hours (Num.ofZ 3600))
                      (Num.mul minutes (Num.ofZ 60))) seconds)
    (inject_Z (stampSeconds p1 p2 p3)).
Proof.
  intros (Hl1 & Hd1 & Hl2 & Hd2 & H3). cbv zeta.
  assert (Hne1 : p1 <> "") by (destruct p1; [simpl in Hl1; lia | discriminate]).
  assert (Hne2 : p2 <> "") by (destruct p2; [simpl in Hl2; lia | discriminate]).
  rewrite (field_value p1 Hd1 Hne1), (field_value p2 Hd2 Hne2).
  unfold stampSeconds. destruct p3 as [d|].
  - destruct H3 as [Hl3 Hd3].
    assert (Hne3 : d <> "") by (destruct d; [simpl in Hl3; lia | discriminate]).
    rewrite (field_value d Hd3 Hne3).
    unfold Num.hasValue, Num.add, Num.mul, Num.ofZ.
    rewrite !inject_Z_plus, !inject_Z_mult. ring.
  - unfold Num.hasValue, Num.add, Num.mul, Num.ofZ.
    rewrite !inject_Z_plus, !inject_Z_mult. ring.
Qed.

(** A label that is not wrapped in markdown is kept as it is. *)
Lemma endsWith_markdown (name : string) (c : ascii) :
  match lastChar name with
  | Some x => markdownChar x = false
  | None => True
  end ->
  c = "*"%char \/ c = "_"%char -> endsWith c name = false.
Proof.
  unfold endsWith. destruct (lastChar name) as [x|]; [|reflexivity].
  unfold markdownChar. intros H Hc. apply orb_false_elim in H as [H1 H2].
  destruct Hc as [-> | ->]; assumption.
Qed.

Lemma stripMarkdown_plain (name : string) :
  plainLabel name -> stripMarkdown name = name.
Proof.
  intros (Hne & _ & _ & Hfirst & Hlast). unfold stripMarkdown.
  destruct name as [|c a]; [congruence|].
  assert (E : match String c a with
              | String "*" (String "*" r) => r
              | String "*" r => r
              | String "_" (String "_" r) => r
              | String "_" r => r
              | _ => String c a
              end = String c a).
  { unfold markdownChar in Hfirst.
    destruct c as [[] [] [] [] [] [] [] []]; try reflexivity;
      discriminate. }
  rewrite E.
  rewrite (endsWith_markdown _ "*" Hlast) by now left.
  now rewrite (endsWith_markdown _ "_" Hlast) by now right.
Qed.

End StampFacts.

(** ** The chunk planner in binary64: count and limit *)

Module Limit64Facts.

Import Audio Plan Plan64.
Import Binary64 Binary64Facts.

Local Open Scope Q_scope.

Lemma Qceiling_one (r : Q) : 0 < r -> r <= 1 -> Qceiling r = 1%Z.
Proof.
  intros H0 H1. pose proof (Qle_ceiling r) as Hc.
  pose proof (Qceiling_lt r) as Hl.
  assert (A : inject_Z 0 < inject_Z (Qceiling r))
    by (change (inject_Z 0) with 0; lra).
  assert (B : inject_Z (Qceiling r - 1) < inject_Z 1)
    by (change (inject_Z 1) with 1; lra).
  rewrite <- Zlt_Qlt in A, B. lia.
Qed.

(** The count of a recording no longer than the limit, when the quotient
    is not so small that it rounds to 0. *)
Lemma count_short (total max : Q) :
  0 < max -> total <= max -> max * pow2 (-1022) <= total ->
  Audio64.calculateChunkCount (Fin total) (Fin max) = Num.ofZ 1.
Proof.
  intros Hmax Hle Hlow. unfold Audio64.calculateChunkCount.
  rewrite (Codec64Facts.div_fin_f64 _ _ Hmax).
  assert (H1 : total / max <= 1)
    by (apply Qle_shift_div_r; [exact Hmax | lra]).
  assert (H2 : pow2 (-1022) <= total / max).
  { apply Qle_shift_div_l; [exact Hmax|]. rewrite Qmult_comm. exact Hlow. }
  pose proof (pow2_pos (-1022)) as Hp.
  destruct (nearest_error_pos (total / max) H2) as (r & Er & He).
  { eapply Qle_lt_trans; [exact H1|]. change 1 with (pow2 0).
    apply pow2_lt. lia. }
  destruct (nearest_le_Z (total / max) 1) as (r' & Er' & _ & R1);
    [lia | lra | exact H1 |].
  rewrite Er in Er'. apply Fin_inj in Er'. subst r'.
  rewrite Er. cbn [Num.ceil]. f_equal. apply Qceiling_one; [|exact R1].
  change (pow2 (-53)) with (1 # 9007199254740992) in He.
  apply Qabs_Qle_condition in He. lra.
Qed.

Lemma splitAudio_rounds (audioFile : string) (total max : Q) (n : Z) :
  max < total -> (1 <= n <= Audio64.MAX_ARRAY_LENGTH)%Z ->
  Num.ceil (F64.div (Fin total) (Fin max)) = Num.ofZ n ->
  Audio64.splitAudio audioFile (Fin total) (Fin max)
  = Some (map (Audio64.chunkAt (Fin total) (Num.ofZ n)
                               (F64.div (Fin total) (Num.ofZ n)))
              (seq 0 (Z.to_nat n))).
Proof.
  intros Hlt Hn En. unfold Audio64.splitAudio.
  replace (Num.leb (Fin total) (Fin max)) with false
    by (symmetry; now apply MergeFacts.Qle_bool_false).
  rewrite En. unfold Audio64.loopRounds, Num.ofZ at 3.
  replace (Qle_bool (inject_Z n) (inject_Z Audio64.MAX_ARRAY_LENGTH))
    with true.
  - cbn [option_map]. now rewrite Qceiling_Z.
  - symmetry. apply MergeFacts.Qle_bool_true. rewrite <- Zle_Qle. lia.
Qed.

(** The count times the limit is the total or more, up to one rounding. *)
Lemma count_lower (total max : Q) (n : Z) :
  0 < max -> max < total -> total <= max * inject_Z (2 ^ 53) ->
  Num.ceil (F64.div (Fin total) (Fin max)) = Num.ofZ n ->
  total * (1 - (1 # 9007199254740992)) <= inject_Z n * max.
Proof.
  intros Hmax Hlt Hq En. rewrite (Codec64Facts.div_fin_f64 _ _ Hmax) in En.
  assert (H1 : 1 <= total / max)
    by (apply Qle_shift_div_l; [exact Hmax | lra]).
  assert (H2 : total / max <= inject_Z (2 ^ 53)).
  { apply Qle_shift_div_r; [exact Hmax|]. rewrite Qmult_comm. exact Hq. }
  destruct (nearest_error_pos (total / max)) as (r & Er & He).
  { apply Qle_trans with 1; [|exact H1]. change 1 with (pow2 0).
    apply pow2_le. lia. }
  { eapply Qle_lt_trans; [exact H2|]. rewrite <- pow2_Z by lia.
    apply pow2_lt. lia. }
  rewrite Er in En. cbn [Num.ceil] in En. unfold Num.ofZ in En.
  apply Fin_inj in En. apply (f_equal Qfloor) in En.
  rewrite !Qfloor_Z in En.
  pose proof (Qle_ceiling r) as Hc. rewrite En in Hc.
  change (pow2 (-53)) with (1 # 9007199254740992) in He.
  apply Qabs_Qle_condition in He.
  assert (Hx : total / max * (1 - (1 # 9007199254740992)) <= inject_Z n)
    by lra.
  apply Qle_trans
    with (total / max * (1 - (1 # 9007199254740992)) * max).
  - apply Qle_lteq. right. field. lra.
  - apply Qmult_le_compat_r; [exact Hx | lra].
Qed.

End Limit64Facts.

(** ** From responses to cues, in binary64 *)

Module Response64Facts.

Import Str StrFacts Vtt TranscribeCommand CueShape WordShape.
Import ParseFacts Binary64 Binary64Facts.

Local Open Scope Q_scope.

(** *** Groups of words *)

Lemma groupWords_length_f64 (offset : number)
    (words : list Word.TranscriptionWord) :
  forall current,
    (1 <= List.length (Transcribe64.groupWords offset (Some current) words)
     <= S (List.length words))%nat.
Proof.
  induction words as [|w rest IH]; intros current;
    cbn [Transcribe64.groupWords].
  - simpl. lia.
  - destruct (Num.ltb _ _).
    + specialize (IH (openSegment w)). simpl. lia.
    + specialize (IH (extendSegment current w)). simpl. lia.
Qed.

Lemma groupWords_speaker_f64 (offset : number)
    (words : list Word.TranscriptionWord) :
  forall currentSegment,
    Forall (fun c => speaker c = None)
           (Transcribe64.groupWords offset currentSegment words).
Proof.
  induction words as [|w rest IH]; intros [current|];
    cbn [Transcribe64.groupWords].
  - now repeat constructor.
  - constructor.
  - destruct (Num.ltb _ _); [constructor; [reflexivity|] |]; apply IH.
  - apply IH.
Qed.

Lemma groupWords_last_end_f64 (offset : number)
    (words : list Word.TranscriptionWord) :
  forall current d,
    last (map end_ (Transcribe64.groupWords offset (Some current) words)) d
    = F64.add (last (map Word.end_ words) (Current.end_ current)) offset.
Proof.
  induction words as [|w rest IH]; intros current d;
    cbn [Transcribe64.groupWords].
  - reflexivity.
  - cbn [map]. rewrite last_cons.
    destruct (Num.ltb _ _).
    + cbn [map]. rewrite last_cons. apply IH.
    + apply IH.
Qed.

(** The test that opens a new group: when the binary64 difference is above
    5, so is the difference. *)
Lemma test_exact (x y : Q) :
  Num.ltb (Num.ofZ 5) (F64.sub (Fin y) (Fin x)) = true -> 5 < y - x.
Proof.
  intros H. apply Qnot_le_lt. intros Hle.
  rewrite Codec64Facts.sub_fin in H.
  destruct (Q_dec (y + - x) 0) as [[Hneg | Hpos] | Hzero].
  - rewrite (nearest_negative _ Hneg) in H.
    destruct (Qle_bool _ _); [discriminate H|].
    cbn [Num.ltb Num.ofZ] in H.
    apply negb_true_iff, MergeFacts.Qle_bool_false in H.
    rewrite Qred_correct in H.
    pose proof (roundMagnitude_nonneg (- (y + - x)) ltac:(lra)) as Hr.
    change (inject_Z 5) with 5 in H. lra.
  - destruct (nearest_le_Z (y + - x) 5) as (r & Er & _ & R1);
      [lia | lra | change (inject_Z 5) with 5; lra |].
    rewrite Er in H. cbn [Num.ltb Num.ofZ] in H.
    apply negb_true_iff, MergeFacts.Qle_bool_false in H. lra.
  - rewrite (nearest_null _ Hzero) in H. discriminate H.
Qed.

(** The start of a cue: the start of its first word, moved and rounded. *)
Lemma moved_start (x o : Q) :
  0 <= x + o -> x + o < Clock64.horizon ->
  exists s : Q,
    F64.add (Fin x) (Fin o) = Fin s /\ Qabs (s - (x + o)) <= 1 # 4096.
Proof.
  intros H0 Hh. rewrite Codec64Facts.add_fin.
  destruct (nearest_bounds (x + o) 42) as (s & Es & _ & He);
    [exact H0 | exact Hh | lia |].
  exists s. split; [exact Es | exact He].
Qed.

Lemma groupWords_spaced_f64 (o : Q) (words : list Word.TranscriptionWord) :
  Forall (WordShape64.startsWithin o) words ->
  forall current (x : Q),
    Current.start current = Fin x ->
    0 <= x + o -> x + o < Clock64.horizon ->
    spaced (5 - (1 # 2048))
           (Transcribe64.groupWords (Fin o) (Some current) words)
    /\ exists c rest,
         Transcribe64.groupWords (Fin o) (Some current) words = c :: rest
         /\ start c = F64.add (Fin x) (Fin o).
Proof.
  induction 1 as [|w rest (y & Hy & Hy0 & Hyh) _ IH];
    intros current x Hx Hx0 Hxh; cbn [Transcribe64.groupWords].
  - split; [exact I|]. eexists _, _. split; [reflexivity|].
    cbn. now rewrite Hx.
  - rewrite Hy, Hx.
    destruct (Num.ltb (Num.ofZ 5) (F64.sub (Fin y) (Fin x))) eqn:E.
    + destruct (IH (openSegment w) y Hy Hy0 Hyh)
        as [Hs (c & more & Hc & Hstart)].
      split.
      * rewrite Hc in *. cbn [spaced]. split; [|exact Hs].
        destruct (moved_start x o Hx0 Hxh) as (s & Es & Hse).
        destruct (moved_start y o Hy0 Hyh) as (s' & Es' & Hse').
        exists s, s'. cbn [start Transcribe64.segmentOfWords].
        rewrite Hx, Es, Hstart, Es'.
        repeat split.
        apply test_exact in E.
        apply Qabs_Qle_condition in Hse. apply Qabs_Qle_condition in Hse'.
        lra.
      * eexists _, _. split; [reflexivity|]. cbn. now rewrite Hx.
    + apply (IH (extendSegment current w) x); assumption.
Qed.


(** *** Responses that hold a text only *)

Lemma transcriptCues_text (chunk : Audio.AudioChunk)
    (transcript : TranscriptionResponse) (t : string) (o d : Q) :
  textOnly t transcript ->
  Audio.offset chunk = Fin o -> Audio.duration chunk = Fin d -> 0 < d ->
  Transcribe64.transcriptCues chunk transcript
  = [mkCue (Fin o) (F64.add (Fin o) (Fin d)) None (trim t)].
Proof.
  intros [-> Hne] Ho Hd Hpos. unfold Transcribe64.transcriptCues.
  cbn [segments words TranscribeCommand.text].
  apply isEmpty_false in Hne. rewrite Hne, Ho, Hd.
  now rewrite (ResponseFacts.truthyNumber_pos d Hpos).
Qed.

Section TextCues.

Variables (total : Q) (n : Z) (d : Q).
Hypotheses (Hlow : pow2 (-970) <= total) (Hhigh : total <= pow2 1022)
           (Hn : (1 <= n <= 2 ^ 50)%Z)
           (Hd : F64.div (Fin total) (Num.ofZ n) = Fin d).

Variable respond : Audio.AudioChunk -> TranscriptionResponse.
Hypothesis Hrespond : forall chunk, exists t, textOnly t (respond chunk).

Local Abbreviation u := (1 # 9007199254740992).
Local Abbreviation chunk := (Audio64.chunkAt (Fin total) (Num.ofZ n) (Fin d)).
Local Abbreviation off := (Plan64.off d).
Local Abbreviation eps := (total * pow2 (-50)).

Local Abbreviation durationAt := (Plan64.durationAt total n d).

Lemma chunk_shape (i : nat) :
  (Z.of_nat i < n)%Z ->
  Audio.offset (chunk i) = Fin (off i)
  /\ Audio.duration (chunk i) = Fin (durationAt i)
  /\ 0 <= off i
  /\ total * (3 # 18014398509481984) <= durationAt i
  /\ total * (1 # 2251799813685248) <= off i + durationAt i
  /\ off i + durationAt i <= total * (1 + (1 # 2251799813685248))
  /\ off i <= total * (1 + (1 # 2251799813685248))
  /\ ((Z.of_nat i + 1 < n)%Z ->
      Qabs (off (S i) - (off i + durationAt i)) <= total * pow2 (-51))
  /\ ((Z.of_nat i + 1 = n)%Z ->
      Qabs (off i + durationAt i - total) <= total * pow2 (-51)).
Proof.
  intros Hi.
  pose proof (Plan64Facts.total_pos total Hlow) as Ht.
  destruct (Plan64Facts.offset_spec total n d Hlow Hhigh Hn Hd i Hi)
    as (Eo & O1 & O2).
  destruct (Plan64Facts.multiple_bounds total n d Hlow Hhigh Hn Hd i Hi)
    as [M1 M2].
  destruct (Plan64Facts.chunkDuration_bounds total n d Hlow Hhigh Hn Hd)
    as (B1 & B2 & B3).
  apply Qabs_Qle_condition in O2.
  split; [exact Eo|]. unfold Plan64.durationAt.
  destruct (Z.ltb_spec (Z.of_nat i) (n - 1)) as [Hinner | Hlast].
  - split; [apply (Plan64Facts.chunk_inner_f64 total n d Hn i Hinner)|].
    split; [exact O1|]. split; [lra|]. split; [lra|]. split; [lra|].
    split; [lra|]. split; [|intros E; lia].
    intros _. apply (Plan64Facts.gap_bound total n d Hlow Hhigh Hn Hd). lia.
  - assert (Ei : i = Z.to_nat (n - 1)) by lia.
    destruct (Plan64Facts.last_spec total n d Hlow Hhigh Hn Hd)
      as (El & L1 & L2 & L3 & L4).
    rewrite <- Ei in El, L2, L3, L4.
    pose proof L4 as L4'. apply Qabs_Qle_condition in L4'.
    split.
    { rewrite (Plan64Facts.chunk_last_f64 total n d Hn i Hlast).
      cbn [Audio.offset Audio64.chunkAt]. rewrite Eo. exact El. }
    split; [exact O1|]. split; [lra|]. split; [lra|]. split; [lra|].
    split; [lra|]. split; [intros E; lia|].
    intros _. rewrite Ei.
    apply (Plan64Facts.end_bound total n d Hlow Hhigh Hn Hd).
Qed.

(** The end of the cue of a chunk: its offset plus its duration,
    rounded. *)
Lemma cue_end (i : nat) :
  (Z.of_nat i < n)%Z ->
  exists e : Q,
    F64.add (Fin (off i)) (Fin (durationAt i)) = Fin e
    /\ off i < e
    /\ Qabs (e - (off i + durationAt i)) <= total * pow2 (-51).
Proof.
  intros Hi.
  pose proof (Plan64Facts.total_pos total Hlow) as Ht.
  destruct (chunk_shape i Hi) as (_ & _ & S1 & S2 & S2' & S3 & S4 & _).
  rewrite Codec64Facts.add_fin.
  destruct (nearest_error_pos (off i + durationAt i)) as (e & Ee & He).
  - apply Qle_trans with (total * (1 # 2251799813685248)); [|exact S2'].
    apply Qle_trans with (pow2 (-970) * (1 # 2251799813685248)).
    + apply Qle_trans with (pow2 (-1021)); [apply pow2_le; lia|].
      apply Qle_lteq. right.
      change (1 # 2251799813685248) with (pow2 (-51)). rewrite <- pow2_add.
      reflexivity.
    + apply Qmult_le_compat_r; [exact Hlow | discriminate].
  - pose proof (pow2_pos 1022) as Hbig.
    pose proof (pow2_succ 1022) as Etop.
    change (1022 + 1)%Z with 1023%Z in Etop. lra.
  - exists e. split; [exact Ee|].
    change (pow2 (-53)) with u in He. apply Qabs_Qle_condition in He.
    change (pow2 (-51)) with (1 # 2251799813685248).
    split; [lra|]. apply Qabs_Qle_condition. split; lra.
Qed.

Lemma cues_span (m k : nat) (from : Q) :
  (Z.of_nat k + Z.of_nat m = n)%Z ->
  ((Z.of_nat k < n)%Z -> Qabs (off k - from) <= eps) ->
  ((Z.of_nat k = n)%Z -> Qabs (from - total) <= eps) ->
  CueShape64.spansWithin eps from
    (Transcribe64.mergedCues (map chunk (seq k m))
                             (map respond (map chunk (seq k m))))
    total.
Proof.
  revert k from. induction m as [|m IH]; intros k from Hk Hin Hend.
  - cbn. apply Hend. lia.
  - assert (Hlt : (Z.of_nat k < n)%Z) by lia.
    pose proof (Plan64Facts.total_pos total Hlow) as Ht.
    destruct (chunk_shape k Hlt)
      as (Eo & Ed & S1 & S2 & _ & S3 & S4 & G & L).
    destruct (cue_end k Hlt) as (e & Ee & He1 & He2).
    destruct (Hrespond (chunk k)) as (t & Ht').
    unfold Transcribe64.mergedCues in *.
    cbn [seq map combine flat_map fst snd].
    rewrite (transcriptCues_text (chunk k) _ t (off k) (durationAt k)
               Ht' Eo Ed ltac:(lra)).
    cbn [app CueShape64.spansWithin start end_].
    exists (off k), e. split; [reflexivity|]. split; [exact Ee|].
    split; [exact He1|]. split; [apply Hin, Hlt|].
    apply Qabs_Qle_condition in He2.
    change (pow2 (-51)) with (1 # 2251799813685248) in *.
    apply IH; [lia | |].
    + intros Hnext. specialize (G ltac:(lia)).
      apply Qabs_Qle_condition in G.
      change (pow2 (-50)) with (1 # 1125899906842624).
      apply Qabs_Qle_condition. split; lra.
    + intros Hlast. specialize (L ltac:(lia)).
      apply Qabs_Qle_condition in L.
      change (pow2 (-50)) with (1 # 1125899906842624).
      apply Qabs_Qle_condition. split; lra.
Qed.

Lemma cues_speaker (m k : nat) :
  (Z.of_nat k + Z.of_nat m <= n)%Z ->
  Forall (fun c => speaker c = None)
         (Transcribe64.mergedCues (map chunk (seq k m))
                                  (map respond (map chunk (seq k m))))
  /\ List.length (Transcribe64.mergedCues (map chunk (seq k m))
                     (map respond (map chunk (seq k m)))) = m.
Proof.
  revert k. induction m as [|m IH]; intros k Hk.
  - split; [constructor | reflexivity].
  - assert (Hlt : (Z.of_nat k < n)%Z) by lia.
    pose proof (Plan64Facts.total_pos total Hlow) as Ht.
    destruct (chunk_shape k Hlt) as (Eo & Ed & S1 & S2 & _).
    destruct (Hrespond (chunk k)) as (t & Ht').
    destruct (IH (S k) ltac:(lia)) as [IH1 IH2].
    unfold Transcribe64.mergedCues in *.
    cbn [seq map combine flat_map fst snd].
    rewrite (transcriptCues_text (chunk k) _ t (off k) (durationAt k)
               Ht' Eo Ed ltac:(lra)).
    cbn [app]. split; [constructor; [reflexivity | exact IH1]|].
    cbn [List.length]. now rewrite IH2.
Qed.

End TextCues.

End Response64Facts.


(** * Further properties of the code *)

Import TranscribeCommand CueShape WordShape TranscriptShape.
Import ArgShape ArgFacts.

(** X1 — Whatever the document, every cue that [parseVTT] returns has a text
    of one line that is not empty: a block without text gives no cue, and
    the lines of a block are joined by spaces. *)
Theorem parsed_texts_are_one_line_and_not_empty (vttContent : string) :
  Forall (fun cue => CueShape.oneLine (Vtt.text cue)) (parseVTT vttContent).
Proof.
  unfold parseVTT. rewrite ParseFacts.parseBlocks_skipHeader.
  apply EngineFacts.parseBlocks_oneLine, EngineFacts.split_noLF.
Qed.

(** X2 — Whatever the document, [parseVTT] returns at most as many cues as
    the document has lines that hold an arrow [-->]. *)
Theorem no_more_cues_than_timing_lines (vttContent : string) :
  (List.length (parseVTT vttContent)
   <= List.length (filter isTimestampLine (Str.split Str.LF vttContent)))%nat.
Proof.
  unfold parseVTT. rewrite ParseFacts.parseBlocks_skipHeader.
  apply EngineFacts.parseBlocks_length.
Qed.

(** X3 — The fields of a timestamp.  [parseTimestamp] reads two fields as
    minutes and seconds and a single field as seconds, the missing fields
    being 0; of four fields or more it reads the first one only, as
    seconds. *)
Theorem missing_timestamp_fields_count_as_zero (a b c rest : string) :
  Str.forallb (Re.notChar ":") a = true ->
  Str.forallb (Re.notChar ":") b = true ->
  Str.forallb (Re.notChar ":") c = true ->
  parseTimestamp (a ++ ":" ++ b) = parseTimestamp ("0:" ++ a ++ ":" ++ b)
  /\ parseTimestamp a = parseTimestamp ("0:0:" ++ a)
  /\ parseTimestamp (a ++ ":" ++ b ++ ":" ++ c ++ ":" ++ rest)
     = parseTimestamp a.
Proof.
  intros Ha Hb Hc. unfold parseTimestamp.
  change ("0:" ++ a ++ ":" ++ b)%string with ("0" ++ ":" ++ a ++ ":" ++ b)%string.
  change ("0:0:" ++ a)%string with ("0" ++ ":" ++ "0" ++ ":" ++ a)%string.
  rewrite !EngineFacts.split_colon by (assumption || reflexivity).
  rewrite !EngineFacts.split_colon_plain by assumption.
  split; [reflexivity|]. split; [reflexivity|].
  destruct (EngineFacts.split_colon_cons rest) as (p & ps & ->).
  reflexivity.
Qed.

Lemma missing_timestamp_fields_count_as_zero_example :
  parseTimestamp "01:30.500" = parseTimestamp "0:01:30.500"
  /\ parseTimestamp "01" = parseTimestamp "0:0:01"
  /\ parseTimestamp "01:30.500:2:7" = parseTimestamp "01".
Proof.
  exact (missing_timestamp_fields_count_as_zero "01" "30.500" "2" "7"
           eq_refl eq_refl eq_refl).
Defined.

(** X4 — The shape of a printed timestamp.  For every time from 0 up to,
    and not including, 100 hours whose millisecond field, computed in
    binary64 as the code computes it, is below 1000, [formatTimestamp]
    prints [HH:MM:SS.mmm]: three fields of two digits and one of three,
    twelve characters in all.  (The field is 1000 when the fraction of the
    time rounds up to a whole second, as for 0.9995: the text then has
    thirteen characters.) *)
Theorem printed_timestamps_have_twelve_characters (s : Q) :
  (0 <= s)%Q -> (s < 360000)%Q ->
  Num.ltb (Clock64.millis (Fin s)) (Num.ofZ 1000) = true ->
  exists hh mm ss mmm : string,
    Vtt64.formatTimestamp (Fin s)
    = (hh ++ ":" ++ mm ++ ":" ++ ss ++ "." ++ mmm)%string
    /\ String.length hh = 2%nat /\ String.length mm = 2%nat
    /\ String.length ss = 2%nat /\ String.length mmm = 3%nat
    /\ Str.forallb Str.isDigit (hh ++ mm ++ ss ++ mmm) = true
    /\ String.length (Vtt64.formatTimestamp (Fin s)) = 12%nat.
Proof.
  intros H0 Hmax Hms.
  assert (Hsafe : RoundTrip64.safeTime (Fin s)).
  { split; [|exact Hms]. exists s. split; [reflexivity|].
    split; [exact H0|]. unfold Clock64.horizon.
    change (inject_Z (2 ^ 42)) with 4398046511104%Q. lra. }
  destruct (RoundTrip64Facts.safeTime_millis _ Hsafe)
    as (s' & m & E & _ & Hh & Em & Hm).
  injection E as <-.
  destruct (Codec64Facts.millis_below s m H0 Em Hm) as [Hm0 _].
  rewrite (Codec64Facts.formatTimestamp_fields_f64 s m H0 Hh Em Hm).
  pose proof (ClockFacts.Qfloor_nonneg s H0) as Hf0.
  assert (Hf : Qfloor s < 360000).
  { rewrite Zlt_Qlt. destruct (ClockFacts.Qfloor_bounds s) as [Hlo _].
    change (inject_Z 360000) with 360000%Q. lra. }
  assert (Hhh : 0 <= Qfloor s / 3600 < 100)
    by (split; [apply Z.div_pos; lia | apply Z.div_lt_upper_bound; lia]).
  assert (Hmm : 0 <= Qfloor s mod 3600 / 60 < 100).
  { pose proof (Z.mod_pos_bound (Qfloor s) 3600 ltac:(lia)).
    split; [apply Z.div_pos; lia | apply Z.div_lt_upper_bound; lia]. }
  assert (Hss : 0 <= Qfloor s mod 60 < 100)
    by (pose proof (Z.mod_pos_bound (Qfloor s) 60 ltac:(lia)); lia).
  unfold Clock.clockText.
  eexists _, _, _, _. split; [reflexivity|].
  rewrite !DigitFacts.padStart_length
    by (try apply EngineFacts.ofZ_length_2; try apply DigitFacts.ofZ_length_3;
        lia).
  repeat split.
  - rewrite !StrFacts.forallb_append.
    rewrite !DigitFacts.padStart_digits
      by (apply DigitFacts.ofZ_digits; lia).
    reflexivity.
  - apply (EngineFacts.clockText_length _ _ _ _ Hhh Hmm Hss). lia.
Qed.

Lemma printed_timestamps_have_twelve_characters_example :
  Vtt64.formatTimestamp (Fin 3661.5) = "01:01:01.500"
  /\ Vtt64.formatTimestamp (Binary64.nearest 0.9994999999999999)
     = "00:00:00.1000"
  /\ exists hh mm ss mmm : string,
       Vtt64.formatTimestamp (Fin 3661.5)
       = (hh ++ ":" ++ mm ++ ":" ++ ss ++ "." ++ mmm)%string
       /\ String.length hh = 2%nat /\ String.length mm = 2%nat
       /\ String.length ss = 2%nat /\ String.length mmm = 3%nat
       /\ Str.forallb Str.isDigit (hh ++ mm ++ ss ++ mmm) = true
       /\ String.length (Vtt64.formatTimestamp (Fin 3661.5)) = 12%nat.
Proof.
  split; [vm_compute; reflexivity|]. split; [vm_compute; reflexivity|].
  apply (printed_timestamps_have_twelve_characters 3661.5);
    [discriminate | reflexivity | vm_compute; reflexivity].
Defined.

(** X5 — Serializing is compositional.  The document of a sequence of cues
    followed by another is the document of the first followed by the
    document of the second without its header; every document starts with
    the header, and the cues are printed in the order given. *)
Theorem documents_concatenate (first second : list VTTCue) :
  serializeVTT (first ++ second)
  = (serializeVTT first ++ Str.drop 8 (serializeVTT second))%string
  /\ prefix ("WEBVTT" ++ Str.LF ++ Str.LF) (serializeVTT first) = true.
Proof.
  unfold serializeVTT. rewrite !RoundTripFacts.fold_left_append.
  rewrite map_app. split.
  - change (Str.drop 8 (("WEBVTT" ++ Str.LF ++ Str.LF)
                        ++ String.concat "" (map serializeCue second)))%string
      with (String.concat "" (map serializeCue second)).
    rewrite EngineFacts.concat_app. now rewrite StrFacts.append_assoc.
  - apply SplitFacts.prefix_append.
Qed.







(** X9 — The cues made of the words of a response.  When the response has
    no segment and its words start at finite times that, moved by the
    finite offset of the chunk, lie from 0 to below [2 ^ 42] seconds, the
    cues of the chunk are at least one and at most as many as the words,
    none has a speaker, the first cue starts with the first word and the
    last cue ends with the last word, both moved by the offset in
    binary64, and successive cues start more than [5 - 2 ^ -11] seconds
    apart.  A cue is opened by a word whose start is more than 5 seconds
    after the start of the cue before, as binary64 subtracts them; adding
    the offset rounds both starts, and the cues can start exactly 5 seconds
    apart. *)
Theorem word_cues_start_about_five_seconds_apart
    (chunk : AudioChunk) (transcript : TranscriptionResponse)
    (w : Word.TranscriptionWord) (ws : list Word.TranscriptionWord)
    (o : Q) :
  noSegments transcript ->
  words transcript = Some (w :: ws) ->
  Forall (WordShape64.startsWithin o) (w :: ws) ->
  Audio.offset chunk = Fin o ->
  let cues := Transcribe64.transcriptCues chunk transcript in
  (1 <= List.length cues <= List.length (w :: ws))%nat
  /\ Forall (fun c => speaker c = None) cues
  /\ spaced (5 - (1 # 2048)) cues
  /\ (exists c rest,
        cues = c :: rest /\ start c = F64.add (Word.start w) (Fin o))
  /\ last (map end_ cues) NaN
     = F64.add (last (map Word.end_ (w :: ws)) NaN) (Fin o).
Proof.
  intros Hseg Hw Hfin Ho cues.
  assert (E : cues
              = Transcribe64.groupWords (Fin o) (Some (openSegment w)) ws).
  { unfold cues, Transcribe64.transcriptCues. rewrite Hw, Ho.
    now destruct Hseg as [-> | ->]. }
  rewrite E. inversion Hfin as [|? ? (x & Hx & Hx0 & Hxh) Hrest]; subst.
  split; [apply Response64Facts.groupWords_length_f64|].
  split; [apply Response64Facts.groupWords_speaker_f64|].
  destruct (Response64Facts.groupWords_spaced_f64 o ws Hrest (openSegment w) x
              Hx Hx0 Hxh) as [Hs (c & rest & Hc & Hstart)].
  split; [exact Hs|]. split.
  - exists c, rest. split; [exact Hc|]. now rewrite Hstart, Hx.
  - rewrite Response64Facts.groupWords_last_end_f64. cbn [map].
    now rewrite ParseFacts.last_cons.
Qed.

Lemma word_cues_start_about_five_seconds_apart_example :
  let chunk := mkAudioChunk "chunk_02.ogg" (Fin 1380) (Fin 1380) in
  let transcript :=
    mkResponse None
      (Some [Word.mkWord "one" (Binary64.nearest 3.002) (Fin 4);
             Word.mkWord "two" (Binary64.nearest 8.002) (Fin 9)])
      (Some "one two") in
  let cues := Transcribe64.transcriptCues chunk transcript in
  cues = [mkCue (Binary64.nearest 1383.002) (Fin 1384) None "one";
          mkCue (Binary64.nearest 1388.002) (Fin 1389) None "two"]
  /\ Num.hasValue
       (Num.sub (Binary64.nearest 1388.002) (Binary64.nearest 1383.002)) 5
  /\ (1 <= List.length cues <= 2)%nat
  /\ Forall (fun c => speaker c = None) cues
  /\ spaced (5 - (1 # 2048)) cues
  /\ (exists c rest,
        cues = c :: rest
        /\ start c = F64.add (Binary64.nearest 3.002) (Fin 1380))
  /\ last (map end_ cues) NaN = F64.add (Fin 9) (Fin 1380).
Proof.
  cbv zeta. split; [vm_compute; reflexivity|].
  split; [vm_compute; reflexivity|].
  refine (word_cues_start_about_five_seconds_apart
            (mkAudioChunk "chunk_02.ogg" (Fin 1380) (Fin 1380))
            (mkResponse None
               (Some [Word.mkWord "one" (Binary64.nearest 3.002) (Fin 4);
                      Word.mkWord "two" (Binary64.nearest 8.002) (Fin 9)])
               (Some "one two"))
            _ _ 1380%Q (or_introl eq_refl) eq_refl _ eq_refl).
  repeat constructor;
    eexists; (split; [vm_compute; reflexivity|]); split; vm_compute;
    congruence.
Defined.

(** X10 — No word is lost.  When the response has no segment and each of its
    words is not empty and has no white space at either end, the texts of
    the cues, joined by single spaces, are the words of the response joined
    by single spaces: each word is in exactly one cue, in the order of the
    response. *)
Theorem word_cues_keep_every_word
    (chunk : AudioChunk) (transcript : TranscriptionResponse)
    (w : Word.TranscriptionWord) (ws : list Word.TranscriptionWord) :
  noSegments transcript ->
  words transcript = Some (w :: ws) ->
  Forall plainWord (w :: ws) ->
  Str.join " " (map Vtt.text (transcriptCues chunk transcript))
  = Str.join " " (map Word.word (w :: ws)).
Proof.
  intros Hseg Hw Hplain.
  assert (E : transcriptCues chunk transcript
              = groupWords (Audio.offset chunk) (Some (openSegment w)) ws).
  { unfold transcriptCues. rewrite Hw.
    now destruct Hseg as [-> | ->]. }
  rewrite E. inversion Hplain as [|? ? Hfirst Hrest]; subst.
  destruct (ResponseFacts.plainWord_shape w Hfirst) as (c & a & Hc & Hs & He).
  cbn [map]. rewrite Hc.
  now apply (ResponseFacts.groupWords_text _ ws Hrest (openSegment w) c a).
Qed.

Lemma word_cues_keep_every_word_example :
  Str.join " " ["one two"; "three"] = Str.join " " ["one"; "two"; "three"].
Proof.
  refine (word_cues_keep_every_word
            (mkAudioChunk "chunk_02.ogg" (Num.ofZ 100) (Num.ofZ 100))
            (mkResponse (Some [])
               (Some [Word.mkWord "one" (Num.ofZ 0) (Num.ofZ 1);
                      Word.mkWord "two" (Num.ofZ 4) (Num.ofZ 5);
                      Word.mkWord "three" (Num.ofZ 6) (Num.ofZ 7)])
               None)
            _ _ (or_intror eq_refl) eq_refl _).
  repeat constructor; discriminate.
Defined.

(** X11 — A recording transcribed from texts alone, in binary64.  When
    the duration of the recording is at least [2 ^ -970] seconds and at
    most [2 ^ 32 - 1] times the limit of 1380 seconds (the plan has then
    no more chunks than an array can hold), and the service answers
    the first request for each chunk with a text that is not blank and
    nothing else, the command returns the serialization of cues without
    speaker, one for each chunk of the plan, that cover the recording
    from 0 to its duration up to rounding: each cue ends after it starts;
    the first starts at 0, each later one within [total * 2 ^ -50] of the
    end of the one before it, and the last ends within [total * 2 ^ -50]
    of the duration.  The fallback of 30 seconds is never used. *)
Theorem text_responses_cover_the_recording
    (prettyJSON : string -> option string)
    (fetch : AudioChunk -> Z -> Attempt)
    (respond : AudioChunk -> TranscriptionResponse)
    (audioFile : string) (total : Q) :
  (Binary64.pow2 (-970) <= total)%Q ->
  (total <= inject_Z (MAX_AUDIO_DURATION * Audio64.MAX_ARRAY_LENGTH))%Q ->
  (forall chunk, fetch chunk 1 = Answered (respond chunk)) ->
  (forall chunk, exists t, textOnly t (respond chunk)) ->
  exists cues : list VTTCue,
    Transcribe64.transcribeWithOpenAI prettyJSON fetch audioFile (Fin total)
    = Some (Returns (Vtt64.serializeVTT cues))
    /\ CueShape64.spansWithin (total * Binary64.pow2 (-50)) 0 cues total
    /\ Forall (fun c => speaker c = None) cues
    /\ Audio64.calculateChunkCount (Fin total) (Num.ofZ MAX_AUDIO_DURATION)
       = Num.ofZ (Z.of_nat (List.length cues)).
Proof.
  intros Hlow Hhigh Hfetch Htext.
  pose proof (Plan64Facts.total_pos total Hlow) as Ht.
  assert (Hmax : (0 < inject_Z MAX_AUDIO_DURATION)%Q) by reflexivity.
  assert (Htop : (total <= Binary64.pow2 1022)%Q).
  { apply Qle_trans with (inject_Z (2 ^ 61)).
    - eapply Qle_trans; [exact Hhigh|]. rewrite <- Zle_Qle.
      vm_compute. discriminate.
    - rewrite <- Binary64Facts.pow2_Z by lia.
      apply Binary64Facts.pow2_le. lia. }
  assert (Hq : (total <= inject_Z MAX_AUDIO_DURATION
                         * inject_Z Audio64.MAX_ARRAY_LENGTH)%Q).
  { eapply Qle_trans; [exact Hhigh|]. rewrite <- inject_Z_mult.
    apply Qle_refl. }
  unfold Transcribe64.transcribeWithOpenAI.
  change (Num.ofZ MAX_AUDIO_DURATION) with (Fin (inject_Z MAX_AUDIO_DURATION)).
  destruct (Qlt_le_dec (inject_Z MAX_AUDIO_DURATION) total) as [Hlong | Hshort].
  - destruct (Plan64Facts.count_spec total (inject_Z MAX_AUDIO_DURATION)
                Hmax Hlong Hq) as (n & Hfit & En).
    assert (Hn : (1 <= n <= 2 ^ 50)%Z)
      by (unfold Audio64.MAX_ARRAY_LENGTH in Hfit; lia).
    destruct (Plan64Facts.duration_spec total n Ht Htop ltac:(lia))
      as (d & Ed).
    rewrite (Plan64Facts.splitAudio_long_f64 audioFile total _ n d
               Hlong Hfit En Ed).
    cbn [option_map].
    rewrite (ResponseFacts.transcribeChunks_answered
               prettyJSON fetch respond _ Hfetch).
    eexists. split; [reflexivity|].
    destruct (Response64Facts.cues_speaker total n d Hlow Htop Hn Ed
                respond Htext (Z.to_nat n) 0 ltac:(lia)) as [Hnone Hlen].
    split; [|split; [exact Hnone|]].
    + apply (Response64Facts.cues_span total n d Hlow Htop Hn Ed
               respond Htext (Z.to_nat n) 0 0%Q); [lia | | intros E; lia].
      intros _.
      destruct (Plan64Facts.offset_spec total n d Hlow Htop Hn Ed 0
                  ltac:(lia)) as (_ & O1 & O2).
      pose proof (Binary64Facts.pow2_pos (-50)) as Hp.
      assert (E0 : (Plan64.off d 0 == 0)%Q).
      { assert (Ez : (inject_Z (Z.of_nat 0) * d == 0)%Q)
          by (change (inject_Z (Z.of_nat 0)) with 0%Q; ring).
        rewrite Ez in O2. apply Qabs_Qle_condition in O2. lra. }
      rewrite E0. setoid_replace (0 - 0)%Q with 0%Q by ring.
      cbn [Qabs Qnum Z.abs]. apply Qmult_le_0_compat; lra.
    + rewrite Hlen. unfold Audio64.calculateChunkCount. rewrite En.
      f_equal. now rewrite Z2Nat.id by lia.
  - rewrite (Plan64Facts.splitAudio_short audioFile total _ Hshort).
    cbn [option_map].
    rewrite (ResponseFacts.transcribeChunks_answered
               prettyJSON fetch respond _ Hfetch).
    destruct (Htext (mkAudioChunk audioFile (Num.ofZ 0) (Fin total)))
      as (t & Ht').
    unfold Transcribe64.mergedCues.
    cbn [map combine flat_map fst snd].
    rewrite (Response64Facts.transcriptCues_text
               (mkAudioChunk audioFile (Num.ofZ 0) (Fin total)) _ t 0%Q total
               Ht' eq_refl eq_refl Ht).
    cbn [app]. eexists. split; [reflexivity|].
    split; [|split; [repeat constructor|]].
    + cbn [CueShape64.spansWithin start end_].
      rewrite Codec64Facts.add_fin.
      destruct (Binary64Facts.nearest_error_pos (0 + total)) as (e & Ee & He).
      * apply Qle_trans with (Binary64.pow2 (-970));
          [apply Binary64Facts.pow2_le; lia | lra].
      * apply Qle_lt_trans with (Binary64.pow2 1022);
          [lra | apply Binary64Facts.pow2_lt; lia].
      * exists 0%Q, e. split; [reflexivity|]. split; [exact Ee|].
        change (Binary64.pow2 (-53)) with (1 # 9007199254740992)%Q in He.
        change (Binary64.pow2 (-50)) with (1 # 1125899906842624)%Q.
        apply Qabs_Qle_condition in He.
        split; [lra|]. split.
        -- setoid_replace (0 - 0)%Q with 0%Q by ring.
           cbn [Qabs Qnum Z.abs]. lra.
        -- apply Qabs_Qle_condition. split; lra.
    + cbn [List.length]. apply Limit64Facts.count_short;
        [exact Hmax | exact Hshort |].
      apply Qle_trans with (Binary64.pow2 (-970)); [|exact Hlow].
      apply Qle_trans with (Binary64.pow2 11 * Binary64.pow2 (-1022))%Q.
      * apply Qmult_le_compat_r; [|apply Qlt_le_weak, Binary64Facts.pow2_pos].
        rewrite Binary64Facts.pow2_Z by lia. rewrite <- Zle_Qle.
        vm_compute. discriminate.
      * rewrite <- Binary64Facts.pow2_add. apply Binary64Facts.pow2_le. lia.
Qed.

Lemma text_responses_cover_the_recording_example :
  let total := (5255860056888443 # 137438953472)%Q in
  Binary64.nearest 38241.415 = Fin total
  /\ exists cues : list VTTCue,
       Transcribe64.transcribeWithOpenAI
         (fun _ => None)
         (fun _ _ => Answered (mkResponse None None (Some " Hello. ")))
         "talk.ogg" (Fin total)
       = Some (Returns (Vtt64.serializeVTT cues))
       /\ CueShape64.spansWithin (total * Binary64.pow2 (-50)) 0 cues total
       /\ Forall (fun c => speaker c = None) cues
       /\ Audio64.calculateChunkCount (Fin total)
                                      (Num.ofZ MAX_AUDIO_DURATION)
          = Num.ofZ (Z.of_nat (List.length cues)).
Proof.
  cbv zeta. split; [vm_compute; reflexivity|].
  refine (text_responses_cover_the_recording
            (fun _ => None)
            (fun _ _ => Answered (mkResponse None None (Some " Hello. ")))
            (fun _ => mkResponse None None (Some " Hello. "))
            "talk.ogg" _ _ _ (fun _ => eq_refl) _).
  - vm_compute. discriminate.
  - vm_compute. discriminate.
  - intros _. exists " Hello. ". split; [reflexivity | discriminate].
Defined.

(** X12 — A duration that is not a number.  When the probe of the duration
    gives [NaN], or the limit is [NaN], [splitAudio] returns no chunk at
    all; the transcribe command then makes no request and returns the
    document that holds the header only, without error. *)
Theorem a_duration_that_is_no_number_gives_an_empty_transcript :
  (forall audioFile max, splitAudio audioFile NaN max = Some [])
  /\ (forall audioFile total, splitAudio audioFile total NaN = Some [])
  /\ (forall prettyJSON fetch audioFile,
        transcribeWithOpenAI prettyJSON fetch audioFile NaN
        = Some (Returns ("WEBVTT" ++ Str.LF ++ Str.LF)%string)).
Proof.
  split; [|split].
  - reflexivity.
  - intros audioFile [|x|s]; reflexivity.
  - reflexivity.
Qed.

(** X13 — The count and the plan.  For every finite positive duration and
    limit whose quotient is at least [2 ^ -1022] and at most [2 ^ 32 - 1],
    [calculateChunkCount] is the number of chunks that [splitAudio]
    returns.  (Below, the binary64 quotient can round to 0 and the count
    is 0 where there is one chunk; above, [splitAudio] returns no plan,
    the chunks being more than an array can hold.) *)
Theorem the_count_is_the_number_of_chunks
    (audioFile : string) (total max : Q) :
  (0 < total)%Q -> (0 < max)%Q ->
  (max * Binary64.pow2 (-1022) <= total)%Q ->
  (total <= max * inject_Z Audio64.MAX_ARRAY_LENGTH)%Q ->
  exists chunks : list AudioChunk,
    Audio64.splitAudio audioFile (Fin total) (Fin max) = Some chunks
    /\ Audio64.calculateChunkCount (Fin total) (Fin max)
       = Num.ofZ (Z.of_nat (List.length chunks)).
Proof.
  intros Htotal Hmax Hlow Hhigh.
  destruct (Qlt_le_dec max total) as [Hlt | Hle].
  - destruct (Plan64Facts.count_spec total max Hmax Hlt Hhigh)
      as (n & Hn & En).
    eexists. split; [apply (Limit64Facts.splitAudio_rounds _ _ _ n Hlt Hn En)|].
    unfold Audio64.calculateChunkCount. rewrite En, length_map, length_seq.
    f_equal. lia.
  - eexists. split; [apply Plan64Facts.splitAudio_short, Hle|].
    now apply Limit64Facts.count_short.
Qed.

Lemma the_count_is_the_number_of_chunks_example :
  (exists chunks : list AudioChunk,
      Audio64.splitAudio "talk.ogg" (Fin 1000) (Fin 1380) = Some chunks
      /\ Audio64.calculateChunkCount (Fin 1000) (Fin 1380)
         = Num.ofZ (Z.of_nat (List.length chunks)))
  /\ Audio64.calculateChunkCount
       (Binary64.nearest (Qpower 10 (-200))) (Binary64.nearest (Qpower 10 200))
     = Num.ofZ 0
  /\ option_map (@List.length AudioChunk)
       (Audio64.splitAudio "talk.ogg"
          (Binary64.nearest (Qpower 10 (-200)))
          (Binary64.nearest (Qpower 10 200)))
     = Some 1%nat.
Proof.
  split; [|split; vm_compute; reflexivity].
  apply (the_count_is_the_number_of_chunks "talk.ogg" 1000 1380);
    vm_compute; congruence.
Defined.

(** X14 — The files of a plan have different names.  Whatever the numbers,
    when [splitAudio] returns, no two chunks share a file name, so that no
    chunk is written over another. *)
Theorem chunk_files_are_distinct
    (audioFile : string) (totalDuration maxChunkDuration : number) :
  match splitAudio audioFile totalDuration maxChunkDuration with
  | Some chunks => NoDup (map file chunks)
  | None => True
  end.
Proof.
  unfold splitAudio.
  destruct (Num.leb totalDuration maxChunkDuration).
  - repeat constructor. intros [].
  - destruct (loopRounds _) as [rounds|]; cbn [option_map]; [|exact I].
    apply PlannerFacts.chunk_files_NoDup.
Qed.

(** X15 — How far a chunk can pass the limit.  For every finite positive
    duration and limit (for a recording longer than the limit: a limit of
    at least [2 ^ -970], a duration of at most [2 ^ 1022] and a quotient of
    at most [2 ^ 32 - 1]), each chunk that [splitAudio] returns has a positive
    duration that is at most the limit plus [total * 2 ^ -50].  The limit
    itself can be passed: the binary64 quotient of the duration and the
    limit can round down to a whole number, and the chunks are then longer
    than the limit by one unit in the last place. *)
Theorem chunks_pass_the_limit_by_rounding_only
    (audioFile : string) (total max : Q) :
  (0 < total)%Q -> (0 < max)%Q ->
  ((max < total)%Q ->
   (Binary64.pow2 (-970) <= max)%Q /\ (total <= Binary64.pow2 1022)%Q
   /\ (total <= max * inject_Z Audio64.MAX_ARRAY_LENGTH)%Q) ->
  exists chunks : list AudioChunk,
    Audio64.splitAudio audioFile (Fin total) (Fin max) = Some chunks
    /\ Forall (fun chunk =>
                 exists d : Q,
                   duration chunk = Fin d
                   /\ (0 < d)%Q
                   /\ (d <= max + total * Binary64.pow2 (-50))%Q)
              chunks.
Proof.
  intros Htotal Hmax Hdom.
  destruct (Qlt_le_dec max total) as [Hlt | Hle].
  - destruct (Hdom Hlt) as (Hlow & Hhigh & Hq).
    assert (Hlow' : (Binary64.pow2 (-970) <= total)%Q) by lra.
    destruct (Plan64Facts.count_spec total max Hmax Hlt Hq)
      as (n & Hlen & En).
    assert (Hn : (1 <= n <= 2 ^ 50)%Z)
      by (unfold Audio64.MAX_ARRAY_LENGTH in Hlen; lia).
    destruct (Plan64Facts.duration_spec total n Htotal Hhigh ltac:(lia))
      as (d & Ed).
    eexists.
    split; [apply (Plan64Facts.splitAudio_long_f64 _ _ _ n d Hlt Hlen En Ed)|].
    assert (Hq53 : (total <= max * inject_Z (2 ^ 53))%Q).
    { eapply Qle_trans; [exact Hq|]. apply Qmult_le_l; [exact Hmax|].
      rewrite <- Zle_Qle. unfold Audio64.MAX_ARRAY_LENGTH. lia. }
    pose proof (Limit64Facts.count_lower total max n Hmax Hlt Hq53 En) as Hc.
    pose proof (Plan64Facts.inject_n_pos_f64 n Hn) as Hnp.
    pose proof (Plan64Facts.chunkDuration_close total n d Hlow' Hhigh Hn Ed)
      as Hclose.
    destruct (Plan64Facts.quotient_bounds total n Hlow' Hn) as [_ Q2].
    destruct (Plan64Facts.chunkDuration_bounds total n d Hlow' Hhigh Hn Ed)
      as (B1 & B2 & B3).
    pose proof (Plan64Facts.chunkDuration_pos_f64 total n d Hlow' Hhigh Hn Ed)
      as Hdpos.
    assert (Htn : (total / inject_Z n * (1 - (1 # 9007199254740992)) <= max)%Q).
    { apply Qle_trans
        with (total * (1 - (1 # 9007199254740992)) / inject_Z n)%Q.
      - apply Qle_lteq. right. field. lra.
      - apply Qle_shift_div_r; [exact Hnp|]. lra. }
    apply Qabs_Qle_condition in Hclose.
    set (tn := (total / inject_Z n)%Q) in *.
    assert (Hd : (d <= max + total * Binary64.pow2 (-50))%Q).
    { change (Binary64.pow2 (-50)) with (1 # 1125899906842624)%Q. lra. }
    apply Forall_forall. intros c Hin.
    apply In_nth_error in Hin as [i Hi].
    apply Plan64Facts.chunks_nth_f64 in Hi as [Hi ->]; [|lia].
    destruct (Z_lt_le_dec (Z.of_nat i) (n - 1)) as [Hinner | Hlast].
    + exists d. split; [apply (Plan64Facts.chunk_inner_f64 total n d Hn i Hinner)|].
      split; assumption.
    + assert (Ei : i = Z.to_nat (n - 1)) by lia.
      destruct (Plan64Facts.last_spec total n d Hlow' Hhigh Hn Ed)
        as (El & L1 & L2 & L3 & L4).
      destruct (Plan64Facts.offset_spec total n d Hlow' Hhigh Hn Ed i Hi)
        as (Eo & O1 & O2).
      exists (Plan64.lastDuration total n d).
      split.
      { rewrite (Plan64Facts.chunk_last_f64 total n d Hn i Hlast).
        cbn [offset Audio64.chunkAt]. rewrite Eo, Ei. exact El. }
      split; [exact L1|].
      rewrite <- Ei in L4, L2, L3.
      assert (Ea : (inject_Z (Z.of_nat i) * d + d == inject_Z n * d)%Q).
      { replace (Z.of_nat i) with (n + -1) by lia.
        rewrite inject_Z_plus. change (inject_Z (-1)) with (-1)%Q. ring. }
      apply Qabs_Qle_condition in L4. apply Qabs_Qle_condition in O2.
      change (Binary64.pow2 (-50)) with (1 # 1125899906842624)%Q.
      lra.
  - eexists. split; [apply Plan64Facts.splitAudio_short, Hle|].
    constructor; [|constructor]. exists total. cbn [duration].
    split; [reflexivity|]. split; [exact Htotal|].
    change (Binary64.pow2 (-50)) with (1 # 1125899906842624)%Q. lra.
Qed.

Lemma chunks_pass_the_limit_by_rounding_only_example :
  (let total := 3992.653399454026%Q in
   let max := 798.5306798908051%Q in
   exists chunks : list AudioChunk,
     Audio64.splitAudio "talk.ogg" (Fin total) (Fin max) = Some chunks
     /\ Forall (fun chunk =>
                  exists d : Q,
                    duration chunk = Fin d
                    /\ (0 < d)%Q
                    /\ (d <= max + total * Binary64.pow2 (-50))%Q)
               chunks)
  /\ (let total := Binary64.nearest 3992.653399454026 in
      let max := Binary64.nearest 798.5306798908051 in
      match Audio64.splitAudio "talk.ogg" total max with
      | Some (chunk :: _) =>
          Num.ltb max (duration chunk) = true
          /\ duration chunk = Binary64.nearest 798.5306798908052
      | _ => False
      end).
Proof.
  split; [|vm_compute; split; reflexivity].
  apply (chunks_pass_the_limit_by_rounding_only "talk.ogg");
    [reflexivity | reflexivity |].
  intros _. repeat split; vm_compute; discriminate.
Defined.



(** X17 — The retry policy of [transcribeOpenAIChunk].  Whatever the service
    does, the call makes one, two or three requests and ends with the
    outcome of the last one it made: it stops at the first attempt that is
    not retriable (an answer, a refusal with a status other than 429 and
    below 500, or an error, unless the message holds [fetch failed]) and at
    the third attempt in any case; it sleeps 1000 ms after the first
    attempt and 2000 ms after the second.  The [throw] that follows the
    loop is never reached. *)
Theorem requests_follow_the_retry_policy
    (prettyJSON : string -> option string) (fetch : Z -> Attempt) :
  transcribeOpenAIChunk prettyJSON fetch
  = if negb (RetryShape.retriable prettyJSON (fetch 1)) then
      mkRun (RetryShape.settles prettyJSON (fetch 1)) [Fetch]
    else if negb (RetryShape.retriable prettyJSON (fetch 2)) then
      mkRun (RetryShape.settles prettyJSON (fetch 2))
            [Fetch; Sleep 1000; Fetch]
    else
      mkRun (RetryShape.settles prettyJSON (fetch 3))
            [Fetch; Sleep 1000; Fetch; Sleep 2000; Fetch].
Proof.
  unfold transcribeOpenAIChunk.
  change (Z.to_nat MAX_RETRIES) with 3%nat.
  rewrite !RetryFacts.attemptsFrom_round.
  change (1 <? MAX_RETRIES)%Z with true.
  change (1 + 1)%Z with 2%Z. change (2 <? MAX_RETRIES)%Z with true.
  change (2 + 1)%Z with 3%Z. change (3 <? MAX_RETRIES)%Z with false.
  rewrite !andb_true_r, andb_false_r.
  destruct (RetryShape.retriable prettyJSON (fetch 1)); [|reflexivity].
  destruct (RetryShape.retriable prettyJSON (fetch 2)); reflexivity.
Qed.

(** X18 — The number of cues of a free-text transcript.  [parseGeminiTranscript]
    returns one cue for each non-blank line that matches the timestamp
    pattern, and one more when the first non-blank line does not match
    it. *)
Theorem free_text_cues_are_counted_by_the_timestamps (text : string) :
  List.length (parseGeminiTranscript text)
  = (List.length (filter timestamped (readLines text))
     + match readLines text with
       | line :: _ => if timestamped line then 0 else 1
       | [] => 0
       end)%nat.
Proof. apply TranscriptFacts.parse_length. Qed.

(** X19 — What every cue of a free-text transcript satisfies, whatever the
    text: each cue ends where the next one starts (also when the timestamps
    of the text go back in time), each starts at a whole, non-negative
    number of seconds, and each speaker label is absent or is a non-empty
    string of at most 30 characters. *)
Theorem free_text_cues_follow_one_another (text : string) :
  CueShape.chained (parseGeminiTranscript text)
  /\ Forall CueShape.startsOnSecond (parseGeminiTranscript text)
  /\ Forall (fun cue => CueShape.shortLabel (speaker cue))
            (parseGeminiTranscript text).
Proof. apply TranscriptFacts.parse_keeps. Qed.

(** X20 — The last cue of a free-text transcript lasts a whole number of
    seconds that its number of words gives: 5 seconds, or the number of
    words divided by 2.5 and rounded up when that is more.  The words are
    counted as the code counts them, by the pieces of the text between
    runs of white space. *)
Theorem the_last_free_text_cue_lasts_five_seconds_or_more
    (text : string) (cues : list VTTCue) (c : VTTCue) :
  parseGeminiTranscript text = cues ++ [c] ->
  exists s : Q,
    start c = Fin s
    /\ end_ c
       = Fin (s + inject_Z
                    (Z.max 5
                       (Qceiling
                          (inject_Z
                             (Z.of_nat (Str.splitSpacesLength (Vtt.text c)))
                           / 2.5)))).
Proof.
  intros H. destruct (TranscriptFacts.parse_last text cues c H)
    as (c0 & -> & k & _ & Hk).
  destruct (start c0) as [|s|] eqn:Es; try contradiction.
  exists s. split; [exact Es|].
  now rewrite (TranscriptFacts.adjustLast_end c0 s Es).
Qed.

Lemma the_last_free_text_cue_lasts_five_seconds_or_more_example :
  let text :=
    ("[00:10] A: Hello" ++ Str.LF
     ++ "[01:15] B: one two three four five six seven eight nine ten "
     ++ "eleven twelve thirteen")%string in
  parseGeminiTranscript text
  = [mkCue (Num.ofZ 10) (Num.ofZ 75) (Some "A") "Hello";
     mkCue (Num.ofZ 75) (Fin (inject_Z 75 + inject_Z 6)) (Some "B")
           ("one two three four five six seven eight nine ten "
            ++ "eleven twelve thirteen")]
  /\ exists s : Q,
       Fin (inject_Z 75) = Fin s
       /\ Fin (inject_Z 75 + inject_Z 6)
          = Fin (s + inject_Z (Z.max 5 (Qceiling (inject_Z 13 / 2.5)))).
Proof.
  cbv zeta. split; [vm_compute; reflexivity|].
  exact (the_last_free_text_cue_lasts_five_seconds_or_more
           ("[00:10] A: Hello" ++ Str.LF
            ++ "[01:15] B: one two three four five six seven eight nine ten "
            ++ "eleven twelve thirteen")
           [mkCue (Num.ofZ 10) (Num.ofZ 75) (Some "A") "Hello"]
           (mkCue (Num.ofZ 75) (Fin (inject_Z 75 + inject_Z 6)) (Some "B")
                  ("one two three four five six seven eight nine ten "
                   ++ "eleven twelve thirteen"))
           eq_refl).
Defined.

(** X21 — [transcribeWithGemini] never returns a document without cue.  It
    throws when the text of the response is absent or blank; otherwise it
    returns the serialization of at least one cue. *)
Theorem gemini_returns_a_cue_or_throws (responseText : option string) :
  match transcribeWithGemini responseText with
  | Throws message =>
      message = "Gemini returned empty transcription"
      /\ match responseText with
         | Some transcriptText => Str.trim transcriptText = ""
         | None => True
         end
  | Returns document =>
      exists transcriptText c cues,
        responseText = Some transcriptText
        /\ parseGeminiTranscript transcriptText = c :: cues
        /\ document = serializeVTT (c :: cues)
  end.
Proof.
  unfold transcribeWithGemini.
  destruct responseText as [[|x t]|]; [now split | | now split].
  destruct (Str.isEmpty (Str.trim (String x t))) eqn:E.
  - split; [reflexivity|]. now destruct (Str.trim (String x t)).
  - apply StrFacts.isEmpty_false in E.
    pose proof (TranscriptFacts.parse_length (String x t)) as Hlen.
    pose proof (TranscriptFacts.readLines_nonempty _ E) as Hne.
    destruct (parseGeminiTranscript (String x t)) as [|c cues] eqn:Ep.
    + exfalso. destruct (readLines (String x t)) as [|l ls]; [congruence|].
      cbn [filter] in Hlen. destruct (timestamped l); simpl in Hlen; lia.
    + exists (String x t), c, cues. now rewrite Ep.
Qed.

(** X22 — Lines of the format that the prompt asks for.  A line made of a
    timestamp between brackets (minutes and seconds, or hours, minutes and
    seconds), a speaker label that is not wrapped in markdown, a colon and
    a text ends the cue before it at the time of the timestamp and starts
    a cue at that time, 30 seconds long for now, with the label for
    speaker and the text for text; a label of more than 30 characters is
    taken for text instead, and the cue has no speaker.  The same line
    without label and without colon starts a cue without speaker. *)
Theorem prompted_lines_are_read_as_intended
    (cues : list VTTCue) (p1 p2 : string) (p3 : option string)
    (name body : string) :
  stampFields p1 p2 p3 -> plainLabel name -> RoundTrip.plainText body ->
  exists t : number,
    Num.hasValue t (inject_Z (stampSeconds p1 p2 p3))
    /\ step cues ("[" ++ stampText p1 p2 p3 ++ "] " ++ name ++ ": " ++ body)
       = updateLast (setEnd t) cues
         ++ [mkCue t (Num.add t (Num.ofZ 30))
                   (if (String.length name <=? 30)%nat
                    then Some name else None)
                   (if (String.length name <=? 30)%nat
                    then body else name ++ ": " ++ body)]
    /\ (Str.forallb (Re.notChar ":") body = true ->
        step cues ("[" ++ stampText p1 p2 p3 ++ "] " ++ body)
        = updateLast (setEnd t) cues
          ++ [mkCue t (Num.add t (Num.ofZ 30)) None body]).
Proof.
  intros Hstamp Hname Hbody.
  eexists. split; [apply (StampFacts.stamp_time p1 p2 p3 Hstamp)|].
  cbv zeta.
  destruct Hbody as (Hbne & Hbt & Hbl).
  pose proof Hname as (Hne & Ht & Hcolon & _ & _).
  split.
  - unfold step.
    change ("[" ++ stampText p1 p2 p3 ++ "] " ++ name ++ ": " ++ body)%string
      with ("[" ++ stampText p1 p2 p3 ++ "]" ++ (" " ++ name ++ ": " ++ body))%string.
    rewrite (StampFacts.matchTimestampLine_stamp p1 p2 p3 _ Hstamp).
    rewrite (StampFacts.matchTail_label name body Hname)
      by (repeat split; assumption).
    cbn [option_map fst snd]. unfold timestampedCue.
    cbn [part1 part2 part3 speakerLabel lineText option_map].
    rewrite Ht, Hbt.
    destruct (StampFacts.trimmed_shape name Hne Ht) as (c & a & E & Hc & He).
    rewrite E in *. cbn [orNull truthy option_map].
    rewrite (StampFacts.stripMarkdown_plain _ Hname), Ht.
    cbn [truthy andb orNull].
    destruct (String.length (String c a) <=? 30)%nat eqn:El.
    + apply Nat.leb_le in El.
      replace (30 <? String.length (String c a))%nat with false
        by (symmetry; apply Nat.ltb_ge; exact El).
      destruct p3; reflexivity.
    + apply Nat.leb_gt in El.
      replace (30 <? String.length (String c a))%nat with true
        by (symmetry; apply Nat.ltb_lt; exact El).
      assert (Etext : Str.trim (String c a ++ ": " ++ body)
                      = (String c a ++ ": " ++ body)%string).
      { apply StrFacts.trim_append_fix; [exact Hc | discriminate |].
        apply (StrFacts.trimEnd_append_fix ": " body Hbne).
        now destruct (StrFacts.trim_fix _ Hbt). }
      rewrite Etext. destruct p3; reflexivity.
  - intros Hplain. unfold step.
    change ("[" ++ stampText p1 p2 p3 ++ "] " ++ body)%string
      with ("[" ++ stampText p1 p2 p3 ++ "]" ++ (" " ++ body))%string.
    rewrite (StampFacts.matchTimestampLine_stamp p1 p2 p3 _ Hstamp).
    rewrite (StampFacts.matchTail_text body) by (repeat split; assumption).
    cbn [option_map fst snd]. unfold timestampedCue.
    cbn [part1 part2 part3 speakerLabel lineText option_map orNull truthy].
    rewrite Hbt. destruct p3; reflexivity.
Qed.

Lemma prompted_lines_are_read_as_intended_example :
  exists t : number,
    Num.hasValue t (inject_Z 3675)
    /\ step [mkCue (Num.ofZ 0) (Num.ofZ 30) None "Intro"]
            "[01:01:15] Speaker B: Fine, thanks."
       = [mkCue (Num.ofZ 0) t None "Intro";
          mkCue t (Num.add t (Num.ofZ 30)) (Some "Speaker B") "Fine, thanks."]
    /\ (Str.forallb (Re.notChar ":") "Fine, thanks." = true ->
        step [mkCue (Num.ofZ 0) (Num.ofZ 30) None "Intro"]
             "[01:01:15] Fine, thanks."
        = [mkCue (Num.ofZ 0) t None "Intro";
           mkCue t (Num.add t (Num.ofZ 30)) None "Fine, thanks."]).
Proof.
  apply (prompted_lines_are_read_as_intended
           [mkCue (Num.ofZ 0) (Num.ofZ 30) None "Intro"]
           "01" "01" (Some "15") "Speaker B" "Fine, thanks.").
  - repeat split; auto.
  - repeat split; discriminate.
  - repeat split; discriminate.
Defined.

(** X23 — The argument list that [processAll] builds for the transcribe
    command is read back by the [parseArgs] of that command as the same
    input, the transcript path as output, the language and the model of the
    process options (an empty one counts as absent), and no request for
    help, whatever these values look like, provided the input file is not
    named like a flag of the transcribe command. *)
Theorem process_builds_what_transcribe_reads
    (inputFile transcriptFile : string)
    (options : ProcessAll.ProcessOptions) :
  transcribeFlag inputFile = false ->
  TranscribeCommand.parseArgs
    (ProcessAll.transcribeArgs inputFile transcriptFile options)
  = TranscribeCommand.mkTranscribeOptions
      (Some inputFile) (Some transcriptFile)
      (Gemini.orNull (ProcessAll.language options))
      (Gemini.orNull (ProcessAll.model options))
      false.
Proof.
  intros H. flags H.
  unfold TranscribeCommand.parseArgs, ProcessAll.transcribeArgs.
  rewrite !ArgFacts.pushOption_orNull.
  cbn [app TranscribeCommand.parseArgsFrom].
  repeat match goal with E : String.eqb inputFile _ = false |- _ =>
    rewrite E; clear E end.
  cbn.
  destruct (Gemini.orNull (ProcessAll.language options));
    destruct (Gemini.orNull (ProcessAll.model options)); reflexivity.
Qed.

Lemma process_builds_what_transcribe_reads_example :
  TranscribeCommand.parseArgs
    ["talk.mp4"; "-o"; "out/talk-transcript.vtt"; "--language"; "--model"]
  = TranscribeCommand.mkTranscribeOptions
      (Some "talk.mp4") (Some "out/talk-transcript.vtt")
      (Some "--model") None false.
Proof.
  exact (process_builds_what_transcribe_reads
           "talk.mp4" "out/talk-transcript.vtt"
           (ProcessAll.mkProcessOptions (Some "talk.mp4") (Some "out")
              (Some "--model") (Some "") None false)
           eq_refl).
Defined.

(** X24 — The argument list that [processAll] builds for the summarize
    command is read back as the transcript for input and the summary path
    for output, provided the transcript path is not named like a flag of
    the summarize command. *)
Theorem process_builds_what_summarize_reads
    (transcriptFile summaryFile : string) :
  summarizeFlag transcriptFile = false ->
  SummarizeCommand.parseArgs
    (ProcessAll.summarizeArgs transcriptFile summaryFile)
  = SummarizeCommand.mkSummarizeOptions
      (Some transcriptFile) (Some summaryFile) None false.
Proof.
  intros H. flags H.
  unfold SummarizeCommand.parseArgs, ProcessAll.summarizeArgs.
  cbn [SummarizeCommand.parseArgsFrom].
  repeat match goal with E : String.eqb transcriptFile _ = false |- _ =>
    rewrite E; clear E end.
  reflexivity.
Qed.

Lemma process_builds_what_summarize_reads_example :
  SummarizeCommand.parseArgs ["talk-transcript.vtt"; "-o"; "--prompt"]
  = SummarizeCommand.mkSummarizeOptions
      (Some "talk-transcript.vtt") (Some "--prompt") None false.
Proof.
  exact (process_builds_what_summarize_reads
           "talk-transcript.vtt" "--prompt" eq_refl).
Defined.

(** X25 — The argument list that [processAll] builds for the infographic
    command is read back as the summary for input, the image path for
    output and the style of the process options (an empty one counts as
    absent), without reference image, provided the summary path is not
    named like a flag of the infographic command. *)
Theorem process_builds_what_infographic_reads
    (summaryFile infographicFile : string)
    (options : ProcessAll.ProcessOptions) :
  infographicFlag summaryFile = false ->
  InfographicCommand.parseArgs
    (ProcessAll.infographicArgs summaryFile infographicFile options)
  = InfographicCommand.mkInfographicOptions
      (Some summaryFile) (Some infographicFile)
      (Gemini.orNull (ProcessAll.style options)) None false.
Proof.
  intros H. flags H.
  unfold InfographicCommand.parseArgs, ProcessAll.infographicArgs.
  rewrite !ArgFacts.pushOption_orNull.
  cbn [app InfographicCommand.parseArgsFrom].
  repeat match goal with E : String.eqb summaryFile _ = false |- _ =>
    rewrite E; clear E end.
  cbn.
  destruct (Gemini.orNull (ProcessAll.style options)); reflexivity.
Qed.

Lemma process_builds_what_infographic_reads_example :
  InfographicCommand.parseArgs
    ["talk-summary.md"; "-o"; "talk-infographic.png"; "--style"; "-h"]
  = InfographicCommand.mkInfographicOptions
      (Some "talk-summary.md") (Some "talk-infographic.png")
      (Some "-h") None false.
Proof.
  exact (process_builds_what_infographic_reads
           "talk-summary.md" "talk-infographic.png"
           (ProcessAll.mkProcessOptions None None None None (Some "-h") false)
           eq_refl).
Defined.

(** X26 — The data URL that [generateInfographic] builds from the MIME type
    and the base64 data of the image is taken apart again by the
    infographic command, [imageData.split(',')[1]]: it gets the data back
    when neither the MIME type nor the data holds a comma. *)
Theorem data_url_gives_the_image_data_back (mimeType data : string) :
  Str.forallb (Re.notChar ",") mimeType = true ->
  Str.forallb (Re.notChar ",") data = true ->
  InfographicCommand.base64Data (InfographicCommand.dataURL mimeType data)
  = Some data.
Proof.
  intros Hm Hd. unfold InfographicCommand.base64Data.
  rewrite dataURL_split by exact Hm.
  now rewrite (SplitFacts.split_plain "," "" data Hd).
Qed.

Lemma data_url_gives_the_image_data_back_example :
  InfographicCommand.base64Data "data:image/png;base64,iVBORw0KGgo="
  = Some "iVBORw0KGgo=".
Proof.
  exact (data_url_gives_the_image_data_back "image/png" "iVBORw0KGgo="
           eq_refl eq_refl).
Defined.
